(** * Storage-engine core of the BusTub teaching database

    A shallow embedding of the extendible hash directory, the LRU-K
    replacer, the buffer pool manager, the B+ tree index and its leaf
    iterator, together with the properties of the specification that
    were checked against them.

    Conventions used throughout.
    - C++ integers are [Z]; [size_t] arithmetic that can leave its range
      is wrapped with [wrap64]; array and vector slots are lists read
      with [lookupZ].
    - A member function that mutates its object takes the object and
      returns the new one.  Functions that can throw, hit an assertion,
      dereference a null pointer or loop are in the [outcome] type.
    - Loops whose bound is not structural take a [fuel] argument;
      [Diverge] is the result when it runs out.  That the retry loop of
      the directory's [Insert] ends, and with it the calls of the pool,
      is proved from the invariants [EHT.wf] and [BPM.pool_wf]. *)

From Stdlib Require Import ZArith List Bool Lia String.
From stdpp Require Import base list.
Import ListNotations.
Local Open Scope Z_scope.

(** ** Outcomes of a call *)

Inductive outcome (A : Type) : Type :=
| Ret (a : A)            (* the call returned [a] *)
| Throw (what : string)  (* a C++ [throw] left the function *)
| Abort                  (* failed [assert], null dereference, read out of bounds *)
| Diverge.               (* the fuel of a loop ran out *)
Arguments Ret {A} a.
Arguments Throw {A} what.
Arguments Abort {A}.
Arguments Diverge {A}.

Definition obind {A B} (m : outcome A) (f : A -> outcome B) : outcome B :=
  match m with
  | Ret a => f a
  | Throw s => Throw s
  | Abort => Abort
  | Diverge => Diverge
  end.

Notation "'let*' x ':=' m 'in' k" := (obind m (fun x => k))
  (at level 10, x pattern, m at level 100, k at level 200).

(** A pointer that must not be null, an index that must be in range. *)
Definition deref {A} (o : option A) : outcome A :=
  match o with Some a => Ret a | None => Abort end.

Definition assert (b : bool) : outcome unit :=
  if b then Ret tt else Abort.

Lemma obind_Ret {A B} (m : outcome A) (f : A -> outcome B) (b : B) :
  obind m f = Ret b -> exists a, m = Ret a /\ f a = Ret b.
Proof. destruct m; simpl; try discriminate. eauto. Qed.

Lemma deref_Ret {A} (o : option A) (a : A) : deref o = Ret a -> o = Some a.
Proof. destruct o; simpl; congruence. Qed.

(** Taking apart a hypothesis [let* x := m in k = Ret b]. *)
Ltac bind_inv H :=
  let a := fresh "a" in
  let E := fresh "E" in
  apply obind_Ret in H as (a & E & H).

(** Closed facts about a run of the code: each conjunct by evaluation. *)
Ltac conj_compute :=
  repeat match goal with
         | |- _ /\ _ => split; [vm_compute; reflexivity|]
         end;
  vm_compute; reflexivity.

(** [size_t] is 64 bits wide. *)
Definition wrap64 (z : Z) : Z := z mod 2 ^ 64.

(** [v[i]] for a [std::vector] or an array: no slot outside the bounds. *)
Definition lookupZ {A} (l : list A) (i : Z) : option A :=
  if i <? 0 then None else l !! Z.to_nat i.

Definition storeZ {A} (l : list A) (i : Z) (x : A) : outcome (list A) :=
  if (0 <=? i) && (i <? Z.of_nat (length l)) then Ret (<[Z.to_nat i := x]> l)
  else Abort.

Lemma lookupZ_storeZ_eq {A} (l l' : list A) i x :
  storeZ l i x = Ret l' -> lookupZ l' i = Some x.
Proof.
  unfold storeZ, lookupZ. intros H.
  destruct (0 <=? i) eqn:H0; [|discriminate].
  destruct (i <? Z.of_nat (length l)) eqn:H1; [|discriminate].
  simpl in H. injection H as <-.
  apply Z.leb_le in H0. apply Z.ltb_lt in H1.
  destruct (i <? 0) eqn:H2; [apply Z.ltb_lt in H2; lia|].
  apply list_lookup_insert_eq. lia.
Qed.

Lemma lookupZ_storeZ_ne {A} (l l' : list A) i j x :
  storeZ l i x = Ret l' -> i <> j -> lookupZ l' j = lookupZ l j.
Proof.
  unfold storeZ, lookupZ. intros H Hne.
  destruct (0 <=? i) eqn:H0; [|discriminate].
  destruct (i <? Z.of_nat (length l)) eqn:H1; [|discriminate].
  simpl in H. injection H as <-.
  destruct (j <? 0) eqn:H2; [reflexivity|].
  apply Z.leb_le in H0. apply Z.ltb_ge in H2.
  apply list_lookup_insert_ne. lia.
Qed.

Lemma storeZ_length {A} (l l' : list A) i x :
  storeZ l i x = Ret l' -> length l' = length l.
Proof.
  unfold storeZ. intros H.
  destruct ((0 <=? i) && (i <? Z.of_nat (length l))); [|discriminate].
  injection H as <-. apply length_insert.
Qed.

(** Facts about masks, shifts and powers of two. *)
Lemma pow2_pos n : 0 <= n -> 0 < 2 ^ n.
Proof. intros. apply Z.pow_pos_nonneg; lia. Qed.

Lemma land_mask_mod a n : 0 <= n -> Z.land a (Z.shiftl 1 n - 1) = a mod 2 ^ n.
Proof.
  intros Hn. rewrite Z.shiftl_1_l, Z.sub_1_r, <- Z.ones_equiv.
  apply Z.land_ones. assumption.
Qed.

Lemma mod_pow2_mod a l g : 0 <= l <= g -> (a mod 2 ^ g) mod 2 ^ l = a mod 2 ^ l.
Proof.
  intros H. apply Z.mod_mod_divide.
  exists (2 ^ (g - l)). rewrite <- Z.pow_add_r by lia. f_equal. lia.
Qed.

Lemma mod_pow2_succ s l :
  0 <= l -> s mod 2 ^ (l + 1) = s mod 2 ^ l + 2 ^ l * ((s / 2 ^ l) mod 2).
Proof.
  intros H. rewrite Z.pow_add_r by lia. change (2 ^ 1) with 2.
  apply Z.rem_mul_r; [pose proof (pow2_pos l H)|]; lia.
Qed.

Lemma slot_mod i l offset :
  0 <= l -> 0 <= offset < 2 ^ l -> (Z.shiftl i l + offset) mod 2 ^ l = offset.
Proof.
  intros Hl Ho. rewrite Z.shiftl_mul_pow2 by lia.
  rewrite Z.add_comm, Z_mod_plus_full. apply Z.mod_small. assumption.
Qed.

Lemma slot_div i l offset :
  0 <= l -> 0 <= offset < 2 ^ l -> (Z.shiftl i l + offset) / 2 ^ l = i.
Proof.
  intros Hl Ho. rewrite Z.shiftl_mul_pow2 by lia.
  rewrite Z.add_comm, Z_div_plus_full by (pose proof (pow2_pos l Hl); lia).
  rewrite Z.div_small by assumption. lia.
Qed.

Lemma slot_split s l :
  0 <= l -> s = Z.shiftl (s / 2 ^ l) l + s mod 2 ^ l.
Proof.
  intros Hl. rewrite Z.shiftl_mul_pow2 by lia.
  pose proof (Z.div_mod s (2 ^ l)). pose proof (pow2_pos l Hl). lia.
Qed.

Lemma land_1_even i : (Z.land i 1 =? 0) = Z.even i.
Proof.
  change 1 with (Z.ones 1) at 1. rewrite Z.land_ones by lia. change (2 ^ 1) with 2.
  rewrite Zmod_even. destruct (Z.even i); reflexivity.
Qed.

Lemma lookupZ_Some_range {A} (l : list A) i x :
  lookupZ l i = Some x -> 0 <= i < Z.of_nat (length l).
Proof.
  unfold lookupZ. destruct (i <? 0) eqn:E; [discriminate|].
  apply Z.ltb_ge in E. intros H. apply lookup_lt_Some in H. lia.
Qed.

Lemma lookupZ_in_range {A} (l : list A) i :
  0 <= i < Z.of_nat (length l) -> exists x, lookupZ l i = Some x.
Proof.
  intros H. unfold lookupZ. destruct (i <? 0) eqn:E; [apply Z.ltb_lt in E; lia|].
  apply lookup_lt_is_Some. lia.
Qed.

Lemma storeZ_in_range {A} (l : list A) i x :
  0 <= i < Z.of_nat (length l) -> storeZ l i x = Ret (<[Z.to_nat i := x]> l).
Proof.
  intros H. unfold storeZ.
  destruct (0 <=? i) eqn:E0; [|apply Z.leb_gt in E0; lia].
  destruct (i <? Z.of_nat (length l)) eqn:E1; [|apply Z.ltb_ge in E1; lia].
  reflexivity.
Qed.

(** ** Extendible hash table
    (src/container/hash/extendible_hash_table.cpp, lines 27-192) *)

Module EHT.
Section Table.
Context {K V : Type} `{EqDecision K}.
(** [std::hash<K>()], opaque to the table. *)
Variable hash : K -> Z.

(** [Bucket]: the item list, its capacity [size_] and local depth. *)
Record Bucket := mkBucket {
  list_ : list (K * V);
  size_ : Z;
  depth_ : Z
}.

Definition GetDepth (b : Bucket) : Z := depth_ b.
Definition GetItems (b : Bucket) : list (K * V) := list_ b.

(** Modelled from the spec: [Bucket::IsFull] is defined in the header,
    which is not among the sources; a bucket holds a list "of bounded
    capacity", so it is full when the list has [size_] items. *)
Definition IsFull (b : Bucket) : bool :=
  Z.of_nat (length (list_ b)) =? size_ b.

Fixpoint find_item (key : K) (l : list (K * V)) : option V :=
  match l with
  | [] => None
  | (k, v) :: rest => if decide (k = key) then Some v else find_item key rest
  end.

Definition Bucket_Find (key : K) (b : Bucket) : option V :=
  find_item key (list_ b).

Fixpoint erase_item (key : K) (l : list (K * V)) : option (list (K * V)) :=
  match l with
  | [] => None
  | (k, v) :: rest =>
      if decide (k = key) then Some rest
      else option_map (cons (k, v)) (erase_item key rest)
  end.

Definition Bucket_Remove (key : K) (b : Bucket) : bool * Bucket :=
  match erase_item key (list_ b) with
  | Some l => (true, mkBucket l (size_ b) (depth_ b))
  | None => (false, b)
  end.

Fixpoint assign_item (key : K) (value : V) (l : list (K * V))
  : option (list (K * V)) :=
  match l with
  | [] => None
  | (k, v) :: rest =>
      if decide (k = key) then Some ((k, value) :: rest)
      else option_map (cons (k, v)) (assign_item key value rest)
  end.

Definition Bucket_Insert (key : K) (value : V) (b : Bucket) : bool * Bucket :=
  match assign_item key value (list_ b) with
  | Some l => (true, mkBucket l (size_ b) (depth_ b))
  | None =>
      if IsFull b then (false, b)
      else (true, mkBucket (list_ b ++ [(key, value)]) (size_ b) (depth_ b))
  end.

(** The table.  A [std::shared_ptr<Bucket>] is an index into [heap_];
    several directory slots may hold the same index, and a bucket
    changed through one slot is changed for all of them. *)
Record ExtendibleHashTable := mkTable {
  global_depth_ : Z;
  bucket_size_ : Z;
  num_buckets_ : Z;
  dir_ : list nat;
  heap_ : list Bucket
}.

Definition new_table (bucket_size : Z) : ExtendibleHashTable :=
  mkTable 0 bucket_size 1 [0%nat] [mkBucket [] bucket_size 0].

(** [int mask = (1 << global_depth_) - 1]: the shift is taken in [Z],
    which is its [int] value while the global depth is below 31. *)
Definition IndexOf (key : K) (t : ExtendibleHashTable) : Z :=
  let mask := Z.shiftl 1 (global_depth_ t) - 1 in
  Z.land (hash key) mask.

Definition GetGlobalDepth (t : ExtendibleHashTable) : Z := global_depth_ t.
Definition GetNumBuckets (t : ExtendibleHashTable) : Z := num_buckets_ t.

Definition bucket_at (t : ExtendibleHashTable) (index : Z) : option Bucket :=
  match lookupZ (dir_ t) index with
  | Some p => heap_ t !! p
  | None => None
  end.

Definition GetLocalDepth (dir_index : Z) (t : ExtendibleHashTable) : outcome Z :=
  let* b := deref (bucket_at t dir_index) in Ret (GetDepth b).

Definition Find (key : K) (t : ExtendibleHashTable) : option V :=
  let index := IndexOf key t in
  if Z.of_nat (length (dir_ t)) <=? index then None
  else match bucket_at t index with
       | None => None
       | Some b => Bucket_Find key b
       end.

Definition Remove (key : K) (t : ExtendibleHashTable)
  : outcome (bool * ExtendibleHashTable) :=
  let index := IndexOf key t in
  if Z.of_nat (length (dir_ t)) <=? index then Ret (false, t)
  else
    let* p := deref (lookupZ (dir_ t) index) in
    let* b := deref (heap_ t !! p) in
    let '(ok, b') := Bucket_Remove key b in
    if ok then
      Ret (true, mkTable (global_depth_ t) (bucket_size_ t) (num_buckets_ t)
                   (dir_ t) (<[p := b']> (heap_ t)))
    else Ret (false, t).

(** The loop that points the slots of the split bucket at the two new
    buckets: slot [(i << depth) + offset] for [i] in [0, cnt). *)
Fixpoint reassign (idx : list Z) (depth offset : Z) (b1 b2 : nat)
    (dir : list nat) : outcome (list nat) :=
  match idx with
  | [] => Ret dir
  | i :: rest =>
      let new_index := Z.shiftl i depth + offset in
      let* dir' := storeZ dir new_index (if Z.land i 1 =? 0 then b1 else b2) in
      reassign rest depth offset b1 b2 dir'
  end.

(** The loop that puts the items of the split bucket back. *)
Fixpoint redistribute (items : list (K * V)) (t : ExtendibleHashTable)
  : outcome ExtendibleHashTable :=
  match items with
  | [] => Ret t
  | (k, v) :: rest =>
      let temp_index := IndexOf k t in
      let* p := deref (lookupZ (dir_ t) temp_index) in
      let* b := deref (heap_ t !! p) in
      let '(_, b') := Bucket_Insert k v b in
      redistribute rest
        (mkTable (global_depth_ t) (bucket_size_ t) (num_buckets_ t)
           (dir_ t) (<[p := b']> (heap_ t)))
  end.

Definition iota (n : Z) : list Z := map Z.of_nat (seq 0 (Z.to_nat n)).

(** [Insert]: one turn of the [while (true)] loop per unit of fuel. *)
Fixpoint Insert (fuel : nat) (key : K) (value : V) (t : ExtendibleHashTable)
  : outcome ExtendibleHashTable :=
  match fuel with
  | O => Diverge
  | S fuel' =>
      let index := IndexOf key t in
      let* p := deref (lookupZ (dir_ t) index) in
      let* cur_bucket := deref (heap_ t !! p) in
      let '(ok, b') := Bucket_Insert key value cur_bucket in
      if ok then
        Ret (mkTable (global_depth_ t) (bucket_size_ t) (num_buckets_ t)
               (dir_ t) (<[p := b']> (heap_ t)))
      else if IsFull cur_bucket then
        let cur_local_depth := GetDepth cur_bucket in
        let '(g, dir) :=
          if global_depth_ t =? cur_local_depth
          then (global_depth_ t + 1, dir_ t ++ dir_ t)
          else (global_depth_ t, dir_ t) in
        let bucket1 := length (heap_ t) in
        let bucket2 := S (length (heap_ t)) in
        let heap := heap_ t ++ [mkBucket [] (bucket_size_ t) (cur_local_depth + 1);
                                mkBucket [] (bucket_size_ t) (cur_local_depth + 1)] in
        let cnt := Z.shiftl 1 (g - cur_local_depth) in
        let offset := Z.land index (Z.shiftl 1 cur_local_depth - 1) in
        let* dir' := reassign (iota cnt) cur_local_depth offset bucket1 bucket2 dir in
        let* t' := redistribute (GetItems cur_bucket)
                     (mkTable g (bucket_size_ t) (num_buckets_ t + 1) dir' heap) in
        Insert fuel' key value t'
      else Abort
  end.

(** The buckets the directory refers to, each once. *)
Fixpoint distinct (l : list nat) : list nat :=
  match l with
  | [] => []
  | x :: rest => if decide (x ∈ rest) then distinct rest else x :: distinct rest
  end.

Definition live_buckets (t : ExtendibleHashTable) : list nat := distinct (dir_ t).

(** What a lookup sees after an insert that returned. *)
Lemma find_assign key value l l' :
  assign_item key value l = Some l' -> find_item key l' = Some value.
Proof.
  revert l'. induction l as [|[k v] l IH]; intros l'; simpl; [discriminate|].
  destruct (decide (k = key)) as [->|Hne].
  - intros [= <-]. simpl. destruct (decide (key = key)); congruence.
  - destruct (assign_item key value l) as [l0|]; [|discriminate].
    intros [= <-]. simpl. destruct (decide (k = key)); [congruence|]. eauto.
Qed.

Lemma find_append key value l :
  assign_item key value l = None ->
  find_item key (l ++ [(key, value)]) = Some value.
Proof.
  induction l as [|[k v] l IH]; simpl.
  - intros _. destruct (decide (key = key)); congruence.
  - destruct (decide (k = key)); [discriminate|].
    destruct (assign_item key value l); [discriminate|]. auto.
Qed.

Lemma Bucket_Find_Insert key value b b' :
  Bucket_Insert key value b = (true, b') -> Bucket_Find key b' = Some value.
Proof.
  unfold Bucket_Insert, Bucket_Find.
  destruct (assign_item key value (list_ b)) eqn:Ha.
  - intros [= <-]. simpl. eauto using find_assign.
  - destruct (IsFull b); [discriminate|].
    intros [= <-]. simpl. auto using find_append.
Qed.

Lemma Find_Insert fuel key value t t' :
  Insert fuel key value t = Ret t' -> Find key t' = Some value.
Proof.
  revert t. induction fuel as [|fuel IH]; intros t; simpl; [discriminate|].
  destruct (lookupZ (dir_ t) (IndexOf key t)) as [p|] eqn:Hp; simpl; [|discriminate].
  destruct (heap_ t !! p) as [cur|] eqn:Hcur; simpl; [|discriminate].
  destruct (Bucket_Insert key value cur) as [ok b'] eqn:Hins.
  destruct ok; cbv iota.
  - intros [= <-].
    assert (Hlt : IndexOf key t < Z.of_nat (length (dir_ t))).
    { unfold lookupZ in Hp.
      destruct (IndexOf key t <? 0) eqn:E; [discriminate|].
      apply Z.ltb_ge in E. apply lookup_lt_Some in Hp. lia. }
    unfold Find, bucket_at. simpl.
    change (IndexOf key (mkTable (global_depth_ t) (bucket_size_ t)
              (num_buckets_ t) (dir_ t) (<[p:=b']> (heap_ t))))
      with (IndexOf key t).
    destruct (Z.of_nat (length (dir_ t)) <=? IndexOf key t) eqn:E;
      [apply Z.leb_le in E; lia|].
    rewrite Hp. rewrite list_lookup_insert_eq
      by (apply lookup_lt_Some in Hcur; lia).
    eauto using Bucket_Find_Insert.
  - destruct (IsFull cur); [|discriminate].
    destruct (global_depth_ t =? GetDepth cur);
    match goal with
    | |- context [reassign ?a ?b ?c ?d ?e ?f] =>
        destruct (reassign a b c d e f); simpl; try discriminate
    end;
    match goal with
    | |- context [redistribute ?a ?b] =>
        destruct (redistribute a b); simpl; try discriminate
    end; apply IH.
Qed.

(** *** Runs of [Insert] and [Remove] *)

Inductive op :=
| OpInsert (key : K) (value : V)
| OpRemove (key : K).

Definition apply_op (fuel : nat) (o : op) (t : ExtendibleHashTable)
  : outcome ExtendibleHashTable :=
  match o with
  | OpInsert key value => Insert fuel key value t
  | OpRemove key => let* (_, t') := Remove key t in Ret t'
  end.

Fixpoint run (fuel : nat) (ops : list op) (t : ExtendibleHashTable)
  : outcome ExtendibleHashTable :=
  match ops with
  | [] => Ret t
  | o :: rest => let* t' := apply_op fuel o t in run fuel rest t'
  end.

(** What a map from keys to values holds after the same calls. *)
Definition update (o : op) (m : K -> option V) (k : K) : option V :=
  match o with
  | OpInsert key value => if decide (k = key) then Some value else m k
  | OpRemove key => if decide (k = key) then None else m k
  end.

Fixpoint contents (ops : list op) (m : K -> option V) : K -> option V :=
  match ops with
  | [] => m
  | o :: rest => contents rest (update o m)
  end.

Lemma contents_ext ops :
  forall m m', (forall k, m k = m' k) ->
               forall k, contents ops m k = contents ops m' k.
Proof.
  induction ops as [|o ops IH]; intros m m' Hm k; simpl; [apply Hm|].
  apply IH. intros k0. destruct o; simpl; destruct (decide _); auto.
Qed.

(** *** The invariant of the directory

    [dom] and [ran] say which keys and values the table is used with;
    the hash function tells the keys of [dom] apart. *)
Section Invariant.
Variable dom : K -> Prop.
Variable ran : V -> Prop.
Variable hbits : Z.
Hypothesis hbits_nonneg : 0 <= hbits.
Hypothesis hash_range : forall k, dom k -> 0 <= hash k < 2 ^ hbits.
Hypothesis hash_inj : forall k k', dom k -> dom k' -> hash k = hash k' -> k = k'.

(** The items of a bucket of local depth [depth], seen from slot [i]:
    their hashes agree with the slot on the low [depth] bits. *)
Definition items_ok (depth i : Z) (l : list (K * V)) : Prop :=
  forall k v, In (k, v) l ->
              dom k /\ ran v /\ hash k mod 2 ^ depth = i mod 2 ^ depth.

Record bucket_ok (t : ExtendibleHashTable) (b : Bucket) : Prop := mk_bucket_ok {
  bo_depth : 0 <= depth_ b <= global_depth_ t;
  bo_size : size_ b = bucket_size_ t;
  bo_len : Z.of_nat (length (list_ b)) <= size_ b
}.

Record wf (t : ExtendibleHashTable) : Prop := mk_wf {
  wf_depth : 0 <= global_depth_ t;
  wf_bits : global_depth_ t <= hbits;
  wf_len : Z.of_nat (length (dir_ t)) = 2 ^ global_depth_ t;
  wf_bsize : 1 <= bucket_size_ t;
  wf_slot : forall i p, lookupZ (dir_ t) i = Some p ->
            exists b, heap_ t !! p = Some b /\ bucket_ok t b /\
                      items_ok (depth_ b) i (list_ b);
  wf_same : forall i j p b,
            lookupZ (dir_ t) i = Some p -> lookupZ (dir_ t) j = Some p ->
            heap_ t !! p = Some b ->
            i mod 2 ^ depth_ b = j mod 2 ^ depth_ b
}.

Lemma bucket_ok_ext t t' b :
  global_depth_ t' = global_depth_ t -> bucket_size_ t' = bucket_size_ t ->
  bucket_ok t b -> bucket_ok t' b.
Proof. intros Hg Hs [Hd Hz Hl]. split; rewrite ?Hg, ?Hs; assumption. Qed.

Lemma table_wf_new bucket_size : 1 <= bucket_size -> wf (new_table bucket_size).
Proof.
  intros H. split; simpl; try lia; try reflexivity.
  - intros i p Hi. pose proof (lookupZ_Some_range _ _ _ Hi) as Hr. simpl in Hr.
    assert (i = 0) by lia. subst i. injection Hi as <-.
    eexists. split; [reflexivity|]. split; [split; simpl; lia|].
    intros k v [].
  - intros i j p b Hi Hj _.
    apply lookupZ_Some_range in Hi, Hj. simpl in Hi, Hj.
    assert (i = 0) by lia. assert (j = 0) by lia. congruence.
Qed.

Lemma IndexOf_mod key t :
  wf t -> IndexOf key t = hash key mod 2 ^ global_depth_ t.
Proof. intros H. apply land_mask_mod, (wf_depth t H). Qed.

Lemma IndexOf_range key t :
  wf t -> 0 <= IndexOf key t < Z.of_nat (length (dir_ t)).
Proof.
  intros H. rewrite (IndexOf_mod key t H), (wf_len t H).
  apply Z.mod_pos_bound, pow2_pos, (wf_depth t H).
Qed.

Lemma slot_bucket key t :
  wf t ->
  exists p b, lookupZ (dir_ t) (IndexOf key t) = Some p /\
              heap_ t !! p = Some b /\ bucket_ok t b /\
              items_ok (depth_ b) (IndexOf key t) (list_ b).
Proof.
  intros H. destruct (lookupZ_in_range _ _ (IndexOf_range key t H)) as [p Hp].
  destruct (wf_slot t H _ _ Hp) as (b & Hb & Hok & Hit). eauto 6.
Qed.

Lemma hash_on_slot key t b :
  wf t -> bucket_ok t b ->
  hash key mod 2 ^ depth_ b = IndexOf key t mod 2 ^ depth_ b.
Proof.
  intros H Hb. rewrite (IndexOf_mod key t H).
  symmetry. apply mod_pow2_mod, (bo_depth t b Hb).
Qed.

(** Items of a bucket after [Bucket::Insert]. *)
Lemma assign_item_spec key value l l' :
  assign_item key value l = Some l' ->
  length l' = length l /\
  (forall k v, In (k, v) l' -> (k = key /\ v = value) \/ In (k, v) l) /\
  (exists v0, In (key, v0) l).
Proof.
  revert l'. induction l as [|[k0 v0] l IH]; intros l'; simpl; [discriminate|].
  destruct (decide (k0 = key)) as [->|Hne].
  - intros [= <-]. split; [reflexivity|]. split; [|eauto].
    intros k v [[= <- <-]|Hin]; auto.
  - destruct (assign_item key value l) as [l0|]; [|discriminate].
    intros [= <-]. destruct (IH l0 eq_refl) as (Hlen & Hin & v1 & Hv1).
    split; [simpl; congruence|]. split; [|eauto].
    intros k v [[= <- <-]|Hi]; [auto|]. destruct (Hin _ _ Hi); auto.
Qed.

Lemma assign_item_None key value l :
  assign_item key value l = None -> forall k v, In (k, v) l -> k <> key.
Proof.
  induction l as [|[k0 v0] l IH]; simpl; [tauto|].
  destruct (decide (k0 = key)) as [->|Hne]; [discriminate|].
  destruct (assign_item key value l); [discriminate|].
  intros _ k v [[= <- <-]|Hin]; eauto.
Qed.

Lemma Bucket_Insert_ok t b b' key value i :
  bucket_ok t b -> items_ok (depth_ b) i (list_ b) ->
  dom key -> ran value -> hash key mod 2 ^ depth_ b = i mod 2 ^ depth_ b ->
  Bucket_Insert key value b = (true, b') ->
  depth_ b' = depth_ b /\ bucket_ok t b' /\ items_ok (depth_ b') i (list_ b').
Proof.
  intros [Hd Hs Hl] Hit Hk Hv Hh. unfold Bucket_Insert.
  destruct (assign_item key value (list_ b)) as [l|] eqn:Ha.
  - intros [= <-]. simpl. apply assign_item_spec in Ha as (Hlen & Hin & _).
    split; [reflexivity|]. split; [split; simpl; lia|].
    intros k v Hi. destruct (Hin _ _ Hi) as [[-> ->]|Hold]; auto.
  - unfold IsFull. destruct (Z.of_nat (length (list_ b)) =? size_ b) eqn:Hfull;
      [discriminate|].
    apply Z.eqb_neq in Hfull. intros [= <-]. simpl.
    split; [reflexivity|]. split.
    + split; simpl; try lia. rewrite length_app. simpl. lia.
    + intros k v Hi. apply in_app_or in Hi as [Hold|[[= <- <-]|[]]]; auto.
Qed.

Lemma Bucket_Insert_false key value b :
  Bucket_Insert key value b = (false, b) \/
  exists b', Bucket_Insert key value b = (true, b').
Proof.
  unfold Bucket_Insert. destruct (assign_item key value (list_ b)); [eauto|].
  destruct (IsFull b); eauto.
Qed.

(** Writing a bucket back to the heap. *)
Lemma wf_update t p b b' :
  wf t -> heap_ t !! p = Some b ->
  depth_ b' = depth_ b -> bucket_ok t b' ->
  (forall i, lookupZ (dir_ t) i = Some p -> items_ok (depth_ b') i (list_ b')) ->
  wf (mkTable (global_depth_ t) (bucket_size_ t) (num_buckets_ t) (dir_ t)
        (<[p := b']> (heap_ t))).
Proof.
  intros H Hp Hd Hb Hit. pose proof (lookup_lt_Some _ _ _ Hp) as Hlt.
  split; simpl; try apply H.
  - intros i q Hi. destruct (decide (q = p)) as [->|Hne].
    + exists b'. rewrite list_lookup_insert_eq by assumption.
      split; [reflexivity|]. split; [|auto].
      apply (bucket_ok_ext t); auto.
    + rewrite list_lookup_insert_ne by congruence.
      destruct (wf_slot t H _ _ Hi) as (c & Hc & Hok & Hitc).
      exists c. split; [assumption|]. split; [|assumption].
      apply (bucket_ok_ext t); auto.
  - intros i j q c Hi Hj Hc. destruct (decide (q = p)) as [->|Hne].
    + rewrite list_lookup_insert_eq in Hc by assumption. injection Hc as <-.
      rewrite Hd. apply (wf_same t H i j p b); assumption.
    + rewrite list_lookup_insert_ne in Hc by congruence.
      apply (wf_same t H i j q c); assumption.
Qed.

(** One item put into the bucket of its slot, as the redistribution
    loop and the last turn of [Insert] do. *)
Lemma wf_put key value t p b ok b' :
  wf t -> dom key -> ran value ->
  lookupZ (dir_ t) (IndexOf key t) = Some p -> heap_ t !! p = Some b ->
  Bucket_Insert key value b = (ok, b') ->
  wf (mkTable (global_depth_ t) (bucket_size_ t) (num_buckets_ t) (dir_ t)
        (<[p := b']> (heap_ t))).
Proof.
  intros H Hk Hv Hp Hb Hins.
  destruct (wf_slot t H _ _ Hp) as (b0 & Hb0 & Hok & Hit).
  assert (b0 = b) by congruence. subst b0.
  destruct ok.
  - destruct (Bucket_Insert_ok t b b' key value (IndexOf key t) Hok Hit Hk Hv
                (hash_on_slot key t b H Hok) Hins) as (Hd & Hok' & _).
    apply (wf_update t p b b'); auto.
    intros i Hi. destruct (wf_slot t H _ _ Hi) as (b1 & Hb1 & _ & Hit1).
    assert (b1 = b) by congruence. subst b1.
    assert (Hh : hash key mod 2 ^ depth_ b = i mod 2 ^ depth_ b).
    { rewrite (hash_on_slot key t b H Hok).
      apply (wf_same t H _ _ p b); assumption. }
    apply (Bucket_Insert_ok t b b' key value i Hok Hit1 Hk Hv Hh Hins).
  - destruct (Bucket_Insert_false key value b) as [E|[b2 E]];
      rewrite E in Hins; [|discriminate].
    injection Hins as <-. rewrite list_insert_id by assumption.
    destruct t; exact H.
Qed.

(** The directory doubled: slot [i + old_size] is slot [i]. *)
Lemma lookupZ_double {A} (l : list A) i :
  0 <= i < 2 * Z.of_nat (length l) ->
  lookupZ (l ++ l) i = lookupZ l (i mod Z.of_nat (length l)).
Proof.
  intros H. unfold lookupZ.
  destruct (i <? 0) eqn:E; [apply Z.ltb_lt in E; lia|].
  assert (Hpos : 0 < Z.of_nat (length l)) by lia.
  pose proof (Z.mod_pos_bound i _ Hpos) as Hm.
  destruct (i mod Z.of_nat (length l) <? 0) eqn:E'; [apply Z.ltb_lt in E'; lia|].
  destruct (Z_lt_dec i (Z.of_nat (length l))) as [Hlt|Hge].
  - rewrite Z.mod_small by lia. apply lookup_app_l. lia.
  - replace (i mod Z.of_nat (length l)) with (i - Z.of_nat (length l)).
    + rewrite lookup_app_r by lia. f_equal. lia.
    + apply Z.mod_unique with 1; lia.
Qed.

Lemma wf_double t :
  wf t -> global_depth_ t < hbits ->
  wf (mkTable (global_depth_ t + 1) (bucket_size_ t) (num_buckets_ t)
        (dir_ t ++ dir_ t) (heap_ t)).
Proof.
  intros H Hb. pose proof (wf_depth t H) as Hd. pose proof (wf_len t H) as Hl.
  assert (Hlook : forall i p, lookupZ (dir_ t ++ dir_ t) i = Some p ->
                  lookupZ (dir_ t) (i mod 2 ^ global_depth_ t) = Some p).
  { intros i p Hi. pose proof (lookupZ_Some_range _ _ _ Hi) as Hr.
    rewrite length_app in Hr. rewrite <- Hl, <- lookupZ_double by lia.
    assumption. }
  split; simpl; try lia; try apply H.
  - rewrite length_app, Z.pow_add_r by lia. change (2 ^ 1) with 2. lia.
  - intros i p Hi. apply Hlook in Hi.
    destruct (wf_slot t H _ _ Hi) as (b & Hb0 & Hok & Hit).
    exists b. split; [assumption|]. split.
    + destruct Hok as [Hd0 Hs0 Hl0]. split; simpl; lia.
    + intros k v Hin. destruct (Hit k v Hin) as (Hk & Hv & Hh).
      split; [assumption|]. split; [assumption|].
      rewrite Hh. apply mod_pow2_mod. apply (bo_depth t b Hok).
  - intros i j p b Hi Hj Hp. apply Hlook in Hi, Hj.
    destruct (wf_slot t H _ _ Hi) as (b0 & Hb0 & Hok & _).
    assert (b0 = b) by congruence. subst b0.
    pose proof (wf_same t H _ _ p b Hi Hj Hp) as E.
    rewrite !mod_pow2_mod in E by apply (bo_depth t b Hok). exact E.
Qed.

(** The slots the loop of the split visits, and what it leaves there. *)
Lemma reassign_spec depth offset b1 b2 idx dir :
  0 <= depth -> 0 <= offset < 2 ^ depth ->
  (forall i, In i idx ->
             0 <= Z.shiftl i depth + offset < Z.of_nat (length dir)) ->
  exists dir',
    reassign idx depth offset b1 b2 dir = Ret dir' /\
    length dir' = length dir /\
    (forall i, In i idx ->
               lookupZ dir' (Z.shiftl i depth + offset)
               = Some (if Z.land i 1 =? 0 then b1 else b2)) /\
    (forall s, (forall i, In i idx -> s <> Z.shiftl i depth + offset) ->
               lookupZ dir' s = lookupZ dir s).
Proof.
  intros Hd Ho. revert dir. induction idx as [|i rest IH]; intros dir Hr.
  - exists dir. simpl. repeat split; auto. intros i [].
  - simpl. rewrite storeZ_in_range by (apply Hr; left; reflexivity). simpl.
    set (dir1 := <[Z.to_nat (Z.shiftl i depth + offset) :=
                    if Z.land i 1 =? 0 then b1 else b2]> dir).
    assert (Hst : storeZ dir (Z.shiftl i depth + offset)
                    (if Z.land i 1 =? 0 then b1 else b2) = Ret dir1).
    { apply storeZ_in_range. apply Hr. left. reflexivity. }
    assert (Hlen1 : length dir1 = length dir) by apply length_insert.
    destruct (IH dir1) as (dir' & Hrun & Hlen & Hin & Hout).
    { intros j Hj. rewrite Hlen1. apply Hr. right. assumption. }
    exists dir'. split; [assumption|]. split; [congruence|]. split.
    + intros j [<-|Hj]; [|auto].
      destruct (in_dec Z.eq_dec i rest) as [Hi|Hni]; [auto|].
      rewrite Hout.
      * apply (lookupZ_storeZ_eq _ _ _ _ Hst).
      * intros j Hj E. apply (f_equal (fun s => s / 2 ^ depth)) in E.
        rewrite !slot_div in E by assumption. congruence.
    + intros s Hs. rewrite Hout by (intros j Hj; apply Hs; right; assumption).
      apply (lookupZ_storeZ_ne _ _ _ _ _ Hst).
      intros E. apply (Hs i); [left; reflexivity | congruence].
Qed.

Lemma In_iota n i : In i (iota n) <-> 0 <= i < n.
Proof.
  unfold iota. rewrite in_map_iff. split.
  - intros (k & <- & Hk). apply in_seq in Hk. lia.
  - intros Hi. exists (Z.to_nat i). split; [lia|]. apply in_seq. lia.
Qed.

(** A slot of the split class lies in the directory. *)
Lemma slot_range i l g offset :
  0 <= l <= g -> 0 <= offset < 2 ^ l -> 0 <= i < 2 ^ (g - l) ->
  0 <= Z.shiftl i l + offset < 2 ^ g.
Proof.
  intros Hl Ho Hi. rewrite Z.shiftl_mul_pow2 by lia.
  assert (E : 2 ^ g = 2 ^ (g - l) * 2 ^ l).
  { rewrite <- Z.pow_add_r by lia. f_equal. lia. }
  rewrite E. nia.
Qed.

Lemma slot_index s l g :
  0 <= l <= g -> 0 <= s < 2 ^ g -> 0 <= s / 2 ^ l < 2 ^ (g - l).
Proof.
  intros Hl Hs. pose proof (pow2_pos l ltac:(lia)) as Hp.
  split; [apply Z.div_pos; lia|].
  apply Z.div_lt_upper_bound; [lia|].
  rewrite <- Z.pow_add_r by lia. replace (l + (g - l)) with g by lia. lia.
Qed.

(** The split itself: the slots of one class modulo [2 ^ depth] are
    pointed at two fresh empty buckets of local depth [depth + 1], by the
    bit above the class. *)
Lemma wf_split t index depth nb :
  wf t -> 0 <= depth < global_depth_ t ->
  let b1 := length (heap_ t) in
  let b2 := S (length (heap_ t)) in
  let e := mkBucket [] (bucket_size_ t) (depth + 1) in
  exists dir',
    reassign (iota (Z.shiftl 1 (global_depth_ t - depth)))
      depth (Z.land index (Z.shiftl 1 depth - 1)) b1 b2 (dir_ t) = Ret dir' /\
    wf (mkTable (global_depth_ t) (bucket_size_ t) nb dir' (heap_ t ++ [e; e])) /\
    (forall s, 0 <= s < 2 ^ global_depth_ t ->
               s mod 2 ^ depth = index mod 2 ^ depth ->
               exists q, lookupZ dir' s = Some q /\
                         (heap_ t ++ [e; e]) !! q = Some e).
Proof.
  intros H Hd b1 b2 e.
  pose proof (wf_len t H) as Hl. pose proof (wf_bsize t H) as Hbs.
  pose proof (pow2_pos depth ltac:(lia)) as Hpow.
  rewrite land_mask_mod by lia. rewrite Z.shiftl_1_l.
  set (offset := index mod 2 ^ depth).
  assert (Ho : 0 <= offset < 2 ^ depth) by (apply Z.mod_pos_bound; lia).
  destruct (reassign_spec depth offset b1 b2
              (iota (2 ^ (global_depth_ t - depth))) (dir_ t))
    as (dir' & Hrun & Hlen & Hin & Hout); [lia | assumption | |].
  { intros i Hi. apply In_iota in Hi. rewrite Hl. apply slot_range; lia. }
  assert (HA : forall s, 0 <= s < 2 ^ global_depth_ t ->
                 s mod 2 ^ depth = offset ->
                 lookupZ dir' s = Some (if Z.even (s / 2 ^ depth) then b1 else b2)).
  { intros s Hs Hm. rewrite <- land_1_even.
    rewrite (slot_split s depth) at 1 by lia. rewrite Hm.
    apply Hin, In_iota, slot_index; lia. }
  assert (HB : forall s, s mod 2 ^ depth <> offset ->
                 lookupZ dir' s = lookupZ (dir_ t) s).
  { intros s Hs. apply Hout. intros i _ ->. apply Hs, slot_mod; lia. }
  assert (Hold : forall s q, lookupZ (dir_ t) s = Some q ->
                   (q < length (heap_ t))%nat).
  { intros s q Hq. destruct (wf_slot t H _ _ Hq) as (b & Hb & _).
    apply (lookup_lt_Some _ _ _ Hb). }
  assert (Hrange : forall s q, lookupZ dir' s = Some q ->
                     0 <= s < 2 ^ global_depth_ t).
  { intros s q Hq. apply lookupZ_Some_range in Hq. lia. }
  assert (Hfresh : forall q, q = b1 \/ q = b2 ->
                     (heap_ t ++ [e; e]) !! q = Some e).
  { intros q [->| ->]; unfold b1, b2; rewrite lookup_app_r by lia.
    - replace (length (heap_ t) - length (heap_ t))%nat with 0%nat by lia.
      reflexivity.
    - replace (S (length (heap_ t)) - length (heap_ t))%nat with 1%nat by lia.
      reflexivity. }
  assert (Hcase : forall s q, lookupZ dir' s = Some q ->
            (s mod 2 ^ depth = offset /\
             q = (if Z.even (s / 2 ^ depth) then b1 else b2)) \/
            (s mod 2 ^ depth <> offset /\ lookupZ (dir_ t) s = Some q)).
  { intros s q Hq. destruct (Z.eq_dec (s mod 2 ^ depth) offset) as [Hm|Hm].
    - left. split; [assumption|].
      rewrite (HA s (Hrange _ _ Hq) Hm) in Hq. congruence.
    - right. split; [assumption|]. rewrite <- (HB s Hm). assumption. }
  exists dir'. split; [assumption|]. split.
  - split; simpl; try apply H; try lia.
    + intros i q Hq. destruct (Hcase _ _ Hq) as [[Hm ->]|[Hm Hq0]].
      * exists e. split.
        { apply Hfresh. destruct (Z.even (i / 2 ^ depth)); auto. }
        split; [split; simpl; lia|]. intros k v [].
      * destruct (wf_slot t H _ _ Hq0) as (b & Hb & Hok & Hit).
        exists b. split; [|split; [|assumption]].
        { rewrite lookup_app_l by apply (lookup_lt_Some _ _ _ Hb). assumption. }
        apply (bucket_ok_ext t); auto.
    + intros i j q c Hi Hj Hc.
      destruct (Hcase _ _ Hi) as [[Hmi Ei]|[Hmi Hi0]];
        destruct (Hcase _ _ Hj) as [[Hmj Ej]|[Hmj Hj0]].
      * assert (Hce : c = e).
        { rewrite Hfresh in Hc; [congruence|].
          rewrite Ei. destruct (Z.even (i / 2 ^ depth)); auto. }
        subst c. simpl. rewrite !mod_pow2_succ by lia. rewrite Hmi, Hmj.
        rewrite !Zmod_even.
        destruct (Z.even (i / 2 ^ depth)), (Z.even (j / 2 ^ depth));
          try reflexivity; unfold b1, b2 in *; lia.
      * apply Hold in Hj0.
        destruct (Z.even (i / 2 ^ depth)); unfold b1, b2 in *; lia.
      * apply Hold in Hi0.
        destruct (Z.even (j / 2 ^ depth)); unfold b1, b2 in *; lia.
      * rewrite lookup_app_l in Hc by apply (Hold _ _ Hi0).
        apply (wf_same t H i j q c); assumption.
  - intros s Hs Hm. rewrite (HA s Hs Hm). eexists. split; [reflexivity|].
    apply Hfresh. destruct (Z.even (s / 2 ^ depth)); auto.
Qed.

Lemma Bucket_Insert_depth key value b :
  depth_ (snd (Bucket_Insert key value b)) = depth_ b.
Proof.
  unfold Bucket_Insert. destruct (assign_item key value (list_ b)); [reflexivity|].
  destruct (IsFull b); reflexivity.
Qed.

(** The redistribution loop returns, and keeps the directory and the
    local depths. *)
Lemma redistribute_total items t :
  wf t -> (forall k v, In (k, v) items -> dom k /\ ran v) ->
  exists t', redistribute items t = Ret t' /\ wf t' /\
             global_depth_ t' = global_depth_ t /\ dir_ t' = dir_ t /\
             (forall p b, heap_ t !! p = Some b ->
                          exists b', heap_ t' !! p = Some b' /\
                                     depth_ b' = depth_ b).
Proof.
  revert t. induction items as [|[k v] rest IH]; intros t H Hitems.
  - exists t. simpl. split; [reflexivity|]. split; [assumption|].
    split; [reflexivity|]. split; [reflexivity|]. eauto.
  - destruct (Hitems k v (or_introl eq_refl)) as [Hk Hv].
    destruct (slot_bucket k t H) as (p & b & Hp & Hb & _).
    simpl. rewrite Hp. simpl. rewrite Hb. simpl.
    pose proof (Bucket_Insert_depth k v b) as Hdep.
    destruct (Bucket_Insert k v b) as [ok b'] eqn:Hins. simpl in Hdep.
    pose proof (wf_put k v t p b ok b' H Hk Hv Hp Hb Hins) as H1.
    destruct (IH _ H1) as (t' & Hrun & H' & Hg & Hdir & Hheap).
    { intros k0 v0 Hin. apply Hitems. right. assumption. }
    exists t'. split; [assumption|]. split; [assumption|].
    split; [assumption|]. split; [assumption|].
    intros q c Hq. simpl in Hheap.
    destruct (decide (q = p)) as [->|Hne].
    + destruct (Hheap p b') as (c' & Hc' & Hd').
      { apply list_lookup_insert_eq, (lookup_lt_Some _ _ _ Hb). }
      exists c'. split; [assumption|]. congruence.
    + apply Hheap. rewrite list_lookup_insert_ne by congruence. assumption.
Qed.

(** A full bucket that does not hold the key is shallower than the
    hash is wide: it holds another key with the same low bits. *)
Lemma full_bucket_depth key t p b :
  wf t -> dom key ->
  lookupZ (dir_ t) (IndexOf key t) = Some p -> heap_ t !! p = Some b ->
  (forall k v, In (k, v) (list_ b) -> k <> key) ->
  IsFull b = true -> depth_ b < hbits.
Proof.
  intros H Hk Hp Hb Hne Hfull.
  destruct (wf_slot t H _ _ Hp) as (b0 & Hb0 & Hok & Hit).
  assert (b0 = b) by congruence. subst b0.
  unfold IsFull in Hfull. apply Z.eqb_eq in Hfull.
  pose proof (bo_size t b Hok). pose proof (wf_bsize t H).
  pose proof (bo_depth t b Hok). pose proof (wf_bits t H).
  destruct (list_ b) as [|[k' v'] l] eqn:El; [simpl in Hfull; lia|].
  destruct (Hit k' v' (or_introl eq_refl)) as (Hk' & _ & Hh).
  destruct (Z_lt_dec (depth_ b) hbits) as [|Hge]; [assumption|exfalso].
  assert (depth_ b = hbits) by lia.
  rewrite <- (hash_on_slot key t b H Hok) in Hh.
  replace (depth_ b) with hbits in Hh.
  rewrite !Z.mod_small in Hh by auto.
  apply (Hne k' v' (or_introl eq_refl)). auto.
Qed.

Lemma Bucket_Insert_refused key value b b' :
  Bucket_Insert key value b = (false, b') ->
  IsFull b = true /\ forall k v, In (k, v) (list_ b) -> k <> key.
Proof.
  unfold Bucket_Insert.
  destruct (assign_item key value (list_ b)) eqn:Ha; [discriminate|].
  destruct (IsFull b); [|discriminate].
  intros _. split; [reflexivity|]. eapply assign_item_None, Ha.
Qed.

(** [Insert] returns: every turn of its loop that does not return
    deepens the bucket of the key by one, and a bucket is never deeper
    than the hash is wide. *)
Lemma Insert_total_from fuel key value :
  dom key -> ran value ->
  forall t p b,
    wf t ->
    lookupZ (dir_ t) (IndexOf key t) = Some p -> heap_ t !! p = Some b ->
    hbits < depth_ b + Z.of_nat fuel ->
    exists t', Insert fuel key value t = Ret t' /\ wf t'.
Proof.
  intros Hk Hv. induction fuel as [|fuel IH]; intros t p b H Hp Hb Hfuel.
  - destruct (wf_slot t H _ _ Hp) as (b0 & Hb0 & Hok & _).
    assert (b0 = b) by congruence. subst b0.
    pose proof (bo_depth t b Hok). pose proof (wf_bits t H). lia.
  - simpl. rewrite Hp. simpl. rewrite Hb. simpl.
    destruct (Bucket_Insert key value b) as [ok b'] eqn:Hins.
    destruct ok; cbv iota.
    { eexists. split; [reflexivity|].
      apply (wf_put key value t p b true b'); assumption. }
    destruct (Bucket_Insert_refused _ _ _ _ Hins) as [Hfull Hne].
    rewrite Hfull.
    pose proof (full_bucket_depth key t p b H Hk Hp Hb Hne Hfull) as Hdeep.
    destruct (wf_slot t H _ _ Hp) as (b0 & Hb0 & Hok & Hit).
    assert (b0 = b) by congruence. subst b0.
    pose proof (bo_depth t b Hok) as Hd. unfold GetDepth, GetItems.
    set (g := if global_depth_ t =? depth_ b then global_depth_ t + 1
              else global_depth_ t).
    set (dir := if global_depth_ t =? depth_ b then dir_ t ++ dir_ t
                else dir_ t).
    assert (H1 : wf (mkTable g (bucket_size_ t) (num_buckets_ t) dir (heap_ t))
                 /\ depth_ b < g /\ global_depth_ t <= g).
    { unfold g, dir. destruct (global_depth_ t =? depth_ b) eqn:E.
      - apply Z.eqb_eq in E. split; [apply wf_double; [assumption | lia] | lia].
      - apply Z.eqb_neq in E. split; [destruct t; exact H | lia]. }
    destruct H1 as (H1 & Hlt & Hle).
    destruct (wf_split _ (IndexOf key t) (depth_ b) (num_buckets_ t + 1) H1)
      as (dir' & Hrun & H2 & Hcls); [simpl; lia|]. simpl in Hrun, H2, Hcls.
    replace (let '(g0, dir0) :=
               if global_depth_ t =? depth_ b
               then (global_depth_ t + 1, dir_ t ++ dir_ t)
               else (global_depth_ t, dir_ t) in _)
      with (let* dir' := reassign (iota (Z.shiftl 1 (g - depth_ b))) (depth_ b)
                           (Z.land (IndexOf key t) (Z.shiftl 1 (depth_ b) - 1))
                           (length (heap_ t)) (S (length (heap_ t))) dir in
            let* t' := redistribute (list_ b)
                         (mkTable g (bucket_size_ t) (num_buckets_ t + 1) dir'
                            (heap_ t ++ [mkBucket [] (bucket_size_ t) (depth_ b + 1);
                                         mkBucket [] (bucket_size_ t) (depth_ b + 1)])) in
            Insert fuel key value t')
      by (unfold g, dir; destruct (global_depth_ t =? depth_ b); reflexivity).
    rewrite Hrun. simpl.
    destruct (redistribute_total (list_ b) _ H2)
      as (t3 & Hred & H3 & Hg3 & Hdir3 & Hheap3).
    { intros k v Hin. destruct (Hit k v Hin) as (? & ? & _). auto. }
    rewrite Hred. simpl. simpl in Hg3, Hdir3, Hheap3.
    destruct (Hcls (IndexOf key t3)) as (q & Hq & Hq').
    { rewrite (IndexOf_mod key t3 H3), Hg3.
      apply Z.mod_pos_bound, pow2_pos. lia. }
    { rewrite (IndexOf_mod key t3 H3), (IndexOf_mod key t H), Hg3.
      rewrite !mod_pow2_mod by lia. reflexivity. }
    destruct (Hheap3 _ _ Hq') as (b3 & Hb3 & Hd3). simpl in Hd3.
    apply (IH t3 q b3); [assumption | congruence | assumption | lia].
Qed.

Lemma Insert_total fuel key value t :
  wf t -> dom key -> ran value -> hbits < Z.of_nat fuel ->
  exists t', Insert fuel key value t = Ret t' /\ wf t'.
Proof.
  intros H Hk Hv Hfuel.
  destruct (slot_bucket key t H) as (p & b & Hp & Hb & Hok & _).
  pose proof (bo_depth t b Hok).
  apply (Insert_total_from fuel key value Hk Hv t p b); auto. lia.
Qed.

(** [Remove] returns and keeps the invariant. *)
Lemma erase_item_spec key l l' :
  erase_item key l = Some l' ->
  (length l' <= length l)%nat /\ forall x, In x l' -> In x l.
Proof.
  revert l'. induction l as [|[k v] l IH]; intros l'; simpl; [discriminate|].
  destruct (decide (k = key)).
  - intros [= <-]. split; [lia | auto].
  - destruct (erase_item key l) as [l0|]; [|discriminate].
    intros [= <-]. destruct (IH l0 eq_refl) as [Hlen Hin].
    split; [simpl; lia|]. intros x [<-|Hx]; [left | right]; auto.
Qed.

Lemma Remove_total key t :
  wf t -> exists ok t', Remove key t = Ret (ok, t') /\ wf t'.
Proof.
  intros H. unfold Remove. pose proof (IndexOf_range key t H) as Hr.
  destruct (Z.of_nat (length (dir_ t)) <=? IndexOf key t) eqn:E;
    [apply Z.leb_le in E; lia|].
  destruct (slot_bucket key t H) as (p & b & Hp & Hb & Hok & _).
  rewrite Hp. simpl. rewrite Hb. simpl. unfold Bucket_Remove.
  destruct (erase_item key (list_ b)) as [l|] eqn:He; [|eauto].
  apply erase_item_spec in He as [Hlen Hin].
  eexists _, _. split; [reflexivity|].
  apply (wf_update t p b); auto.
  - destruct Hok as [Hd Hs Hl]. split; simpl; lia.
  - intros i Hi. destruct (wf_slot t H _ _ Hi) as (b1 & Hb1 & _ & Hit1).
    assert (b1 = b) by congruence. subst b1.
    intros k v Hkv. apply Hit1, Hin, Hkv.
Qed.

(** What [Find] returns was put there. *)
Lemma find_item_In key l v :
  find_item key l = Some v -> In (key, v) l.
Proof.
  induction l as [|[k0 v0] l IH]; simpl; [discriminate|].
  destruct (decide (k0 = key)) as [->|]; [intros [= ->]; auto | auto].
Qed.

Lemma Find_ran key t v : wf t -> Find key t = Some v -> ran v.
Proof.
  intros H. unfold Find, bucket_at.
  destruct (Z.of_nat (length (dir_ t)) <=? IndexOf key t); [discriminate|].
  destruct (lookupZ (dir_ t) (IndexOf key t)) as [p|] eqn:Hp; [|discriminate].
  destruct (wf_slot t H _ _ Hp) as (b & Hb & _ & Hit). rewrite Hb.
  intros Hf. apply find_item_In in Hf. apply (Hit _ _ Hf).
Qed.

(** *** The table as a finite map

    Two more facts hold of every table the constructor and [Insert],
    [Remove] produce: the slots that agree on the low [depth] bits of
    a live bucket all hold that bucket, and no bucket holds a key
    twice.  With them [Find] reads the table as a map from keys to
    values. *)
Definition keys_of (l : list (K * V)) : list K := map fst l.

Record map_inv (t : ExtendibleHashTable) : Prop := mk_map_inv {
  mi_wf : wf t;
  mi_class : forall i j p b,
             lookupZ (dir_ t) i = Some p -> heap_ t !! p = Some b ->
             0 <= j < Z.of_nat (length (dir_ t)) ->
             j mod 2 ^ depth_ b = i mod 2 ^ depth_ b ->
             lookupZ (dir_ t) j = Some p;
  mi_keys : forall p b, heap_ t !! p = Some b -> List.NoDup (keys_of (list_ b));
  mi_count : Z.of_nat (length (live_buckets t)) = num_buckets_ t
}.

Lemma find_item_None key l : find_item key l = None <-> ~ In key (keys_of l).
Proof.
  induction l as [|[k v] l IH]; simpl; [tauto|].
  destruct (decide (k = key)) as [->|Hne].
  - split; [discriminate | tauto].
  - rewrite IH. tauto.
Qed.

Lemma find_item_NoDup key v l :
  List.NoDup (keys_of l) -> In (key, v) l -> find_item key l = Some v.
Proof.
  induction l as [|[k0 v0] l IH]; simpl; [tauto|].
  intros Hnd Hin. inversion Hnd as [|? ? Hk Hl]; subst.
  destruct (decide (k0 = key)) as [->|Hne].
  - destruct Hin as [[= <-]|Hin]; [reflexivity|].
    exfalso. apply Hk. apply (in_map fst) in Hin. exact Hin.
  - destruct Hin as [[= -> _]|Hin]; [congruence | auto].
Qed.

Lemma assign_item_keys key value l l' :
  assign_item key value l = Some l' -> keys_of l' = keys_of l.
Proof.
  revert l'. induction l as [|[k v] l IH]; intros l'; simpl; [discriminate|].
  destruct (decide (k = key)).
  - intros [= <-]. reflexivity.
  - destruct (assign_item key value l) as [l0|]; [|discriminate].
    intros [= <-]. simpl. f_equal. auto.
Qed.

Lemma assign_item_absent key value l :
  assign_item key value l = None -> ~ In key (keys_of l).
Proof.
  intros H Hin. apply in_map_iff in Hin as ([k v] & Hk & Hin). simpl in Hk.
  subst k. apply (assign_item_None _ _ _ H _ _ Hin). reflexivity.
Qed.

Lemma find_assign_other key value l l' k :
  assign_item key value l = Some l' -> k <> key ->
  find_item k l' = find_item k l.
Proof.
  revert l'. induction l as [|[k0 v0] l IH]; intros l'; simpl; [discriminate|].
  destruct (decide (k0 = key)) as [->|Hne].
  - intros [= <-] Hk. simpl.
    destruct (decide (key = k)); [congruence | reflexivity].
  - destruct (assign_item key value l) as [l0|]; [|discriminate].
    intros [= <-] Hk. simpl. destruct (decide (k0 = k)); auto.
Qed.

Lemma find_append_other key value l k :
  k <> key -> find_item k (l ++ [(key, value)]) = find_item k l.
Proof.
  intros Hk. induction l as [|[k0 v0] l IH]; simpl.
  - destruct (decide (key = k)); [congruence | reflexivity].
  - destruct (decide (k0 = k)); auto.
Qed.

Lemma Bucket_Insert_find key value b b' k :
  Bucket_Insert key value b = (true, b') ->
  Bucket_Find k b' = if decide (k = key) then Some value else Bucket_Find k b.
Proof.
  intros H. destruct (decide (k = key)) as [->|Hne];
    [eapply Bucket_Find_Insert; eassumption|].
  revert H. unfold Bucket_Insert, Bucket_Find.
  destruct (assign_item key value (list_ b)) as [l|] eqn:Ha.
  - intros [= <-]. simpl. eapply find_assign_other; eassumption.
  - destruct (IsFull b); [discriminate|]. intros [= <-]. simpl.
    apply find_append_other. assumption.
Qed.

Lemma Bucket_Insert_keys key value b b' :
  Bucket_Insert key value b = (true, b') ->
  List.NoDup (keys_of (list_ b)) -> List.NoDup (keys_of (list_ b')).
Proof.
  unfold Bucket_Insert.
  destruct (assign_item key value (list_ b)) as [l|] eqn:Ha.
  - intros [= <-] Hnd. simpl. rewrite (assign_item_keys _ _ _ _ Ha). exact Hnd.
  - destruct (IsFull b); [discriminate|]. intros [= <-] Hnd. simpl.
    unfold keys_of. rewrite map_app. simpl.
    apply List.NoDup_app. repeat split; auto.
    + constructor; [intros []|constructor].
    + intros a Ha1 [<-|[]]. apply (assign_item_absent _ _ _ Ha). exact Ha1.
Qed.

Lemma erase_item_keys key l l' :
  erase_item key l = Some l' ->
  List.NoDup (keys_of l) ->
  List.NoDup (keys_of l') /\ find_item key l <> None /\
  forall k, find_item k l' = if decide (k = key) then None else find_item k l.
Proof.
  revert l'. induction l as [|[k0 v0] l IH]; intros l'; simpl; [discriminate|].
  intros He Hnd. inversion Hnd as [|? ? Hk Hl]; subst.
  destruct (decide (k0 = key)) as [->|Hne].
  - injection He as <-. split; [assumption|]. split; [discriminate|].
    intros k. destruct (decide (k = key)) as [->|Hk'].
    + apply find_item_None. assumption.
    + destruct (decide (key = k)); [congruence | reflexivity].
  - destruct (erase_item key l) as [l0|] eqn:E0; [|discriminate].
    injection He as <-. destruct (IH l0 eq_refl Hl) as (Hnd0 & Hf & Hother).
    split; [|split; [assumption|]].
    + simpl. constructor; [|assumption]. intros Hin. apply Hk.
      apply in_map_iff in Hin as (x & Hx & Hin). rewrite <- Hx.
      apply in_map. apply (proj2 (erase_item_spec _ _ _ E0)). exact Hin.
    + intros k. simpl. rewrite Hother.
      destruct (decide (k0 = k)) as [->|]; [|reflexivity].
      destruct (decide (k = key)); [congruence | reflexivity].
Qed.

Lemma erase_item_None key l :
  erase_item key l = None -> find_item key l = None.
Proof.
  induction l as [|[k0 v0] l IH]; simpl; [reflexivity|].
  destruct (decide (k0 = key)); [discriminate|].
  destruct (erase_item key l); [discriminate | auto].
Qed.

(** [Find] looks in the bucket of the key's slot. *)
Lemma Find_bucket k t p b :
  wf t -> lookupZ (dir_ t) (IndexOf k t) = Some p -> heap_ t !! p = Some b ->
  Find k t = Bucket_Find k b.
Proof.
  intros H Hp Hb. unfold Find, bucket_at.
  pose proof (IndexOf_range k t H).
  destruct (Z.of_nat (length (dir_ t)) <=? IndexOf k t) eqn:E;
    [apply Z.leb_le in E; lia|].
  rewrite Hp, Hb. reflexivity.
Qed.

(** Counting the buckets the directory refers to. *)
Lemma distinct_In (x : nat) l : In x (distinct l) <-> In x l.
Proof.
  induction l as [|y l IH]; simpl; [tauto|].
  destruct (decide (y ∈ l)) as [Hy|Hy].
  - rewrite IH. apply list_elem_of_In in Hy. split; [tauto|].
    intros [<-|H]; assumption.
  - simpl. rewrite IH. tauto.
Qed.

Lemma distinct_NoDup l : List.NoDup (distinct l).
Proof.
  induction l as [|y l IH]; simpl; [constructor|].
  destruct (decide (y ∈ l)) as [Hy|Hy]; [assumption|].
  constructor; [|assumption]. rewrite distinct_In.
  intros Hin. apply Hy, list_elem_of_In, Hin.
Qed.

Lemma NoDup_same_length (l l' : list nat) :
  List.NoDup l -> List.NoDup l' -> (forall x, In x l <-> In x l') ->
  length l = length l'.
Proof.
  intros H H' Hiff. apply Nat.le_antisymm; apply List.NoDup_incl_length;
    try assumption; intros x Hx; apply Hiff; assumption.
Qed.

Lemma NoDup_without (p : nat) l :
  List.NoDup l -> In p l ->
  List.NoDup (List.filter (fun x => negb (Nat.eqb x p)) l) /\
  S (length (List.filter (fun x => negb (Nat.eqb x p)) l)) = length l.
Proof.
  intros Hnd Hin. split; [apply List.NoDup_filter; assumption|].
  induction l as [|y l IH]; simpl; [destruct Hin|].
  inversion Hnd as [|? ? Hy Hl]; subst.
  destruct (Nat.eqb y p) eqn:E; simpl.
  - apply Nat.eqb_eq in E. subst y. f_equal.
    clear IH Hin Hnd. induction l as [|z l IH]; simpl; [reflexivity|].
    inversion Hl; subst.
    destruct (Nat.eqb z p) eqn:Ez.
    + apply Nat.eqb_eq in Ez. subst z. exfalso. apply Hy. left. reflexivity.
    + simpl. f_equal. apply IH; [|assumption]. intros Hp. apply Hy. right.
      assumption.
  - f_equal. apply IH; [assumption|]. destruct Hin as [->|Hin]; [|assumption].
    rewrite Nat.eqb_refl in E. discriminate.
Qed.

Lemma In_lookupZ {A} (x : A) l : In x l <-> exists s, lookupZ l s = Some x.
Proof.
  split.
  - intros Hin. apply list_elem_of_In, list_elem_of_lookup_1 in Hin as [i Hi].
    exists (Z.of_nat i). unfold lookupZ.
    destruct (Z.of_nat i <? 0) eqn:E; [apply Z.ltb_lt in E; lia|].
    rewrite Nat2Z.id. assumption.
  - intros [s Hs]. unfold lookupZ in Hs. destruct (s <? 0); [discriminate|].
    apply list_elem_of_In. eapply list_elem_of_lookup_2. eassumption.
Qed.

Lemma map_inv_new bucket_size : 1 <= bucket_size -> map_inv (new_table bucket_size).
Proof.
  intros H. split.
  - apply table_wf_new. assumption.
  - simpl. intros i j p b Hi _ Hj _.
    pose proof (lookupZ_Some_range _ _ _ Hi) as Hr. simpl in Hr.
    assert (i = 0) by lia. assert (j = 0) by lia. subst. exact Hi.
  - simpl. intros [|[|p]] b; simpl; try discriminate.
    intros [= <-]. constructor.
  - reflexivity.
Qed.

Lemma Find_new bucket_size k : Find k (new_table bucket_size) = None.
Proof.
  unfold Find, bucket_at, IndexOf. simpl. rewrite Z.land_0_r. reflexivity.
Qed.

(** One item put into the bucket of its slot: the table maps the key
    to the value and the other keys as before. *)
Lemma map_inv_put key value t p b b' :
  map_inv t -> dom key -> ran value ->
  lookupZ (dir_ t) (IndexOf key t) = Some p -> heap_ t !! p = Some b ->
  Bucket_Insert key value b = (true, b') ->
  let t' := mkTable (global_depth_ t) (bucket_size_ t) (num_buckets_ t)
              (dir_ t) (<[p := b']> (heap_ t)) in
  map_inv t' /\
  forall k, Find k t' = if decide (k = key) then Some value else Find k t.
Proof.
  intros [H Hcl Hkeys Hcnt] Hk Hv Hp Hb Hins t'.
  pose proof (wf_put key value t p b true b' H Hk Hv Hp Hb Hins) as H'.
  pose proof (lookup_lt_Some _ _ _ Hb) as Hlt.
  pose proof (Bucket_Insert_depth key value b) as Hd. rewrite Hins in Hd.
  simpl in Hd. split.
  - split; [exact H'| | |exact Hcnt]; unfold t'; simpl.
    + intros i j q c Hi Hc Hj Hm. destruct (decide (q = p)) as [->|Hne].
      * rewrite list_lookup_insert_eq in Hc by assumption. injection Hc as <-.
        rewrite Hd in Hm. apply (Hcl i j p b); assumption.
      * rewrite list_lookup_insert_ne in Hc by congruence.
        apply (Hcl i j q c); assumption.
    + intros q c Hc. destruct (decide (q = p)) as [->|Hne].
      * rewrite list_lookup_insert_eq in Hc by assumption. injection Hc as <-.
        apply (Bucket_Insert_keys _ _ _ _ Hins), (Hkeys p b Hb).
      * rewrite list_lookup_insert_ne in Hc by congruence. apply (Hkeys q c Hc).
  - intros k.
    destruct (slot_bucket k t H) as (q & c & Hq & Hc & _).
    rewrite (Find_bucket k t q c H Hq Hc).
    assert (Hq' : lookupZ (dir_ t') (IndexOf k t') = Some q) by exact Hq.
    destruct (decide (q = p)) as [->|Hne].
    + assert (c = b) by congruence. subst c.
      rewrite (Find_bucket k t' p b' H' Hq');
        [|unfold t'; simpl; apply list_lookup_insert_eq; assumption].
      apply Bucket_Insert_find. assumption.
    + rewrite (Find_bucket k t' q c H' Hq');
        [|unfold t'; simpl; rewrite list_lookup_insert_ne by congruence;
          assumption].
      destruct (decide (k = key)) as [->|]; [congruence | reflexivity].
Qed.

(** The directory doubled reads as before. *)
Lemma map_inv_double t :
  map_inv t -> global_depth_ t < hbits ->
  let t' := mkTable (global_depth_ t + 1) (bucket_size_ t) (num_buckets_ t)
              (dir_ t ++ dir_ t) (heap_ t) in
  map_inv t' /\ (forall k, Find k t' = Find k t) /\
  (forall i p, lookupZ (dir_ t) i = Some p -> lookupZ (dir_ t') i = Some p).
Proof.
  intros [H Hcl Hkeys Hcnt] Hb t'. pose proof (wf_double t H Hb) as H'.
  pose proof (wf_depth t H) as Hd. pose proof (wf_len t H) as Hl.
  assert (Hlook : forall i, 0 <= i < 2 ^ (global_depth_ t + 1) ->
                  lookupZ (dir_ t ++ dir_ t) i
                  = lookupZ (dir_ t) (i mod 2 ^ global_depth_ t)).
  { intros i Hi. rewrite <- Hl. apply lookupZ_double.
    rewrite Hl. rewrite Z.pow_add_r in Hi by lia. change (2 ^ 1) with 2 in Hi.
    lia. }
  assert (Hlen' : Z.of_nat (length (dir_ t ++ dir_ t)) = 2 ^ (global_depth_ t + 1))
    by apply (wf_len t' H').
  split; [split; [exact H'| |exact Hkeys|]|split].
  - unfold t'. simpl. intros i j p b Hi Hp Hj Hm.
    pose proof (lookupZ_Some_range _ _ _ Hi) as Hri.
    rewrite Hlook in Hi by lia. rewrite Hlook by lia.
    destruct (wf_slot t H _ _ Hi) as (b0 & Hb0 & Hok & _).
    assert (b0 = b) by congruence. subst b0.
    pose proof (bo_depth t b Hok).
    apply (Hcl (i mod 2 ^ global_depth_ t) _ p b); try assumption.
    + rewrite Hl. apply Z.mod_pos_bound, pow2_pos. assumption.
    + rewrite !mod_pow2_mod by lia. assumption.
  - unfold t', live_buckets. simpl. rewrite <- Hcnt. unfold live_buckets.
    f_equal. apply NoDup_same_length; try apply distinct_NoDup.
    intros x. rewrite !distinct_In, in_app_iff. tauto.
  - intros k.
    destruct (slot_bucket k t H) as (q & c & Hq & Hc & _).
    rewrite (Find_bucket k t q c H Hq Hc).
    apply (Find_bucket k t' q c H'); [|exact Hc].
    unfold t' at 1. simpl. rewrite Hlook.
    + rewrite (IndexOf_mod k t' H'). unfold t'. simpl.
      rewrite mod_pow2_mod by lia. rewrite <- (IndexOf_mod k t H). exact Hq.
    + rewrite (IndexOf_mod k t' H'). unfold t'. simpl.
      apply Z.mod_pos_bound, pow2_pos. lia.
  - intros i p Hi. unfold t'. simpl.
    pose proof (lookupZ_Some_range _ _ _ Hi) as Hri. rewrite Hl in Hri.
    rewrite Hlook.
    + rewrite Z.mod_small by lia. exact Hi.
    + rewrite Z.pow_add_r by lia. change (2 ^ 1) with 2. lia.
Qed.

(** The split, read as a map: the keys of the split class are gone
    from the table until they are put back, the others are as before. *)
Lemma split_map t index p b nb :
  map_inv t -> lookupZ (dir_ t) index = Some p -> heap_ t !! p = Some b ->
  depth_ b < global_depth_ t -> nb = num_buckets_ t + 1 ->
  let b1 := length (heap_ t) in
  let b2 := S (length (heap_ t)) in
  let e := mkBucket [] (bucket_size_ t) (depth_ b + 1) in
  exists dir',
    reassign (iota (Z.shiftl 1 (global_depth_ t - depth_ b))) (depth_ b)
      (Z.land index (Z.shiftl 1 (depth_ b) - 1)) b1 b2 (dir_ t) = Ret dir' /\
    let t' := mkTable (global_depth_ t) (bucket_size_ t) nb dir'
                (heap_ t ++ [e; e]) in
    map_inv t' /\
    (forall k, Find k t'
               = if decide (hash k mod 2 ^ depth_ b = index mod 2 ^ depth_ b)
                 then None else Find k t) /\
    (forall k, hash k mod 2 ^ depth_ b = index mod 2 ^ depth_ b ->
               exists q, lookupZ dir' (IndexOf k t') = Some q /\
                         (heap_ t ++ [e; e]) !! q = Some e).
Proof.
  intros [H Hcl Hkeys Hcnt] Hp Hb Hlt Hnb b1 b2 e.
  destruct (wf_slot t H _ _ Hp) as (b0 & Hb0 & Hok & _).
  assert (b0 = b) by congruence. subst b0.
  pose proof (bo_depth t b Hok) as Hd0.
  assert (Hd : 0 <= depth_ b < global_depth_ t) by lia.
  destruct (wf_split t index (depth_ b) nb H Hd) as (dir' & Hrun & H2 & _).
  fold b1 b2 e in Hrun, H2.
  exists dir'. split; [exact Hrun|].
  pose proof (wf_len t H) as Hl.
  pose proof (pow2_pos (depth_ b) ltac:(lia)) as Hpow.
  rewrite land_mask_mod, Z.shiftl_1_l in Hrun by lia.
  set (offset := index mod 2 ^ depth_ b) in *.
  assert (Ho : 0 <= offset < 2 ^ depth_ b) by (apply Z.mod_pos_bound; lia).
  destruct (reassign_spec (depth_ b) offset b1 b2
              (iota (2 ^ (global_depth_ t - depth_ b))) (dir_ t))
    as (dir2 & Hrun2 & Hlen & Hin & Hout); [lia | assumption | |].
  { intros i Hi. apply In_iota in Hi. rewrite Hl. apply slot_range; lia. }
  assert (E : Ret dir2 = Ret dir') by (rewrite <- Hrun2; exact Hrun).
  injection E as ->. clear Hrun2.
  assert (HA : forall s, 0 <= s < 2 ^ global_depth_ t ->
                 s mod 2 ^ depth_ b = offset ->
                 lookupZ dir' s
                 = Some (if Z.even (s / 2 ^ depth_ b) then b1 else b2)).
  { intros s Hs Hm. rewrite <- land_1_even.
    rewrite (slot_split s (depth_ b)) at 1 by lia. rewrite Hm.
    apply Hin, In_iota, slot_index; lia. }
  assert (HB : forall s, s mod 2 ^ depth_ b <> offset ->
                 lookupZ dir' s = lookupZ (dir_ t) s).
  { intros s Hs. apply Hout. intros i _ ->. apply Hs, slot_mod; lia. }
  assert (Hold : forall s q, lookupZ (dir_ t) s = Some q ->
                   (q < length (heap_ t))%nat).
  { intros s q Hq. destruct (wf_slot t H _ _ Hq) as (c & Hc & _).
    apply (lookup_lt_Some _ _ _ Hc). }
  assert (Hfresh : forall x : bool,
            (heap_ t ++ [e; e]) !! (if x then b1 else b2) = Some e).
  { intros [|]; unfold b1, b2; rewrite lookup_app_r by lia.
    - replace (length (heap_ t) - length (heap_ t))%nat with 0%nat by lia.
      reflexivity.
    - replace (S (length (heap_ t)) - length (heap_ t))%nat with 1%nat by lia.
      reflexivity. }
  assert (Hrange : forall s q, lookupZ dir' s = Some q ->
                     0 <= s < 2 ^ global_depth_ t).
  { intros s q Hq. apply lookupZ_Some_range in Hq. lia. }
  assert (Hpclass : forall s, lookupZ (dir_ t) s = Some p ->
                      s mod 2 ^ depth_ b = offset).
  { intros s Hs. apply (wf_same t H s index p b); assumption. }
  split; [split; [exact H2| | |]|split]; simpl.
  - intros i j q c Hi Hc Hj Hm. rewrite Hlen, Hl in Hj.
    destruct (Z.eq_dec (i mod 2 ^ depth_ b) offset) as [Hmi|Hmi].
    + rewrite (HA i (Hrange _ _ Hi) Hmi) in Hi. injection Hi as <-.
      rewrite Hfresh in Hc. injection Hc as <-. simpl in Hm.
      assert (Hmj : j mod 2 ^ depth_ b = offset).
      { rewrite <- Hmi, <- (mod_pow2_mod j (depth_ b) (depth_ b + 1)) by lia.
        rewrite Hm. apply mod_pow2_mod. lia. }
      rewrite (HA j Hj Hmj). f_equal.
      rewrite !mod_pow2_succ in Hm by lia. rewrite Hmi, Hmj in Hm.
      rewrite !Zmod_even in Hm.
      destruct (Z.even (i / 2 ^ depth_ b)), (Z.even (j / 2 ^ depth_ b));
        try reflexivity; lia.
    + rewrite (HB i Hmi) in Hi.
      rewrite lookup_app_l in Hc by apply (Hold _ _ Hi).
      assert (Hj0 : lookupZ (dir_ t) j = Some q).
      { apply (Hcl i j q c); try assumption. lia. }
      rewrite HB; [exact Hj0|]. intros Hmj. apply Hmi.
      assert (Hjp : lookupZ (dir_ t) j = Some p).
      { apply (Hcl index j p b); try assumption. lia. }
      assert (q = p) by congruence. subst q. apply Hpclass. assumption.
  - intros q c Hc. destruct (lt_dec q (length (heap_ t))) as [Hq|Hq].
    + rewrite lookup_app_l in Hc by assumption. apply (Hkeys q c Hc).
    + rewrite lookup_app_r in Hc by lia.
      destruct (q - length (heap_ t))%nat as [|[|n]]; simpl in Hc;
        try discriminate; injection Hc as <-; constructor.
  - unfold live_buckets. simpl. rewrite Hnb, <- Hcnt. unfold live_buckets.
    assert (Hpin : In p (distinct (dir_ t)))
      by (apply distinct_In, In_lookupZ; eauto).
    destruct (NoDup_without p _ (distinct_NoDup (dir_ t)) Hpin) as [Hnd' Hlen'].
    set (A' := List.filter (fun x => negb (Nat.eqb x p)) (distinct (dir_ t))) in *.
    assert (HA' : forall x, In x A' <-> In x (dir_ t) /\ x <> p).
    { intros x. unfold A'. rewrite List.filter_In, distinct_In, negb_true_iff,
        Nat.eqb_neq. tauto. }
    assert (Hsmall : forall x, In x A' -> (x < length (heap_ t))%nat).
    { intros x Hx. apply HA' in Hx as [Hx _].
      apply In_lookupZ in Hx as [s Hs]. apply (Hold _ _ Hs). }
    assert (Hcard : length (distinct dir') = length (b1 :: b2 :: A')).
    { apply NoDup_same_length; [apply distinct_NoDup | |].
      - constructor; [|constructor; [|assumption]].
        + intros [Hx|Hx]; [unfold b1, b2 in Hx; lia|].
          apply Hsmall in Hx. unfold b1 in Hx. lia.
        + intros Hx. apply Hsmall in Hx. unfold b2 in Hx. lia.
      - intros x. rewrite distinct_In. simpl. rewrite HA'. split.
        + intros Hx. apply In_lookupZ in Hx as [s Hs].
          destruct (Z.eq_dec (s mod 2 ^ depth_ b) offset) as [Hm|Hm].
          * rewrite (HA s (Hrange _ _ Hs) Hm) in Hs. injection Hs as <-.
            destruct (Z.even (s / 2 ^ depth_ b)); auto.
          * rewrite (HB s Hm) in Hs. right. right. split.
            -- apply In_lookupZ. eauto.
            -- intros ->. apply Hm, Hpclass. assumption.
        + intros [<-|[<-|[Hx Hxp]]].
          * apply In_lookupZ. exists offset. rewrite HA.
            -- rewrite Z.div_small by lia. reflexivity.
            -- split; [lia|]. apply Z.lt_le_trans with (2 ^ depth_ b); [lia|].
               apply Z.pow_le_mono_r; lia.
            -- apply Z.mod_small. lia.
          * apply In_lookupZ. exists (offset + 2 ^ depth_ b). rewrite HA.
            -- replace ((offset + 2 ^ depth_ b) / 2 ^ depth_ b) with 1;
                 [reflexivity|].
               apply Z.div_unique with offset; lia.
            -- split; [lia|].
               apply Z.lt_le_trans with (2 ^ (depth_ b + 1)).
               ++ rewrite Z.pow_add_r by lia. change (2 ^ 1) with 2. lia.
               ++ apply Z.pow_le_mono_r; lia.
            -- rewrite <- (Z.mul_1_l (2 ^ depth_ b)) at 1.
               rewrite Z_mod_plus_full. apply Z.mod_small. lia.
          * apply In_lookupZ in Hx as [s Hs]. apply In_lookupZ. exists s.
            rewrite HB; [exact Hs|]. intros Hm. apply Hxp.
            assert (Hsp : lookupZ (dir_ t) s = Some p).
            { apply (Hcl index s p b); try assumption.
              apply (lookupZ_Some_range _ _ _ Hs). }
            congruence. }
    rewrite Hcard. simpl length. lia.
  - intros k.
    set (t' := mkTable (global_depth_ t) (bucket_size_ t) nb dir'
                 (heap_ t ++ [e; e])).
    assert (Hs : IndexOf k t' = IndexOf k t) by reflexivity.
    pose proof (IndexOf_range k t H) as Hr. rewrite Hl in Hr.
    assert (Hm : IndexOf k t mod 2 ^ depth_ b = hash k mod 2 ^ depth_ b).
    { rewrite (IndexOf_mod k t H). apply mod_pow2_mod. lia. }
    destruct (decide (hash k mod 2 ^ depth_ b = offset)) as [Hk|Hk].
    + assert (Hq : lookupZ (dir_ t') (IndexOf k t')
                     = Some (if Z.even (IndexOf k t / 2 ^ depth_ b)
                             then b1 else b2))
        by (rewrite Hs; apply HA; [assumption | congruence]).
      rewrite (Find_bucket k t' _ e H2 Hq (Hfresh _)). reflexivity.
    + destruct (slot_bucket k t H) as (q & c & Hq & Hc & _).
      rewrite (Find_bucket k t q c H Hq Hc).
      apply (Find_bucket k t' q c H2).
      * rewrite Hs. rewrite HB by congruence. exact Hq.
      * simpl. rewrite lookup_app_l by apply (Hold _ _ Hq). exact Hc.
  - intros k Hk.
    pose proof (IndexOf_range k t H) as Hr. rewrite Hl in Hr.
    assert (Hm : IndexOf k t mod 2 ^ depth_ b = hash k mod 2 ^ depth_ b).
    { rewrite (IndexOf_mod k t H). apply mod_pow2_mod. lia. }
    eexists. split; [|apply Hfresh].
    change (IndexOf k (mkTable (global_depth_ t) (bucket_size_ t) nb dir'
                         (heap_ t ++ [e; e]))) with (IndexOf k t).
    apply HA; [assumption | congruence].
Qed.

Lemma Bucket_Insert_length key value b ok b' :
  Bucket_Insert key value b = (ok, b') ->
  (length (list_ b') <= S (length (list_ b)))%nat.
Proof.
  unfold Bucket_Insert.
  destruct (assign_item key value (list_ b)) as [l|] eqn:Ha.
  - intros [= <- <-]. simpl.
    apply assign_item_spec in Ha as (Hlen & _). lia.
  - destruct (IsFull b); intros [= <- <-]; simpl; [lia|].
    rewrite length_app. simpl. lia.
Qed.

(** The items of the split bucket put back: none is dropped, because
    a bucket they go to holds fewer items than the split one did. *)
Lemma redistribute_map items :
  forall n t,
  map_inv t ->
  (forall k v, In (k, v) items -> dom k /\ ran v) ->
  List.NoDup (keys_of items) ->
  (forall k v p b, In (k, v) items ->
     lookupZ (dir_ t) (IndexOf k t) = Some p -> heap_ t !! p = Some b ->
     Z.of_nat (length (list_ b)) <= n) ->
  n + Z.of_nat (length items) <= bucket_size_ t ->
  exists t', redistribute items t = Ret t' /\ map_inv t' /\
             global_depth_ t' = global_depth_ t /\ dir_ t' = dir_ t /\
             num_buckets_ t' = num_buckets_ t /\
             bucket_size_ t' = bucket_size_ t /\
             (forall p b, heap_ t !! p = Some b ->
                          exists b', heap_ t' !! p = Some b' /\
                                     depth_ b' = depth_ b) /\
             forall k, Find k t' = match find_item k items with
                                   | Some v => Some v
                                   | None => Find k t
                                   end.
Proof.
  induction items as [|[k v] rest IH]; intros n t H Hitems Hnd Hlen Hcap.
  - exists t. simpl. split; [reflexivity|]. split; [assumption|].
    split; [reflexivity|]. split; [reflexivity|]. split; [reflexivity|].
    split; [reflexivity|]. split; [eauto | reflexivity].
  - destruct (Hitems k v (or_introl eq_refl)) as [Hk Hv].
    destruct (slot_bucket k t (mi_wf t H)) as (p & b & Hp & Hb & Hok & _).
    simpl. rewrite Hp. simpl. rewrite Hb. simpl.
    pose proof (Bucket_Insert_depth k v b) as Hdep.
    destruct (Bucket_Insert k v b) as [ok b'] eqn:Hins. simpl in Hdep.
    pose proof (Hlen k v p b (or_introl eq_refl) Hp Hb) as Hlb.
    simpl in Hcap.
    assert (ok = true).
    { destruct ok; [reflexivity|].
      apply Bucket_Insert_refused in Hins as [Hfull _].
      unfold IsFull in Hfull. apply Z.eqb_eq in Hfull.
      pose proof (bo_size t b Hok). lia. }
    subst ok.
    destruct (map_inv_put k v t p b b' H Hk Hv Hp Hb Hins) as [H1 Hfind1].
    inversion Hnd as [|? ? Hkr Hndr]; subst.
    destruct (IH (n + 1) _ H1) as (t' & Hrun & H' & Hg & Hdir & Hnb & Hbs & Hheap & Hfind).
    { intros k0 v0 Hin. apply Hitems. right. assumption. }
    { assumption. }
    { simpl. intros k0 v0 q c Hin Hq Hc.
      change (IndexOf k0 (mkTable (global_depth_ t) (bucket_size_ t)
                (num_buckets_ t) (dir_ t) (<[p:=b']> (heap_ t))))
        with (IndexOf k0 t) in Hq.
      destruct (decide (q = p)) as [->|Hne].
      - rewrite list_lookup_insert_eq in Hc by apply (lookup_lt_Some _ _ _ Hb).
        injection Hc as <-.
        pose proof (Bucket_Insert_length _ _ _ _ _ Hins). lia.
      - rewrite list_lookup_insert_ne in Hc by congruence.
        pose proof (Hlen k0 v0 q c (or_intror Hin) Hq Hc). lia. }
    { simpl. lia. }
    exists t'. split; [assumption|]. split; [assumption|].
    split; [assumption|]. split; [assumption|]. split; [assumption|].
    split; [assumption|]. split.
    + intros q c Hq. simpl in Hheap. destruct (decide (q = p)) as [->|Hne].
      * destruct (Hheap p b') as (c' & Hc' & Hd').
        { apply list_lookup_insert_eq, (lookup_lt_Some _ _ _ Hb). }
        exists c'. split; [assumption|]. congruence.
      * apply Hheap. rewrite list_lookup_insert_ne by congruence. assumption.
    + intros k0. rewrite Hfind, Hfind1. simpl.
      destruct (decide (k = k0)) as [->|Hne].
      * destruct (decide (k0 = k0)); [|congruence].
        assert (Hn : find_item k0 rest = None)
          by (apply find_item_None; assumption).
        rewrite Hn. reflexivity.
      * destruct (decide (k0 = k)); [congruence | reflexivity].
Qed.

(** [Insert], read as a map: it returns, the key is mapped to the
    value, and every other key is mapped as before, across the splits
    and the doublings of the directory. *)
Lemma Insert_map_from fuel key value :
  dom key -> ran value ->
  forall t p b,
    map_inv t ->
    lookupZ (dir_ t) (IndexOf key t) = Some p -> heap_ t !! p = Some b ->
    hbits < depth_ b + Z.of_nat fuel ->
    exists t', Insert fuel key value t = Ret t' /\ map_inv t' /\
               bucket_size_ t' = bucket_size_ t /\
               global_depth_ t <= global_depth_ t' /\
               num_buckets_ t <= num_buckets_ t' /\
               forall k, Find k t'
                         = if decide (k = key) then Some value else Find k t.
Proof.
  intros Hk Hv. induction fuel as [|fuel IH]; intros t p b Hmi Hp Hb Hfuel.
  - pose proof (mi_wf t Hmi) as H.
    destruct (wf_slot t H _ _ Hp) as (b0 & Hb0 & Hok & _).
    assert (b0 = b) by congruence. subst b0.
    pose proof (bo_depth t b Hok). pose proof (wf_bits t H). lia.
  - pose proof (mi_wf t Hmi) as H.
    simpl. rewrite Hp. simpl. rewrite Hb. simpl.
    destruct (Bucket_Insert key value b) as [ok b'] eqn:Hins.
    destruct ok; cbv iota.
    { destruct (map_inv_put key value t p b b' Hmi Hk Hv Hp Hb Hins)
        as [H' Hfind].
      eexists. split; [reflexivity|]. split; [exact H'|].
      split; [reflexivity|]. split; [simpl; lia|]. split; [simpl; lia|].
      exact Hfind. }
    destruct (Bucket_Insert_refused _ _ _ _ Hins) as [Hfull Hne].
    rewrite Hfull.
    pose proof (full_bucket_depth key t p b H Hk Hp Hb Hne Hfull) as Hdeep.
    destruct (wf_slot t H _ _ Hp) as (b0 & Hb0 & Hok & Hit).
    assert (b0 = b) by congruence. subst b0.
    pose proof (bo_depth t b Hok) as Hd. unfold GetDepth, GetItems.
    set (g := if global_depth_ t =? depth_ b then global_depth_ t + 1
              else global_depth_ t).
    set (dir := if global_depth_ t =? depth_ b then dir_ t ++ dir_ t
                else dir_ t).
    set (t1 := mkTable g (bucket_size_ t) (num_buckets_ t) dir (heap_ t)).
    assert (H1 : map_inv t1 /\ depth_ b < g /\ global_depth_ t <= g /\
                 (forall k, Find k t1 = Find k t) /\
                 lookupZ dir (IndexOf key t) = Some p).
    { unfold t1, g, dir. destruct (global_depth_ t =? depth_ b) eqn:E.
      - apply Z.eqb_eq in E.
        destruct (map_inv_double t Hmi ltac:(lia)) as (Ha & Hb1 & Hc).
        split; [exact Ha|]. split; [lia|]. split; [lia|].
        split; [exact Hb1 | exact (Hc _ _ Hp)].
      - apply Z.eqb_neq in E. split; [destruct t; exact Hmi|].
        split; [lia|]. split; [lia|]. split; [destruct t; reflexivity|].
        exact Hp. }
    destruct H1 as (H1 & Hlt & Hle & Hfind1 & Hp1).
    destruct (split_map t1 (IndexOf key t) p b (num_buckets_ t + 1) H1 Hp1 Hb Hlt
                eq_refl)
      as (dir' & Hrun & H2 & Hfind2 & Hcls).
    simpl in Hrun, H2, Hfind2, Hcls.
    replace (let '(g0, dir0) :=
               if global_depth_ t =? depth_ b
               then (global_depth_ t + 1, dir_ t ++ dir_ t)
               else (global_depth_ t, dir_ t) in _)
      with (let* dir' := reassign (iota (Z.shiftl 1 (g - depth_ b))) (depth_ b)
                           (Z.land (IndexOf key t) (Z.shiftl 1 (depth_ b) - 1))
                           (length (heap_ t)) (S (length (heap_ t))) dir in
            let* t' := redistribute (list_ b)
                         (mkTable g (bucket_size_ t) (num_buckets_ t + 1) dir'
                            (heap_ t ++ [mkBucket [] (bucket_size_ t) (depth_ b + 1);
                                         mkBucket [] (bucket_size_ t) (depth_ b + 1)])) in
            Insert fuel key value t')
      by (unfold g, dir; destruct (global_depth_ t =? depth_ b); reflexivity).
    rewrite Hrun. simpl.
    set (e := mkBucket [] (bucket_size_ t) (depth_ b + 1)) in *.
    set (t2 := mkTable g (bucket_size_ t) (num_buckets_ t + 1) dir'
                 (heap_ t ++ [e; e])) in *.
    assert (Hclass : forall k v, In (k, v) (list_ b) ->
              hash k mod 2 ^ depth_ b = IndexOf key t mod 2 ^ depth_ b).
    { intros k v Hin. apply (Hit k v Hin). }
    destruct (redistribute_map (list_ b) 0 t2 H2)
      as (t3 & Hred & H3 & Hg3 & Hdir3 & Hnb3 & Hbs3 & Hheap3 & Hfind3).
    { intros k v Hin. destruct (Hit k v Hin) as (? & ? & _). auto. }
    { apply (mi_keys t Hmi p b Hb). }
    { intros k v q c Hin Hq Hc.
      destruct (Hcls k (Hclass k v Hin)) as (q' & Hq' & He).
      change (lookupZ dir' (IndexOf k t2) = Some q) in Hq.
      change ((heap_ t ++ [e; e]) !! q = Some c) in Hc.
      assert (q' = q) by congruence. subst q'.
      assert (c = e) by congruence. subst c. simpl. lia. }
    { simpl. pose proof (bo_len t b Hok). pose proof (bo_size t b Hok). lia. }
    rewrite Hred. simpl. simpl in Hg3, Hdir3, Hheap3, Hnb3, Hbs3.
    assert (Hkey : hash key mod 2 ^ depth_ b = IndexOf key t mod 2 ^ depth_ b).
    { rewrite (IndexOf_mod key t H). symmetry. apply mod_pow2_mod. lia. }
    destruct (Hcls key Hkey) as (q & Hq & Hq').
    destruct (Hheap3 _ _ Hq') as (b3 & Hb3 & Hd3). simpl in Hd3.
    assert (Hq3 : lookupZ (dir_ t3) (IndexOf key t3) = Some q).
    { rewrite Hdir3. unfold IndexOf in *. rewrite Hg3. exact Hq. }
    destruct (IH t3 q b3 H3 Hq3 Hb3 ltac:(lia))
      as (t' & Hret & H' & Hbs & Hgd & Hnb & Hfind).
    exists t'. split; [exact Hret|]. split; [exact H'|].
    split; [congruence|]. split; [lia|]. split; [lia|].
    intros k. rewrite Hfind. destruct (decide (k = key)); [reflexivity|].
    rewrite Hfind3, Hfind2, Hfind1.
    destruct (decide (hash k mod 2 ^ depth_ b
                      = IndexOf key t mod 2 ^ depth_ b)) as [Hc|Hc].
    + assert (Hkp : lookupZ (dir_ t1) (IndexOf k t1) = Some p).
      { apply (mi_class t1 H1 (IndexOf key t) _ p b); try assumption.
        - apply (IndexOf_range k t1 (mi_wf t1 H1)).
        - rewrite (IndexOf_mod k t1 (mi_wf t1 H1)). unfold t1 at 1. simpl.
          rewrite mod_pow2_mod by lia. exact Hc. }
      rewrite <- Hfind1.
      rewrite (Find_bucket k t1 p b (mi_wf t1 H1) Hkp Hb).
      unfold Bucket_Find. destruct (find_item k (list_ b)); reflexivity.
    + destruct (find_item k (list_ b)) as [v|] eqn:Hf; [|reflexivity].
      exfalso. apply Hc. apply find_item_In in Hf. apply (Hclass k v Hf).
Qed.

Lemma Insert_map fuel key value t :
  map_inv t -> dom key -> ran value -> hbits < Z.of_nat fuel ->
  exists t', Insert fuel key value t = Ret t' /\ map_inv t' /\
             bucket_size_ t' = bucket_size_ t /\
             global_depth_ t <= global_depth_ t' /\
             num_buckets_ t <= num_buckets_ t' /\
             forall k, Find k t'
                       = if decide (k = key) then Some value else Find k t.
Proof.
  intros H Hk Hv Hfuel.
  destruct (slot_bucket key t (mi_wf t H)) as (p & b & Hp & Hb & Hok & _).
  pose proof (bo_depth t b Hok).
  apply (Insert_map_from fuel key value Hk Hv t p b); auto. lia.
Qed.

(** [Remove], read as a map: it returns, tells whether the key was
    there, and the other keys are mapped as before. *)
Lemma Remove_map key t :
  map_inv t ->
  exists t', Remove key t = Ret (bool_decide (Find key t <> None), t') /\
             map_inv t' /\
             bucket_size_ t' = bucket_size_ t /\
             global_depth_ t' = global_depth_ t /\
             num_buckets_ t' = num_buckets_ t /\ dir_ t' = dir_ t /\
             forall k, Find k t' = if decide (k = key) then None else Find k t.
Proof.
  intros Hmi. pose proof (mi_wf t Hmi) as H. unfold Remove.
  pose proof (IndexOf_range key t H) as Hr.
  destruct (Z.of_nat (length (dir_ t)) <=? IndexOf key t) eqn:E;
    [apply Z.leb_le in E; lia|].
  destruct (slot_bucket key t H) as (p & b & Hp & Hb & Hok & Hit).
  rewrite Hp. simpl. rewrite Hb. simpl. unfold Bucket_Remove.
  rewrite (Find_bucket key t p b H Hp Hb). unfold Bucket_Find.
  pose proof (mi_keys t Hmi p b Hb) as Hnd.
  pose proof (lookup_lt_Some _ _ _ Hb) as Hlt.
  destruct (erase_item key (list_ b)) as [l|] eqn:He.
  - destruct (erase_item_keys _ _ _ He Hnd) as (Hnd' & Hsome & Hother).
    rewrite bool_decide_eq_true_2 by assumption.
    pose proof (erase_item_spec _ _ _ He) as [Hlen Hin].
    set (b' := mkBucket l (size_ b) (depth_ b)).
    set (t' := mkTable (global_depth_ t) (bucket_size_ t) (num_buckets_ t)
                 (dir_ t) (<[p:=b']> (heap_ t))).
    assert (H' : wf t').
    { apply (wf_update t p b); auto.
      - destruct Hok as [Hd Hs Hl]. split; simpl; lia.
      - intros i Hi. destruct (wf_slot t H _ _ Hi) as (b1 & Hb1 & _ & Hit1).
        assert (b1 = b) by congruence. subst b1.
        intros k v Hkv. apply Hit1, Hin, Hkv. }
    exists t'. split; [reflexivity|]. split; [|repeat (split; [reflexivity|])].
    + split; [exact H'| | |exact (mi_count t Hmi)]; unfold t'; simpl.
      * intros i j q c Hi Hc Hj Hm. destruct (decide (q = p)) as [->|Hne].
        -- rewrite list_lookup_insert_eq in Hc by assumption. injection Hc as <-.
           apply (mi_class t Hmi i j p b); assumption.
        -- rewrite list_lookup_insert_ne in Hc by congruence.
           apply (mi_class t Hmi i j q c); assumption.
      * intros q c Hc. destruct (decide (q = p)) as [->|Hne].
        -- rewrite list_lookup_insert_eq in Hc by assumption. injection Hc as <-.
           exact Hnd'.
        -- rewrite list_lookup_insert_ne in Hc by congruence.
           apply (mi_keys t Hmi q c Hc).
    + intros k. destruct (slot_bucket k t H) as (q & c & Hq & Hc & _).
      rewrite (Find_bucket k t q c H Hq Hc).
      assert (Hq' : lookupZ (dir_ t') (IndexOf k t') = Some q) by exact Hq.
      destruct (decide (q = p)) as [->|Hne].
      * assert (c = b) by congruence. subst c.
        rewrite (Find_bucket k t' p b' H' Hq');
          [|unfold t'; simpl; apply list_lookup_insert_eq; assumption].
        unfold Bucket_Find. simpl. apply Hother.
      * rewrite (Find_bucket k t' q c H' Hq');
          [|unfold t'; simpl; rewrite list_lookup_insert_ne by congruence;
            assumption].
        destruct (decide (k = key)) as [->|]; [congruence | reflexivity].
  - apply erase_item_None in He. rewrite He.
    rewrite bool_decide_eq_false_2 by (intros Hc; apply Hc; reflexivity).
    exists t. split; [reflexivity|]. split; [assumption|].
    repeat (split; [reflexivity|]).
    intros k. destruct (decide (k = key)) as [->|]; [|reflexivity].
    rewrite (Find_bucket key t p b H Hp Hb). exact He.
Qed.

Definition valid_op (o : op) : Prop :=
  match o with
  | OpInsert key value => dom key /\ ran value
  | OpRemove _ => True
  end.

Lemma run_map fuel ops :
  hbits < Z.of_nat fuel -> Forall valid_op ops ->
  forall t, map_inv t ->
  exists t', run fuel ops t = Ret t' /\ map_inv t' /\
             bucket_size_ t' = bucket_size_ t /\
             forall k, Find k t' = contents ops (fun k => Find k t) k.
Proof.
  intros Hfuel. induction ops as [|o ops IH]; intros Hops t H.
  - exists t. simpl. auto.
  - inversion Hops as [|? ? Ho Hrest]; subst. simpl.
    assert (Hstep : exists t1, apply_op fuel o t = Ret t1 /\ map_inv t1 /\
                      bucket_size_ t1 = bucket_size_ t /\
                      forall k, Find k t1 = update o (fun k => Find k t) k).
    { destruct o as [key value|key]; simpl.
      - destruct Ho as [Hk Hv].
        destruct (Insert_map fuel key value t H Hk Hv Hfuel)
          as (t1 & Hr & H1 & Hbs & _ & _ & Hf). eauto.
      - destruct (Remove_map key t H) as (t1 & Hr & H1 & Hbs & _ & _ & _ & Hf).
        rewrite Hr. simpl. eauto. }
    destruct Hstep as (t1 & Hr & H1 & Hbs & Hf). rewrite Hr. simpl.
    destruct (IH Hrest t1 H1) as (t' & Hrun & H' & Hbs' & Hf').
    exists t'. split; [assumption|]. split; [assumption|].
    split; [congruence|]. intros k. rewrite Hf'. apply contents_ext. exact Hf.
Qed.

End Invariant.

(** *** The invariant, decided

    For key and value ranges given as tests, the invariant of a table
    at hand is checked by running over its directory. *)
Section Check.
Variable domb : K -> bool.
Variable ranb : V -> bool.
Variable hbits : Z.

Definition bucket_okb (t : ExtendibleHashTable) (b : Bucket) : bool :=
  (0 <=? depth_ b) && (depth_ b <=? global_depth_ t) &&
  (size_ b =? bucket_size_ t) && (Z.of_nat (length (list_ b)) <=? size_ b).

Definition items_okb (depth i : Z) (l : list (K * V)) : bool :=
  forallb (fun kv => domb (fst kv) && ranb (snd kv) &&
                     (hash (fst kv) mod 2 ^ depth =? i mod 2 ^ depth)) l.

Definition slots (t : ExtendibleHashTable) : list Z :=
  iota (Z.of_nat (length (dir_ t))).

Definition slot_okb (t : ExtendibleHashTable) (i : Z) : bool :=
  match lookupZ (dir_ t) i with
  | Some p =>
      match heap_ t !! p with
      | Some b =>
          bucket_okb t b && items_okb (depth_ b) i (list_ b) &&
          forallb (fun j => match lookupZ (dir_ t) j with
                            | Some q => negb (Nat.eqb q p) ||
                                        (i mod 2 ^ depth_ b =? j mod 2 ^ depth_ b)
                            | None => true
                            end) (slots t)
      | None => false
      end
  | None => false
  end.

Definition wfb (t : ExtendibleHashTable) : bool :=
  (0 <=? global_depth_ t) && (global_depth_ t <=? hbits) &&
  (Z.of_nat (length (dir_ t)) =? 2 ^ global_depth_ t) &&
  (1 <=? bucket_size_ t) && forallb (slot_okb t) (slots t).

Lemma table_wfb_sound t :
  wfb t = true ->
  wf (fun k => domb k = true) (fun v => ranb v = true) hbits t.
Proof.
  unfold wfb. rewrite !andb_true_iff.
  intros ((((Hd & Hb) & Hl) & Hs) & Hall).
  apply Z.leb_le in Hd, Hb, Hs. apply Z.eqb_eq in Hl.
  rewrite forallb_forall in Hall.
  assert (Hslot : forall i p, lookupZ (dir_ t) i = Some p -> slot_okb t i = true).
  { intros i p Hi. apply Hall. unfold slots. apply In_iota.
    apply (lookupZ_Some_range _ _ _ Hi). }
  split; try assumption.
  - intros i p Hi. pose proof (Hslot i p Hi) as Hok. unfold slot_okb in Hok.
    rewrite Hi in Hok. destruct (heap_ t !! p) as [b|]; [|discriminate].
    rewrite !andb_true_iff in Hok. destruct Hok as [[Hbk Hit] _].
    exists b. split; [reflexivity|]. split.
    + unfold bucket_okb in Hbk. rewrite !andb_true_iff in Hbk.
      destruct Hbk as (((H1 & H2) & H3) & H4).
      apply Z.leb_le in H1, H2, H4. apply Z.eqb_eq in H3. split; lia.
    + unfold items_okb in Hit. rewrite forallb_forall in Hit.
      intros k v Hin. specialize (Hit _ Hin). simpl in Hit.
      rewrite !andb_true_iff in Hit. destruct Hit as [[H1 H2] H3].
      apply Z.eqb_eq in H3. auto.
  - intros i j p b Hi Hj Hp. pose proof (Hslot i p Hi) as Hok.
    unfold slot_okb in Hok. rewrite Hi, Hp in Hok.
    rewrite !andb_true_iff in Hok. destruct Hok as [_ Hsame].
    rewrite forallb_forall in Hsame.
    assert (Hin : In j (slots t)).
    { unfold slots. apply In_iota. apply (lookupZ_Some_range _ _ _ Hj). }
    specialize (Hsame j Hin). simpl in Hsame. rewrite Hj in Hsame.
    rewrite Nat.eqb_refl in Hsame. simpl in Hsame.
    apply Z.eqb_eq in Hsame. assumption.
Qed.

End Check.

Lemma wf_mono (dom dom' : K -> Prop) (ran ran' : V -> Prop) hbits t :
  (forall k, dom k -> dom' k) -> (forall v, ran v -> ran' v) ->
  wf dom ran hbits t -> wf dom' ran' hbits t.
Proof.
  intros Hdom Hran H. split; try apply H.
  intros i p Hi. destruct (wf_slot _ _ _ t H _ _ Hi) as (b & Hb & Hok & Hit).
  exists b. split; [assumption|]. split.
  - destruct Hok. split; assumption.
  - intros k v Hin. destruct (Hit k v Hin) as (? & ? & ?). auto.
Qed.

End Table.

Arguments Bucket : clear implicits.
Arguments ExtendibleHashTable : clear implicits.
End EHT.

(** ** The directory on four keys (scenario 4 of the specification) *)

Module EHTScenario.

(** [std::hash<int>] of libstdc++ is the value itself, as a [size_t]. *)
Definition hash_int (k : Z) : Z := wrap64 k.

Definition insert_all {V} (fuel : nat) (items : list (Z * V))
    (t : EHT.ExtendibleHashTable Z V) : outcome (EHT.ExtendibleHashTable Z V) :=
  fold_left (fun acc kv => let* t0 := acc in
                           EHT.Insert hash_int fuel (fst kv) (snd kv) t0)
            items (Ret t).

(** Global depth 0, bucket capacity 2; keys 0, 1, 2, 3 hash to
    themselves. *)
Definition four_items {V} (v0 v1 v2 v3 : V) : outcome (EHT.ExtendibleHashTable Z V) :=
  insert_all 8 [(0, v0); (1, v1); (2, v2); (3, v3)] (EHT.new_table 2).

Definition local_depths {V} (t : EHT.ExtendibleHashTable Z V) : list (outcome Z) :=
  map (fun i => EHT.GetLocalDepth i t) (EHT.iota (Z.of_nat (length (EHT.dir_ t)))).

Definition live_items {V} (t : EHT.ExtendibleHashTable Z V) : list (list (Z * V)) :=
  omap (fun p => option_map EHT.list_ (EHT.heap_ t !! p)) (EHT.live_buckets t).

End EHTScenario.

(** ** LRU-K replacer
    (lru_k_replacer.cpp, the complete version: the one with the
    destructor and the frame-id guards, which the buffer pool manager
    is built on; it stands in src/container/hash/extendible_hash_table.cpp,
    lines 384-534.  The earlier draft in src/buffer/lru_k_replacer.cpp
    has no guard and does not keep the left links of its list.)

    The three sentinels [l_], [m_], [r_] split the doubly linked list in
    two: [fifo] holds the nodes between [l_] and [m_], [lru] those
    between [m_] and [r_], both read from left to right.  [map_] has
    exactly the nodes of the list, so a lookup in [map_] is a search of
    the two lists by key. *)

Module LRUK.

Record LinkedNode := mkNode {
  key_ : Z;
  frequency_ : Z;
  evictable_ : bool
}.

(** [LinkedNode::LinkedNode(key)] *)
Definition new_node (key : Z) : LinkedNode := mkNode key 1 false.

Record LRUKReplacer := mkReplacer {
  curr_size_ : Z;
  replacer_size_ : Z;
  k_ : Z;
  fifo_size_ : Z;
  lru_size_ : Z;
  fifo : list LinkedNode;
  lru : list LinkedNode
}.

Definition new_replacer (num_frames k : Z) : LRUKReplacer :=
  mkReplacer 0 num_frames k 0 0 [] [].

Definition nodes (r : LRUKReplacer) : list LinkedNode := fifo r ++ lru r.

(** [map_.count(frame_id)] and [map_[frame_id]] *)
Fixpoint find_node (frame_id : Z) (l : list LinkedNode) : option LinkedNode :=
  match l with
  | [] => None
  | n :: rest => if key_ n =? frame_id then Some n else find_node frame_id rest
  end.

Definition map_ (r : LRUKReplacer) (frame_id : Z) : option LinkedNode :=
  find_node frame_id (nodes r).

(** Unlinking a node, and writing a field of a node where it stands. *)
Definition unlink (frame_id : Z) (l : list LinkedNode) : list LinkedNode :=
  List.filter (fun n => negb (key_ n =? frame_id)) l.

Definition replace_node (n' : LinkedNode) (l : list LinkedNode) : list LinkedNode :=
  map (fun n => if key_ n =? key_ n' then n' else n) l.

Definition Size (r : LRUKReplacer) : Z := wrap64 (lru_size_ r + fifo_size_ r).

(** The walk of [Evict] over one region, from its right end to its
    left end: the first evictable node met, and the region without it. *)
Fixpoint take_victim (l : list LinkedNode) : option (LinkedNode * list LinkedNode) :=
  match l with
  | [] => None
  | n :: rest =>
      match take_victim rest with
      | Some (v, rest') => Some (v, n :: rest')
      | None => if evictable_ n then Some (n, rest) else None
      end
  end.

Definition count_down (r : LRUKReplacer) (node : LinkedNode) (threshold : Z)
  : Z * Z :=
  if threshold <=? frequency_ node
  then (fifo_size_ r, wrap64 (lru_size_ r - 1))
  else (wrap64 (fifo_size_ r - 1), lru_size_ r).

Definition Evict (r : LRUKReplacer) : option Z * LRUKReplacer :=
  if Size r =? 0 then (None, r)
  else
    match take_victim (fifo r) with
    | Some (node, fifo') =>
        let '(fs, ls) := count_down r node (k_ r) in
        (Some (key_ node),
         mkReplacer (curr_size_ r) (replacer_size_ r) (k_ r) fs ls fifo' (lru r))
    | None =>
        match take_victim (lru r) with
        | Some (node, lru') =>
            let '(fs, ls) := count_down r node (k_ r) in
            (Some (key_ node),
             mkReplacer (curr_size_ r) (replacer_size_ r) (k_ r) fs ls (fifo r) lru')
        | None => (None, r)
        end
    end.

(** [static_cast<size_t>(frame_id) > replacer_size_] *)
Definition invalid_frame (frame_id : Z) (r : LRUKReplacer) : bool :=
  replacer_size_ r <? wrap64 frame_id.

Definition RecordAccess (frame_id : Z) (r : LRUKReplacer) : outcome LRUKReplacer :=
  if invalid_frame frame_id r then Throw "invalid frame_id in LRU_K RecordAccess.."
  else
    match map_ r frame_id with
    | Some n =>
        let n' := mkNode (key_ n) (frequency_ n + 1) (evictable_ n) in
        if k_ r <=? frequency_ n' then
          Ret (mkReplacer (curr_size_ r) (replacer_size_ r) (k_ r)
                 (fifo_size_ r) (lru_size_ r)
                 (unlink frame_id (fifo r)) (n' :: unlink frame_id (lru r)))
        else
          Ret (mkReplacer (curr_size_ r) (replacer_size_ r) (k_ r)
                 (fifo_size_ r) (lru_size_ r)
                 (replace_node n' (fifo r)) (replace_node n' (lru r)))
    | None =>
        Ret (mkReplacer (curr_size_ r + 1) (replacer_size_ r) (k_ r)
               (fifo_size_ r) (lru_size_ r)
               (new_node frame_id :: fifo r) (lru r))
    end.

Definition SetEvictable (frame_id : Z) (set_evictable : bool) (r : LRUKReplacer)
  : outcome LRUKReplacer :=
  if invalid_frame frame_id r then Throw "invalid frame_id in LRU_K RecordAccess.."
  else
    match map_ r frame_id with
    | None => Ret r
    | Some n =>
        let old_flag := evictable_ n in
        if (set_evictable && old_flag) || (negb set_evictable && negb old_flag)
        then Ret r
        else
          let n' := mkNode (key_ n) (frequency_ n) set_evictable in
          let change := if old_flag then -1 else 1 in
          let '(fs, ls) :=
            if 2 <=? frequency_ n
            then (fifo_size_ r, wrap64 (lru_size_ r + change))
            else (wrap64 (fifo_size_ r + change), lru_size_ r) in
          Ret (mkReplacer (curr_size_ r) (replacer_size_ r) (k_ r) fs ls
                 (replace_node n' (fifo r)) (replace_node n' (lru r)))
    end.

Definition Remove (frame_id : Z) (r : LRUKReplacer) : LRUKReplacer :=
  match map_ r frame_id with
  | None => r
  | Some node =>
      if evictable_ node then
        let '(fs, ls) := count_down r node 2 in
        mkReplacer (curr_size_ r) (replacer_size_ r) (k_ r) fs ls
          (unlink frame_id (fifo r)) (unlink frame_id (lru r))
      else r
  end.

(** Calls from a client, and a run of them.  A call that throws
    leaves the replacer as it was (both guards come first). *)
Inductive op :=
| OpRecordAccess (frame_id : Z)
| OpSetEvictable (frame_id : Z) (set_evictable : bool)
| OpEvict
| OpRemove (frame_id : Z).

Definition settle (r : LRUKReplacer) (o : outcome LRUKReplacer) : LRUKReplacer :=
  match o with Ret r' => r' | _ => r end.

Definition step (r : LRUKReplacer) (o : op) : LRUKReplacer :=
  match o with
  | OpRecordAccess f => settle r (RecordAccess f r)
  | OpSetEvictable f b => settle r (SetEvictable f b r)
  | OpEvict => snd (Evict r)
  | OpRemove f => Remove f r
  end.

Definition run (ops : list op) (r : LRUKReplacer) : LRUKReplacer :=
  fold_left step ops r.

Definition op_frame (o : op) : option Z :=
  match o with
  | OpRecordAccess f | OpSetEvictable f _ | OpRemove f => Some f
  | OpEvict => None
  end.

(** The frames the replacer tracks whose flag is set. *)
Definition ecount (l : list LinkedNode) : Z :=
  Z.of_nat (length (List.filter evictable_ l)).

Definition evictable_count (r : LRUKReplacer) : Z := ecount (nodes r).

(** *** Facts about the list primitives *)

Definition b2z (b : bool) : Z := if b then 1 else 0.

Definition keys (l : list LinkedNode) : list Z := map key_ l.

Lemma ecount_cons n l : ecount (n :: l) = b2z (evictable_ n) + ecount l.
Proof.
  unfold ecount. simpl. destruct (evictable_ n); simpl length; unfold b2z; lia.
Qed.

Lemma ecount_app l1 l2 : ecount (l1 ++ l2) = ecount l1 + ecount l2.
Proof.
  unfold ecount. rewrite List.filter_app, length_app. lia.
Qed.

Lemma ecount_bounds l : 0 <= ecount l <= Z.of_nat (length l).
Proof.
  unfold ecount. pose proof (List.filter_length_le evictable_ l). lia.
Qed.

Lemma ecount_zero l : ecount l = 0 <-> Forall (fun n => evictable_ n = false) l.
Proof.
  induction l as [|n l IH].
  - split; [constructor | reflexivity].
  - rewrite ecount_cons. pose proof (ecount_bounds l) as Hb. split.
    + intros H. destruct (evictable_ n) eqn:E; unfold b2z in H; [lia|].
      constructor; [exact E | apply IH; lia].
    + intros H. inversion H as [|? ? Hn Hl]; subst. rewrite Hn.
      apply IH in Hl. unfold b2z. lia.
Qed.

Lemma find_node_Some f l n :
  find_node f l = Some n -> key_ n = f /\ In n l.
Proof.
  induction l as [|m l IH]; simpl; [discriminate|].
  destruct (key_ m =? f) eqn:E.
  - intros [= <-]. apply Z.eqb_eq in E. auto.
  - intros H. destruct (IH H). auto.
Qed.

Lemma find_node_None f l :
  find_node f l = None <-> ~ In f (keys l).
Proof.
  induction l as [|m l IH]; simpl; [tauto|].
  destruct (key_ m =? f) eqn:E.
  - apply Z.eqb_eq in E. split; [discriminate | tauto].
  - apply Z.eqb_neq in E. tauto.
Qed.

Lemma find_node_app f l1 l2 :
  find_node f (l1 ++ l2) =
  match find_node f l1 with Some n => Some n | None => find_node f l2 end.
Proof.
  induction l1 as [|m l1 IH]; simpl; [reflexivity|].
  destruct (key_ m =? f); auto.
Qed.

Lemma unlink_absent f l : ~ In f (keys l) -> unlink f l = l.
Proof.
  induction l as [|m l IH]; simpl; [reflexivity|]. intros H.
  destruct (key_ m =? f) eqn:E.
  - apply Z.eqb_eq in E. tauto.
  - simpl. f_equal. tauto.
Qed.

Lemma keys_unlink f l : keys (unlink f l) = List.filter (fun k => negb (k =? f)) (keys l).
Proof.
  induction l as [|m l IH]; simpl; [reflexivity|].
  destruct (key_ m =? f); simpl; congruence.
Qed.

Lemma unlink_not_in f l : ~ In f (keys (unlink f l)).
Proof.
  rewrite keys_unlink, List.filter_In. intros [_ H].
  rewrite Z.eqb_refl in H. discriminate.
Qed.

Lemma unlink_incl f l n : In n (unlink f l) -> In n l.
Proof. unfold unlink. rewrite List.filter_In. tauto. Qed.

Lemma NoDup_keys_unlink f l : List.NoDup (keys l) -> List.NoDup (keys (unlink f l)).
Proof. rewrite keys_unlink. apply List.NoDup_filter. Qed.

Lemma ecount_unlink f l n :
  List.NoDup (keys l) -> find_node f l = Some n ->
  ecount (unlink f l) = ecount l - b2z (evictable_ n).
Proof.
  induction l as [|m l IH]; simpl; [discriminate|].
  intros Hnd Hf. inversion Hnd as [|? ? Hm Hl]; subst.
  destruct (key_ m =? f) eqn:E.
  - injection Hf as <-. apply Z.eqb_eq in E. subst f. simpl.
    rewrite unlink_absent by assumption. rewrite ecount_cons. lia.
  - simpl. rewrite !ecount_cons. rewrite IH by assumption. lia.
Qed.

Lemma keys_replace n' l : keys (replace_node n' l) = keys l.
Proof.
  induction l as [|m l IH]; simpl; [reflexivity|].
  destruct (key_ m =? key_ n') eqn:E; simpl; [|congruence].
  apply Z.eqb_eq in E. congruence.
Qed.

Lemma replace_absent n' l : ~ In (key_ n') (keys l) -> replace_node n' l = l.
Proof.
  induction l as [|m l IH]; simpl; [reflexivity|]. intros H.
  destruct (key_ m =? key_ n') eqn:E.
  - apply Z.eqb_eq in E. tauto.
  - f_equal. tauto.
Qed.

Lemma ecount_replace n n' l :
  List.NoDup (keys l) -> find_node (key_ n') l = Some n ->
  ecount (replace_node n' l) = ecount l - b2z (evictable_ n) + b2z (evictable_ n').
Proof.
  induction l as [|m l IH]; simpl; [discriminate|].
  intros Hnd Hf. inversion Hnd as [|? ? Hm Hl]; subst.
  destruct (key_ m =? key_ n') eqn:E.
  - injection Hf as <-. apply Z.eqb_eq in E. rewrite E in Hm.
    rewrite replace_absent by assumption. rewrite !ecount_cons. lia.
  - rewrite !ecount_cons. rewrite IH by assumption. lia.
Qed.

Lemma replace_In n' l x :
  In x (replace_node n' l) -> x = n' \/ In x l.
Proof.
  unfold replace_node. rewrite in_map_iff. intros [m [Hm Hin]].
  destruct (key_ m =? key_ n'); subst; auto.
Qed.

(** The walk of [Evict] over a region. *)
Lemma take_victim_Some l v l' :
  take_victim l = Some (v, l') ->
  exists l1 l2, l = l1 ++ v :: l2 /\ l' = l1 ++ l2 /\
                evictable_ v = true /\
                Forall (fun n => evictable_ n = false) l2.
Proof.
  revert v l'. induction l as [|n l IH]; simpl; [discriminate|].
  intros v l'. destruct (take_victim l) as [[w r]|] eqn:E.
  - intros [= <- <-]. destruct (IH _ _ eq_refl) as (l1 & l2 & -> & -> & Hv & Hl2).
    exists (n :: l1), l2. auto.
  - destruct (evictable_ n) eqn:En; [|discriminate].
    intros [= <- <-]. exists [], l. repeat split; auto.
    clear IH. induction l as [|m l IHl]; [constructor|].
    simpl in E. destruct (take_victim l) as [[w r]|]; [discriminate|].
    destruct (evictable_ m) eqn:Em; [discriminate|]. constructor; auto.
Qed.

Lemma take_victim_None l :
  take_victim l = None <-> Forall (fun n => evictable_ n = false) l.
Proof.
  induction l as [|n l IH]; simpl.
  - split; [constructor | reflexivity].
  - destruct (take_victim l) as [[w r]|].
    + split; [discriminate|]. intros H. inversion H as [|? ? _ Hl]; subst.
      apply IH in Hl. discriminate.
    + destruct (evictable_ n) eqn:En.
      * split; [discriminate|]. intros H. inversion H; congruence.
      * split; [|reflexivity]. intros _. constructor; [assumption|].
        apply IH. reflexivity.
Qed.


(** *** The invariant of the replacer *)

(** [frame_id_t] is BusTub's [int32_t] (common/config.h). *)
Definition is_frame_id (f : Z) : Prop := - 2 ^ 31 <= f < 2 ^ 31.

Record wf (r : LRUKReplacer) : Prop := mk_wf {
  wf_nodup : List.NoDup (keys (nodes r));
  wf_typed : Forall (fun n => is_frame_id (key_ n)) (nodes r);
  wf_count : wrap64 (lru_size_ r + fifo_size_ r) = wrap64 (evictable_count r)
}.

Lemma wrap64_idem a : wrap64 (wrap64 a) = wrap64 a.
Proof. unfold wrap64. apply Z.mod_mod. lia. Qed.

Lemma wrap64_add_l a b : wrap64 (wrap64 a + b) = wrap64 (a + b).
Proof. unfold wrap64. apply Zplus_mod_idemp_l. Qed.

Lemma wrap64_add_r a b : wrap64 (a + wrap64 b) = wrap64 (a + b).
Proof. unfold wrap64. apply Zplus_mod_idemp_r. Qed.

Lemma wrap64_shift a b c : wrap64 a = wrap64 b -> wrap64 (a + c) = wrap64 (b + c).
Proof.
  intros H. rewrite <- (wrap64_add_l a), <- (wrap64_add_l b). congruence.
Qed.

Lemma wrap64_small a : 0 <= a < 2 ^ 64 -> wrap64 a = a.
Proof. apply Z.mod_small. Qed.

(** There are no more distinct frame ids than values of the type. *)
Lemma bounded_nodup_length (l : list Z) (lo : Z) (n : nat) :
  List.NoDup l -> (forall x, In x l -> lo <= x < lo + Z.of_nat n) ->
  (length l <= n)%nat.
Proof.
  intros Hnd Hr.
  assert (H : (length (map (fun x => Z.to_nat (x - lo)) l) <= length (seq 0 n))%nat).
  { apply List.NoDup_incl_length.
    - apply Finite.Injective_map_NoDup_in; [|assumption].
      intros x y Hx Hy Hxy. apply Hr in Hx, Hy. lia.
    - intros y Hy. apply in_map_iff in Hy as [x [<- Hx]].
      apply Hr in Hx. apply in_seq. lia. }
  rewrite length_map, length_seq in H. exact H.
Qed.

Lemma wf_count_bound r : wf r -> 0 <= evictable_count r <= 2 ^ 32.
Proof.
  intros [Hnd Hty _]. unfold evictable_count.
  pose proof (ecount_bounds (nodes r)) as Hb.
  assert (Hlen : (length (keys (nodes r)) <= Z.to_nat (2 ^ 32))%nat).
  { apply (bounded_nodup_length _ (- 2 ^ 31)); [assumption|].
    intros x Hx. apply in_map_iff in Hx as [n [<- Hn]].
    rewrite Forall_forall in Hty. apply list_elem_of_In in Hn.
    specialize (Hty _ Hn). unfold is_frame_id in Hty.
    rewrite Z2Nat.id by lia. lia. }
  unfold keys in Hlen. rewrite length_map in Hlen.
  apply Nat2Z.inj_le in Hlen. rewrite Z2Nat.id in Hlen by lia. lia.
Qed.

Lemma Size_wf r : wf r -> Size r = evictable_count r.
Proof.
  intros H. unfold Size. rewrite (wf_count r H).
  apply wrap64_small. pose proof (wf_count_bound r H). lia.
Qed.

Lemma wf_new num_frames k : wf (new_replacer num_frames k).
Proof. split; simpl; [constructor | constructor | reflexivity]. Qed.

Lemma find_node_unique l m :
  List.NoDup (keys l) -> In m l -> find_node (key_ m) l = Some m.
Proof.
  induction l as [|x l IH]; simpl; [tauto|].
  intros Hnd [->|Hin].
  - rewrite Z.eqb_refl. reflexivity.
  - inversion Hnd as [|? ? Hx Hl]; subst.
    destruct (key_ x =? key_ m) eqn:E; [|auto].
    apply Z.eqb_eq in E. exfalso. apply Hx. rewrite E.
    apply in_map. assumption.
Qed.

Lemma replace_In_strong n' l x :
  In x (replace_node n' l) ->
  (x = n' /\ exists m, In m l /\ key_ m = key_ n') \/ In x l.
Proof.
  unfold replace_node. rewrite in_map_iff. intros [m [Hm Hin]].
  destruct (key_ m =? key_ n') eqn:E; subst; [|auto].
  apply Z.eqb_eq in E. left. eauto.
Qed.

Lemma nodes_replace n' r fs ls cs :
  nodes (mkReplacer cs (replacer_size_ r) (k_ r) fs ls
           (replace_node n' (fifo r)) (replace_node n' (lru r)))
  = replace_node n' (nodes r).
Proof. unfold nodes, replace_node. simpl. rewrite map_app. reflexivity. Qed.

Lemma unlink_app f l1 l2 : unlink f (l1 ++ l2) = unlink f l1 ++ unlink f l2.
Proof. apply List.filter_app. Qed.

Lemma Forall_unlink (P : LinkedNode -> Prop) f l :
  Forall P l -> Forall P (unlink f l).
Proof.
  rewrite !Forall_forall. intros H x Hx. apply H.
  apply list_elem_of_In. apply list_elem_of_In in Hx. eauto using unlink_incl.
Qed.

Lemma Forall_replace (P : LinkedNode -> Prop) n' l :
  Forall P l -> P n' -> Forall P (replace_node n' l).
Proof.
  rewrite !Forall_forall. intros H Hn x Hx. apply list_elem_of_In in Hx.
  apply replace_In in Hx as [->|Hx]; [assumption|].
  apply H. apply list_elem_of_In. assumption.
Qed.

Lemma NoDup_keys_move f l1 l2 n' :
  key_ n' = f -> List.NoDup (keys (l1 ++ l2)) ->
  List.NoDup (keys (unlink f l1 ++ n' :: unlink f l2)).
Proof.
  intros Hk Hnd. unfold keys. rewrite map_app. simpl.
  apply List.NoDup_Add with (a := key_ n') (l := keys (unlink f (l1 ++ l2))).
  - rewrite unlink_app. unfold keys. rewrite map_app. apply Add_app.
  - split; [apply NoDup_keys_unlink; assumption|].
    rewrite Hk. apply unlink_not_in.
Qed.

Lemma ecount_move f l1 l2 n n' :
  List.NoDup (keys (l1 ++ l2)) -> find_node f (l1 ++ l2) = Some n ->
  evictable_ n' = evictable_ n ->
  ecount (unlink f l1 ++ n' :: unlink f l2) = ecount (l1 ++ l2).
Proof.
  intros Hnd Hf He.
  pose proof (ecount_unlink f _ n Hnd Hf) as Hu.
  rewrite unlink_app, !ecount_app in Hu.
  rewrite !ecount_app, ecount_cons, He. lia.
Qed.

Lemma typed_node_of r f n :
  wf r -> map_ r f = Some n -> is_frame_id f.
Proof.
  intros H Hf. apply find_node_Some in Hf as [<- Hin].
  pose proof (wf_typed r H) as Hty. rewrite Forall_forall in Hty.
  apply Hty. apply list_elem_of_In. assumption.
Qed.

Lemma wf_RecordAccess f r r' :
  is_frame_id f -> wf r -> RecordAccess f r = Ret r' -> wf r'.
Proof.
  intros Hf H. unfold RecordAccess.
  destruct (invalid_frame f r); [discriminate|].
  destruct (map_ r f) as [n|] eqn:Hn.
  - pose proof Hn as Hn0. apply find_node_Some in Hn0 as [Hkey Hin].
    simpl. destruct (k_ r <=? frequency_ n + 1); simpl; intros [= <-].
    + split; unfold nodes, evictable_count; simpl.
      * apply NoDup_keys_move; [assumption | apply (wf_nodup r H)].
      * pose proof (wf_typed r H) as Hty. unfold nodes in Hty.
        apply Forall_app in Hty as [H1 H2]. apply Forall_app. split.
        -- apply Forall_unlink. assumption.
        -- constructor; [simpl; rewrite Hkey; assumption|].
           apply Forall_unlink. assumption.
      * rewrite (wf_count r H). f_equal. unfold evictable_count, nodes. simpl.
        symmetry. apply (ecount_move f _ _ n); [apply (wf_nodup r H) | exact Hn | reflexivity].
    + split.
      * rewrite nodes_replace, keys_replace. apply (wf_nodup r H).
      * rewrite nodes_replace. apply Forall_replace; [apply (wf_typed r H)|].
        simpl. rewrite Hkey. assumption.
      * unfold evictable_count. rewrite nodes_replace. simpl.
        rewrite (ecount_replace n); [simpl | apply (wf_nodup r H) | simpl; rewrite Hkey; exact Hn].
        rewrite (wf_count r H). f_equal. unfold evictable_count. lia.
  - intros [= <-]. unfold map_ in Hn. apply find_node_None in Hn.
    split; unfold nodes, evictable_count; simpl.
    + constructor; [assumption | apply (wf_nodup r H)].
    + constructor; [assumption | apply (wf_typed r H)].
    + unfold nodes. simpl. rewrite ecount_cons. simpl. apply (wf_count r H).
Qed.

Lemma wf_SetEvictable f b r r' :
  wf r -> SetEvictable f b r = Ret r' -> wf r'.
Proof.
  intros H. unfold SetEvictable.
  destruct (invalid_frame f r); [discriminate|].
  destruct (map_ r f) as [n|] eqn:Hn; [|intros [= <-]; assumption].
  pose proof Hn as Hn0. apply find_node_Some in Hn0 as [Hkey Hin].
  destruct (b && evictable_ n || negb b && negb (evictable_ n)) eqn:Hsame;
    [intros [= <-]; assumption|].
  assert (Hflip : b = negb (evictable_ n))
    by (revert Hsame; destruct b, (evictable_ n); simpl; congruence).
  assert (Hcount : wrap64 (lru_size_ r + fifo_size_ r + (if evictable_ n then -1 else 1))
                   = wrap64 (ecount (replace_node (mkNode (key_ n) (frequency_ n) b) (nodes r)))).
  { rewrite (ecount_replace n); [simpl | apply (wf_nodup r H) | simpl; rewrite Hkey; exact Hn].
    rewrite (wrap64_shift _ _ _ (wf_count r H)). f_equal. unfold evictable_count.
    rewrite Hflip. destruct (evictable_ n); simpl; lia. }
  destruct (2 <=? frequency_ n); intros [= <-]; split;
    rewrite ?nodes_replace, ?keys_replace; simpl;
    try apply (wf_nodup r H);
    try (apply Forall_replace; [apply (wf_typed r H) | simpl; rewrite Hkey; eauto using typed_node_of]).
  - unfold evictable_count. rewrite nodes_replace, wrap64_add_l, <- Hcount. f_equal. lia.
  - unfold evictable_count. rewrite nodes_replace, wrap64_add_r, <- Hcount. f_equal. lia.
Qed.


Lemma count_down_sum r node t fs ls :
  count_down r node t = (fs, ls) ->
  wrap64 (ls + fs) = wrap64 (lru_size_ r + fifo_size_ r - 1).
Proof.
  unfold count_down. destruct (t <=? frequency_ node); intros [= <- <-].
  - rewrite wrap64_add_l. f_equal. lia.
  - rewrite wrap64_add_r. f_equal. lia.
Qed.

Lemma wf_drop r r' a v b :
  wf r -> nodes r = a ++ v :: b -> nodes r' = a ++ b ->
  evictable_ v = true ->
  wrap64 (lru_size_ r' + fifo_size_ r') = wrap64 (lru_size_ r + fifo_size_ r - 1) ->
  wf r'.
Proof.
  intros [Hnd Hty Hc] Hr Hr' Hv Hsum. split.
  - rewrite Hr'. rewrite Hr in Hnd. unfold keys in *.
    rewrite map_app in *. simpl in Hnd. eapply List.NoDup_remove_1. eassumption.
  - rewrite Hr'. rewrite Hr in Hty. apply Forall_app in Hty as [Ha Hb].
    inversion Hb; subst. apply Forall_app. auto.
  - rewrite Hsum. unfold Z.sub. rewrite (wrap64_shift _ _ _ Hc). f_equal.
    unfold evictable_count. rewrite Hr, Hr', !ecount_app, ecount_cons, Hv.
    simpl. lia.
Qed.

Lemma wf_Evict r : wf r -> wf (snd (Evict r)).
Proof.
  intros H. unfold Evict. destruct (Size r =? 0); [assumption|].
  destruct (take_victim (fifo r)) as [[node fifo']|] eqn:Ef.
  - destruct (count_down r node (k_ r)) as [fs ls] eqn:Ec. simpl.
    apply take_victim_Some in Ef as (l1 & l2 & Hl & -> & Hv & _).
    apply (wf_drop r _ l1 node (l2 ++ lru r)); auto.
    + unfold nodes. rewrite Hl, <- app_assoc. reflexivity.
    + unfold nodes. simpl. rewrite <- app_assoc. reflexivity.
    + simpl. eauto using count_down_sum.
  - destruct (take_victim (lru r)) as [[node lru']|] eqn:El; [|assumption].
    destruct (count_down r node (k_ r)) as [fs ls] eqn:Ec. simpl.
    apply take_victim_Some in El as (l1 & l2 & Hl & -> & Hv & _).
    apply (wf_drop r _ (fifo r ++ l1) node l2); auto.
    + unfold nodes. rewrite Hl, <- app_assoc. reflexivity.
    + unfold nodes. simpl. rewrite <- app_assoc. reflexivity.
    + simpl. eauto using count_down_sum.
Qed.

Lemma wf_Remove f r : wf r -> wf (Remove f r).
Proof.
  intros H. unfold Remove.
  destruct (map_ r f) as [node|] eqn:Hn; [|assumption].
  destruct (evictable_ node) eqn:Hv; [|assumption].
  destruct (count_down r node 2) as [fs ls] eqn:Ec.
  assert (Hnodes : nodes (mkReplacer (curr_size_ r) (replacer_size_ r) (k_ r) fs ls
                            (unlink f (fifo r)) (unlink f (lru r)))
                   = unlink f (nodes r))
    by (unfold nodes; simpl; rewrite unlink_app; reflexivity).
  split; unfold evictable_count; rewrite Hnodes.
  - apply NoDup_keys_unlink, (wf_nodup r H).
  - apply Forall_unlink, (wf_typed r H).
  - simpl. rewrite (count_down_sum _ _ _ _ _ Ec). unfold Z.sub.
    rewrite (wrap64_shift _ _ _ (wf_count r H)). f_equal.
    rewrite (ecount_unlink f _ node); [|apply (wf_nodup r H)|exact Hn].
    rewrite Hv. unfold evictable_count. simpl. lia.
Qed.

(** *** Which frames stand in which region *)

(** A node enters the list with count 1 and leaves the left region
    when its count reaches [k_] on a later access: the left region
    holds the counts below [max k_ 2]. *)
Definition threshold (r : LRUKReplacer) : Z := Z.max (k_ r) 2.

Record regions (r : LRUKReplacer) : Prop := mk_regions {
  reg_fifo : Forall (fun n => 1 <= frequency_ n < threshold r) (fifo r);
  reg_lru : Forall (fun n => threshold r <= frequency_ n) (lru r)
}.

Lemma regions_new num_frames k : regions (new_replacer num_frames k).
Proof. split; constructor. Qed.

Lemma Forall_In {A} (P : A -> Prop) l x : Forall P l -> In x l -> P x.
Proof.
  rewrite Forall_forall. intros H Hx. apply H, list_elem_of_In, Hx.
Qed.

Lemma Forall_replace_same (P : LinkedNode -> Prop) n n' l :
  (forall m, In m l -> key_ m = key_ n' -> m = n) ->
  Forall P l -> (In n l -> P n') -> Forall P (replace_node n' l).
Proof.
  intros Hu Hl Hn. rewrite Forall_forall. intros x Hx.
  apply list_elem_of_In, replace_In_strong in Hx as [[-> (m & Hm & Hk)]|Hx];
    [|apply (Forall_In _ _ _ Hl Hx)].
  apply Hn. rewrite <- (Hu m Hm Hk). assumption.
Qed.

Lemma node_unique r f n m :
  wf r -> map_ r f = Some n -> In m (nodes r) -> key_ m = f -> m = n.
Proof.
  intros H Hn Hm Hk. pose proof (find_node_unique _ _ (wf_nodup r H) Hm) as E.
  rewrite Hk in E. unfold map_ in Hn. congruence.
Qed.

Lemma node_frequency r n :
  regions r -> In n (nodes r) -> 1 <= frequency_ n.
Proof.
  intros [Hf Hl] Hin. apply in_app_or in Hin as [Hin|Hin].
  - apply (Forall_In _ _ _ Hf) in Hin. lia.
  - apply (Forall_In _ _ _ Hl) in Hin. unfold threshold in Hin. lia.
Qed.

Lemma regions_RecordAccess f r r' :
  wf r -> regions r -> RecordAccess f r = Ret r' -> regions r'.
Proof.
  intros H Hreg. unfold RecordAccess.
  destruct (invalid_frame f r); [discriminate|].
  destruct (map_ r f) as [n|] eqn:Hn.
  - pose proof Hn as Hn0. apply find_node_Some in Hn0 as [Hkey Hin].
    pose proof (node_frequency r n Hreg Hin) as Hfreq.
    destruct Hreg as [Hf Hl].
    simpl. destruct (k_ r <=? frequency_ n + 1) eqn:Ek; simpl; intros [= <-].
    + apply Z.leb_le in Ek. split; unfold threshold in *; simpl.
      * apply Forall_unlink. assumption.
      * constructor; [simpl; lia | apply Forall_unlink; assumption].
    + apply Z.leb_gt in Ek. split; unfold threshold in *; simpl.
      * apply (Forall_replace_same _ n); auto.
        -- intros m Hm Hk. apply (node_unique r f n m H Hn); [|simpl in Hk; lia].
           apply in_or_app. auto.
        -- intros _. simpl. lia.
      * apply (Forall_replace_same _ n); auto.
        -- intros m Hm Hk. apply (node_unique r f n m H Hn); [|simpl in Hk; lia].
           apply in_or_app. auto.
        -- intros Hnl. apply (Forall_In _ _ _ Hl) in Hnl. simpl. lia.
  - intros [= <-]. destruct Hreg as [Hf Hl].
    split; unfold threshold in *; simpl; [|assumption].
    constructor; [simpl; lia | assumption].
Qed.

Lemma regions_SetEvictable f b r r' :
  wf r -> regions r -> SetEvictable f b r = Ret r' -> regions r'.
Proof.
  intros H Hreg. unfold SetEvictable.
  destruct (invalid_frame f r); [discriminate|].
  destruct (map_ r f) as [n|] eqn:Hn; [|intros [= <-]; assumption].
  pose proof Hn as Hn0. apply find_node_Some in Hn0 as [Hkey Hin].
  destruct (b && evictable_ n || negb b && negb (evictable_ n));
    [intros [= <-]; assumption|].
  destruct Hreg as [Hf Hl].
  destruct (2 <=? frequency_ n); intros [= <-]; split; unfold threshold in *; simpl.
  all: apply (Forall_replace_same _ n); auto;
    [ intros m Hm Hk; apply (node_unique r f n m H Hn); [|simpl in Hk; lia];
      apply in_or_app; auto
    | intros Hnl;
      first [ apply (Forall_In _ _ _ Hf) in Hnl | apply (Forall_In _ _ _ Hl) in Hnl ];
      simpl; lia ].
Qed.

Lemma Forall_drop {A} (P : A -> Prop) l1 v l2 :
  Forall P (l1 ++ v :: l2) -> Forall P (l1 ++ l2).
Proof.
  intros H. apply Forall_app in H as [H1 H2]. inversion H2; subst.
  apply Forall_app. auto.
Qed.

Lemma regions_Evict r : regions r -> regions (snd (Evict r)).
Proof.
  intros [Hf Hl]. unfold Evict. destruct (Size r =? 0); [split; assumption|].
  destruct (take_victim (fifo r)) as [[node fifo']|] eqn:Ef.
  - destruct (count_down r node (k_ r)) as [fs ls]. simpl.
    apply take_victim_Some in Ef as (l1 & l2 & Hfifo & -> & _).
    rewrite Hfifo in Hf. split; unfold threshold in *; simpl;
      eauto using Forall_drop.
  - destruct (take_victim (lru r)) as [[node lru']|] eqn:El; [|split; assumption].
    destruct (count_down r node (k_ r)) as [fs ls]. simpl.
    apply take_victim_Some in El as (l1 & l2 & Hlru & -> & _).
    rewrite Hlru in Hl. split; unfold threshold in *; simpl;
      eauto using Forall_drop.
Qed.

Lemma regions_Remove f r : regions r -> regions (Remove f r).
Proof.
  intros [Hf Hl]. unfold Remove.
  destruct (map_ r f) as [node|]; [|split; assumption].
  destruct (evictable_ node); [|split; assumption].
  destruct (count_down r node 2) as [fs ls].
  split; unfold threshold in *; simpl; apply Forall_unlink; assumption.
Qed.

(** *** Runs *)

Definition typed_op (o : op) : Prop :=
  forall f, op_frame o = Some f -> is_frame_id f.

Lemma inv_step r o :
  typed_op o -> wf r /\ regions r -> wf (step r o) /\ regions (step r o).
Proof.
  intros Ho [H Hreg]. destruct o as [f|f b| |f]; simpl.
  - destruct (RecordAccess f r) as [r'| | |] eqn:E; simpl; auto.
    split; [eapply wf_RecordAccess | eapply regions_RecordAccess]; eauto.
  - destruct (SetEvictable f b r) as [r'| | |] eqn:E; simpl; auto.
    split; [eapply wf_SetEvictable | eapply regions_SetEvictable]; eauto.
  - split; [apply wf_Evict | apply regions_Evict]; assumption.
  - split; [apply wf_Remove | apply regions_Remove]; assumption.
Qed.

Lemma inv_run ops r :
  Forall typed_op ops -> wf r /\ regions r ->
  wf (run ops r) /\ regions (run ops r).
Proof.
  revert r. induction ops as [|o ops IH]; intros r Hops Hr; [exact Hr|].
  inversion Hops; subst. simpl. apply IH; [assumption|].
  apply inv_step; assumption.
Qed.

(** The states a client can bring a replacer to. *)
Definition reachable (r : LRUKReplacer) : Prop :=
  exists num_frames k ops,
    Forall typed_op ops /\ r = run ops (new_replacer num_frames k).

Lemma reachable_inv r : reachable r -> wf r /\ regions r.
Proof.
  intros (n & k & ops & Hops & ->). apply inv_run; [assumption|].
  split; [apply wf_new | apply regions_new].
Qed.

Lemma run_k ops r : k_ (run ops r) = k_ r.
Proof.
  revert r. induction ops as [|o ops IH]; intros r; [reflexivity|].
  simpl. rewrite IH. destruct o as [f|f b| |f]; simpl.
  - unfold RecordAccess. destruct (invalid_frame f r); [reflexivity|].
    destruct (map_ r f); simpl; [|reflexivity].
    destruct (k_ r <=? _); reflexivity.
  - unfold SetEvictable. destruct (invalid_frame f r); [reflexivity|].
    destruct (map_ r f); simpl; [|reflexivity].
    destruct (_ || _); [reflexivity|]. destruct (2 <=? _); reflexivity.
  - unfold Evict. destruct (Size r =? 0); [reflexivity|].
    destruct (take_victim (fifo r)) as [[? ?]|].
    + destruct (count_down _ _ _). reflexivity.
    + destruct (take_victim (lru r)) as [[? ?]|]; [|reflexivity].
      destruct (count_down _ _ _). reflexivity.
  - unfold Remove. destruct (map_ r f); [|reflexivity].
    destruct (evictable_ _); [|reflexivity].
    destruct (count_down _ _ _). reflexivity.
Qed.

(** *** What [Evict] returns *)

Lemma Evict_None_iff r :
  wf r -> (fst (Evict r) = None <-> evictable_count r = 0).
Proof.
  intros H. unfold Evict. rewrite (Size_wf r H).
  destruct (evictable_count r =? 0) eqn:E0.
  - apply Z.eqb_eq in E0. simpl. tauto.
  - apply Z.eqb_neq in E0.
    destruct (take_victim (fifo r)) as [[node fifo']|] eqn:Ef.
    + destruct (count_down r node (k_ r)). simpl. split; [discriminate | tauto].
    + destruct (take_victim (lru r)) as [[node lru']|] eqn:El.
      * destruct (count_down r node (k_ r)). simpl. split; [discriminate | tauto].
      * exfalso. apply E0. apply take_victim_None, ecount_zero in Ef, El.
        unfold evictable_count, nodes. rewrite ecount_app. lia.
Qed.

(** [v] is the evictable node of [region] nearest its right end,
    and [rest] is the region without it. *)
Definition oldest_evictable (region : list LinkedNode) (v : LinkedNode)
    (rest : list LinkedNode) : Prop :=
  exists l1 l2, region = l1 ++ v :: l2 /\ rest = l1 ++ l2 /\
                evictable_ v = true /\
                Forall (fun n => evictable_ n = false) l2.

Lemma Evict_policy r :
  wf r -> regions r ->
  (exists v rest,
      oldest_evictable (fifo r) v rest /\ frequency_ v < threshold r /\
      fst (Evict r) = Some (key_ v) /\
      fifo (snd (Evict r)) = rest /\ lru (snd (Evict r)) = lru r)
  \/ (Forall (fun n => evictable_ n = false) (fifo r) /\
      exists v rest,
        oldest_evictable (lru r) v rest /\ threshold r <= frequency_ v /\
        fst (Evict r) = Some (key_ v) /\
        fifo (snd (Evict r)) = fifo r /\ lru (snd (Evict r)) = rest)
  \/ (Forall (fun n => evictable_ n = false) (nodes r) /\ Evict r = (None, r)).
Proof.
  intros H [Hf Hl].
  destruct (take_victim (fifo r)) as [[node fifo']|] eqn:Ef.
  - left. pose proof Ef as Ef'.
    apply take_victim_Some in Ef' as (l1 & l2 & Hfifo & Hrest & Hv & Hl2).
    assert (Hin : In node (fifo r)) by (rewrite Hfifo; apply in_or_app; simpl; auto).
    assert (Hc : evictable_count r <> 0).
    { unfold evictable_count, nodes. rewrite Hfifo, !ecount_app, ecount_cons, Hv.
      pose proof (ecount_bounds l1). pose proof (ecount_bounds l2).
      pose proof (ecount_bounds (lru r)). simpl. lia. }
    exists node, fifo'. unfold Evict. rewrite (Size_wf r H).
    apply Z.eqb_neq in Hc. rewrite Hc, Ef.
    destruct (count_down r node (k_ r)). simpl.
    repeat split; auto.
    + exists l1, l2. auto.
    + apply (Forall_In _ _ _ Hf) in Hin. lia.
  - pose proof Ef as Ef'. apply take_victim_None in Ef'.
    destruct (take_victim (lru r)) as [[node lru']|] eqn:El.
    + right. left. split; [assumption|]. pose proof El as El'.
      apply take_victim_Some in El' as (l1 & l2 & Hlru & Hrest & Hv & Hl2).
      assert (Hin : In node (lru r)) by (rewrite Hlru; apply in_or_app; simpl; auto).
      assert (Hc : evictable_count r <> 0).
      { unfold evictable_count, nodes. rewrite Hlru, !ecount_app, ecount_cons, Hv.
        pose proof (ecount_bounds l1). pose proof (ecount_bounds l2).
        pose proof (ecount_bounds (fifo r)). simpl. lia. }
      exists node, lru'. unfold Evict. rewrite (Size_wf r H).
      apply Z.eqb_neq in Hc. rewrite Hc, Ef, El.
      destruct (count_down r node (k_ r)). simpl.
      repeat split; auto.
      * exists l1, l2. auto.
      * apply (Forall_In _ _ _ Hl) in Hin. lia.
    + right. right. pose proof El as El'. apply take_victim_None in El'.
      split; [unfold nodes; apply Forall_app; auto|].
      unfold Evict. rewrite Ef, El. destruct (Size r =? 0); reflexivity.
Qed.

(** *** The guard on frame ids *)

Lemma invalid_frame_spec f r :
  is_frame_id f -> 0 <= replacer_size_ r < 2 ^ 63 ->
  (invalid_frame f r = true <-> ~ (0 <= f <= replacer_size_ r)).
Proof.
  unfold is_frame_id, invalid_frame, wrap64. intros Hf Hr.
  rewrite Z.ltb_lt. destruct (Z_lt_le_dec f 0) as [Hneg|Hpos].
  - rewrite <- (Z_mod_plus_full f 1 (2 ^ 64)).
    rewrite Z.mod_small by lia. lia.
  - rewrite Z.mod_small by lia. lia.
Qed.

Lemma SetEvictable_returns f b r :
  invalid_frame f r = false -> exists r', SetEvictable f b r = Ret r'.
Proof.
  intros Hv. unfold SetEvictable. rewrite Hv.
  destruct (map_ r f) as [n|]; [|eauto].
  destruct b, (evictable_ n); simpl; eauto; destruct (2 <=? frequency_ n); eauto.
Qed.

Lemma RecordAccess_returns f r :
  invalid_frame f r = false -> exists r', RecordAccess f r = Ret r'.
Proof.
  intros Hv. unfold RecordAccess. rewrite Hv.
  destruct (map_ r f) as [n|]; [|eauto]. simpl.
  destruct (k_ r <=? frequency_ n + 1); eauto.
Qed.

(** A frame id the claim calls valid: inside [0, num_frames). *)
Definition valid_op (num_frames : Z) (o : op) : Prop :=
  forall f, op_frame o = Some f -> 0 <= f < num_frames /\ is_frame_id f.

Lemma valid_typed num_frames o : valid_op num_frames o -> typed_op o.
Proof. intros H f Hf. apply (H f Hf). Qed.

(** The position in a run of the last access to a frame. *)
Fixpoint last_access (ops : list op) (f : Z) (pos : nat) : option nat :=
  match ops with
  | [] => None
  | o :: rest =>
      match last_access rest f (S pos) with
      | Some p => Some p
      | None =>
          match o with
          | OpRecordAccess g => if g =? f then Some pos else None
          | _ => None
          end
      end
  end.

(** What [SetEvictable] leaves in the node of a tracked frame. *)
Lemma find_replace f n n' l :
  find_node f l = Some n -> key_ n' = f ->
  find_node f (replace_node n' l) = Some n'.
Proof.
  intros Hf Hk. induction l as [|m l IH]; simpl in *; [discriminate|].
  destruct (key_ m =? f) eqn:E.
  - apply Z.eqb_eq in E. rewrite Hk, <- E, Z.eqb_refl. simpl.
    rewrite Hk, E, Z.eqb_refl. reflexivity.
  - rewrite Hk, E. simpl. rewrite E. auto.
Qed.

Lemma SetEvictable_flag f b r r' n :
  SetEvictable f b r = Ret r' -> map_ r f = Some n ->
  exists n', map_ r' f = Some n' /\ evictable_ n' = b /\
             frequency_ n' = frequency_ n.
Proof.
  unfold SetEvictable. intros H Hn.
  destruct (invalid_frame f r); [discriminate|]. rewrite Hn in H.
  destruct (b && evictable_ n || negb b && negb (evictable_ n)) eqn:Hsame.
  - injection H as <-. exists n. repeat split; auto.
    revert Hsame. destruct b, (evictable_ n); simpl; congruence.
  - pose proof Hn as Hk. apply find_node_Some in Hk as [Hk _].
    exists (mkNode (key_ n) (frequency_ n) b).
    destruct (2 <=? frequency_ n); injection H as <-;
      (split; [|split; reflexivity]);
      unfold map_; rewrite nodes_replace; apply (find_replace f n); auto.
Qed.

(** *** The frames a replacer tracks

    Every tracked frame was handed to [RecordAccess]: a property of the
    frame ids a client passes holds of the frames [Evict] returns. *)
Definition tracked (P : Z -> Prop) (r : LRUKReplacer) : Prop :=
  Forall (fun n => P (key_ n)) (nodes r).

Lemma tracked_new P num_frames k : tracked P (new_replacer num_frames k).
Proof. constructor. Qed.

Lemma tracked_RecordAccess P f r r' :
  P f -> tracked P r -> RecordAccess f r = Ret r' ->
  tracked P r' /\ replacer_size_ r' = replacer_size_ r.
Proof.
  unfold tracked, RecordAccess. intros Hf H.
  destruct (invalid_frame f r); [discriminate|].
  destruct (map_ r f) as [n|] eqn:Hn.
  - apply find_node_Some in Hn as [Hkey _]. simpl.
    destruct (k_ r <=? frequency_ n + 1); intros [= <-];
      (split; [|reflexivity]).
    + unfold nodes in *. simpl. apply Forall_app in H as [H1 H2].
      apply Forall_app. split; [apply Forall_unlink; assumption|].
      constructor; [simpl; rewrite Hkey; assumption|].
      apply Forall_unlink. assumption.
    + rewrite nodes_replace. apply Forall_replace; [assumption|].
      simpl. rewrite Hkey. assumption.
  - intros [= <-]. split; [|reflexivity]. unfold nodes in *. simpl.
    constructor; assumption.
Qed.

Lemma tracked_SetEvictable P f b r r' :
  tracked P r -> SetEvictable f b r = Ret r' ->
  tracked P r' /\ replacer_size_ r' = replacer_size_ r.
Proof.
  unfold tracked, SetEvictable. intros H.
  destruct (invalid_frame f r); [discriminate|].
  destruct (map_ r f) as [n|] eqn:Hn; [|intros [= <-]; auto].
  apply find_node_Some in Hn as [Hkey Hin].
  destruct (b && evictable_ n || negb b && negb (evictable_ n));
    [intros [= <-]; auto|].
  assert (Hn : P (key_ n)).
  { rewrite Forall_forall in H. apply (H n), list_elem_of_In, Hin. }
  destruct (2 <=? frequency_ n); intros [= <-]; (split; [|reflexivity]);
    rewrite nodes_replace; apply Forall_replace; assumption.
Qed.

Lemma tracked_Evict P r :
  tracked P r ->
  tracked P (snd (Evict r)) /\
  replacer_size_ (snd (Evict r)) = replacer_size_ r /\
  forall f, fst (Evict r) = Some f -> P f.
Proof.
  unfold tracked, Evict, nodes. intros H.
  destruct (Size r =? 0); [simpl; repeat split; [assumption | discriminate]|].
  apply Forall_app in H as [H1 H2].
  destruct (take_victim (fifo r)) as [[node fifo']|] eqn:Ef.
  - destruct (count_down r node (k_ r)) as [fs ls]. simpl.
    apply take_victim_Some in Ef as (l1 & l2 & Hl & -> & _).
    rewrite Hl in H1. apply Forall_app in H1 as [Ha Hb].
    inversion Hb; subst. repeat split.
    + repeat (apply Forall_app; split); assumption.
    + intros f [= <-]. assumption.
  - destruct (take_victim (lru r)) as [[node lru']|] eqn:El.
    + destruct (count_down r node (k_ r)) as [fs ls]. simpl.
      apply take_victim_Some in El as (l1 & l2 & Hl & -> & _).
      rewrite Hl in H2. apply Forall_app in H2 as [Ha Hb].
      inversion Hb; subst. repeat split.
      * repeat (apply Forall_app; split); assumption.
      * intros f [= <-]. assumption.
    + simpl. repeat split; [apply Forall_app; auto | discriminate].
Qed.

Lemma tracked_Remove P f r :
  tracked P r ->
  tracked P (Remove f r) /\ replacer_size_ (Remove f r) = replacer_size_ r.
Proof.
  unfold tracked, Remove. intros H.
  destruct (map_ r f) as [node|]; [|auto].
  destruct (evictable_ node); [|auto].
  destruct (count_down r node 2) as [fs ls]. split; [|reflexivity].
  unfold nodes in *. simpl. apply Forall_app in H as [H1 H2].
  apply Forall_app. split; apply Forall_unlink; assumption.
Qed.

(** The guard of [RecordAccess] and [SetEvictable] lets a frame of the
    pool through. *)
Lemma valid_frame f r :
  0 <= f <= replacer_size_ r -> replacer_size_ r < 2 ^ 31 ->
  invalid_frame f r = false.
Proof.
  intros Hf Hr. destruct (invalid_frame f r) eqn:E; [|reflexivity].
  apply invalid_frame_spec in E; [tauto | unfold is_frame_id; lia | lia].
Qed.

(** *** The invariant, decided *)
Fixpoint nodupb (l : list Z) : bool :=
  match l with
  | [] => true
  | x :: rest => negb (existsb (Z.eqb x) rest) && nodupb rest
  end.

Definition wfb (r : LRUKReplacer) : bool :=
  nodupb (keys (nodes r)) &&
  forallb (fun n => (- 2 ^ 31 <=? key_ n) && (key_ n <? 2 ^ 31)) (nodes r) &&
  (wrap64 (lru_size_ r + fifo_size_ r) =? wrap64 (evictable_count r)).

Definition trackedb (n : Z) (r : LRUKReplacer) : bool :=
  forallb (fun nd => (0 <=? key_ nd) && (key_ nd <? n)) (nodes r).

Lemma nodupb_sound l : nodupb l = true -> List.NoDup l.
Proof.
  induction l as [|x l IH]; simpl; [constructor|].
  rewrite andb_true_iff, negb_true_iff. intros [Hx Hl].
  constructor; [|auto]. intros Hin.
  assert (existsb (Z.eqb x) l = true); [|congruence].
  apply existsb_exists. exists x. split; [assumption | apply Z.eqb_refl].
Qed.

Lemma wfb_sound r : wfb r = true -> wf r.
Proof.
  unfold wfb. rewrite !andb_true_iff. intros [[Hnd Hty] Hc]. split.
  - apply nodupb_sound. assumption.
  - apply Forall_forall. intros n Hn. apply list_elem_of_In in Hn.
    rewrite forallb_forall in Hty. specialize (Hty n Hn).
    rewrite andb_true_iff in Hty. destruct Hty as [H1 H2].
    apply Z.leb_le in H1. apply Z.ltb_lt in H2. unfold is_frame_id. lia.
  - apply Z.eqb_eq. assumption.
Qed.

Lemma trackedb_sound n r :
  trackedb n r = true -> tracked (fun f => 0 <= f < n) r.
Proof.
  unfold trackedb, tracked. rewrite forallb_forall. intros H.
  apply Forall_forall. intros nd Hn. apply list_elem_of_In in Hn.
  specialize (H nd Hn). rewrite andb_true_iff in H. destruct H as [H1 H2].
  apply Z.leb_le in H1. apply Z.ltb_lt in H2. lia.
Qed.

(** *** What a call does to the node of each frame *)

Lemma find_node_unlink g f l :
  find_node g (unlink f l) = if g =? f then None else find_node g l.
Proof.
  induction l as [|m l IH]; simpl; [destruct (g =? f); reflexivity|].
  destruct (key_ m =? f) eqn:E; simpl.
  - rewrite IH. destruct (g =? f) eqn:Eg; [reflexivity|].
    apply Z.eqb_eq in E. apply Z.eqb_neq in Eg.
    destruct (key_ m =? g) eqn:Em; [apply Z.eqb_eq in Em; congruence|].
    reflexivity.
  - rewrite IH. destruct (key_ m =? g) eqn:Em; [|reflexivity].
    apply Z.eqb_eq in Em. apply Z.eqb_neq in E.
    destruct (g =? f) eqn:Eg; [apply Z.eqb_eq in Eg; congruence | reflexivity].
Qed.

Lemma find_node_replace_other g n' l :
  g <> key_ n' -> find_node g (replace_node n' l) = find_node g l.
Proof.
  intros Hg. induction l as [|m l IH]; simpl; [reflexivity|].
  destruct (key_ m =? key_ n') eqn:E.
  - apply Z.eqb_eq in E.
    destruct (key_ n' =? g) eqn:E1; [apply Z.eqb_eq in E1; congruence|].
    destruct (key_ m =? g) eqn:E2; [apply Z.eqb_eq in E2; congruence|].
    exact IH.
  - destruct (key_ m =? g); [reflexivity | exact IH].
Qed.

Lemma find_node_drop g a v b :
  List.NoDup (keys (a ++ v :: b)) ->
  find_node g (a ++ b)
  = if g =? key_ v then None else find_node g (a ++ v :: b).
Proof.
  intros Hnd. rewrite !find_node_app. simpl.
  unfold keys in Hnd. rewrite map_app in Hnd. simpl in Hnd.
  pose proof (List.NoDup_remove_2 _ _ _ Hnd) as Hv.
  destruct (g =? key_ v) eqn:Eg.
  - apply Z.eqb_eq in Eg. subst g.
    assert (Hn : find_node (key_ v) (a ++ b) = None).
    { apply find_node_None. unfold keys. rewrite map_app. exact Hv. }
    rewrite find_node_app in Hn. exact Hn.
  - destruct (find_node g a); [reflexivity|].
    destruct (key_ v =? g) eqn:E; [|reflexivity].
    apply Z.eqb_eq in E. apply Z.eqb_neq in Eg. congruence.
Qed.

Lemma find_node_at a v b :
  List.NoDup (keys (a ++ v :: b)) -> find_node (key_ v) (a ++ v :: b) = Some v.
Proof.
  intros Hnd. apply find_node_unique; [assumption|].
  apply in_or_app. right. left. reflexivity.
Qed.

(** [RecordAccess]: one more access of the frame, or a new node for
    it; the other frames are as before. *)
Lemma RecordAccess_spec f r r' :
  RecordAccess f r = Ret r' ->
  map_ r' f
  = Some (match map_ r f with
          | Some n => mkNode (key_ n) (frequency_ n + 1) (evictable_ n)
          | None => new_node f
          end) /\
  (forall g, g <> f -> map_ r' g = map_ r g) /\
  replacer_size_ r' = replacer_size_ r /\ k_ r' = k_ r.
Proof.
  unfold RecordAccess. destruct (invalid_frame f r); [discriminate|].
  destruct (map_ r f) as [n|] eqn:Hn.
  - pose proof Hn as Hk. apply find_node_Some in Hk as [Hk _]. simpl.
    destruct (k_ r <=? frequency_ n + 1); intros [= <-]; unfold map_, nodes;
      simpl; (split; [|split; [|split; reflexivity]]).
    + rewrite find_node_app, find_node_unlink, Z.eqb_refl. simpl.
      rewrite Hk, Z.eqb_refl. reflexivity.
    + intros g Hg. rewrite !find_node_app. simpl.
      assert (Eg : (g =? f) = false) by (apply Z.eqb_neq; assumption).
      assert (Ef : (f =? g) = false) by (apply Z.eqb_neq; congruence).
      rewrite !find_node_unlink, Eg, Hk, Ef. reflexivity.
    + unfold replace_node. rewrite <- map_app.
      apply (find_replace f n); [exact Hn | exact Hk].
    + intros g Hg. unfold replace_node. rewrite <- map_app.
      apply find_node_replace_other. simpl. congruence.
  - intros [= <-]. unfold map_, nodes. simpl. rewrite Z.eqb_refl.
    split; [reflexivity|]. split; [|split; reflexivity].
    intros g Hg. destruct (f =? g) eqn:E; [apply Z.eqb_eq in E; congruence|].
    reflexivity.
Qed.

(** [SetEvictable] touches the node of its frame only. *)
Lemma SetEvictable_others f b r r' :
  SetEvictable f b r = Ret r' ->
  (forall g, g <> f -> map_ r' g = map_ r g) /\
  (map_ r f = None -> r' = r).
Proof.
  unfold SetEvictable. destruct (invalid_frame f r); [discriminate|].
  destruct (map_ r f) as [n|] eqn:Hn; [|intros [= <-]; auto].
  pose proof Hn as Hk. apply find_node_Some in Hk as [Hk _].
  destruct (b && evictable_ n || negb b && negb (evictable_ n));
    [intros [= <-]; split; [auto | discriminate]|].
  destruct (2 <=? frequency_ n); intros [= <-];
    (split; [|discriminate]); intros g Hg; unfold map_;
    rewrite nodes_replace; apply find_node_replace_other; simpl; congruence.
Qed.

(** The victim of [Evict] had its flag set and is no longer tracked;
    the other frames are as before. *)
Lemma Evict_spec r f r' :
  wf r -> Evict r = (Some f, r') ->
  (exists n, map_ r f = Some n /\ evictable_ n = true) /\
  map_ r' f = None /\
  (forall g, g <> f -> map_ r' g = map_ r g) /\
  evictable_count r' = evictable_count r - 1.
Proof.
  intros H. unfold Evict. destruct (Size r =? 0); [discriminate|].
  assert (Hdrop : forall a v b r2,
            nodes r = a ++ v :: b -> evictable_ v = true ->
            nodes r2 = a ++ b ->
            (exists n, map_ r (key_ v) = Some n /\ evictable_ n = true) /\
            map_ r2 (key_ v) = None /\
            (forall g, g <> key_ v -> map_ r2 g = map_ r g) /\
            evictable_count r2 = evictable_count r - 1).
  { intros a v b r2 Hr Hv Hr2. pose proof (wf_nodup r H) as Hnd.
    rewrite Hr in Hnd. unfold map_, evictable_count. rewrite Hr, Hr2.
    split; [exists v; split; [apply find_node_at; assumption
                             | assumption]|].
    split; [rewrite (find_node_drop _ a v b) by assumption;
            rewrite Z.eqb_refl; reflexivity|].
    split.
    - intros g Hg. rewrite (find_node_drop _ a v b) by assumption.
      destruct (g =? key_ v) eqn:E; [apply Z.eqb_eq in E; congruence|].
      reflexivity.
    - rewrite !ecount_app, ecount_cons, Hv. simpl. lia. }
  destruct (take_victim (fifo r)) as [[node fifo']|] eqn:Ef.
  - destruct (count_down r node (k_ r)) as [fs ls]. intros [= <- <-].
    apply take_victim_Some in Ef as (l1 & l2 & Hl & -> & Hv & _).
    apply (Hdrop l1 node (l2 ++ lru r)); auto.
    + unfold nodes. rewrite Hl, <- app_assoc. reflexivity.
    + unfold nodes. simpl. rewrite <- app_assoc. reflexivity.
  - destruct (take_victim (lru r)) as [[node lru']|] eqn:El; [|discriminate].
    destruct (count_down r node (k_ r)) as [fs ls]. intros [= <- <-].
    apply take_victim_Some in El as (l1 & l2 & Hl & -> & Hv & _).
    apply (Hdrop (fifo r ++ l1) node l2); auto.
    + unfold nodes. rewrite Hl, <- app_assoc. reflexivity.
    + unfold nodes. simpl. rewrite <- app_assoc. reflexivity.
Qed.

(** [Remove] drops the node of a frame whose flag is set, and does
    nothing otherwise. *)
Lemma Remove_spec f r :
  wf r ->
  match map_ r f with
  | Some n =>
      if evictable_ n
      then map_ (Remove f r) f = None /\
           (forall g, g <> f -> map_ (Remove f r) g = map_ r g) /\
           evictable_count (Remove f r) = evictable_count r - 1
      else Remove f r = r
  | None => Remove f r = r
  end.
Proof.
  intros H. unfold Remove. destruct (map_ r f) as [n|] eqn:Hn; [|reflexivity].
  destruct (evictable_ n) eqn:Hv; [|reflexivity].
  destruct (count_down r n 2) as [fs ls].
  assert (Hnodes : nodes (mkReplacer (curr_size_ r) (replacer_size_ r) (k_ r) fs ls
                            (unlink f (fifo r)) (unlink f (lru r)))
                   = unlink f (nodes r))
    by (unfold nodes; simpl; rewrite unlink_app; reflexivity).
  unfold map_, evictable_count. rewrite Hnodes. split; [|split].
  - rewrite find_node_unlink, Z.eqb_refl. reflexivity.
  - intros g Hg. rewrite find_node_unlink.
    destruct (g =? f) eqn:E; [apply Z.eqb_eq in E; congruence | reflexivity].
  - rewrite (ecount_unlink f _ n); [|apply (wf_nodup r H)|exact Hn].
    rewrite Hv. simpl. lia.
Qed.

End LRUK.

(** ** Buffer pool manager
    (buffer_pool_manager_instance.cpp; it stands in
    src/container/hash/extendible_hash_table.cpp, lines 202-383) *)

Module BPM.
Section Pool.
(** The payload of a page is opaque to the pool; [zero] is the
    payload of [ResetMemory]. *)
Context {D : Type}.
Variable zero : D.
(** Fuel for the retry loop of the page table's [Insert]. *)
Variable fuel : nat.

Definition INVALID_PAGE_ID : Z := -1.

(** Modelled from the spec: the [Page] class is declared in
    storage/page/page.h, which is not among the sources: "header
    fields page_id (-1 sentinel = invalid), pin_count, is_dirty, and
    an opaque payload". *)
Record Page := mkPage {
  data_ : D;
  page_id_ : Z;
  pin_count_ : Z;
  is_dirty_ : bool
}.

Definition blank_page : Page := mkPage zero INVALID_PAGE_ID 0 false.

(** Modelled from the spec: the disk manager is an external
    collaborator with [read_page], [write_page]; here it is the log of
    the writes, latest first, and a page never written reads as zero
    bytes. *)
Record DiskManager := mkDisk { written : list (Z * D) }.

Definition WritePage (page_id : Z) (d : D) (dm : DiskManager) : DiskManager :=
  mkDisk ((page_id, d) :: written dm).

Fixpoint read_log (page_id : Z) (log : list (Z * D)) : D :=
  match log with
  | [] => zero
  | (p, d) :: rest => if p =? page_id then d else read_log page_id rest
  end.

Definition ReadPage (page_id : Z) (dm : DiskManager) : D :=
  read_log page_id (written dm).

Record BufferPoolManagerInstance := mkBPM {
  pool_size_ : Z;
  pages_ : list Page;
  page_table_ : EHT.ExtendibleHashTable Z Z;
  replacer_ : LRUK.LRUKReplacer;
  free_list_ : list Z;
  next_page_id_ : Z;
  disk_manager_ : DiskManager
}.

(** [std::hash<page_id_t>] *)
Definition hash_page_id (k : Z) : Z := wrap64 k.

(** [bucket_size_] of the header (the BusTub constant). *)
Definition bucket_size_ : Z := 4.

Definition new_bpm (pool_size replacer_k : Z) : BufferPoolManagerInstance :=
  mkBPM pool_size
    (repeat blank_page (Z.to_nat pool_size))
    (EHT.new_table bucket_size_)
    (LRUK.new_replacer pool_size replacer_k)
    (EHT.iota pool_size)
    0
    (mkDisk []).

Definition set_pages (b : BufferPoolManagerInstance) (ps : list Page) :=
  mkBPM (pool_size_ b) ps (page_table_ b) (replacer_ b) (free_list_ b)
    (next_page_id_ b) (disk_manager_ b).
Definition set_page_table (b : BufferPoolManagerInstance) (t : EHT.ExtendibleHashTable Z Z) :=
  mkBPM (pool_size_ b) (pages_ b) t (replacer_ b) (free_list_ b)
    (next_page_id_ b) (disk_manager_ b).
Definition set_replacer (b : BufferPoolManagerInstance) (r : LRUK.LRUKReplacer) :=
  mkBPM (pool_size_ b) (pages_ b) (page_table_ b) r (free_list_ b)
    (next_page_id_ b) (disk_manager_ b).
Definition set_free_list (b : BufferPoolManagerInstance) (l : list Z) :=
  mkBPM (pool_size_ b) (pages_ b) (page_table_ b) (replacer_ b) l
    (next_page_id_ b) (disk_manager_ b).
Definition set_next_page_id (b : BufferPoolManagerInstance) (n : Z) :=
  mkBPM (pool_size_ b) (pages_ b) (page_table_ b) (replacer_ b) (free_list_ b)
    n (disk_manager_ b).
Definition set_disk (b : BufferPoolManagerInstance) (d : DiskManager) :=
  mkBPM (pool_size_ b) (pages_ b) (page_table_ b) (replacer_ b) (free_list_ b)
    (next_page_id_ b) d.

(** The lines that [NewPgImp] and [FetchPgImp] share: a frame from
    the back of the free list, or else the replacer's victim, written
    back when dirty and taken out of the page table. *)
Definition take_frame (b : BufferPoolManagerInstance)
  : outcome (option Z * BufferPoolManagerInstance) :=
  match free_list_ b with
  | [] =>
      match LRUK.Evict (replacer_ b) with
      | (Some frame_id, r') =>
          let b := set_replacer b r' in
          let* page := deref (lookupZ (pages_ b) frame_id) in
          let* b :=
            if is_dirty_ page then
              let b := set_disk b (WritePage (page_id_ page) (data_ page) (disk_manager_ b)) in
              let* ps := storeZ (pages_ b) frame_id
                           (mkPage (data_ page) (page_id_ page) (pin_count_ page) false) in
              Ret (set_pages b ps)
            else Ret b in
          let* (_, t) := EHT.Remove hash_page_id (page_id_ page) (page_table_ b) in
          Ret (Some frame_id, set_page_table b t)
      | (None, _) => Ret (None, b)
      end
  | _ :: _ =>
      Ret (Some (List.last (free_list_ b) 0), set_free_list b (removelast (free_list_ b)))
  end.

(** The lines after it: the frame gets its page, pinned once, and is
    entered in the page table and the replacer. *)
Definition install (frame_id page_id : Z) (d : D) (b : BufferPoolManagerInstance)
  : outcome BufferPoolManagerInstance :=
  let* ps := storeZ (pages_ b) frame_id (mkPage d page_id 1 false) in
  let b := set_pages b ps in
  let* t := EHT.Insert hash_page_id fuel page_id frame_id (page_table_ b) in
  let b := set_page_table b t in
  let* r := LRUK.RecordAccess frame_id (replacer_ b) in
  let* r := LRUK.SetEvictable frame_id false r in
  Ret (set_replacer b r).

(** [NewPgImp]: the new page id and the frame of the page, or null. *)
Definition NewPgImp (b : BufferPoolManagerInstance)
  : outcome (option (Z * Z) * BufferPoolManagerInstance) :=
  let* (fo, b) := take_frame b in
  match fo with
  | None => Ret (None, b)
  | Some frame_id =>
      let id := next_page_id_ b in
      let b := set_next_page_id b (id + 1) in
      let* b := install frame_id id zero b in
      Ret (Some (id, frame_id), b)
  end.

(** [FetchPgImp]: the frame of the page, or null. *)
Definition FetchPgImp (page_id : Z) (b : BufferPoolManagerInstance)
  : outcome (option Z * BufferPoolManagerInstance) :=
  match EHT.Find hash_page_id page_id (page_table_ b) with
  | Some value =>
      let* page := deref (lookupZ (pages_ b) value) in
      let* ps := storeZ (pages_ b) value
                   (mkPage (data_ page) (page_id_ page) (pin_count_ page + 1) (is_dirty_ page)) in
      let b := set_pages b ps in
      let* r := LRUK.RecordAccess value (replacer_ b) in
      let* r := LRUK.SetEvictable value false r in
      Ret (Some value, set_replacer b r)
  | None =>
      let* (fo, b) := take_frame b in
      match fo with
      | None => Ret (None, b)
      | Some frame_id =>
          let* b := install frame_id page_id (ReadPage page_id (disk_manager_ b)) b in
          Ret (Some frame_id, b)
      end
  end.

Definition UnpinPgImp (page_id : Z) (is_dirty : bool) (b : BufferPoolManagerInstance)
  : outcome (bool * BufferPoolManagerInstance) :=
  match EHT.Find hash_page_id page_id (page_table_ b) with
  | None => Ret (false, b)
  | Some index =>
      let* page := deref (lookupZ (pages_ b) index) in
      if pin_count_ page <=? 0 then Ret (false, b)
      else
        let pin := pin_count_ page - 1 in
        let* r := if pin =? 0 then LRUK.SetEvictable index true (replacer_ b)
                  else Ret (replacer_ b) in
        let dirty := if is_dirty then true else is_dirty_ page in
        let* ps := storeZ (pages_ b) index
                     (mkPage (data_ page) (page_id_ page) pin dirty) in
        Ret (true, set_replacer (set_pages b ps) r)
  end.

Definition FlushPgImp (page_id : Z) (b : BufferPoolManagerInstance)
  : outcome (bool * BufferPoolManagerInstance) :=
  match EHT.Find hash_page_id page_id (page_table_ b) with
  | None => Ret (false, b)
  | Some value =>
      let* page := deref (lookupZ (pages_ b) value) in
      let b := set_disk b (WritePage page_id (data_ page) (disk_manager_ b)) in
      let* ps := storeZ (pages_ b) value
                   (mkPage (data_ page) (page_id_ page) (pin_count_ page) false) in
      Ret (true, set_pages b ps)
  end.

Definition DeletePgImp (page_id : Z) (b : BufferPoolManagerInstance)
  : outcome (bool * BufferPoolManagerInstance) :=
  match EHT.Find hash_page_id page_id (page_table_ b) with
  | None => Ret (true, b)
  | Some value =>
      let* page := deref (lookupZ (pages_ b) value) in
      if negb (pin_count_ page =? 0) then Ret (false, b)
      else
        let* (_, t) := EHT.Remove hash_page_id page_id (page_table_ b) in
        let b := set_page_table b t in
        let b := set_replacer b (LRUK.Remove value (replacer_ b)) in
        let b := set_free_list b (free_list_ b ++ [value]) in
        let* ps := storeZ (pages_ b) value blank_page in
        Ret (true, set_pages b ps)
  end.

(** Reading and writing the bytes of a frame through a pointer that
    [NewPgImp] or [FetchPgImp] returned. *)
Definition GetData (frame : Z) (b : BufferPoolManagerInstance) : outcome D :=
  let* page := deref (lookupZ (pages_ b) frame) in Ret (data_ page).

Definition SetData (frame : Z) (d : D) (b : BufferPoolManagerInstance)
  : outcome BufferPoolManagerInstance :=
  let* page := deref (lookupZ (pages_ b) frame) in
  let* ps := storeZ (pages_ b) frame
               (mkPage d (page_id_ page) (pin_count_ page) (is_dirty_ page)) in
  Ret (set_pages b ps).

Definition pin_count_of (frame : Z) (b : BufferPoolManagerInstance) : option Z :=
  option_map pin_count_ (lookupZ (pages_ b) frame).

(** *** What the shared parts do *)

Lemma take_frame_Ret b fo b1 :
  take_frame b = Ret (fo, b1) ->
  (free_list_ b = [] /\ fst (LRUK.Evict (replacer_ b)) = None /\
   fo = None /\ b1 = b)
  \/ (free_list_ b = [] /\
      exists frame_id old,
        fo = Some frame_id /\
        fst (LRUK.Evict (replacer_ b)) = Some frame_id /\
        lookupZ (pages_ b) frame_id = Some old /\
        disk_manager_ b1 =
          (if is_dirty_ old
           then WritePage (page_id_ old) (data_ old) (disk_manager_ b)
           else disk_manager_ b) /\
        lookupZ (pages_ b1) frame_id
          = Some (mkPage (data_ old) (page_id_ old) (pin_count_ old) false) /\
        (forall j, j <> frame_id -> lookupZ (pages_ b1) j = lookupZ (pages_ b) j) /\
        replacer_ b1 = snd (LRUK.Evict (replacer_ b)) /\
        free_list_ b1 = [] /\ next_page_id_ b1 = next_page_id_ b)
  \/ (free_list_ b <> [] /\
      fo = Some (List.last (free_list_ b) 0) /\
      b1 = set_free_list b (removelast (free_list_ b))).
Proof.
  unfold take_frame. destruct (free_list_ b) as [|x l] eqn:Hfree.
  - destruct (LRUK.Evict (replacer_ b)) as [[frame_id|] r'] eqn:Hev.
    + intros H. right. left. split; [reflexivity|].
      bind_inv H. apply deref_Ret in E. simpl in E. rename a into old.
      exists frame_id, old.
      destruct (is_dirty_ old) eqn:Hd.
      * bind_inv H. bind_inv E0. injection E0 as <-. rename a0 into ps.
        bind_inv H. destruct a as [ok t]. injection H as <- <-. simpl.
        repeat split; eauto using lookupZ_storeZ_eq, lookupZ_storeZ_ne.
      * bind_inv H. injection E0 as <-.
        bind_inv H. destruct a as [ok t]. injection H as <- <-. simpl.
        repeat split; auto. rewrite E. destruct old; simpl in *. congruence.
    + intros [= <- <-]. left. auto.
  - intros [= <- <-]. right. right. split; [discriminate|]. auto.
Qed.

Lemma install_Ret frame_id page_id d b b' :
  install frame_id page_id d b = Ret b' ->
  lookupZ (pages_ b') frame_id = Some (mkPage d page_id 1 false) /\
  (forall j, j <> frame_id -> lookupZ (pages_ b') j = lookupZ (pages_ b) j) /\
  EHT.Find hash_page_id page_id (page_table_ b') = Some frame_id /\
  (exists r, LRUK.RecordAccess frame_id (replacer_ b) = Ret r /\
             LRUK.SetEvictable frame_id false r = Ret (replacer_ b')) /\
  disk_manager_ b' = disk_manager_ b /\
  free_list_ b' = free_list_ b /\
  next_page_id_ b' = next_page_id_ b.
Proof.
  unfold install. intros H.
  bind_inv H. rename a into ps. simpl in H.
  bind_inv H. rename a into t. simpl in H.
  bind_inv H. rename a into r. bind_inv H. injection H as <-. simpl.
  repeat split; eauto using lookupZ_storeZ_eq, lookupZ_storeZ_ne, EHT.Find_Insert.
Qed.

Lemma FetchPgImp_Ret page_id b fo b1 :
  FetchPgImp page_id b = Ret (fo, b1) ->
  (exists value page,
      EHT.Find hash_page_id page_id (page_table_ b) = Some value /\
      fo = Some value /\
      lookupZ (pages_ b) value = Some page /\
      lookupZ (pages_ b1) value
        = Some (mkPage (data_ page) (page_id_ page) (pin_count_ page + 1)
                  (is_dirty_ page)) /\
      (forall j, j <> value -> lookupZ (pages_ b1) j = lookupZ (pages_ b) j) /\
      page_table_ b1 = page_table_ b)
  \/ (EHT.Find hash_page_id page_id (page_table_ b) = None /\
      fo = None /\ b1 = b /\
      free_list_ b = [] /\ fst (LRUK.Evict (replacer_ b)) = None)
  \/ (EHT.Find hash_page_id page_id (page_table_ b) = None /\
      exists frame_id d,
        fo = Some frame_id /\
        lookupZ (pages_ b1) frame_id = Some (mkPage d page_id 1 false) /\
        (forall j, j <> frame_id -> lookupZ (pages_ b1) j = lookupZ (pages_ b) j) /\
        EHT.Find hash_page_id page_id (page_table_ b1) = Some frame_id).
Proof.
  unfold FetchPgImp.
  destruct (EHT.Find hash_page_id page_id (page_table_ b)) as [value|] eqn:Hfind.
  - intros H. left. bind_inv H. apply deref_Ret in E. rename a into page.
    bind_inv H. rename a into ps. simpl in H.
    bind_inv H. bind_inv H. injection H as <- <-. simpl.
    exists value, page.
    repeat split; eauto using lookupZ_storeZ_eq, lookupZ_storeZ_ne.
  - intros H. right. bind_inv H. destruct a as [fo' b0].
    destruct fo' as [frame_id|].
    + right. split; [reflexivity|]. bind_inv H. injection H as <- <-.
      apply install_Ret in E0 as (Hpage & Hother & Hfind' & _).
      exists frame_id, (ReadPage page_id (disk_manager_ b0)).
      repeat split; auto.
      intros j Hj. rewrite (Hother j Hj).
      apply take_frame_Ret in E
        as [(_ & _ & Hfo & _)|[(_ & f' & old & Hfo & _ & _ & _ & _ & Hoth & _)
                               |(_ & _ & ->)]];
        try discriminate; [|reflexivity].
      injection Hfo as <-. auto.
    + injection H as <- <-. left.
      apply take_frame_Ret in E
        as [(Hfree & Hev & _ & ->)|[(_ & f' & old & Hfo & _)|(_ & Hfo & _)]];
        try discriminate. auto.
Qed.

Lemma UnpinPgImp_Ret page_id is_dirty b ok b' index page :
  UnpinPgImp page_id is_dirty b = Ret (ok, b') ->
  EHT.Find hash_page_id page_id (page_table_ b) = Some index ->
  lookupZ (pages_ b) index = Some page ->
  (pin_count_ page <= 0 /\ ok = false /\ b' = b)
  \/ (0 < pin_count_ page /\ ok = true /\
      lookupZ (pages_ b') index
        = Some (mkPage (data_ page) (page_id_ page) (pin_count_ page - 1)
                  (if is_dirty then true else is_dirty_ page)) /\
      (forall j, j <> index -> lookupZ (pages_ b') j = lookupZ (pages_ b) j) /\
      page_table_ b' = page_table_ b).
Proof.
  unfold UnpinPgImp. intros H Hfind Hpage. rewrite Hfind, Hpage in H. simpl in H.
  destruct (pin_count_ page <=? 0) eqn:Hpin.
  - injection H as <- <-. apply Z.leb_le in Hpin. auto.
  - apply Z.leb_gt in Hpin. right. bind_inv H. bind_inv H.
    injection H as <- <-. simpl.
    repeat split; eauto using lookupZ_storeZ_eq, lookupZ_storeZ_ne.
Qed.

Lemma pin_count_of_lookup frame b page :
  lookupZ (pages_ b) frame = Some page -> pin_count_of frame b = Some (pin_count_ page).
Proof. unfold pin_count_of. intros ->. reflexivity. Qed.

(** *** The invariant of the pool

    [page_id_t] and [frame_id_t] are [int32_t]; the page ids the pool
    hands out are those from 0 on. *)
Definition is_page_id (p : Z) : Prop := 0 <= p < 2 ^ 31.

Definition in_pool (n f : Z) : Prop := 0 <= f < n.

Record pool_wf (b : BufferPoolManagerInstance) : Prop := mk_pool_wf {
  pw_size : 0 <= pool_size_ b < 2 ^ 31;
  pw_pages : Z.of_nat (length (pages_ b)) = pool_size_ b;
  pw_table : EHT.wf hash_page_id is_page_id (in_pool (pool_size_ b)) 31
               (page_table_ b);
  pw_replacer : LRUK.wf (replacer_ b);
  pw_rsize : LRUK.replacer_size_ (replacer_ b) = pool_size_ b;
  pw_tracked : LRUK.tracked (in_pool (pool_size_ b)) (replacer_ b);
  pw_free : Forall (in_pool (pool_size_ b)) (free_list_ b);
  pw_next : 0 <= next_page_id_ b
}.

Lemma hash_page_id_range k : is_page_id k -> 0 <= hash_page_id k < 2 ^ 31.
Proof.
  unfold is_page_id, hash_page_id. intros H.
  rewrite LRUK.wrap64_small; lia.
Qed.

Lemma hash_page_id_inj k k' :
  is_page_id k -> is_page_id k' -> hash_page_id k = hash_page_id k' -> k = k'.
Proof.
  unfold is_page_id, hash_page_id. intros H H'.
  rewrite !LRUK.wrap64_small; lia.
Qed.

Lemma pool_wf_new pool_size replacer_k :
  0 <= pool_size < 2 ^ 31 -> pool_wf (new_bpm pool_size replacer_k).
Proof.
  intros H. split; simpl; try lia.
  - rewrite repeat_length. lia.
  - apply EHT.table_wf_new; unfold bucket_size_; lia.
  - apply LRUK.wf_new.
  - apply LRUK.tracked_new.
  - apply Forall_forall. intros f Hf. apply list_elem_of_In, EHT.In_iota in Hf.
    exact Hf.
Qed.

Lemma in_pool_frame b f :
  pool_wf b -> in_pool (pool_size_ b) f ->
  LRUK.is_frame_id f /\ LRUK.invalid_frame f (replacer_ b) = false /\
  0 <= f < Z.of_nat (length (pages_ b)).
Proof.
  intros H Hf. unfold in_pool in Hf. pose proof (pw_size b H).
  split; [unfold LRUK.is_frame_id; lia|]. split.
  - apply LRUK.valid_frame; rewrite (pw_rsize b H); lia.
  - rewrite (pw_pages b H). assumption.
Qed.

(** The two calls on the replacer that pin a frame. *)
Lemma pin_in_replacer n f r :
  0 <= n < 2 ^ 31 -> in_pool n f ->
  LRUK.wf r -> LRUK.replacer_size_ r = n -> LRUK.tracked (in_pool n) r ->
  exists r1 r2,
    LRUK.RecordAccess f r = Ret r1 /\ LRUK.SetEvictable f false r1 = Ret r2 /\
    LRUK.wf r2 /\ LRUK.replacer_size_ r2 = n /\ LRUK.tracked (in_pool n) r2.
Proof.
  intros Hn Hf Hwf Hsize Htr. unfold in_pool in Hf.
  destruct (LRUK.RecordAccess_returns f r) as [r1 H1];
    [apply LRUK.valid_frame; lia|].
  destruct (LRUK.tracked_RecordAccess _ _ _ _ Hf Htr H1) as [Htr1 Hs1].
  destruct (LRUK.SetEvictable_returns f false r1) as [r2 H2];
    [apply LRUK.valid_frame; lia|].
  destruct (LRUK.tracked_SetEvictable _ _ _ _ _ Htr1 H2) as [Htr2 Hs2].
  exists r1, r2. split; [assumption|]. split; [assumption|].
  split; [|split; [congruence | assumption]].
  apply (LRUK.wf_SetEvictable f false r1); [|assumption].
  apply (LRUK.wf_RecordAccess f r); [unfold LRUK.is_frame_id; lia | assumption..].
Qed.

Lemma Forall_last_removelast {A} (P : A -> Prop) (l : list A) (d : A) :
  l <> [] -> Forall P l -> P (List.last l d) /\ Forall P (removelast l).
Proof.
  intros Hne H. rewrite (app_removelast_last d Hne) in H.
  apply Forall_app in H as [H1 H2]. inversion H2; subst. auto.
Qed.

(** [take_frame] returns, with a frame of the pool when it has one. *)
Lemma take_frame_total b :
  pool_wf b ->
  exists fo b1,
    take_frame b = Ret (fo, b1) /\ pool_wf b1 /\
    pool_size_ b1 = pool_size_ b /\ next_page_id_ b1 = next_page_id_ b /\
    forall f, fo = Some f -> in_pool (pool_size_ b) f.
Proof.
  intros H. unfold take_frame. destruct (free_list_ b) as [|x l] eqn:Hfree.
  - destruct (LRUK.tracked_Evict _ _ (pw_tracked b H)) as (Htr & Hrs & Hvic).
    pose proof (LRUK.wf_Evict _ (pw_replacer b H)) as Hrw.
    destruct (LRUK.Evict (replacer_ b)) as [[f|] r'] eqn:Hev; simpl in *.
    + specialize (Hvic f eq_refl).
      destruct (in_pool_frame b f H Hvic) as (_ & _ & Hrange).
      destruct (lookupZ_in_range _ _ Hrange) as [page Hpage].
      rewrite Hpage. simpl.
      assert (Hstep : exists b0,
                (if is_dirty_ page
                 then let* ps := storeZ (pages_ b) f
                                   (mkPage (data_ page) (page_id_ page)
                                      (pin_count_ page) false) in
                      Ret (set_pages
                             (set_disk (set_replacer b r')
                                (WritePage (page_id_ page) (data_ page)
                                   (disk_manager_ b))) ps)
                 else Ret (set_replacer b r')) = Ret b0 /\
                pool_wf b0 /\ pool_size_ b0 = pool_size_ b /\
                next_page_id_ b0 = next_page_id_ b).
      { destruct (is_dirty_ page).
        - rewrite storeZ_in_range by assumption. simpl.
          eexists. split; [reflexivity|]. split; [|split; reflexivity].
          destruct H. split; simpl; rewrite ?length_insert; auto; congruence.
        - eexists. split; [reflexivity|]. split; [|split; reflexivity].
          destruct H. split; simpl; auto; congruence. }
      destruct Hstep as (b0 & Hb0 & Hwf0 & Hsz0 & Hnx0).
      simpl in Hb0. rewrite Hb0. simpl.
      destruct (EHT.Remove_total hash_page_id _ _ _ (page_id_ page) _
                  (pw_table b0 Hwf0)) as (ok & t & Hrm & Ht).
      rewrite Hrm. simpl. eexists _, _. split; [reflexivity|].
      split; [|split; [exact Hsz0 | split; [exact Hnx0|]]].
      * destruct Hwf0. split; simpl; auto.
      * intros f0 [= <-]. assumption.
    + eexists _, _. split; [reflexivity|]. split; [assumption|].
      split; [reflexivity|]. split; [reflexivity|]. discriminate.
  - rewrite <- Hfree. eexists _, _. split; [reflexivity|].
    destruct (Forall_last_removelast (in_pool (pool_size_ b)) (free_list_ b) 0)
      as [Hlast Hrest]; [rewrite Hfree; discriminate | apply (pw_free b H) |].
    split; [|split; [reflexivity | split; [reflexivity|]]].
    + destruct H. split; simpl; auto.
    + intros f [= <-]. assumption.
Qed.

(** [install] returns when the page table's loop has fuel for the 31
    bits of a page id. *)
Lemma install_total frame_id page_id d b :
  pool_wf b -> in_pool (pool_size_ b) frame_id -> is_page_id page_id ->
  (31 < fuel)%nat ->
  exists b', install frame_id page_id d b = Ret b' /\ pool_wf b' /\
             pool_size_ b' = pool_size_ b /\
             next_page_id_ b' = next_page_id_ b.
Proof.
  intros H Hf Hp Hfuel. unfold install.
  destruct (in_pool_frame b frame_id H Hf) as (_ & _ & Hrange).
  rewrite storeZ_in_range by assumption. simpl.
  destruct (EHT.Insert_total hash_page_id is_page_id (in_pool (pool_size_ b)) 31
              hash_page_id_range hash_page_id_inj fuel page_id frame_id
              (page_table_ b) (pw_table b H) Hp Hf ltac:(lia))
    as (t & Hins & Ht).
  rewrite Hins. simpl.
  destruct (pin_in_replacer (pool_size_ b) frame_id (replacer_ b)
              (pw_size b H) Hf (pw_replacer b H) (pw_rsize b H) (pw_tracked b H))
    as (r1 & r2 & H1 & H2 & Hwf2 & Hs2 & Htr2).
  rewrite H1. simpl. rewrite H2. simpl.
  eexists. split; [reflexivity|]. split; [|split; reflexivity].
  destruct H. split; simpl; rewrite ?length_insert; auto.
Qed.

(** [NewPgImp] returns, whatever the state of a well-formed pool. *)
Lemma NewPgImp_total b :
  pool_wf b -> next_page_id_ b < 2 ^ 31 -> (31 < fuel)%nat ->
  exists res b', NewPgImp b = Ret (res, b') /\ pool_wf b'.
Proof.
  intros H Hnext Hfuel. unfold NewPgImp.
  destruct (take_frame_total b H) as (fo & b1 & Htake & H1 & Hsz & Hnx & Hfo).
  rewrite Htake. simpl. destruct fo as [frame_id|]; [|eauto].
  assert (H1' : pool_wf (set_next_page_id b1 (next_page_id_ b1 + 1))).
  { pose proof (pw_next b H). destruct H1. split; simpl; auto. lia. }
  destruct (install_total frame_id (next_page_id_ b1) zero _ H1')
    as (b2 & Hinst & H2 & _); [| |assumption|].
  - simpl. rewrite Hsz. auto.
  - pose proof (pw_next b H). unfold is_page_id. lia.
  - rewrite Hinst. simpl. eauto.
Qed.

(** The same for the other calls of the pool. *)
Lemma FetchPgImp_total page_id b :
  pool_wf b -> is_page_id page_id -> (31 < fuel)%nat ->
  exists fo b', FetchPgImp page_id b = Ret (fo, b') /\ pool_wf b'.
Proof.
  intros H Hp Hfuel. unfold FetchPgImp.
  destruct (EHT.Find hash_page_id page_id (page_table_ b)) as [value|] eqn:Hfind.
  - pose proof (EHT.Find_ran _ _ _ _ _ _ _ (pw_table b H) Hfind) as Hv.
    destruct (in_pool_frame b value H Hv) as (_ & _ & Hrange).
    destruct (lookupZ_in_range _ _ Hrange) as [page Hpage].
    rewrite Hpage. simpl. rewrite storeZ_in_range by assumption. simpl.
    destruct (pin_in_replacer (pool_size_ b) value (replacer_ b)
                (pw_size b H) Hv (pw_replacer b H) (pw_rsize b H) (pw_tracked b H))
      as (r1 & r2 & H1 & H2 & Hwf2 & Hs2 & Htr2).
    rewrite H1. simpl. rewrite H2. simpl.
    eexists _, _. split; [reflexivity|].
    destruct H. split; simpl; rewrite ?length_insert; auto.
  - destruct (take_frame_total b H) as (fo & b1 & Htake & H1 & Hsz & Hnx & Hfo).
    rewrite Htake. simpl. destruct fo as [frame_id|]; [|eauto].
    destruct (install_total frame_id page_id
                (ReadPage page_id (disk_manager_ b1)) b1 H1)
      as (b2 & Hinst & H2 & _); [rewrite Hsz; auto | assumption..|].
    rewrite Hinst. simpl. eauto.
Qed.

Lemma UnpinPgImp_total page_id is_dirty b :
  pool_wf b ->
  exists ok b', UnpinPgImp page_id is_dirty b = Ret (ok, b') /\ pool_wf b'.
Proof.
  intros H. unfold UnpinPgImp.
  destruct (EHT.Find hash_page_id page_id (page_table_ b)) as [index|] eqn:Hfind;
    [|eauto].
  pose proof (EHT.Find_ran _ _ _ _ _ _ _ (pw_table b H) Hfind) as Hv.
  destruct (in_pool_frame b index H Hv) as (_ & Hvalid & Hrange).
  destruct (lookupZ_in_range _ _ Hrange) as [page Hpage].
  rewrite Hpage. simpl. destruct (pin_count_ page <=? 0); [eauto|].
  assert (Hr : exists r,
             (if pin_count_ page - 1 =? 0
              then LRUK.SetEvictable index true (replacer_ b)
              else Ret (replacer_ b)) = Ret r /\
             LRUK.wf r /\ LRUK.replacer_size_ r = pool_size_ b /\
             LRUK.tracked (in_pool (pool_size_ b)) r).
  { destruct (pin_count_ page - 1 =? 0).
    - destruct (LRUK.SetEvictable_returns index true _ Hvalid) as [r Hr].
      destruct (LRUK.tracked_SetEvictable _ _ _ _ _ (pw_tracked b H) Hr).
      exists r. split; [assumption|]. split; [|split; [|assumption]].
      + apply (LRUK.wf_SetEvictable index true (replacer_ b));
          [apply (pw_replacer b H) | assumption].
      + rewrite <- (pw_rsize b H). assumption.
    - exists (replacer_ b). destruct H. auto. }
  destruct Hr as (r & Hr & Hwf & Hs & Htr). rewrite Hr. simpl.
  rewrite storeZ_in_range by assumption. simpl.
  eexists _, _. split; [reflexivity|].
  destruct H. split; simpl; rewrite ?length_insert; auto.
Qed.

Lemma FlushPgImp_total page_id b :
  pool_wf b ->
  exists ok b', FlushPgImp page_id b = Ret (ok, b') /\ pool_wf b'.
Proof.
  intros H. unfold FlushPgImp.
  destruct (EHT.Find hash_page_id page_id (page_table_ b)) as [value|] eqn:Hfind;
    [|eauto].
  pose proof (EHT.Find_ran _ _ _ _ _ _ _ (pw_table b H) Hfind) as Hv.
  destruct (in_pool_frame b value H Hv) as (_ & _ & Hrange).
  destruct (lookupZ_in_range _ _ Hrange) as [page Hpage].
  rewrite Hpage. simpl. rewrite storeZ_in_range by assumption. simpl.
  eexists _, _. split; [reflexivity|].
  destruct H. split; simpl; rewrite ?length_insert; auto.
Qed.

Lemma DeletePgImp_total page_id b :
  pool_wf b ->
  exists ok b', DeletePgImp page_id b = Ret (ok, b') /\ pool_wf b'.
Proof.
  intros H. unfold DeletePgImp.
  destruct (EHT.Find hash_page_id page_id (page_table_ b)) as [value|] eqn:Hfind;
    [|eauto].
  pose proof (EHT.Find_ran _ _ _ _ _ _ _ (pw_table b H) Hfind) as Hv.
  destruct (in_pool_frame b value H Hv) as (_ & _ & Hrange).
  destruct (lookupZ_in_range _ _ Hrange) as [page Hpage].
  rewrite Hpage. simpl. destruct (negb (pin_count_ page =? 0)); [eauto|].
  destruct (EHT.Remove_total hash_page_id _ _ _ page_id _ (pw_table b H))
    as (ok & t & Hrm & Ht).
  rewrite Hrm. simpl. rewrite storeZ_in_range by assumption. simpl.
  destruct (LRUK.tracked_Remove _ value _ (pw_tracked b H)) as [Htr Hs].
  pose proof (LRUK.wf_Remove value _ (pw_replacer b H)) as Hwf.
  eexists _, _. split; [reflexivity|].
  destruct H. split; simpl; rewrite ?length_insert; auto; try congruence.
  apply Forall_app. split; [assumption|]. constructor; [assumption|constructor].
Qed.

Lemma SetData_total frame d b :
  pool_wf b -> in_pool (pool_size_ b) frame ->
  exists b', SetData frame d b = Ret b' /\ pool_wf b'.
Proof.
  intros H Hf. unfold SetData.
  destruct (in_pool_frame b frame H Hf) as (_ & _ & Hrange).
  destruct (lookupZ_in_range _ _ Hrange) as [page Hpage].
  rewrite Hpage. simpl. rewrite storeZ_in_range by assumption. simpl.
  eexists. split; [reflexivity|].
  destruct H. split; simpl; rewrite ?length_insert; auto.
Qed.

(** [FetchPgImp] returns the page when it is resident or a frame can
    be had, and null otherwise. *)
Lemma FetchPgImp_some page_id b :
  pool_wf b -> is_page_id page_id -> (31 < fuel)%nat ->
  EHT.Find hash_page_id page_id (page_table_ b) <> None \/
  free_list_ b <> [] \/ LRUK.evictable_count (replacer_ b) <> 0 ->
  exists f b', FetchPgImp page_id b = Ret (Some f, b') /\ pool_wf b'.
Proof.
  intros H Hp Hfuel Hcan.
  destruct (FetchPgImp_total page_id b H Hp Hfuel) as (fo & b' & Hret & H').
  destruct fo as [f|]; [eauto|]. exfalso.
  apply FetchPgImp_Ret in Hret
    as [(v & pg & _ & Hfo & _)|[(Hfind & _ & _ & Hfree & Hev)
                               |(_ & f & d & Hfo & _)]];
    try discriminate.
  apply (LRUK.Evict_None_iff _ (pw_replacer b H)) in Hev.
  destruct Hcan as [Hc|[Hc|Hc]]; contradiction.
Qed.

Lemma FetchPgImp_null page_id b :
  EHT.Find hash_page_id page_id (page_table_ b) = None ->
  free_list_ b = [] -> fst (LRUK.Evict (replacer_ b)) = None ->
  FetchPgImp page_id b = Ret (None, b).
Proof.
  intros Hfind Hfree Hev. unfold FetchPgImp, take_frame.
  rewrite Hfind, Hfree.
  destruct (LRUK.Evict (replacer_ b)) as [[f|] r']; simpl in *;
    [discriminate | reflexivity].
Qed.

(** *** The invariant, decided *)
Definition in_range (lo hi x : Z) : bool := (lo <=? x) && (x <? hi).

Lemma in_range_spec lo hi x : in_range lo hi x = true <-> lo <= x < hi.
Proof. unfold in_range. rewrite andb_true_iff, Z.leb_le, Z.ltb_lt. tauto. Qed.

Definition pool_ok (b : BufferPoolManagerInstance) : bool :=
  in_range 0 (2 ^ 31) (pool_size_ b) &&
  (Z.of_nat (length (pages_ b)) =? pool_size_ b) &&
  EHT.wfb hash_page_id (in_range 0 (2 ^ 31)) (in_range 0 (pool_size_ b)) 31
    (page_table_ b) &&
  LRUK.wfb (replacer_ b) &&
  (LRUK.replacer_size_ (replacer_ b) =? pool_size_ b) &&
  LRUK.trackedb (pool_size_ b) (replacer_ b) &&
  forallb (in_range 0 (pool_size_ b)) (free_list_ b) &&
  (0 <=? next_page_id_ b).

Lemma pool_ok_sound b : pool_ok b = true -> pool_wf b.
Proof.
  unfold pool_ok. rewrite !andb_true_iff.
  intros (((((((Hs & Hp) & Ht) & Hr) & Hrs) & Htr) & Hf) & Hn).
  apply in_range_spec in Hs. apply Z.eqb_eq in Hp, Hrs. apply Z.leb_le in Hn.
  split; try assumption.
  - apply EHT.table_wfb_sound in Ht. revert Ht. apply EHT.wf_mono.
    + intros k Hk. apply in_range_spec in Hk. exact Hk.
    + intros v Hv. apply in_range_spec in Hv. exact Hv.
  - apply LRUK.wfb_sound. assumption.
  - apply LRUK.trackedb_sound. assumption.
  - apply Forall_forall. intros f Hin. apply list_elem_of_In in Hin.
    rewrite forallb_forall in Hf. apply in_range_spec, Hf, Hin.
Qed.

End Pool.
Arguments Page : clear implicits.
Arguments DiskManager : clear implicits.
Arguments BufferPoolManagerInstance : clear implicits.
End BPM.

(** ** B+ tree pages
    (b_plus_tree_leaf_page.cpp in unnamed/part_002, the version with
    [PopBack] to [PushBack]; b_plus_tree_internal_page.cpp in
    unnamed/part_003)

    Keys are [GenericKey]s set from integers and compared as integers;
    the value type of a leaf is a parameter.  [array_] is the list of
    the [GetSize()] entries in use. *)

Module Node.
Section Pages.
Variable V : Type.

(** [GenericComparator]: negative, zero or positive. *)
Definition comparator_ (a b : Z) : Z :=
  match a ?= b with Lt => -1 | Eq => 0 | Gt => 1 end.

Record LeafPage := mkLeaf {
  l_page_id_ : Z;
  l_parent_page_id_ : Z;
  l_max_size_ : Z;
  next_page_id_ : Z;
  l_array_ : list (Z * V)
}.

Record InternalPage := mkInternal {
  i_page_id_ : Z;
  i_parent_page_id_ : Z;
  i_max_size_ : Z;
  i_array_ : list (Z * Z)
}.

(** What the bytes of a page are read as.  [Header] is the header
    page (page 0) with its records of index name and root page id. *)
Inductive PageData :=
| Zeroed
| Leaf (l : LeafPage)
| Internal (i : InternalPage)
| Header (records : list (string * Z)).

Definition size_of {A} (l : list A) : Z := Z.of_nat (length l).

(** *** The common header, [BPlusTreePage]

    Modelled from the spec: b_plus_tree_page.cpp is not among the
    sources.  "parent-page-id (-1 for root)"; "min size (= ceil(max/2)
    for internal, = ceil((max-1)/2) for leaf". *)
Definition IsLeafPage (d : PageData) : outcome bool :=
  match d with
  | Leaf _ => Ret true
  | Internal _ => Ret false
  | _ => Abort
  end.

Definition GetSize (d : PageData) : outcome Z :=
  match d with
  | Leaf l => Ret (size_of (l_array_ l))
  | Internal i => Ret (size_of (i_array_ i))
  | _ => Abort
  end.

Definition GetMaxSize (d : PageData) : outcome Z :=
  match d with
  | Leaf l => Ret (l_max_size_ l)
  | Internal i => Ret (i_max_size_ i)
  | _ => Abort
  end.

Definition ceil_half (n : Z) : Z := (n + 1) / 2.

Definition GetMinSize (d : PageData) : outcome Z :=
  match d with
  | Leaf l => Ret (ceil_half (l_max_size_ l - 1))
  | Internal i => Ret (ceil_half (i_max_size_ i))
  | _ => Abort
  end.

Definition GetPageId (d : PageData) : outcome Z :=
  match d with
  | Leaf l => Ret (l_page_id_ l)
  | Internal i => Ret (i_page_id_ i)
  | _ => Abort
  end.

Definition GetParentPageId (d : PageData) : outcome Z :=
  match d with
  | Leaf l => Ret (l_parent_page_id_ l)
  | Internal i => Ret (i_parent_page_id_ i)
  | _ => Abort
  end.

Definition IsRootPage (d : PageData) : outcome bool :=
  let* p := GetParentPageId d in Ret (p =? -1).

Definition SetParentPageId (parent : Z) (d : PageData) : outcome PageData :=
  match d with
  | Leaf l => Ret (Leaf (mkLeaf (l_page_id_ l) parent (l_max_size_ l)
                           (next_page_id_ l) (l_array_ l)))
  | Internal i => Ret (Internal (mkInternal (i_page_id_ i) parent (i_max_size_ i)
                                   (i_array_ i)))
  | _ => Abort
  end.

(** [SetSize(n)] with [n] at most the size: the entries from [n] on
    are no longer in use. *)
Definition truncate {A} (n : Z) (l : list A) : outcome (list A) :=
  if (0 <=? n) && (n <=? size_of l) then Ret (firstn (Z.to_nat n) l) else Abort.

(** Entry [index] of [array_]. *)
Definition at_ {A} (l : list A) (index : Z) : outcome A := deref (lookupZ l index).

(** The shifting loops: a new entry at [index], or entry [index] out. *)
Definition insert_at {A} (index : Z) (x : A) (l : list A) : outcome (list A) :=
  if (0 <=? index) && (index <=? size_of l)
  then Ret (firstn (Z.to_nat index) l ++ x :: skipn (Z.to_nat index) l)
  else Abort.

Definition remove_at {A} (index : Z) (l : list A) : outcome (list A) :=
  if (0 <=? index) && (index <? size_of l)
  then Ret (firstn (Z.to_nat index) l ++ skipn (S (Z.to_nat index)) l)
  else Abort.

(** *** Leaf page *)

Definition set_l_array (l : LeafPage) (a : list (Z * V)) : LeafPage :=
  mkLeaf (l_page_id_ l) (l_parent_page_id_ l) (l_max_size_ l) (next_page_id_ l) a.

Definition Leaf_Init (page_id parent_id max_size : Z) : LeafPage :=
  mkLeaf page_id parent_id max_size (-1) [].

Definition GetNextPageId (l : LeafPage) : Z := next_page_id_ l.

Definition SetNextPageId (next : Z) (l : LeafPage) : LeafPage :=
  mkLeaf (l_page_id_ l) (l_parent_page_id_ l) (l_max_size_ l) next (l_array_ l).

Definition Leaf_KeyAt (index : Z) (l : LeafPage) : outcome Z :=
  let* e := at_ (l_array_ l) index in Ret (fst e).

Definition Leaf_ValueAt (index : Z) (l : LeafPage) : outcome V :=
  let* e := at_ (l_array_ l) index in Ret (snd e).

Definition MappingAt (index : Z) (l : LeafPage) : outcome (Z * V) :=
  at_ (l_array_ l) index.

Fixpoint find_key (key : Z) (a : list (Z * V)) : option V :=
  match a with
  | [] => None
  | (k, v) :: rest =>
      if comparator_ k key =? 0 then Some v else find_key key rest
  end.

Definition FindKey (key : Z) (l : LeafPage) : option V := find_key key (l_array_ l).

(** The first index whose key is not below [key], or the size. *)
Fixpoint leaf_find_index (key : Z) (a : list (Z * V)) (i : Z) : Z :=
  match a with
  | [] => i
  | (k, _) :: rest =>
      if 0 <=? comparator_ k key then i else leaf_find_index key rest (i + 1)
  end.

Definition Leaf_FindIndex (key : Z) (l : LeafPage) : Z :=
  leaf_find_index key (l_array_ l) 0.

Definition Leaf_InsertAfter (key : Z) (value : V) (l : LeafPage) : LeafPage :=
  set_l_array l (l_array_ l ++ [(key, value)]).

Definition Leaf_Insert (key : Z) (value : V) (l : LeafPage) : outcome LeafPage :=
  let index := Leaf_FindIndex key l in
  let* a := insert_at index (key, value) (l_array_ l) in
  Ret (set_l_array l a).

(** [Remove] reads [array_[index]] before it tests [index >= size];
    at [index = size] the slot is past the entries in use and the
    function returns whatever the slot holds. *)
Definition Leaf_Remove (key : Z) (l : LeafPage) : outcome LeafPage :=
  let index := Leaf_FindIndex key l in
  match lookupZ (l_array_ l) index with
  | None => Ret l
  | Some (k, _) =>
      if negb (comparator_ k key =? 0) then Ret l
      else if size_of (l_array_ l) <=? index then Ret l
      else let* a := remove_at index (l_array_ l) in Ret (set_l_array l a)
  end.

Definition Leaf_PopBack (l : LeafPage) : outcome ((Z * V) * LeafPage) :=
  let size := size_of (l_array_ l) in
  let* kv := at_ (l_array_ l) (size - 1) in
  let* a := truncate (size - 1) (l_array_ l) in
  Ret (kv, set_l_array l a).

Definition Leaf_PushFront (kv : Z * V) (l : LeafPage) : LeafPage :=
  set_l_array l (kv :: l_array_ l).

Definition Leaf_PopFront (l : LeafPage) : outcome ((Z * V) * LeafPage) :=
  let* kv := at_ (l_array_ l) 0 in
  let* a := remove_at 0 (l_array_ l) in
  Ret (kv, set_l_array l a).

Definition Leaf_PushBack (kv : Z * V) (l : LeafPage) : LeafPage :=
  set_l_array l (l_array_ l ++ [kv]).

(** *** Internal page *)

Definition set_i_array (i : InternalPage) (a : list (Z * Z)) : InternalPage :=
  mkInternal (i_page_id_ i) (i_parent_page_id_ i) (i_max_size_ i) a.

Definition Internal_Init (page_id parent_id max_size : Z) : InternalPage :=
  mkInternal page_id parent_id max_size [].

Definition KeyAt (index : Z) (i : InternalPage) : outcome Z :=
  let* e := at_ (i_array_ i) index in Ret (fst e).

Definition ValueAt (index : Z) (i : InternalPage) : outcome Z :=
  let* e := at_ (i_array_ i) index in Ret (snd e).

Definition SetKeyAt (index key : Z) (i : InternalPage) : outcome InternalPage :=
  let* e := at_ (i_array_ i) index in
  let* a := storeZ (i_array_ i) index (key, snd e) in
  Ret (set_i_array i a).

(** From index 1 on, the first index whose key is above [key], or
    the size (1 for a page without entries). *)
Fixpoint internal_find_index (key : Z) (a : list (Z * Z)) (i : Z) : Z :=
  match a with
  | [] => i
  | (k, _) :: rest =>
      if 0 <? comparator_ k key then i else internal_find_index key rest (i + 1)
  end.

Definition FindIndex (key : Z) (i : InternalPage) : Z :=
  internal_find_index key (tl (i_array_ i)) 1.

Definition Internal_Insert (key value : Z) (i : InternalPage) : outcome InternalPage :=
  let index := FindIndex key i in
  let* a := insert_at index (key, value) (i_array_ i) in
  Ret (set_i_array i a).

Definition InsertAfter (key value : Z) (i : InternalPage) : InternalPage :=
  set_i_array i (i_array_ i ++ [(key, value)]).

(** On a page that [ResetMemory] has zeroed the key of slot 0 is the
    zero key. *)
Definition SetValue0 (value : Z) (i : InternalPage) : InternalPage :=
  match i_array_ i with
  | [] => set_i_array i [(0, value)]
  | (k, _) :: rest => set_i_array i ((k, value) :: rest)
  end.

(** Modelled from the spec: [PopBack], [PushFront], [PopFront],
    [PushBack] and [RemoveByIndex] of the internal page are called by
    the tree but are not in the version of the page among the sources;
    "move one entry from the donor sibling", "remove the separator and
    right child from the parent".  They do on (key, child) entries
    what the leaf page's functions of the same names do. *)
Definition PopBack (i : InternalPage) : outcome ((Z * Z) * InternalPage) :=
  let size := size_of (i_array_ i) in
  let* kv := at_ (i_array_ i) (size - 1) in
  let* a := truncate (size - 1) (i_array_ i) in
  Ret (kv, set_i_array i a).

Definition PushFront (kv : Z * Z) (i : InternalPage) : InternalPage :=
  set_i_array i (kv :: i_array_ i).

Definition PopFront (i : InternalPage) : outcome ((Z * Z) * InternalPage) :=
  let* kv := at_ (i_array_ i) 0 in
  let* a := remove_at 0 (i_array_ i) in
  Ret (kv, set_i_array i a).

Definition PushBack (kv : Z * Z) (i : InternalPage) : InternalPage :=
  set_i_array i (i_array_ i ++ [kv]).

Definition RemoveByIndex (index : Z) (i : InternalPage) : outcome InternalPage :=
  let* a := remove_at index (i_array_ i) in Ret (set_i_array i a).

(** Casts of a page's bytes to a page class. *)
Definition as_leaf (d : PageData) : outcome LeafPage :=
  match d with Leaf l => Ret l | _ => Abort end.

Definition as_internal (d : PageData) : outcome InternalPage :=
  match d with Internal i => Ret i | _ => Abort end.

End Pages.

Arguments Zeroed {V}.
Arguments Leaf {V} l.
Arguments Internal {V} i.
Arguments Header {V} records.
Arguments mkLeaf {V}.
End Node.

(** ** B+ tree
    (b_plus_tree.cpp, the version with [Remove], [RedistributeBrother]
    and [MergeBrother]: unnamed/part_001, lines 1-743; the iterator is
    src/storage/index/index_iterator.cpp, lines 1-69)

    A pointer to a page or to a tree node is the index of its frame in
    the pool: the bytes are read and written where they stand, pinned
    or not, as the code does after its early [UnpinPage].  The casts
    of a [Page *] itself to a node class read the same bytes
    ([data_] is the first member of [Page]). *)

Module BPT.
Section Tree.
Variable V : Type.
(** Fuel: for the page table's loop, for a descent and for the
    recursion towards the root. *)
Variable fuel : nat.

Abbreviation PageData := (Node.PageData V).
Abbreviation Pool := (BPM.BufferPoolManagerInstance PageData).

Definition HEADER_PAGE_ID : Z := 0.

Record BPlusTree := mkTree {
  index_name_ : string;
  root_page_id_ : Z;
  buffer_pool_manager_ : Pool;
  leaf_max_size_ : Z;
  internal_max_size_ : Z
}.

Definition new_tree (name : string) (bpm : Pool) (leaf_max_size internal_max_size : Z)
  : BPlusTree :=
  mkTree name BPM.INVALID_PAGE_ID bpm leaf_max_size internal_max_size.

Definition set_root (t : BPlusTree) (root : Z) : BPlusTree :=
  mkTree (index_name_ t) root (buffer_pool_manager_ t) (leaf_max_size_ t)
    (internal_max_size_ t).

Definition set_bpm (t : BPlusTree) (b : Pool) : BPlusTree :=
  mkTree (index_name_ t) (root_page_id_ t) b (leaf_max_size_ t)
    (internal_max_size_ t).

(** *** Calls into the pool *)

(** [FetchPage] followed by the first use of the pointer. *)
Definition FetchPage (page_id : Z) (t : BPlusTree) : outcome (Z * BPlusTree) :=
  let* (fo, b) := BPM.FetchPgImp Node.Zeroed fuel page_id (buffer_pool_manager_ t) in
  let* frame := deref fo in
  Ret (frame, set_bpm t b).

Definition UnpinPage (page_id : Z) (is_dirty : bool) (t : BPlusTree)
  : outcome BPlusTree :=
  let* (_, b) := BPM.UnpinPgImp page_id is_dirty (buffer_pool_manager_ t) in
  Ret (set_bpm t b).

Definition NewPage (t : BPlusTree) : outcome ((Z * Z) * BPlusTree) :=
  let* (po, b) := BPM.NewPgImp Node.Zeroed fuel (buffer_pool_manager_ t) in
  let* p := deref po in
  Ret (p, set_bpm t b).

Definition DeletePage (page_id : Z) (t : BPlusTree) : outcome (bool * BPlusTree) :=
  let* (ok, b) := BPM.DeletePgImp Node.Zeroed page_id (buffer_pool_manager_ t) in
  Ret (ok, set_bpm t b).

Definition page_at (frame : Z) (t : BPlusTree) : outcome PageData :=
  BPM.GetData frame (buffer_pool_manager_ t).

Definition put_page (frame : Z) (d : PageData) (t : BPlusTree) : outcome BPlusTree :=
  let* b := BPM.SetData frame d (buffer_pool_manager_ t) in Ret (set_bpm t b).

Definition leaf_at (frame : Z) (t : BPlusTree) : outcome (Node.LeafPage V) :=
  let* d := page_at frame t in Node.as_leaf V d.

Definition internal_at (frame : Z) (t : BPlusTree) : outcome Node.InternalPage :=
  let* d := page_at frame t in Node.as_internal V d.

Definition put_leaf (frame : Z) (l : Node.LeafPage V) (t : BPlusTree) :=
  put_page frame (Node.Leaf l) t.

Definition put_internal (frame : Z) (i : Node.InternalPage) (t : BPlusTree) :=
  put_page frame (Node.Internal i) t.

Definition set_parent (frame parent : Z) (t : BPlusTree) : outcome BPlusTree :=
  let* d := page_at frame t in
  let* d := Node.SetParentPageId V parent d in
  put_page frame d t.

Definition page_id_at (frame : Z) (t : BPlusTree) : outcome Z :=
  let* d := page_at frame t in Node.GetPageId V d.

Definition size_at (frame : Z) (t : BPlusTree) : outcome Z :=
  let* d := page_at frame t in Node.GetSize V d.

Definition min_size_at (frame : Z) (t : BPlusTree) : outcome Z :=
  let* d := page_at frame t in Node.GetMinSize V d.

Definition max_size_at (frame : Z) (t : BPlusTree) : outcome Z :=
  let* d := page_at frame t in Node.GetMaxSize V d.

Definition is_leaf_at (frame : Z) (t : BPlusTree) : outcome bool :=
  let* d := page_at frame t in Node.IsLeafPage V d.

Definition is_root_at (frame : Z) (t : BPlusTree) : outcome bool :=
  let* d := page_at frame t in Node.IsRootPage V d.

(** *** Header page

    Modelled from the spec: header_page.cpp is not among the sources;
    "update_root_page_id(insert=true) inserts a new record;
    insert=false updates the existing record". *)
Fixpoint has_record (name : string) (rs : list (string * Z)) : bool :=
  match rs with
  | [] => false
  | (n, _) :: rest => if String.eqb n name then true else has_record name rest
  end.

Definition InsertRecord (name : string) (root : Z) (rs : list (string * Z)) :=
  if has_record name rs then rs else rs ++ [(name, root)].

Definition UpdateRecord (name : string) (root : Z) (rs : list (string * Z)) :=
  map (fun r => if String.eqb (fst r) name then (name, root) else r) rs.

Definition UpdateRootPageId (insert_record : Z) (t : BPlusTree) : outcome BPlusTree :=
  let* (header_page, t) := FetchPage HEADER_PAGE_ID t in
  let* d := page_at header_page t in
  let* rs := match d with
             | Node.Header rs => Ret rs
             | Node.Zeroed => Ret []
             | _ => Abort
             end in
  let rs := if negb (insert_record =? 0)
            then InsertRecord (index_name_ t) (root_page_id_ t) rs
            else UpdateRecord (index_name_ t) (root_page_id_ t) rs in
  let* t := put_page header_page (Node.Header rs) t in
  UnpinPage HEADER_PAGE_ID true t.

Definition IsEmpty (t : BPlusTree) : bool := root_page_id_ t =? -1.

(** *** Search *)

Fixpoint descend (n : nat) (key : Z) (cur_node : Z) (t : BPlusTree)
  : outcome (Z * BPlusTree) :=
  match n with
  | O => Diverge
  | S n' =>
      let* leaf := is_leaf_at cur_node t in
      if leaf then Ret (cur_node, t)
      else
        let* inner_node := internal_at cur_node t in
        let index := Node.FindIndex key inner_node in
        let* page_id := Node.ValueAt (index - 1) inner_node in
        let* (next_page, t) := FetchPage page_id t in
        let* t := UnpinPage page_id false t in
        descend n' key next_page t
  end.

Definition FindLeaf (key : Z) (t : BPlusTree) : outcome (Z * BPlusTree) :=
  let* (root_page, t) := FetchPage (root_page_id_ t) t in
  let* (cur_node, t) := descend fuel key root_page t in
  let* t := UnpinPage (root_page_id_ t) false t in
  Ret (cur_node, t).

(** [GetValue]: the value pushed on [result], if the key is found. *)
Definition GetValue (key : Z) (t : BPlusTree) : outcome (option V * BPlusTree) :=
  if IsEmpty t then Ret (None, t)
  else
    let* (leafnode, t) := FindLeaf key t in
    let* l := leaf_at leafnode t in
    Ret (Node.FindKey V key l, t).

(** *** Insertion *)

Fixpoint copy_leaf_entries (idx : list Z) (from to : Z) (t : BPlusTree)
  : outcome BPlusTree :=
  match idx with
  | [] => Ret t
  | i :: rest =>
      let* src := leaf_at from t in
      let* k := Node.Leaf_KeyAt V i src in
      let* v := Node.Leaf_ValueAt V i src in
      let* dst := leaf_at to t in
      let* t := put_leaf to (Node.Leaf_InsertAfter V k v dst) t in
      copy_leaf_entries rest from to t
  end.

Definition range (lo hi : Z) : list Z := map (fun i => lo + i) (EHT.iota (hi - lo)).

Definition leaf_set_size (frame n : Z) (t : BPlusTree) : outcome BPlusTree :=
  let* l := leaf_at frame t in
  let* a := Node.truncate n (Node.l_array_ V l) in
  put_leaf frame (Node.set_l_array V l a) t.

Definition LeafSplit (leaf_node : Z) (t : BPlusTree) : outcome (Z * BPlusTree) :=
  let* ((new_page_id, new_leaf_node), t) := NewPage t in
  let* t := put_leaf new_leaf_node
              (Node.Leaf_Init V new_page_id (-1) (leaf_max_size_ t)) t in
  let* old_size := size_at leaf_node t in
  let half := Z.quot old_size 2 in
  let* t := copy_leaf_entries (range half old_size) leaf_node new_leaf_node t in
  let* t := leaf_set_size leaf_node half t in
  let* t := leaf_set_size new_leaf_node (old_size - half) t in
  let* l := leaf_at leaf_node t in
  let* nl := leaf_at new_leaf_node t in
  let* t := put_leaf new_leaf_node (Node.SetNextPageId V (Node.GetNextPageId V l) nl) t in
  let* l := leaf_at leaf_node t in
  let* t := put_leaf leaf_node (Node.SetNextPageId V new_page_id l) t in
  let* t := UnpinPage new_page_id true t in
  Ret (new_leaf_node, t).

Fixpoint copy_internal_entries (idx : list Z) (from : Node.InternalPage) (to : Z)
    (t : BPlusTree) : outcome BPlusTree :=
  match idx with
  | [] => Ret t
  | i :: rest =>
      let* k := Node.KeyAt i from in
      let* v := Node.ValueAt i from in
      let* dst := internal_at to t in
      let* t := put_internal to (Node.InsertAfter k v dst) t in
      copy_internal_entries rest from to t
  end.

(** [InternalSplit] works on the scratch copy of the full parent:
    the new right page and the copy cut to its lower half. *)
Definition InternalSplit (internal_page : Node.InternalPage) (t : BPlusTree)
  : outcome ((Z * Node.InternalPage) * BPlusTree) :=
  let* ((new_page_id, new_internal_node), t) := NewPage t in
  let* t := put_internal new_internal_node
              (Node.Internal_Init new_page_id (-1) (internal_max_size_ t)) t in
  let old_size := Node.size_of (Node.i_array_ internal_page) in
  let half := 1 + Z.quot (old_size - 1) 2 in
  let* t := copy_internal_entries (range half old_size) internal_page
              new_internal_node t in
  let* a := Node.truncate half (Node.i_array_ internal_page) in
  let internal_page := Node.set_i_array internal_page a in
  let* ni := internal_at new_internal_node t in
  let* na := Node.truncate (old_size - half) (Node.i_array_ ni) in
  let* t := put_internal new_internal_node (Node.set_i_array ni na) t in
  let* t := UnpinPage new_page_id true t in
  Ret ((new_internal_node, internal_page), t).

Fixpoint InsertIntoParent (n : nat) (old_node : Z) (key : Z) (new_node : Z)
    (t : BPlusTree) : outcome BPlusTree :=
  match n with
  | O => Diverge
  | S n' =>
      let* is_root := is_root_at old_node t in
      if is_root then
        let* ((root_id, new_root), t) := NewPage t in
        let t := set_root t root_id in
        let* t := put_internal new_root
                    (Node.Internal_Init root_id (-1) (internal_max_size_ t)) t in
        let* old_id := page_id_at old_node t in
        let* r := internal_at new_root t in
        let* t := put_internal new_root (Node.SetValue0 old_id r) t in
        let* new_id := page_id_at new_node t in
        let* r := internal_at new_root t in
        let* t := put_internal new_root (Node.InsertAfter key new_id r) t in
        let* t := set_parent old_node root_id t in
        let* t := set_parent new_node root_id t in
        let* t := UpdateRootPageId 0 t in
        UnpinPage root_id true t
      else
        let* old := page_at old_node t in
        let* parent_page_id := Node.GetParentPageId V old in
        let* (parent_page, t) := FetchPage parent_page_id t in
        let* parent_size := size_at parent_page t in
        if parent_size <? internal_max_size_ t then
          let* p := internal_at parent_page t in
          let* new_id := page_id_at new_node t in
          let* p := Node.Internal_Insert key new_id p in
          let* t := put_internal parent_page p t in
          let* t := set_parent new_node parent_page_id t in
          UnpinPage parent_page_id true t
        else
          let* copy_parent_node := internal_at parent_page t in
          let* new_id := page_id_at new_node t in
          let* copy_parent_node := Node.Internal_Insert key new_id copy_parent_node in
          let* ((parent_new_split_node, copy_parent_node), t) :=
            InternalSplit copy_parent_node t in
          let* split_id := page_id_at parent_new_split_node t in
          let* t := set_parent new_node split_id t in
          let* s := internal_at parent_new_split_node t in
          let* new_risen_key := Node.KeyAt 0 s in
          let* t := put_internal parent_page copy_parent_node t in
          let* t := InsertIntoParent n' parent_page new_risen_key
                      parent_new_split_node t in
          UnpinPage parent_page_id true t
  end.

Definition InsertIntoLeaf (key : Z) (value : V) (t : BPlusTree) : outcome BPlusTree :=
  let* (leaf_node, t) := FindLeaf key t in
  let* l := leaf_at leaf_node t in
  let* l := Node.Leaf_Insert V key value l in
  let* t := put_leaf leaf_node l t in
  let* size := size_at leaf_node t in
  if size <? leaf_max_size_ t then Ret t
  else
    let* (new_leaf_node, t) := LeafSplit leaf_node t in
    let* nl := leaf_at new_leaf_node t in
    let* k0 := Node.Leaf_KeyAt V 0 nl in
    InsertIntoParent fuel leaf_node k0 new_leaf_node t.

Definition Insert (key : Z) (value : V) (t : BPlusTree) : outcome (bool * BPlusTree) :=
  if IsEmpty t then
    let* ((root_id, new_page), t) := NewPage t in
    let t := set_root t root_id in
    let leaf_page := Node.Leaf_Init V (root_page_id_ t) (-1) (leaf_max_size_ t) in
    let* leaf_page := Node.Leaf_Insert V key value leaf_page in
    let* t := put_leaf new_page leaf_page t in
    let* t := UnpinPage (root_page_id_ t) true t in
    let* t := UpdateRootPageId 1 t in
    Ret (true, t)
  else
    let* (found, t) := GetValue key t in
    match found with
    | Some _ => Ret (false, t)
    | None =>
        let* t := InsertIntoLeaf key value t in
        Ret (true, t)
    end.

(** *** Removal *)

Definition UpdataParentKey (old_key new_key : Z) (cur_node : Z) (t : BPlusTree)
  : outcome BPlusTree :=
  let* cur := page_at cur_node t in
  let* parent_id := Node.GetParentPageId V cur in
  let* _ := assert (negb (parent_id =? 0)) in
  let* (parent_page, t) := FetchPage parent_id t in
  let* parent_node := internal_at parent_page t in
  let index := Node.FindIndex old_key parent_node - 1 in
  let* cur_id := page_id_at cur_node t in
  let* child := Node.ValueAt index parent_node in
  let* _ := assert (cur_id =? child) in
  let* k := Node.KeyAt index parent_node in
  if Node.comparator_ k old_key =? 0 then
    let* parent_node := Node.SetKeyAt index new_key parent_node in
    let* t := put_internal parent_page parent_node t in
    UnpinPage parent_id true t
  else UnpinPage parent_id false t.

(** Which sibling gave an entry, for the statements about the
    choice; the code returns only whether one did. *)
Inductive donor := FromLeft | FromRight.

Definition borrow_from_left (index : Z) (parent_page cur_node left_brother : Z)
    (t : BPlusTree) : outcome BPlusTree :=
  let* is_leaf := is_leaf_at left_brother t in
  if is_leaf then
    let* donor_page := leaf_at left_brother t in
    let* (kv, donor_page) := Node.Leaf_PopBack V donor_page in
    let* t := put_leaf left_brother donor_page t in
    let* cur := leaf_at cur_node t in
    let* t := put_leaf cur_node (Node.Leaf_PushFront V kv cur) t in
    let* cur := leaf_at cur_node t in
    let* k0 := Node.Leaf_KeyAt V 0 cur in
    let* parent := internal_at parent_page t in
    let* parent := Node.SetKeyAt index k0 parent in
    put_internal parent_page parent t
  else
    let* donor_page := internal_at left_brother t in
    let* (kv, donor_page) := Node.PopBack donor_page in
    let* t := put_internal left_brother donor_page t in
    let* parent := internal_at parent_page t in
    let* parent_key := Node.KeyAt index parent in
    let* parent := Node.SetKeyAt index (fst kv) parent in
    let* t := put_internal parent_page parent t in
    let* cur := internal_at cur_node t in
    let* cur := Node.SetKeyAt 0 parent_key cur in
    let* t := put_internal cur_node cur t in
    let* cur := internal_at cur_node t in
    put_internal cur_node (Node.PushFront kv cur) t.

Definition borrow_from_right (index : Z) (parent_page cur_node right_brother : Z)
    (t : BPlusTree) : outcome BPlusTree :=
  let* is_leaf := is_leaf_at right_brother t in
  if is_leaf then
    let* donor_page := leaf_at right_brother t in
    let* (kv, donor_page) := Node.Leaf_PopFront V donor_page in
    let* t := put_leaf right_brother donor_page t in
    let* cur := leaf_at cur_node t in
    let* t := put_leaf cur_node (Node.Leaf_PushBack V kv cur) t in
    let* donor_page := leaf_at right_brother t in
    let* k0 := Node.Leaf_KeyAt V 0 donor_page in
    let* parent := internal_at parent_page t in
    let* parent := Node.SetKeyAt (index + 1) k0 parent in
    put_internal parent_page parent t
  else
    let* parent := internal_at parent_page t in
    let* parent_key := Node.KeyAt (index + 1) parent in
    let* donor_page := internal_at right_brother t in
    let* donor_page := Node.SetKeyAt 0 parent_key donor_page in
    let* (kv, donor_page) := Node.PopFront donor_page in
    let* t := put_internal right_brother donor_page t in
    let* donor_page := internal_at right_brother t in
    let* k0 := Node.KeyAt 0 donor_page in
    let* parent := internal_at parent_page t in
    let* parent := Node.SetKeyAt (index + 1) k0 parent in
    let* t := put_internal parent_page parent t in
    let* cur := internal_at cur_node t in
    put_internal cur_node (Node.PushBack kv cur) t.

(** [RedistributeBrother]: [Some] for [true], with the sibling that
    gave; [None] for [false]. *)
Definition RedistributeBrother (key : Z) (cur_node : Z) (t : BPlusTree)
  : outcome (option donor * BPlusTree) :=
  let* cur := page_at cur_node t in
  let* parent_id := Node.GetParentPageId V cur in
  let* _ := assert (negb (parent_id =? 0)) in
  let* (parent_page, t) := FetchPage parent_id t in
  let* parent_node := internal_at parent_page t in
  let index := Node.FindIndex key parent_node - 1 in
  let* cur_id := page_id_at cur_node t in
  let* child := Node.ValueAt index parent_node in
  let* _ := assert (cur_id =? child) in
  let right_part (t : BPlusTree) : outcome (option donor * BPlusTree) :=
    let* parent_size := size_at parent_page t in
    if index + 1 <? parent_size then
      let* parent_node := internal_at parent_page t in
      let* right_brother_page_id := Node.ValueAt (index + 1) parent_node in
      let* (right_brother, t) := FetchPage right_brother_page_id t in
      let* rsize := size_at right_brother t in
      let* rmin := min_size_at right_brother t in
      if rmin <? rsize then
        let* t := borrow_from_right index parent_page cur_node right_brother t in
        let* t := UnpinPage right_brother_page_id true t in
        let* t := UnpinPage parent_id true t in
        Ret (Some FromRight, t)
      else
        let* t := UnpinPage parent_id false t in
        Ret (None, t)
    else
      let* t := UnpinPage parent_id false t in
      Ret (None, t) in
  if 0 <? index - 1 then
    let* left_brother_page_id := Node.ValueAt (index - 1) parent_node in
    let* (left_brother, t) := FetchPage left_brother_page_id t in
    let* lsize := size_at left_brother t in
    let* lmin := min_size_at left_brother t in
    if lmin <? lsize then
      let* t := borrow_from_left index parent_page cur_node left_brother t in
      let* t := UnpinPage left_brother_page_id true t in
      let* t := UnpinPage parent_id true t in
      Ret (Some FromLeft, t)
    else right_part t
  else right_part t.

Fixpoint push_leaf_entries (idx : list Z) (from to : Z) (t : BPlusTree)
  : outcome BPlusTree :=
  match idx with
  | [] => Ret t
  | i :: rest =>
      let* src := leaf_at from t in
      let* k := Node.Leaf_KeyAt V i src in
      let* v := Node.Leaf_ValueAt V i src in
      let* dst := leaf_at to t in
      let* t := put_leaf to (Node.Leaf_PushBack V (k, v) dst) t in
      push_leaf_entries rest from to t
  end.

Fixpoint push_internal_entries (idx : list Z) (from to : Z) (t : BPlusTree)
  : outcome BPlusTree :=
  match idx with
  | [] => Ret t
  | i :: rest =>
      let* src := internal_at from t in
      let* k := Node.KeyAt i src in
      let* v := Node.ValueAt i src in
      let* dst := internal_at to t in
      let* t := put_internal to (Node.PushBack (k, v) dst) t in
      push_internal_entries rest from to t
  end.

Definition internal_set_size (frame n : Z) (t : BPlusTree) : outcome BPlusTree :=
  let* i := internal_at frame t in
  let* a := Node.truncate n (Node.i_array_ i) in
  put_internal frame (Node.set_i_array i a) t.

Definition internal_set_key (frame index key : Z) (t : BPlusTree) : outcome BPlusTree :=
  let* i := internal_at frame t in
  let* i := Node.SetKeyAt index key i in
  put_internal frame i t.

Definition parent_remove (parent_page index : Z) (t : BPlusTree) : outcome BPlusTree :=
  let* p := internal_at parent_page t in
  let* p := Node.RemoveByIndex index p in
  put_internal parent_page p t.

(** Which sibling the node was merged with, and what a call of
    [MergeBrother] did for [cur_node] itself: the code returns
    nothing, the value is for the statements about the choice. *)
Inductive partner := WithLeft | WithRight.

Inductive rebalance :=
| Untouched                 (* the root, or a node that meets its minimum *)
| Redistributed (d : donor)
| Merged (p : partner).

Fixpoint MergeBrother (n : nat) (key : Z) (cur_node : Z) (t : BPlusTree)
  : outcome (rebalance * BPlusTree) :=
  match n with
  | O => Diverge
  | S n' =>
      let* is_root := is_root_at cur_node t in
      if is_root then
        let* is_leaf := is_leaf_at cur_node t in
        let* _ := assert (negb is_leaf) in
        let* size := size_at cur_node t in
        if size =? 1 then
          let* old_root := internal_at cur_node t in
          let* new_root_page_id := Node.ValueAt 0 old_root in
          let* (_, t) := DeletePage (root_page_id_ t) t in
          let t := set_root t new_root_page_id in
          let* (new_root, t) := FetchPage new_root_page_id t in
          let* t := set_parent new_root (-1) t in
          let* t := UpdateRootPageId 0 t in
          let* t := UnpinPage new_root_page_id true t in
          Ret (Untouched, t)
        else Ret (Untouched, t)
      else
        let* size := size_at cur_node t in
        let* min_size := min_size_at cur_node t in
        if min_size <=? size then Ret (Untouched, t)
        else
          let* (gave, t) := RedistributeBrother key cur_node t in
          match gave with
          | Some d => Ret (Redistributed d, t)
          | None =>
              let* cur := page_at cur_node t in
              let* parent_page_id := Node.GetParentPageId V cur in
              let* (parent_page, t) := FetchPage parent_page_id t in
              let* parent_node := internal_at parent_page t in
              let index := Node.FindIndex key parent_node - 1 in
              let* cur_id := page_id_at cur_node t in
              let* child := Node.ValueAt index parent_node in
              let* _ := assert (cur_id =? child) in
              let right_part (t : BPlusTree) : outcome (rebalance * BPlusTree) :=
                let* parent_size := size_at parent_page t in
                let* (merged, t) :=
                  if index + 1 <? parent_size then
                    let* parent_node := internal_at parent_page t in
                    let* right_brother_page_id := Node.ValueAt (index + 1) parent_node in
                    let* (right_brother, t) := FetchPage right_brother_page_id t in
                    let* cur_is_leaf := is_leaf_at cur_node t in
                    let* rsize := size_at right_brother t in
                    let* csize := size_at cur_node t in
                    let* cmax := max_size_at cur_node t in
                    if cur_is_leaf && (rsize + csize <? cmax) then
                      let* t := push_leaf_entries (range 0 rsize) right_brother cur_node t in
                      let* t := leaf_set_size right_brother 0 t in
                      let* t := parent_remove parent_page (index + 1) t in
                      let* (_, t) := MergeBrother n' key parent_page t in
                      let* t := UnpinPage right_brother_page_id true t in
                      let* t := UnpinPage parent_page_id true t in
                      let* rid := page_id_at right_brother t in
                      let* (ok, t) := DeletePage rid t in
                      let* _ := assert ok in
                      Ret (true, t)
                    else if negb cur_is_leaf && (rsize + csize <=? cmax) then
                      let* parent_node := internal_at parent_page t in
                      let* pk := Node.KeyAt (index + 1) parent_node in
                      let* t := internal_set_key right_brother 0 pk t in
                      let* t := push_internal_entries (range 0 rsize) right_brother cur_node t in
                      let* t := internal_set_size right_brother 0 t in
                      let* t := parent_remove parent_page (index + 1) t in
                      let* (_, t) := MergeBrother n' key parent_page t in
                      let* t := UnpinPage right_brother_page_id true t in
                      let* t := UnpinPage parent_page_id true t in
                      let* rid := page_id_at right_brother t in
                      let* (ok, t) := DeletePage rid t in
                      let* _ := assert ok in
                      Ret (true, t)
                    else Ret (false, t)
                  else Ret (false, t) in
                if merged then Ret (Merged WithRight, t)
                else
                  let* t := UnpinPage parent_page_id false t in
                  Abort in
              if 0 <? index - 1 then
                let* left_brother_page_id := Node.ValueAt (index - 1) parent_node in
                let* (left_brother, t) := FetchPage left_brother_page_id t in
                let* cur_is_leaf := is_leaf_at cur_node t in
                let* lsize := size_at left_brother t in
                let* csize := size_at cur_node t in
                let* cmax := max_size_at cur_node t in
                if cur_is_leaf && (lsize + csize <? cmax) then
                  let* t := push_leaf_entries (range 0 csize) cur_node left_brother t in
                  let* t := leaf_set_size cur_node 0 t in
                  let* t := parent_remove parent_page index t in
                  let* (_, t) := MergeBrother n' key parent_page t in
                  let* t := UnpinPage left_brother_page_id true t in
                  let* t := UnpinPage parent_page_id true t in
                  let* cid := page_id_at cur_node t in
                  let* (ok, t) := DeletePage cid t in
                  let* _ := assert ok in
                  Ret (Merged WithLeft, t)
                else if negb cur_is_leaf && (lsize + csize <=? cmax) then
                  let* parent_node := internal_at parent_page t in
                  let* pk := Node.KeyAt index parent_node in
                  let* t := internal_set_key cur_node 0 pk t in
                  (* the loop pushes the left page's own entries *)
                  let* t := push_internal_entries (range 0 csize) left_brother left_brother t in
                  let* t := internal_set_size cur_node 0 t in
                  let* t := parent_remove parent_page index t in
                  let* (_, t) := MergeBrother n' key parent_page t in
                  let* t := UnpinPage left_brother_page_id true t in
                  let* t := UnpinPage parent_page_id true t in
                  let* cid := page_id_at cur_node t in
                  let* (ok, t) := DeletePage cid t in
                  let* _ := assert ok in
                  Ret (Merged WithLeft, t)
                else
                  let* t := UnpinPage parent_page_id false t in
                  right_part t
              else right_part t
          end
  end.

(** [Remove], with what the rebalancing of the leaf did. *)
Definition Remove (key : Z) (t : BPlusTree) : outcome (rebalance * BPlusTree) :=
  if IsEmpty t then Ret (Untouched, t)
  else
    let* (leaf_node, t) := FindLeaf key t in
    let* leaf_old_size := size_at leaf_node t in
    let* _ := assert (0 <? leaf_old_size) in
    let* l := leaf_at leaf_node t in
    let* old_key0 := Node.Leaf_KeyAt V 0 l in
    let* l := Node.Leaf_Remove V key l in
    let* t := put_leaf leaf_node l t in
    let* is_root := is_root_at leaf_node t in
    if is_root then Ret (Untouched, t)
    else
      let* min_size := min_size_at leaf_node t in
      if min_size <? leaf_old_size then
        let* _ := assert (1 <? leaf_old_size) in
        if Node.comparator_ old_key0 key =? 0 then
          let* l := leaf_at leaf_node t in
          let* k0 := Node.Leaf_KeyAt V 0 l in
          let* t := UpdataParentKey key k0 leaf_node t in
          Ret (Untouched, t)
        else Ret (Untouched, t)
      else MergeBrother fuel key leaf_node t.

(** *** Iterator construction *)

Fixpoint descend_edge (n : nat) (rightmost : bool) (cur_node : Z) (t : BPlusTree)
  : outcome (Z * BPlusTree) :=
  match n with
  | O => Diverge
  | S n' =>
      let* leaf := is_leaf_at cur_node t in
      if leaf then Ret (cur_node, t)
      else
        let* inner_node := internal_at cur_node t in
        let* page_id :=
          Node.ValueAt (if rightmost then Node.size_of (Node.i_array_ inner_node) - 1 else 0)
            inner_node in
        let* (next_page, t) := FetchPage page_id t in
        let* t := UnpinPage page_id false t in
        descend_edge n' rightmost next_page t
  end.

(** *** Index iterator
    (index_iterator.cpp; [Begin] and [End] of b_plus_tree.cpp)

    The iterator holds the pointer to its leaf (a frame), its index
    and the pointer to the pool, which it shares with the tree: its
    functions take the pool and return it. *)

Record IndexIterator := mkIterator {
  leaf_node_ : Z;
  key_index_ : Z
}.

Definition Begin (t : BPlusTree) : outcome (IndexIterator * BPlusTree) :=
  let* _ := assert (negb (IsEmpty t)) in
  let* (root_page, t) := FetchPage (root_page_id_ t) t in
  let* (cur_node, t) := descend_edge fuel false root_page t in
  let* t := UnpinPage (root_page_id_ t) false t in
  Ret (mkIterator cur_node 0, t).

Definition Begin_at (key : Z) (t : BPlusTree) : outcome (IndexIterator * BPlusTree) :=
  let* _ := assert (negb (IsEmpty t)) in
  let* (leaf_node, t) := FindLeaf key t in
  let* l := leaf_at leaf_node t in
  Ret (mkIterator leaf_node (Node.Leaf_FindIndex V key l), t).

Definition End (t : BPlusTree) : outcome (IndexIterator * BPlusTree) :=
  let* _ := assert (negb (IsEmpty t)) in
  let* (root_page, t) := FetchPage (root_page_id_ t) t in
  let* (cur_node, t) := descend_edge fuel true root_page t in
  let* t := UnpinPage (root_page_id_ t) false t in
  let* size := size_at cur_node t in
  let max_index := size - 1 in
  Ret (mkIterator cur_node (max_index + 1), t).

Definition iterator_leaf (it : IndexIterator) (b : Pool) : outcome (Node.LeafPage V) :=
  let* d := BPM.GetData (leaf_node_ it) b in Node.as_leaf V d.

Definition IsEnd (it : IndexIterator) (b : Pool) : outcome bool :=
  let* l := iterator_leaf it b in
  let leaf_size := Node.size_of (Node.l_array_ V l) in
  Ret ((leaf_size <=? key_index_ it) && (Node.GetNextPageId V l =? -1)).

(** [operator*] *)
Definition dereference (it : IndexIterator) (b : Pool) : outcome (Z * V) :=
  let* l := iterator_leaf it b in Node.MappingAt V (key_index_ it) l.

(** [operator++] *)
Definition increment (it : IndexIterator) (b : Pool) : outcome (IndexIterator * Pool) :=
  let* l := iterator_leaf it b in
  let leaf_size := Node.size_of (Node.l_array_ V l) in
  if leaf_size <=? key_index_ it then Throw "B+ tree index_iterator '++' out of range"
  else if key_index_ it <? leaf_size - 1 then
    Ret (mkIterator (leaf_node_ it) (key_index_ it + 1), b)
  else
    let next_page_id := Node.GetNextPageId V l in
    if next_page_id =? -1 then
      Ret (mkIterator (leaf_node_ it) (key_index_ it + 1), b)
    else
      let* (next_page, b) := BPM.FetchPgImp Node.Zeroed fuel next_page_id b in
      let* next_leaf := deref next_page in
      let* _ := BPM.GetData next_leaf b in
      let* (_, b) := BPM.UnpinPgImp next_page_id false b in
      Ret (mkIterator next_leaf 0, b).

(** A scan: dereference and increment until [IsEnd]. *)
Fixpoint scan (n : nat) (it : IndexIterator) (b : Pool) : outcome (list (Z * V) * Pool) :=
  match n with
  | O => Diverge
  | S n' =>
      let* at_end := IsEnd it b in
      if at_end then Ret ([], b)
      else
        let* kv := dereference it b in
        let* (it, b) := increment it b in
        let* (rest, b) := scan n' it b in
        Ret (kv :: rest, b)
  end.

End Tree.
End BPT.

(** * The properties of the specification *)

(** ** Extendible hash directory *)

(** C2, as the specification states it, fails: from global depth 0
    and bucket capacity 2, after the four inserts of the keys hashing
    to 0, 1, 2, 3 the table does not have global depth 2 and four live
    buckets of local depth 2. *)
Lemma directory_four_keys_not_depth_two :
  ~ (exists t, EHTScenario.four_items 10 11 12 13 = Ret t /\
               EHT.GetGlobalDepth t = 2 /\
               length (EHT.live_buckets t) = 4%nat /\
               EHTScenario.local_depths t = [Ret 2; Ret 2; Ret 2; Ret 2]).
Proof.
  intros (t & Ht & Hg & _). vm_compute in Ht. injection Ht as <-.
  vm_compute in Hg. discriminate.
Qed.

(** C2, amended: one split is enough.  From global depth 0 and bucket
    capacity 2, inserting four items whose hash values are 0, 1, 2, 3
    ends with global depth 1 and two live buckets, each of local depth
    1, holding the even and the odd keys. *)
Theorem directory_four_keys {V : Type} (v0 v1 v2 v3 : V) :
  exists t, EHTScenario.four_items v0 v1 v2 v3 = Ret t /\
            EHT.GetGlobalDepth t = 1 /\
            EHT.GetNumBuckets t = 2 /\
            length (EHT.live_buckets t) = 2%nat /\
            EHTScenario.local_depths t = [Ret 1; Ret 1] /\
            EHTScenario.live_items t = [[(0, v0); (2, v2)]; [(1, v1); (3, v3)]].
Proof.
  eexists. split; [vm_compute; reflexivity|].
  repeat split; vm_compute; reflexivity.
Qed.

(** ** LRU-K replacer *)

(** The eviction policy on every state a client can reach, for every
    [k]: the victim is the evictable frame nearest the right end of the
    left region, whose access count is below [max k 2]; when that
    region has none, the evictable frame nearest the right end of the
    right region, whose count is at least [max k 2]; and none when no
    frame is evictable.  For [k >= 2] the bound is [k]. *)
Theorem replacer_evict_policy (r : LRUK.LRUKReplacer) :
  LRUK.reachable r ->
  (exists v rest,
      LRUK.oldest_evictable (LRUK.fifo r) v rest /\
      LRUK.frequency_ v < Z.max (LRUK.k_ r) 2 /\
      fst (LRUK.Evict r) = Some (LRUK.key_ v) /\
      LRUK.fifo (snd (LRUK.Evict r)) = rest /\
      LRUK.lru (snd (LRUK.Evict r)) = LRUK.lru r)
  \/ (Forall (fun n => LRUK.evictable_ n = false) (LRUK.fifo r) /\
      exists v rest,
        LRUK.oldest_evictable (LRUK.lru r) v rest /\
        Z.max (LRUK.k_ r) 2 <= LRUK.frequency_ v /\
        fst (LRUK.Evict r) = Some (LRUK.key_ v) /\
        LRUK.fifo (snd (LRUK.Evict r)) = LRUK.fifo r /\
        LRUK.lru (snd (LRUK.Evict r)) = rest)
  \/ (Forall (fun n => LRUK.evictable_ n = false) (LRUK.nodes r) /\
      LRUK.Evict r = (None, r)).
Proof.
  intros H. apply LRUK.reachable_inv in H as [Hwf Hreg].
  apply LRUK.Evict_policy; assumption.
Qed.

(** Scenario 5: k = 2, three frames, accesses 1, 2, 3, 1, 2, all
    marked evictable: the victim is frame 3. *)
Definition scenario5 : list LRUK.op :=
  [LRUK.OpRecordAccess 1; LRUK.OpRecordAccess 2; LRUK.OpRecordAccess 3;
   LRUK.OpRecordAccess 1; LRUK.OpRecordAccess 2;
   LRUK.OpSetEvictable 1 true; LRUK.OpSetEvictable 2 true;
   LRUK.OpSetEvictable 3 true].

Lemma replacer_scenario5 :
  fst (LRUK.Evict (LRUK.run scenario5 (LRUK.new_replacer 3 2))) = Some 3.
Proof. vm_compute. reflexivity. Qed.

(** A run for k = 1: frame 1 accessed twice, then frame 2 once, and
    both marked evictable. *)
Definition k1_run : list LRUK.op :=
  [LRUK.OpRecordAccess 1; LRUK.OpRecordAccess 1; LRUK.OpRecordAccess 2;
   LRUK.OpSetEvictable 1 true; LRUK.OpSetEvictable 2 true].

(** C3 at k = 1.  Frame 1 is accessed twice, then frame 2 once, and
    both are marked evictable.  No frame has an access count below k,
    so by the claim the victim is the frame of the LRU region (count at
    least k) that was accessed least recently: frame 1, last accessed
    at position 1 of the run, before frame 2 at position 2.  [Evict]
    returns frame 2. *)
Theorem replacer_k1_evicts_most_recent :
  let r := LRUK.run k1_run (LRUK.new_replacer 3 1) in
  fst (LRUK.Evict r) = Some 2 /\
  Forall (fun n => LRUK.k_ r <= LRUK.frequency_ n) (LRUK.nodes r) /\
  LRUK.map_ r 1 = Some (LRUK.mkNode 1 2 true) /\
  LRUK.map_ r 2 = Some (LRUK.mkNode 2 1 true) /\
  LRUK.last_access k1_run 1 0 = Some 1%nat /\
  LRUK.last_access k1_run 2 0 = Some 2%nat.
Proof.
  vm_compute. repeat split; try reflexivity.
  repeat constructor; discriminate.
Qed.

(** C4: over every run of [RecordAccess], [SetEvictable], [Evict] and
    [Remove] with frame ids in [0, num_frames) and every k >= 1,
    [Size()] is the number of tracked frames whose evictable flag is
    set.  (The two counters behind [Size()] are each off when k is not
    2, but their sum, taken modulo 2^64, is not.) *)
Theorem replacer_size_counts_evictable (num_frames k : Z) (ops : list LRUK.op) :
  1 <= k ->
  Forall (LRUK.valid_op num_frames) ops ->
  LRUK.Size (LRUK.run ops (LRUK.new_replacer num_frames k))
  = LRUK.evictable_count (LRUK.run ops (LRUK.new_replacer num_frames k)).
Proof.
  intros _ Hops. apply LRUK.Size_wf.
  apply LRUK.inv_run.
  - eapply Forall_impl; [exact Hops|]. intros o. apply LRUK.valid_typed.
  - split; [apply LRUK.wf_new | apply LRUK.regions_new].
Qed.

Definition size_run : list LRUK.op :=
  [LRUK.OpRecordAccess 0; LRUK.OpRecordAccess 0; LRUK.OpSetEvictable 0 true;
   LRUK.OpRecordAccess 1; LRUK.OpSetEvictable 1 true; LRUK.OpEvict;
   LRUK.OpRecordAccess 2; LRUK.OpSetEvictable 2 true; LRUK.OpRemove 2].

Lemma replacer_size_counts_evictable_witness :
  LRUK.Size (LRUK.run size_run (LRUK.new_replacer 3 3))
  = LRUK.evictable_count (LRUK.run size_run (LRUK.new_replacer 3 3)).
Proof.
  apply (replacer_size_counts_evictable 3 3 size_run); [lia|].
  unfold size_run.
  repeat (apply List.Forall_cons;
          [intros f Hf; simpl in Hf; try discriminate Hf;
           injection Hf as <-; unfold LRUK.is_frame_id; lia|]).
  apply List.Forall_nil.
Defined.

(** C10, as the specification states it, fails at the frame id equal
    to [num_frames]: it is outside [0, num_frames) and both calls
    accept it. *)
Lemma replacer_accepts_frame_num_frames :
  ~ (0 <= 3 < 3) /\
  LRUK.RecordAccess 3 (LRUK.new_replacer 3 2)
    = Ret (LRUK.mkReplacer 1 3 2 0 0 [LRUK.new_node 3] []) /\
  LRUK.SetEvictable 3 true (LRUK.new_replacer 3 2) = Ret (LRUK.new_replacer 3 2).
Proof. split; [lia|]. split; vm_compute; reflexivity. Qed.

(** C10, amended: the guard is [frame_id > replacer_size_].  For a
    frame id outside [0, num_frames] (the upper end included in the
    range), [RecordAccess] and [SetEvictable] throw and the replacer is
    as before; for a frame id inside it they return. *)
Theorem replacer_frame_guard (r : LRUK.LRUKReplacer) (f : Z) (b : bool) :
  LRUK.is_frame_id f ->
  0 <= LRUK.replacer_size_ r < 2 ^ 63 ->
  (~ (0 <= f <= LRUK.replacer_size_ r) ->
     (exists what, LRUK.RecordAccess f r = Throw what) /\
     (exists what, LRUK.SetEvictable f b r = Throw what) /\
     LRUK.step r (LRUK.OpRecordAccess f) = r /\
     LRUK.step r (LRUK.OpSetEvictable f b) = r)
  /\ (0 <= f <= LRUK.replacer_size_ r ->
     (exists r', LRUK.RecordAccess f r = Ret r') /\
     (exists r', LRUK.SetEvictable f b r = Ret r')).
Proof.
  intros Hf Hr. pose proof (LRUK.invalid_frame_spec f r Hf Hr) as Hg. split.
  - intros Hout. apply Hg in Hout.
    unfold LRUK.step, LRUK.RecordAccess, LRUK.SetEvictable. rewrite Hout.
    simpl. repeat split; eauto.
  - intros Hin. assert (Hv : LRUK.invalid_frame f r = false).
    { destruct (LRUK.invalid_frame f r); [|reflexivity].
      exfalso. apply (proj1 Hg); auto. }
    split; [apply LRUK.RecordAccess_returns | apply LRUK.SetEvictable_returns];
      assumption.
Qed.

Lemma replacer_frame_guard_witness :
  ((~ (0 <= 4 <= 3) ->
     (exists what, LRUK.RecordAccess 4 (LRUK.new_replacer 3 2) = Throw what) /\
     (exists what, LRUK.SetEvictable 4 true (LRUK.new_replacer 3 2) = Throw what) /\
     LRUK.step (LRUK.new_replacer 3 2) (LRUK.OpRecordAccess 4) = LRUK.new_replacer 3 2 /\
     LRUK.step (LRUK.new_replacer 3 2) (LRUK.OpSetEvictable 4 true) = LRUK.new_replacer 3 2)
  /\ (0 <= 4 <= 3 ->
     (exists r', LRUK.RecordAccess 4 (LRUK.new_replacer 3 2) = Ret r') /\
     (exists r', LRUK.SetEvictable 4 true (LRUK.new_replacer 3 2) = Ret r'))).
Proof.
  apply (replacer_frame_guard (LRUK.new_replacer 3 2) 4 true).
  - unfold LRUK.is_frame_id. lia.
  - simpl. lia.
Defined.

(** ** Buffer pool manager *)

(** What a call of [NewPgImp] that returned has done. *)
Lemma new_page_returned {D : Type} (zero : D) (fuel : nat)
    (b : BPM.BufferPoolManagerInstance D) :
  LRUK.wf (BPM.replacer_ b) ->
  (forall b', BPM.NewPgImp zero fuel b = Ret (None, b') ->
     BPM.free_list_ b = [] /\ LRUK.evictable_count (BPM.replacer_ b) = 0 /\ b' = b)
  /\ (forall page_id frame b',
        BPM.NewPgImp zero fuel b = Ret (Some (page_id, frame), b') ->
        page_id = BPM.next_page_id_ b /\
        lookupZ (BPM.pages_ b') frame = Some (BPM.mkPage zero page_id 1 false) /\
        ((BPM.free_list_ b <> [] /\
          frame = List.last (BPM.free_list_ b) 0 /\
          BPM.free_list_ b' = removelast (BPM.free_list_ b) /\
          BPM.disk_manager_ b' = BPM.disk_manager_ b)
         \/ (BPM.free_list_ b = [] /\
             fst (LRUK.Evict (BPM.replacer_ b)) = Some frame /\
             exists old,
               lookupZ (BPM.pages_ b) frame = Some old /\
               BPM.disk_manager_ b' =
                 (if BPM.is_dirty_ old
                  then BPM.WritePage (BPM.page_id_ old) (BPM.data_ old)
                         (BPM.disk_manager_ b)
                  else BPM.disk_manager_ b)))).
Proof.
  intros Hwf. split.
  - intros b' H. unfold BPM.NewPgImp in H. bind_inv H. destruct a as [fo b1].
    destruct fo as [f|].
    + bind_inv H. discriminate.
    + injection H as <-.
      apply BPM.take_frame_Ret in E
        as [(Hfree & Hev & _ & ->)|[(_ & f & old & Hfo & _)|(_ & Hfo & _)]];
        try discriminate.
      apply LRUK.Evict_None_iff in Hev; auto.
  - intros page_id frame b' H. unfold BPM.NewPgImp in H.
    bind_inv H. destruct a as [fo b1]. destruct fo as [f|]; [|discriminate].
    bind_inv H. injection H as <- <- <-. rename a into b2.
    apply BPM.install_Ret in E0 as (Hpage & _ & _ & _ & Hdisk & Hfl & _).
    simpl in Hdisk, Hfl.
    apply BPM.take_frame_Ret in E
      as [(_ & _ & Hfo & _)
         |[(Hfree & f' & old & Hfo & Hev & Hold & Hd & _ & _ & _ & _ & Hnext)
          |(Hfree & Hfo & ->)]];
      try discriminate.
    + injection Hfo as <-. split; [|split; [exact Hpage|]].
      * exact Hnext.
      * right. split; [assumption|]. split; [assumption|].
        exists old. split; [assumption|]. congruence.
    + injection Hfo as <-. split; [reflexivity|]. split; [exact Hpage|].
      left. simpl in *. auto.
Qed.

(** C8: [NewPgImp] on a well-formed pool that has a page id left to
    give returns, and leaves a well-formed pool.  It returns null
    exactly when the free list is empty and the replacer tracks no
    evictable frame, and then changes nothing.  When it returns a page,
    the page has the next page id, pin count 1, zeroed contents and a
    clean flag; its frame is the back of the free list or, when the
    list is empty, the victim of [Evict], and if the victim was dirty
    its old page id and contents are the latest write on the disk. *)
Theorem new_page_contract {D : Type} (zero : D) (fuel : nat)
    (b : BPM.BufferPoolManagerInstance D) :
  BPM.pool_wf b -> BPM.next_page_id_ b < 2 ^ 31 -> (31 < fuel)%nat ->
  exists res b',
    BPM.NewPgImp zero fuel b = Ret (res, b') /\
    BPM.pool_wf b' /\
    match res with
    | None =>
        BPM.free_list_ b = [] /\
        LRUK.evictable_count (BPM.replacer_ b) = 0 /\ b' = b
    | Some (page_id, frame) =>
        ~ (BPM.free_list_ b = [] /\
           LRUK.evictable_count (BPM.replacer_ b) = 0) /\
        page_id = BPM.next_page_id_ b /\
        lookupZ (BPM.pages_ b') frame = Some (BPM.mkPage zero page_id 1 false) /\
        ((BPM.free_list_ b <> [] /\
          frame = List.last (BPM.free_list_ b) 0 /\
          BPM.free_list_ b' = removelast (BPM.free_list_ b) /\
          BPM.disk_manager_ b' = BPM.disk_manager_ b)
         \/ (BPM.free_list_ b = [] /\
             fst (LRUK.Evict (BPM.replacer_ b)) = Some frame /\
             exists old,
               lookupZ (BPM.pages_ b) frame = Some old /\
               BPM.disk_manager_ b' =
                 (if BPM.is_dirty_ old
                  then BPM.WritePage (BPM.page_id_ old) (BPM.data_ old)
                         (BPM.disk_manager_ b)
                  else BPM.disk_manager_ b)))
    end.
Proof.
  intros Hwf Hnext Hfuel.
  destruct (BPM.NewPgImp_total zero fuel b Hwf Hnext Hfuel)
    as (res & b' & Hret & Hwf').
  destruct (new_page_returned zero fuel b (BPM.pw_replacer b Hwf))
    as [Hnull Hpage].
  exists res, b'. split; [assumption|]. split; [assumption|].
  destruct res as [[page_id frame]|]; [|auto].
  split; [|auto].
  intros [Hfree Hcount].
  apply (LRUK.Evict_None_iff _ (BPM.pw_replacer b Hwf)) in Hcount.
  destruct (Hpage _ _ _ Hret) as (_ & _ & [(Hne & _)|(_ & Hev & _)]);
    congruence.
Qed.

Lemma new_page_contract_witness :
  let b := BPM.new_bpm (0 : Z) 3 2 in
  exists res b',
    BPM.NewPgImp 0 32 b = Ret (res, b') /\
    BPM.pool_wf b' /\
    match res with
    | None =>
        BPM.free_list_ b = [] /\
        LRUK.evictable_count (BPM.replacer_ b) = 0 /\ b' = b
    | Some (page_id, frame) =>
        ~ (BPM.free_list_ b = [] /\
           LRUK.evictable_count (BPM.replacer_ b) = 0) /\
        page_id = BPM.next_page_id_ b /\
        lookupZ (BPM.pages_ b') frame = Some (BPM.mkPage 0 page_id 1 false) /\
        ((BPM.free_list_ b <> [] /\
          frame = List.last (BPM.free_list_ b) 0 /\
          BPM.free_list_ b' = removelast (BPM.free_list_ b) /\
          BPM.disk_manager_ b' = BPM.disk_manager_ b)
         \/ (BPM.free_list_ b = [] /\
             fst (LRUK.Evict (BPM.replacer_ b)) = Some frame /\
             exists old,
               lookupZ (BPM.pages_ b) frame = Some old /\
               BPM.disk_manager_ b' =
                 (if BPM.is_dirty_ old
                  then BPM.WritePage (BPM.page_id_ old) (BPM.data_ old)
                         (BPM.disk_manager_ b)
                  else BPM.disk_manager_ b)))
    end.
Proof.
  apply (new_page_contract 0 32 (BPM.new_bpm 0 3 2)).
  - apply BPM.pool_ok_sound. vm_compute. reflexivity.
  - simpl. lia.
  - lia.
Defined.

(** Scenario 6 (pool of 3): three new pages, all pinned; a fourth
    [NewPgImp] returns null; after page 1 is unpinned dirty the retry
    returns page 3 in the frame of page 1, whose contents are first
    written to the disk. *)
Definition scenario6 : outcome (option (Z * Z) * option (Z * Z) *
                                BPM.BufferPoolManagerInstance Z) :=
  let b := BPM.new_bpm 0 3 2 in
  let* (_, b) := BPM.NewPgImp 0 8 b in
  let* (p1, b) := BPM.NewPgImp 0 8 b in
  let* (_, b) := BPM.NewPgImp 0 8 b in
  let* f1 := deref (option_map snd p1) in
  let* b := BPM.SetData f1 77 b in
  let* (fourth, b) := BPM.NewPgImp 0 8 b in
  let* (_, b) := BPM.UnpinPgImp 1 true b in
  let* (retry, b) := BPM.NewPgImp 0 8 b in
  Ret (fourth, retry, b).

Example new_page_scenario6 :
  exists b, scenario6 = Ret (None, Some (3, 1), b) /\
            BPM.written (BPM.disk_manager_ b) = [(1, 77)] /\
            lookupZ (BPM.pages_ b) 1 = Some (BPM.mkPage 0 3 1 false).
Proof. eexists. split; [vm_compute; reflexivity|]. split; reflexivity. Qed.

(** C9: [UnpinPgImp] returns false and leaves the pool as it is when
    the page is not in the page table or the pin count of its frame is
    already zero (or below).  Otherwise it returns true, the pin count
    is one less, the dirty flag is the old flag or the argument, no
    other frame changes, the replacer is told [SetEvictable(frame,
    true)] exactly when the count has reached zero (and then a frame it
    tracks is flagged evictable), and the page table, the free list,
    the disk and the page id counter are as before. *)
Theorem unpin_page_contract {D : Type} (b : BPM.BufferPoolManagerInstance D)
    (page_id : Z) (is_dirty : bool) :
  (EHT.Find BPM.hash_page_id page_id (BPM.page_table_ b) = None ->
   BPM.UnpinPgImp page_id is_dirty b = Ret (false, b))
  /\ (forall index page,
        EHT.Find BPM.hash_page_id page_id (BPM.page_table_ b) = Some index ->
        lookupZ (BPM.pages_ b) index = Some page ->
        (BPM.pin_count_ page <= 0 ->
         BPM.UnpinPgImp page_id is_dirty b = Ret (false, b))
        /\ (0 < BPM.pin_count_ page ->
            LRUK.invalid_frame index (BPM.replacer_ b) = false ->
            exists b',
              BPM.UnpinPgImp page_id is_dirty b = Ret (true, b') /\
              lookupZ (BPM.pages_ b') index
                = Some (BPM.mkPage (BPM.data_ page) (BPM.page_id_ page)
                          (BPM.pin_count_ page - 1)
                          (BPM.is_dirty_ page || is_dirty)) /\
              (forall j, j <> index ->
                         lookupZ (BPM.pages_ b') j = lookupZ (BPM.pages_ b) j) /\
              (BPM.pin_count_ page - 1 = 0 ->
               LRUK.SetEvictable index true (BPM.replacer_ b) = Ret (BPM.replacer_ b') /\
               forall n, LRUK.map_ (BPM.replacer_ b) index = Some n ->
                         exists n', LRUK.map_ (BPM.replacer_ b') index = Some n' /\
                                    LRUK.evictable_ n' = true) /\
              (BPM.pin_count_ page - 1 <> 0 -> BPM.replacer_ b' = BPM.replacer_ b) /\
              BPM.page_table_ b' = BPM.page_table_ b /\
              BPM.free_list_ b' = BPM.free_list_ b /\
              BPM.disk_manager_ b' = BPM.disk_manager_ b /\
              BPM.next_page_id_ b' = BPM.next_page_id_ b)).
Proof.
  split.
  - intros H. unfold BPM.UnpinPgImp. rewrite H. reflexivity.
  - intros index page Hfind Hpage. unfold BPM.UnpinPgImp. rewrite Hfind, Hpage.
    simpl. split.
    + intros Hpin. apply Z.leb_le in Hpin. rewrite Hpin. reflexivity.
    + intros Hpin Hvalid. apply Z.leb_gt in Hpin. rewrite Hpin.
      assert (Hstore : exists ps,
                 storeZ (BPM.pages_ b) index
                   (BPM.mkPage (BPM.data_ page) (BPM.page_id_ page)
                      (BPM.pin_count_ page - 1)
                      (if is_dirty then true else BPM.is_dirty_ page)) = Ret ps).
      { unfold storeZ, lookupZ in *.
        destruct (index <? 0) eqn:E0; [discriminate|].
        apply Z.ltb_ge in E0. apply lookup_lt_Some in Hpage.
        assert (E1 : (0 <=? index) && (index <? Z.of_nat (length (BPM.pages_ b))) = true)
          by (apply andb_true_intro; split; [apply Z.leb_le | apply Z.ltb_lt]; lia).
        rewrite E1. eauto. }
      destruct Hstore as [ps Hps].
      assert (Hdirty : (if is_dirty then true else BPM.is_dirty_ page)
                       = BPM.is_dirty_ page || is_dirty)
        by (destruct is_dirty, (BPM.is_dirty_ page); reflexivity).
      destruct (BPM.pin_count_ page - 1 =? 0) eqn:Ez.
      * apply Z.eqb_eq in Ez.
        destruct (LRUK.SetEvictable_returns index true _ Hvalid) as [r Hr]. rewrite Hr. simpl. rewrite Hps. simpl.
        eexists. split; [reflexivity|]. simpl. rewrite <- Hdirty.
        repeat split; eauto using lookupZ_storeZ_eq, lookupZ_storeZ_ne; try lia.
        intros n Hn. destruct (LRUK.SetEvictable_flag _ _ _ _ _ Hr Hn) as (n' & ? & ? & _).
        eauto.
      * apply Z.eqb_neq in Ez. simpl. rewrite Hps. simpl.
        eexists. split; [reflexivity|]. simpl. rewrite <- Hdirty.
        repeat split; eauto using lookupZ_storeZ_eq, lookupZ_storeZ_ne; try lia.
Qed.

(** ** Index iterator *)

Lemma lookupZ_Forall {A} (P : A -> Prop) (l : list A) (i : Z) (x : A) :
  Forall P l -> lookupZ l i = Some x -> P x.
Proof.
  unfold lookupZ. intros H Hx. destruct (i <? 0); [discriminate|].
  rewrite Forall_forall in H. apply H. eapply list_elem_of_lookup_2. eassumption.
Qed.

(** What a call of [operator++] that returned has done. *)
Lemma increment_returned {V : Type} (fuel : nat) (it : BPT.IndexIterator)
    (b : BPM.BufferPoolManagerInstance (Node.PageData V)) (l : Node.LeafPage V) :
  BPT.iterator_leaf V it b = Ret l ->
  Forall (fun p => 0 <= BPM.pin_count_ p) (BPM.pages_ b) ->
  (BPT.key_index_ it < Node.size_of (Node.l_array_ V l) - 1 ->
   BPT.increment V fuel it b
   = Ret (BPT.mkIterator (BPT.leaf_node_ it) (BPT.key_index_ it + 1), b))
  /\ (BPT.key_index_ it = Node.size_of (Node.l_array_ V l) - 1 ->
      Node.next_page_id_ V l <> -1 ->
      forall it' b',
        BPT.increment V fuel it b = Ret (it', b') ->
        BPT.key_index_ it' = 0 /\
        EHT.Find BPM.hash_page_id (Node.next_page_id_ V l) (BPM.page_table_ b')
          = Some (BPT.leaf_node_ it') /\
        (forall j, j <> BPT.leaf_node_ it' ->
                   BPM.pin_count_of j b' = BPM.pin_count_of j b) /\
        BPM.pin_count_of (BPT.leaf_node_ it') b'
        = match EHT.Find BPM.hash_page_id (Node.next_page_id_ V l)
                  (BPM.page_table_ b) with
          | Some _ => BPM.pin_count_of (BPT.leaf_node_ it') b
          | None => Some 0
          end).
Proof.
  intros Hleaf Hpins. unfold BPT.increment. rewrite Hleaf. simpl. split.
  - intros Hlt.
    destruct (Node.size_of (Node.l_array_ V l) <=? BPT.key_index_ it) eqn:E1;
      [apply Z.leb_le in E1; lia|].
    destruct (BPT.key_index_ it <? Node.size_of (Node.l_array_ V l) - 1) eqn:E2;
      [reflexivity | apply Z.ltb_ge in E2; lia].
  - intros Hlast Hnext it' b' H.
    destruct (Node.size_of (Node.l_array_ V l) <=? BPT.key_index_ it) eqn:E1;
      [apply Z.leb_le in E1; lia|].
    destruct (BPT.key_index_ it <? Node.size_of (Node.l_array_ V l) - 1) eqn:E2;
      [apply Z.ltb_lt in E2; lia|].
    unfold Node.GetNextPageId in H.
    destruct (Node.next_page_id_ V l =? -1) eqn:E3;
      [apply Z.eqb_eq in E3; contradiction|].
    bind_inv H. destruct a as [next_page b1].
    bind_inv H. apply deref_Ret in E0. subst next_page. rename a into next_leaf.
    bind_inv H. clear E0. bind_inv H. destruct a0 as [ok b2].
    injection H as <- <-. simpl. split; [reflexivity|].
    apply BPM.FetchPgImp_Ret in E
      as [(value & page & Hfind & Hfo & Hpage & Hpage1 & Hother & Hpt)
         |[(_ & Hfo & _)|(Hfind & f & d & Hfo & Hpage1 & Hother & Hfind1)]];
      try discriminate; injection Hfo as ->.
    + rewrite Hfind.
      assert (Hfind1 : EHT.Find BPM.hash_page_id (Node.next_page_id_ V l)
                         (BPM.page_table_ b1) = Some value) by (rewrite Hpt; exact Hfind).
      pose proof (lookupZ_Forall _ _ _ _ Hpins Hpage) as Hnonneg. simpl in Hnonneg.
      destruct (BPM.UnpinPgImp_Ret _ _ _ _ _ _ _ E0 Hfind1 Hpage1)
        as [(Hle & _)|(_ & _ & Hpage2 & Hother2 & Hpt2)]; simpl in *; [lia|].
      split; [congruence|]. split.
      * intros j Hj. unfold BPM.pin_count_of.
        rewrite (Hother2 j Hj), (Hother j Hj). reflexivity.
      * rewrite (BPM.pin_count_of_lookup _ _ _ Hpage2),
                (BPM.pin_count_of_lookup _ _ _ Hpage). simpl. f_equal. lia.
    + rewrite Hfind.
      destruct (BPM.UnpinPgImp_Ret _ _ _ _ _ _ _ E0 Hfind1 Hpage1)
        as [(Hle & _)|(_ & _ & Hpage2 & Hother2 & Hpt2)]; simpl in *; [lia|].
      split; [congruence|]. split.
      * intros j Hj. unfold BPM.pin_count_of.
        rewrite (Hother2 j Hj), (Hother j Hj). reflexivity.
      * rewrite (BPM.pin_count_of_lookup _ _ _ Hpage2). reflexivity.
Qed.

(** C6, amended: an increment below the last entry of the leaf only
    advances the index, and the pool is as before.  An increment at the
    last entry of a leaf with a successor, on a well-formed pool in
    which the successor is resident or a frame can be had, returns: it
    fetches the successor and unpins that same page at once.  The
    iterator stands at index 0 on the frame the page table gives for
    the successor, the pin count of every other frame (the leaf the
    iterator was on included) is unchanged, and the pin count of the
    successor's frame is what it was before when the page was resident,
    and 0 when it had to be loaded.  No pin is held and none is
    released.  When the successor is not resident and no frame can be
    had, the fetch returns null and the increment ends in the
    dereference of it. *)
Theorem iterator_increment_pins {V : Type} (fuel : nat) (it : BPT.IndexIterator)
    (b : BPM.BufferPoolManagerInstance (Node.PageData V)) (l : Node.LeafPage V) :
  BPT.iterator_leaf V it b = Ret l ->
  Forall (fun p => 0 <= BPM.pin_count_ p) (BPM.pages_ b) ->
  BPM.pool_wf b -> (31 < fuel)%nat ->
  (BPT.key_index_ it < Node.size_of (Node.l_array_ V l) - 1 ->
   BPT.increment V fuel it b
   = Ret (BPT.mkIterator (BPT.leaf_node_ it) (BPT.key_index_ it + 1), b))
  /\ (BPT.key_index_ it = Node.size_of (Node.l_array_ V l) - 1 ->
      BPM.is_page_id (Node.next_page_id_ V l) ->
      (EHT.Find BPM.hash_page_id (Node.next_page_id_ V l) (BPM.page_table_ b)
         <> None \/
       BPM.free_list_ b <> [] \/
       LRUK.evictable_count (BPM.replacer_ b) <> 0 ->
       exists it' b',
         BPT.increment V fuel it b = Ret (it', b') /\
         BPM.pool_wf b' /\
         BPT.key_index_ it' = 0 /\
         EHT.Find BPM.hash_page_id (Node.next_page_id_ V l) (BPM.page_table_ b')
           = Some (BPT.leaf_node_ it') /\
         (forall j, j <> BPT.leaf_node_ it' ->
                    BPM.pin_count_of j b' = BPM.pin_count_of j b) /\
         BPM.pin_count_of (BPT.leaf_node_ it') b'
         = match EHT.Find BPM.hash_page_id (Node.next_page_id_ V l)
                   (BPM.page_table_ b) with
           | Some _ => BPM.pin_count_of (BPT.leaf_node_ it') b
           | None => Some 0
           end)
      /\ (EHT.Find BPM.hash_page_id (Node.next_page_id_ V l) (BPM.page_table_ b)
            = None ->
          BPM.free_list_ b = [] ->
          LRUK.evictable_count (BPM.replacer_ b) = 0 ->
          BPT.increment V fuel it b = Abort)).
Proof.
  intros Hleaf Hpins Hwf Hfuel.
  destruct (increment_returned fuel it b l Hleaf Hpins) as [Hstep Hnext].
  split; [exact Hstep|]. intros Hlast Hid.
  assert (Hne : Node.next_page_id_ V l <> -1)
    by (unfold BPM.is_page_id in Hid; lia).
  assert (Hunfold : BPT.increment V fuel it b =
            let* (next_page, b1) :=
              BPM.FetchPgImp Node.Zeroed fuel (Node.next_page_id_ V l) b in
            let* next_leaf := deref next_page in
            let* _ := BPM.GetData next_leaf b1 in
            let* (_, b2) := BPM.UnpinPgImp (Node.next_page_id_ V l) false b1 in
            Ret (BPT.mkIterator next_leaf 0, b2)).
  { unfold BPT.increment. rewrite Hleaf. simpl.
    destruct (Node.size_of (Node.l_array_ V l) <=? BPT.key_index_ it) eqn:E1;
      [apply Z.leb_le in E1; lia|].
    destruct (BPT.key_index_ it <? Node.size_of (Node.l_array_ V l) - 1) eqn:E2;
      [apply Z.ltb_lt in E2; lia|].
    unfold Node.GetNextPageId.
    destruct (Node.next_page_id_ V l =? -1) eqn:E3;
      [apply Z.eqb_eq in E3; contradiction | reflexivity]. }
  split.
  - intros Hcan.
    destruct (BPM.FetchPgImp_some Node.Zeroed fuel _ b Hwf Hid Hfuel Hcan)
      as (f & b1 & Hfetch & Hwf1).
    assert (Hdata : exists d, BPM.GetData f b1 = Ret d).
    { unfold BPM.GetData.
      apply BPM.FetchPgImp_Ret in Hfetch
        as [(v & pg & _ & Hfo & _ & Hpg & _)|[(_ & Hfo & _)
                                             |(_ & f' & d & Hfo & Hpg & _)]];
        try discriminate; injection Hfo as <-; rewrite Hpg; simpl; eauto. }
    destruct Hdata as [d Hd].
    destruct (BPM.UnpinPgImp_total (Node.next_page_id_ V l) false b1 Hwf1)
      as (ok & b2 & Hunpin & Hwf2).
    assert (Hret : BPT.increment V fuel it b = Ret (BPT.mkIterator f 0, b2)).
    { rewrite Hunfold, Hfetch. simpl. rewrite Hd. simpl. rewrite Hunpin.
      reflexivity. }
    exists (BPT.mkIterator f 0), b2. split; [exact Hret|].
    split; [exact Hwf2|]. apply (Hnext Hlast Hne _ _ Hret).
  - intros Hfind Hfree Hcount.
    apply (LRUK.Evict_None_iff _ (BPM.pw_replacer b Hwf)) in Hcount.
    rewrite Hunfold, (BPM.FetchPgImp_null _ _ _ _ Hfind Hfree Hcount).
    reflexivity.
Qed.

(** ** B+ tree scenarios (leaf_max = 4, internal_max = 4, pool = 10) *)

Module TreeScenario.

Definition fuel : nat := 32.

Abbreviation Pool := (BPM.BufferPoolManagerInstance (Node.PageData Z)).
Abbreviation Tree := (BPT.BPlusTree Z).

(** The pool, with the header page (page id 0) allocated first and
    kept pinned by the caller. *)
Definition pool : outcome Pool :=
  let* (_, b) := BPM.NewPgImp Node.Zeroed fuel (BPM.new_bpm Node.Zeroed 10 2) in
  Ret b.

Definition empty_tree : outcome Tree :=
  let* b := pool in Ret (BPT.new_tree Z "index" b 4 4).

(** The value stored with key [k] stands for the record id made from it. *)
Definition rid (k : Z) : Z := 100 * k.

Definition insert_keys (keys : list Z) (t : outcome Tree) : outcome Tree :=
  fold_left (fun acc k => let* t := acc in
                          let* (_, t) := BPT.Insert Z fuel k (rid k) t in Ret t)
            keys t.

(** The tree pages in the pool, by page id: leaves as
    (page id, keys, next page id), internal pages as
    (page id, entries, parent page id). *)
Definition leaves (t : Tree) : list (Z * list Z * Z) :=
  rev (omap (fun p => match BPM.data_ p with
                      | Node.Leaf l => Some (BPM.page_id_ p,
                                             map fst (Node.l_array_ Z l),
                                             Node.next_page_id_ Z l)
                      | _ => None
                      end)
            (BPM.pages_ (BPT.buffer_pool_manager_ Z t))).

Definition internals (t : Tree) : list (Z * list (Z * Z) * Z) :=
  rev (omap (fun p => match BPM.data_ p with
                      | Node.Internal i => Some (BPM.page_id_ p, Node.i_array_ i,
                                                 Node.i_parent_page_id_ i)
                      | _ => None
                      end)
            (BPM.pages_ (BPT.buffer_pool_manager_ Z t))).

Definition parents (t : Tree) : list (Z * Z) :=
  rev (omap (fun p => match BPM.data_ p with
                      | Node.Leaf l => Some (BPM.page_id_ p, Node.l_parent_page_id_ Z l)
                      | Node.Internal i => Some (BPM.page_id_ p, Node.i_parent_page_id_ i)
                      | _ => None
                      end)
            (BPM.pages_ (BPT.buffer_pool_manager_ Z t))).

Definition full_scan (t : Tree) : outcome (list (Z * Z)) :=
  let* (it, t) := BPT.Begin Z fuel t in
  let* (kvs, _) := BPT.scan Z fuel 32 it (BPT.buffer_pool_manager_ Z t) in
  Ret kvs.

(** Scenario 1. *)
Definition tree_1_4 : outcome Tree := insert_keys [1; 2; 3; 4] empty_tree.
Definition tree_1_5 : outcome Tree := insert_keys [1; 2; 3; 4; 5] empty_tree.

(** Ten keys in order, as in scenario 2, and one more key into the
    fourth leaf. *)
Definition tree_stale : outcome Tree :=
  insert_keys [10; 20; 30; 40; 50; 60; 70; 80; 90; 100; 75] empty_tree.

(** A root with four leaves; the first and the third hold three keys. *)
Definition tree_rich : outcome Tree :=
  insert_keys [10; 20; 30; 40; 50; 60; 70; 80; 5; 55] empty_tree.

(** A root with four leaves of two keys. *)
Definition tree_even : outcome Tree :=
  insert_keys [10; 20; 30; 40; 50; 60; 70; 80] empty_tree.

(** The pool of [tree_1_5] after the caller has fetched page 1, the
    leaf [1, 2], which pins it once. *)
Definition pool_1_5_pinned : outcome (Z * Pool) :=
  let* t := tree_1_5 in
  let* (frame, t) := BPT.FetchPage Z fuel 1 t in
  Ret (frame, BPT.buffer_pool_manager_ Z t).

(** The same pool as a value, and the leaf the iterator stands on. *)
Definition pool_1_5 : Pool :=
  match pool_1_5_pinned with
  | Ret (_, b) => b
  | _ => BPM.new_bpm Node.Zeroed 10 2
  end.

Definition leaf_1_2 : Node.LeafPage Z := Node.mkLeaf 1 3 4 2 [(1, 100); (2, 200)].

End TreeScenario.

(** C7: with leaf_max = 4 and internal_max = 4, the keys 1, 2, 3, 4, 5
    inserted in order.  The fourth insert fills the root leaf, which
    splits: the upper half [3, 4] of its entries moves to the new right
    sibling, the chain runs old -> new -> end, and a new root with the
    separator 3 is made.  After the fifth insert there are exactly two
    leaves, [1, 2] and [3, 4, 5], and a scan from [Begin] yields the
    keys 1 to 5 in order. *)
Theorem tree_insert_1_to_5 :
  (exists t, TreeScenario.tree_1_4 = Ret t /\
             TreeScenario.leaves t = [(1, [1; 2], 2); (2, [3; 4], -1)] /\
             TreeScenario.internals t = [(3, [(0, 1); (3, 2)], -1)] /\
             BPT.root_page_id_ Z t = 3)
  /\ (exists t, TreeScenario.tree_1_5 = Ret t /\
                TreeScenario.leaves t = [(1, [1; 2], 2); (2, [3; 4; 5], -1)] /\
                TreeScenario.internals t = [(3, [(0, 1); (3, 2)], -1)] /\
                BPT.root_page_id_ Z t = 3 /\
                TreeScenario.full_scan t
                = Ret [(1, 100); (2, 200); (3, 300); (4, 400); (5, 500)]).
Proof.
  split; eexists; (split; [vm_compute; reflexivity|]); conj_compute.
Qed.

(** C1 at a tree built by eleven inserts.  The split of the full root
    moved the leaf page 5 under the new internal page 7 but left its
    parent pointer at page 3.  Key 77 is not in the tree; [Insert]
    returns true, splits page 5 and enters the new leaf, page 9, in
    page 3, where no search for 77 arrives: [GetValue] then returns
    false. *)
Theorem tree_insert_then_get_misses :
  exists t t1 t2,
    TreeScenario.tree_stale = Ret t /\
    TreeScenario.parents t
    = [(1, 3); (2, 3); (3, 8); (4, 3); (5, 3); (6, 7); (7, 8); (8, -1)] /\
    TreeScenario.internals t
    = [(3, [(0, 1); (30, 2); (50, 4)], 8); (7, [(70, 5); (90, 6)], 8);
       (8, [(0, 3); (70, 7)], -1)] /\
    fst <$> (match BPT.GetValue Z TreeScenario.fuel 77 t with
             | Ret r => Some r | _ => None end) = Some None /\
    BPT.Insert Z TreeScenario.fuel 77 7700 t = Ret (true, t1) /\
    TreeScenario.leaves t1
    = [(1, [10; 20], 2); (2, [30; 40], 4); (4, [50; 60], 5); (5, [70; 75], 9);
       (6, [90; 100], -1); (9, [77; 80], 6)] /\
    TreeScenario.internals t1
    = [(3, [(0, 1); (30, 2); (50, 4); (77, 9)], 8); (7, [(70, 5); (90, 6)], 8);
       (8, [(0, 3); (70, 7)], -1)] /\
    BPT.GetValue Z TreeScenario.fuel 77 t1 = Ret (None, t2).
Proof.
  eexists. eexists. eexists.
  split; [vm_compute; reflexivity|].
  conj_compute.
Qed.

(** C5 at a root with the leaves [5, 10, 20], [30, 40], [50, 55, 60],
    [70, 80].  Removing 30 leaves the second leaf below its minimum
    (2).  Its left sibling exists and holds more than its minimum, and
    so does the right sibling; the entry is taken from the right
    sibling.  (The test on the left sibling is [index - 1 > 0], which
    the child at index 1 does not pass.) *)
Theorem tree_remove_takes_right_sibling :
  exists t t',
    TreeScenario.tree_rich = Ret t /\
    TreeScenario.leaves t
    = [(1, [5; 10; 20], 2); (2, [30; 40], 4); (4, [50; 55; 60], 5);
       (5, [70; 80], -1)] /\
    TreeScenario.internals t = [(3, [(0, 1); (30, 2); (50, 4); (70, 5)], -1)] /\
    Node.GetMinSize Z (Node.Leaf (Node.Leaf_Init Z 1 3 4)) = Ret 2 /\
    BPT.Remove Z TreeScenario.fuel 30 t = Ret (BPT.Redistributed BPT.FromRight, t') /\
    TreeScenario.leaves t'
    = [(1, [5; 10; 20], 2); (2, [40; 50], 4); (4, [55; 60], 5); (5, [70; 80], -1)].
Proof.
  eexists. eexists.
  split; [vm_compute; reflexivity|].
  conj_compute.
Qed.

(** The same test guards the merge with the left sibling.  At a root
    with four leaves of two keys, removing 30 leaves the second leaf
    with one key and no sibling to borrow from; merging with the left
    sibling [10, 20] is legal (3 < 4).  The left sibling is passed
    over, the right one is merged in, and the call ends in the failed
    [assert(DeletePage(...))] on the right page, which
    [RedistributeBrother] left pinned.  From the third leaf the merge
    goes to the left. *)
Example tree_remove_merge_passes_over_left :
  exists t t',
    TreeScenario.tree_even = Ret t /\
    TreeScenario.leaves t
    = [(1, [10; 20], 2); (2, [30; 40], 4); (4, [50; 60], 5); (5, [70; 80], -1)] /\
    BPT.Remove Z TreeScenario.fuel 30 t = Abort /\
    BPT.Remove Z TreeScenario.fuel 50 t = Ret (BPT.Merged BPT.WithLeft, t').
Proof.
  eexists. eexists.
  split; [vm_compute; reflexivity|].
  conj_compute.
Qed.

(** C6, as the specification states it, fails.  In the tree of
    scenario 1 the caller has pinned the leaf [1, 2] (page 1, frame 8)
    once; the successor leaf (page 2, frame 7) is not pinned.  The
    iterator stands on the last entry of the first leaf.  After
    [operator++] it stands on the successor at index 0, the successor's
    pin count is still 0 (no pin is held) and the pin count of the leaf
    it left is still 1 (it was not unpinned). *)
Lemma iterator_increment_holds_no_pin :
  exists b b' l,
    TreeScenario.pool_1_5_pinned = Ret (8, b) /\
    BPT.iterator_leaf Z (BPT.mkIterator 8 1) b = Ret l /\
    map fst (Node.l_array_ Z l) = [1; 2] /\ Node.next_page_id_ Z l = 2 /\
    EHT.Find BPM.hash_page_id 2 (BPM.page_table_ b) = Some 7 /\
    BPT.increment Z TreeScenario.fuel (BPT.mkIterator 8 1) b
    = Ret (BPT.mkIterator 7 0, b') /\
    BPM.pin_count_of 7 b = Some 0 /\ BPM.pin_count_of 7 b' = Some 0 /\
    BPM.pin_count_of 8 b = Some 1 /\ BPM.pin_count_of 8 b' = Some 1.
Proof.
  eexists. eexists. eexists.
  split; [vm_compute; reflexivity|].
  split; [vm_compute; reflexivity|].
  conj_compute.
Qed.

Lemma iterator_increment_pins_witness :
  let it := BPT.mkIterator 8 1 in
  let b := TreeScenario.pool_1_5 in
  let l := TreeScenario.leaf_1_2 in
  (BPT.key_index_ it < Node.size_of (Node.l_array_ Z l) - 1 ->
   BPT.increment Z TreeScenario.fuel it b
   = Ret (BPT.mkIterator (BPT.leaf_node_ it) (BPT.key_index_ it + 1), b))
  /\ (BPT.key_index_ it = Node.size_of (Node.l_array_ Z l) - 1 ->
      BPM.is_page_id (Node.next_page_id_ Z l) ->
      (EHT.Find BPM.hash_page_id (Node.next_page_id_ Z l) (BPM.page_table_ b)
         <> None \/
       BPM.free_list_ b <> [] \/
       LRUK.evictable_count (BPM.replacer_ b) <> 0 ->
       exists it' b',
         BPT.increment Z TreeScenario.fuel it b = Ret (it', b') /\
         BPM.pool_wf b' /\
         BPT.key_index_ it' = 0 /\
         EHT.Find BPM.hash_page_id (Node.next_page_id_ Z l) (BPM.page_table_ b')
           = Some (BPT.leaf_node_ it') /\
         (forall j, j <> BPT.leaf_node_ it' ->
                    BPM.pin_count_of j b' = BPM.pin_count_of j b) /\
         BPM.pin_count_of (BPT.leaf_node_ it') b'
         = match EHT.Find BPM.hash_page_id (Node.next_page_id_ Z l)
                   (BPM.page_table_ b) with
           | Some _ => BPM.pin_count_of (BPT.leaf_node_ it') b
           | None => Some 0
           end)
      /\ (EHT.Find BPM.hash_page_id (Node.next_page_id_ Z l) (BPM.page_table_ b)
            = None ->
          BPM.free_list_ b = [] ->
          LRUK.evictable_count (BPM.replacer_ b) = 0 ->
          BPT.increment Z TreeScenario.fuel it b = Abort)).
Proof.
  apply (iterator_increment_pins TreeScenario.fuel (BPT.mkIterator 8 1)
           TreeScenario.pool_1_5 TreeScenario.leaf_1_2).
  - vm_compute. reflexivity.
  - vm_compute. repeat constructor; discriminate.
  - apply BPM.pool_ok_sound. vm_compute. reflexivity.
  - unfold TreeScenario.fuel. lia.
Defined.

(** A pool of three frames after one [NewPgImp]: page 0 stands in
    frame 2, pinned once. *)
Definition pool_one_page : BPM.BufferPoolManagerInstance Z :=
  match BPM.NewPgImp 0 8 (BPM.new_bpm 0 3 2) with
  | Ret (_, b) => b
  | _ => BPM.new_bpm 0 3 2
  end.

Lemma unpin_page_contract_witness :
  exists b',
    BPM.UnpinPgImp 0 true pool_one_page = Ret (true, b') /\
    lookupZ (BPM.pages_ b') 2 = Some (BPM.mkPage 0 0 (1 - 1) (false || true)) /\
    (forall j, j <> 2 ->
               lookupZ (BPM.pages_ b') j = lookupZ (BPM.pages_ pool_one_page) j) /\
    (1 - 1 = 0 ->
     LRUK.SetEvictable 2 true (BPM.replacer_ pool_one_page) = Ret (BPM.replacer_ b') /\
     forall n, LRUK.map_ (BPM.replacer_ pool_one_page) 2 = Some n ->
               exists n', LRUK.map_ (BPM.replacer_ b') 2 = Some n' /\
                          LRUK.evictable_ n' = true) /\
    (1 - 1 <> 0 -> BPM.replacer_ b' = BPM.replacer_ pool_one_page) /\
    BPM.page_table_ b' = BPM.page_table_ pool_one_page /\
    BPM.free_list_ b' = BPM.free_list_ pool_one_page /\
    BPM.disk_manager_ b' = BPM.disk_manager_ pool_one_page /\
    BPM.next_page_id_ b' = BPM.next_page_id_ pool_one_page.
Proof.
  apply (proj2 (unpin_page_contract pool_one_page 0 true) 2 (BPM.mkPage 0 0 1 false)).
  - vm_compute. reflexivity.
  - vm_compute. reflexivity.
  - simpl. lia.
  - vm_compute. reflexivity.
Defined.

(** * Further properties of the code *)

(** ** Extendible hash table as a map *)

Section TableProperties.
Context {K V : Type} `{EqDecision K}.
Variable hash : K -> Z.
Variable dom : K -> Prop.
Variable ran : V -> Prop.
Variable hbits : Z.
Hypothesis hash_range : forall k, dom k -> 0 <= hash k < 2 ^ hbits.
Hypothesis hash_inj : forall k k', dom k -> dom k' -> hash k = hash k' -> k = k'.


(** X2: [Remove] on such a table returns true exactly when the key
    was there; afterwards [Find] gives nothing for the key and what it
    gave before for every other key.  The directory, the global depth
    and the bucket count are as before: buckets are never merged. *)
Theorem table_remove_find (key : K) (t : EHT.ExtendibleHashTable K V) :
  EHT.map_inv hash dom ran hbits t ->
  exists t',
    EHT.Remove hash key t
    = Ret (bool_decide (EHT.Find hash key t <> None), t') /\
    EHT.map_inv hash dom ran hbits t' /\
    EHT.dir_ t' = EHT.dir_ t /\
    EHT.GetGlobalDepth t' = EHT.GetGlobalDepth t /\
    EHT.GetNumBuckets t' = EHT.GetNumBuckets t /\
    forall k, EHT.Find hash k t'
              = if decide (k = key) then None else EHT.Find hash k t.
Proof.
  intros H.
  destruct (EHT.Remove_map hash dom ran hbits key t H)
    as (t' & Hret & H' & _ & Hg & Hnb & Hdir & Hfind).
  exists t'. auto 10.
Qed.



(** X5: [Insert] of a key that is already in the table overwrites its
    value where it stands, also in a full bucket: the call returns in
    the first turn of its loop, and the directory, the global depth and
    the bucket count are as before. *)
Theorem table_overwrite_in_place (fuel : nat) (key : K) (value : V)
    (t : EHT.ExtendibleHashTable K V) :
  EHT.wf hash dom ran hbits t -> EHT.Find hash key t <> None ->
  exists t',
    EHT.Insert hash (S fuel) key value t = Ret t' /\
    EHT.Find hash key t' = Some value /\
    EHT.dir_ t' = EHT.dir_ t /\
    EHT.GetGlobalDepth t' = EHT.GetGlobalDepth t /\
    EHT.GetNumBuckets t' = EHT.GetNumBuckets t.
Proof.
  intros H Hfind.
  destruct (EHT.slot_bucket hash dom ran hbits key t H) as (p & b & Hp & Hb & _).
  rewrite (EHT.Find_bucket hash dom ran hbits key t p b H Hp Hb) in Hfind.
  unfold EHT.Bucket_Find in Hfind.
  assert (Hins : exists l, EHT.Bucket_Insert key value b
                           = (true, EHT.mkBucket l (EHT.size_ b) (EHT.depth_ b))).
  { unfold EHT.Bucket_Insert.
    destruct (EHT.assign_item key value (EHT.list_ b)) as [l|] eqn:Ha; [eauto|].
    exfalso. apply Hfind. apply (EHT.find_item_None ran).
    apply (EHT.assign_item_absent ran _ _ _ Ha). }
  destruct Hins as [l Hins].
  assert (Hret : EHT.Insert hash (S fuel) key value t
                 = Ret (EHT.mkTable (EHT.global_depth_ t) (EHT.bucket_size_ t)
                          (EHT.num_buckets_ t) (EHT.dir_ t)
                          (<[p := EHT.mkBucket l (EHT.size_ b) (EHT.depth_ b)]>
                             (EHT.heap_ t)))).
  { simpl. rewrite Hp. simpl. rewrite Hb. simpl. rewrite Hins. reflexivity. }
  eexists. split; [exact Hret|].
  split; [apply (EHT.Find_Insert hash _ _ _ _ _ Hret)|].
  repeat split.
Qed.

End TableProperties.

Definition int_key (k : Z) : Prop := 0 <= k < 2 ^ 31.

Lemma hash_int_range k : int_key k -> 0 <= EHTScenario.hash_int k < 2 ^ 31.
Proof.
  unfold int_key, EHTScenario.hash_int. intros H.
  rewrite LRUK.wrap64_small; lia.
Qed.

Lemma hash_int_inj k k' :
  int_key k -> int_key k' ->
  EHTScenario.hash_int k = EHTScenario.hash_int k' -> k = k'.
Proof.
  unfold int_key, EHTScenario.hash_int. intros H H'.
  rewrite !LRUK.wrap64_small; lia.
Qed.

(** A full bucket: two keys in a table of bucket size 2. *)
Definition table_full : EHT.ExtendibleHashTable Z Z :=
  EHT.mkTable 0 2 1 [0%nat] [EHT.mkBucket [(0, 10); (4, 14)] 2 0].

Lemma table_full_inv :
  EHT.map_inv EHTScenario.hash_int int_key (fun _ : Z => True) 31 table_full.
Proof.
  destruct (EHT.run_map EHTScenario.hash_int int_key (fun _ : Z => True) 31
              hash_int_range hash_int_inj 32
              [EHT.OpInsert 0 10; EHT.OpInsert 4 14] ltac:(simpl; lia)
              ltac:(repeat (apply List.Forall_cons;
                              [simpl; unfold int_key; split; [lia | exact I]|]);
                    apply List.Forall_nil)
              (EHT.new_table 2) ltac:(apply EHT.map_inv_new; lia))
    as (t & Hrun & H & _).
  vm_compute in Hrun. injection Hrun as <-. exact H.
Qed.


Lemma table_remove_find_witness :
  exists t',
    EHT.Remove EHTScenario.hash_int 4 table_full
    = Ret (bool_decide (EHT.Find EHTScenario.hash_int 4 table_full <> None), t') /\
    EHT.map_inv EHTScenario.hash_int int_key (fun _ : Z => True) 31 t' /\
    EHT.dir_ t' = EHT.dir_ table_full /\
    EHT.GetGlobalDepth t' = EHT.GetGlobalDepth table_full /\
    EHT.GetNumBuckets t' = EHT.GetNumBuckets table_full /\
    forall k, EHT.Find EHTScenario.hash_int k t'
              = if decide (k = 4) then None
                else EHT.Find EHTScenario.hash_int k table_full.
Proof.
  apply (table_remove_find EHTScenario.hash_int int_key (fun _ : Z => True) 31
           4 table_full).
  exact table_full_inv.
Defined.





Lemma table_overwrite_in_place_witness :
  exists t',
    EHT.Insert EHTScenario.hash_int 1 4 44 table_full = Ret t' /\
    EHT.Find EHTScenario.hash_int 4 t' = Some 44 /\
    EHT.dir_ t' = EHT.dir_ table_full /\
    EHT.GetGlobalDepth t' = EHT.GetGlobalDepth table_full /\
    EHT.GetNumBuckets t' = EHT.GetNumBuckets table_full.
Proof.
  apply (table_overwrite_in_place EHTScenario.hash_int
           (fun k => BPM.in_range 0 (2 ^ 31) k = true)
           (fun v => BPM.in_range 0 100 v = true) 31 0 4 44 table_full).
  - apply EHT.table_wfb_sound. vm_compute. reflexivity.
  - vm_compute. discriminate.
Defined.

(** ** LRU-K replacer: what each call does to the tracked frames *)

Lemma RecordAccess_counters f r r' :
  LRUK.RecordAccess f r = Ret r' ->
  LRUK.lru_size_ r' = LRUK.lru_size_ r /\ LRUK.fifo_size_ r' = LRUK.fifo_size_ r.
Proof.
  unfold LRUK.RecordAccess. destruct (LRUK.invalid_frame f r); [discriminate|].
  destruct (LRUK.map_ r f) as [n|]; simpl.
  - destruct (LRUK.k_ r <=? LRUK.frequency_ n + 1); intros [= <-]; auto.
  - intros [= <-]. auto.
Qed.

(** X6: the frame [Evict] returns, on any state a client can reach,
    was tracked with its evictable flag set: a frame marked
    non-evictable is never the victim.  Afterwards the victim is no
    longer tracked (its access history is gone), every other frame is
    tracked as before, and [Size] is one less. *)
Theorem replacer_evict_victim (r r' : LRUK.LRUKReplacer) (f : Z) :
  LRUK.reachable r -> LRUK.Evict r = (Some f, r') ->
  (exists n, LRUK.map_ r f = Some n /\ LRUK.evictable_ n = true) /\
  LRUK.map_ r' f = None /\
  (forall g, g <> f -> LRUK.map_ r' g = LRUK.map_ r g) /\
  LRUK.Size r' = LRUK.Size r - 1.
Proof.
  intros Hr Hev. apply LRUK.reachable_inv in Hr as [Hwf _].
  destruct (LRUK.Evict_spec r f r' Hwf Hev) as (Hn & Hf & Hg & Hc).
  split; [assumption|]. split; [assumption|]. split; [assumption|].
  pose proof (LRUK.wf_Evict r Hwf) as Hwf'. rewrite Hev in Hwf'. simpl in Hwf'.
  rewrite (LRUK.Size_wf r Hwf), (LRUK.Size_wf r' Hwf'). exact Hc.
Qed.

(** X7: [Remove] drops a tracked frame whose evictable flag is set,
    with [Size] one less and the other frames as before.  For a frame
    that is not tracked, and for a tracked frame whose flag is not set,
    it changes nothing and raises no error. *)
Theorem replacer_remove_contract (r : LRUK.LRUKReplacer) (f : Z) :
  LRUK.reachable r ->
  match LRUK.map_ r f with
  | Some n =>
      if LRUK.evictable_ n
      then LRUK.map_ (LRUK.Remove f r) f = None /\
           (forall g, g <> f -> LRUK.map_ (LRUK.Remove f r) g = LRUK.map_ r g) /\
           LRUK.Size (LRUK.Remove f r) = LRUK.Size r - 1
      else LRUK.Remove f r = r
  | None => LRUK.Remove f r = r
  end.
Proof.
  intros Hr. apply LRUK.reachable_inv in Hr as [Hwf _].
  pose proof (LRUK.Remove_spec f r Hwf) as H.
  destruct (LRUK.map_ r f) as [n|]; [|assumption].
  destruct (LRUK.evictable_ n); [|assumption].
  destruct H as (Hf & Hg & Hc). split; [assumption|]. split; [assumption|].
  rewrite (LRUK.Size_wf r Hwf), (LRUK.Size_wf _ (LRUK.wf_Remove f r Hwf)).
  exact Hc.
Qed.

(** X8: [RecordAccess] of a frame id the guard lets through returns.
    A frame not yet tracked is then tracked with access count 1 and
    its flag not set; a tracked frame has one access more and its flag
    as before.  The other frames are as before and so is [Size]: a
    frame is admitted even when [num_frames] frames are tracked
    already. *)
Theorem replacer_record_access (r : LRUK.LRUKReplacer) (f : Z) :
  0 <= f <= LRUK.replacer_size_ r -> LRUK.replacer_size_ r < 2 ^ 31 ->
  exists r',
    LRUK.RecordAccess f r = Ret r' /\
    LRUK.map_ r' f
    = Some (match LRUK.map_ r f with
            | Some n => LRUK.mkNode (LRUK.key_ n) (LRUK.frequency_ n + 1)
                          (LRUK.evictable_ n)
            | None => LRUK.mkNode f 1 false
            end) /\
    (forall g, g <> f -> LRUK.map_ r' g = LRUK.map_ r g) /\
    LRUK.Size r' = LRUK.Size r.
Proof.
  intros Hf Hr.
  destruct (LRUK.RecordAccess_returns f r (LRUK.valid_frame f r Hf Hr))
    as [r' Hret].
  destruct (LRUK.RecordAccess_spec f r r' Hret) as (Hn & Hg & _).
  destruct (RecordAccess_counters f r r' Hret) as [Hl Hq].
  exists r'. split; [assumption|]. split; [exact Hn|]. split; [assumption|].
  unfold LRUK.Size. rewrite Hl, Hq. reflexivity.
Qed.

(** X9: [SetEvictable] of a tracked frame, on any state a client can
    reach, sets the flag of that frame and keeps its access count; the
    other frames are as before, and [Size] goes up by one when the flag
    goes from unset to set, down by one when it goes from set to unset,
    and stays when the flag does not change.  For a frame that is not
    tracked the call changes nothing. *)
Theorem replacer_set_evictable (r r' : LRUK.LRUKReplacer) (f : Z) (b : bool) :
  LRUK.reachable r -> LRUK.SetEvictable f b r = Ret r' ->
  match LRUK.map_ r f with
  | Some n =>
      LRUK.map_ r' f = Some (LRUK.mkNode (LRUK.key_ n) (LRUK.frequency_ n) b) /\
      LRUK.Size r' = LRUK.Size r + LRUK.b2z b - LRUK.b2z (LRUK.evictable_ n)
  | None => r' = r
  end /\
  (forall g, g <> f -> LRUK.map_ r' g = LRUK.map_ r g).
Proof.
  intros Hr Hret. apply LRUK.reachable_inv in Hr as [Hwf _].
  destruct (LRUK.SetEvictable_others f b r r' Hret) as [Hg Hnone].
  split; [|assumption].
  pose proof (LRUK.wf_SetEvictable f b r r' Hwf Hret) as Hwf'.
  destruct (LRUK.map_ r f) as [n|] eqn:Hn; [|auto].
  rewrite (LRUK.Size_wf r Hwf), (LRUK.Size_wf r' Hwf').
  revert Hret. unfold LRUK.SetEvictable.
  destruct (LRUK.invalid_frame f r); [discriminate|]. rewrite Hn.
  pose proof Hn as Hk. apply LRUK.find_node_Some in Hk as [Hk _].
  destruct (b && LRUK.evictable_ n || negb b && negb (LRUK.evictable_ n)) eqn:Hsame.
  - intros [= <-]. rewrite Hn.
    assert (b = LRUK.evictable_ n)
      by (revert Hsame; destruct b, (LRUK.evictable_ n); simpl; congruence).
    subst b. split; [destruct n; reflexivity | lia].
  - assert (Hmap : forall fs ls,
              LRUK.map_ (LRUK.mkReplacer (LRUK.curr_size_ r) (LRUK.replacer_size_ r)
                           (LRUK.k_ r) fs ls
                           (LRUK.replace_node
                              (LRUK.mkNode (LRUK.key_ n) (LRUK.frequency_ n) b)
                              (LRUK.fifo r))
                           (LRUK.replace_node
                              (LRUK.mkNode (LRUK.key_ n) (LRUK.frequency_ n) b)
                              (LRUK.lru r))) f
              = Some (LRUK.mkNode (LRUK.key_ n) (LRUK.frequency_ n) b) /\
              LRUK.evictable_count
                (LRUK.mkReplacer (LRUK.curr_size_ r) (LRUK.replacer_size_ r)
                   (LRUK.k_ r) fs ls
                   (LRUK.replace_node
                      (LRUK.mkNode (LRUK.key_ n) (LRUK.frequency_ n) b)
                      (LRUK.fifo r))
                   (LRUK.replace_node
                      (LRUK.mkNode (LRUK.key_ n) (LRUK.frequency_ n) b)
                      (LRUK.lru r)))
              = LRUK.evictable_count r + LRUK.b2z b
                - LRUK.b2z (LRUK.evictable_ n)).
    { intros fs ls. unfold LRUK.map_, LRUK.evictable_count.
      rewrite LRUK.nodes_replace. split.
      - apply (LRUK.find_replace f n); auto.
      - rewrite (LRUK.ecount_replace n);
          [simpl; lia | apply (LRUK.wf_nodup r Hwf) | simpl; rewrite Hk; exact Hn]. }
    destruct (2 <=? LRUK.frequency_ n); intros [= <-]; apply Hmap.
Qed.

(** A run on a replacer of seven frames with k = 2: frame 1 accessed
    twice, frame 2 once, both marked evictable; frame 3 accessed once
    and left as it is. *)
Definition replacer_calls : list LRUK.op :=
  [LRUK.OpRecordAccess 1; LRUK.OpRecordAccess 2; LRUK.OpSetEvictable 1 true;
   LRUK.OpSetEvictable 2 true; LRUK.OpRecordAccess 1; LRUK.OpRecordAccess 3].

Definition replacer_state : LRUK.LRUKReplacer :=
  LRUK.run replacer_calls (LRUK.new_replacer 7 2).

Lemma replacer_state_reachable : LRUK.reachable replacer_state.
Proof.
  exists 7, 2, replacer_calls. split; [|reflexivity].
  unfold replacer_calls.
  repeat (apply List.Forall_cons;
          [intros f Hf; simpl in Hf; try discriminate Hf;
           injection Hf as <-; unfold LRUK.is_frame_id; lia|]).
  apply List.Forall_nil.
Qed.

Lemma replacer_evict_victim_witness :
  let r := replacer_state in
  let r' := snd (LRUK.Evict r) in
  (exists n, LRUK.map_ r 2 = Some n /\ LRUK.evictable_ n = true) /\
  LRUK.map_ r' 2 = None /\
  (forall g, g <> 2 -> LRUK.map_ r' g = LRUK.map_ r g) /\
  LRUK.Size r' = LRUK.Size r - 1.
Proof.
  apply (replacer_evict_victim replacer_state (snd (LRUK.Evict replacer_state)) 2).
  - exact replacer_state_reachable.
  - vm_compute. reflexivity.
Defined.

Lemma replacer_remove_contract_witness :
  match LRUK.map_ replacer_state 1 with
  | Some n =>
      if LRUK.evictable_ n
      then LRUK.map_ (LRUK.Remove 1 replacer_state) 1 = None /\
           (forall g, g <> 1 -> LRUK.map_ (LRUK.Remove 1 replacer_state) g
                                = LRUK.map_ replacer_state g) /\
           LRUK.Size (LRUK.Remove 1 replacer_state) = LRUK.Size replacer_state - 1
      else LRUK.Remove 1 replacer_state = replacer_state
  | None => LRUK.Remove 1 replacer_state = replacer_state
  end.
Proof.
  apply (replacer_remove_contract replacer_state 1).
  exact replacer_state_reachable.
Defined.

Lemma replacer_record_access_witness :
  exists r',
    LRUK.RecordAccess 3 replacer_state = Ret r' /\
    LRUK.map_ r' 3
    = Some (match LRUK.map_ replacer_state 3 with
            | Some n => LRUK.mkNode (LRUK.key_ n) (LRUK.frequency_ n + 1)
                          (LRUK.evictable_ n)
            | None => LRUK.mkNode 3 1 false
            end) /\
    (forall g, g <> 3 -> LRUK.map_ r' g = LRUK.map_ replacer_state g) /\
    LRUK.Size r' = LRUK.Size replacer_state.
Proof.
  apply (replacer_record_access replacer_state 3).
  - vm_compute. split; discriminate.
  - vm_compute. reflexivity.
Defined.

Lemma replacer_set_evictable_witness :
  let r' := LRUK.step replacer_state (LRUK.OpSetEvictable 3 true) in
  match LRUK.map_ replacer_state 3 with
  | Some n =>
      LRUK.map_ r' 3 = Some (LRUK.mkNode (LRUK.key_ n) (LRUK.frequency_ n) true) /\
      LRUK.Size r' = LRUK.Size replacer_state + LRUK.b2z true
                     - LRUK.b2z (LRUK.evictable_ n)
  | None => r' = replacer_state
  end /\
  (forall g, g <> 3 -> LRUK.map_ r' g = LRUK.map_ replacer_state g).
Proof.
  apply (replacer_set_evictable replacer_state
           (LRUK.step replacer_state (LRUK.OpSetEvictable 3 true)) 3 true).
  - exact replacer_state_reachable.
  - vm_compute. reflexivity.
Defined.

(** ** B+ tree pages: the entries of a leaf and of an internal page *)

(** Keys in strictly increasing order. *)
Fixpoint ascending (l : list Z) : Prop :=
  match l with
  | [] => True
  | x :: rest => Forall (fun y => x < y) rest /\ ascending rest
  end.

Section PageProperties.
Context {V : Type}.

Lemma comparator_zero a b : (Node.comparator_ a b =? 0) = (a =? b).
Proof.
  unfold Node.comparator_.
  destruct (Z.compare_spec a b) as [H|H|H]; simpl; symmetry;
    [apply Z.eqb_eq | apply Z.eqb_neq | apply Z.eqb_neq]; lia.
Qed.

Lemma comparator_nonneg a b : (0 <=? Node.comparator_ a b) = (b <=? a).
Proof.
  unfold Node.comparator_.
  destruct (Z.compare_spec a b) as [H|H|H]; simpl; symmetry;
    [apply Z.leb_le | apply Z.leb_gt | apply Z.leb_le]; lia.
Qed.

Lemma comparator_pos a b : (0 <? Node.comparator_ a b) = (b <? a).
Proof.
  unfold Node.comparator_.
  destruct (Z.compare_spec a b) as [H|H|H]; simpl; symmetry;
    [apply Z.ltb_ge | apply Z.ltb_ge | apply Z.ltb_lt]; lia.
Qed.

Lemma find_key_app key (a1 a2 : list (Z * V)) :
  Node.find_key V key (a1 ++ a2)
  = match Node.find_key V key a1 with
    | Some v => Some v
    | None => Node.find_key V key a2
    end.
Proof.
  induction a1 as [|[k v] a1 IH]; simpl; [reflexivity|].
  destruct (Node.comparator_ k key =? 0); auto.
Qed.

Lemma find_key_absent key (a : list (Z * V)) :
  Forall (fun e => fst e <> key) a -> Node.find_key V key a = None.
Proof.
  induction a as [|[k v] a IH]; simpl; [reflexivity|].
  intros H. inversion H as [|? ? Hk Ha]; subst. simpl in Hk.
  rewrite comparator_zero.
  destruct (k =? key) eqn:E; [apply Z.eqb_eq in E; congruence | auto].
Qed.

Lemma find_key_In key v (a : list (Z * V)) :
  Node.find_key V key a = Some v -> In (key, v) a.
Proof.
  induction a as [|[k0 v0] a IH]; simpl; [discriminate|].
  rewrite comparator_zero. destruct (k0 =? key) eqn:E.
  - apply Z.eqb_eq in E. subst k0. intros [= ->]. auto.
  - auto.
Qed.

(** The index [FindIndex] of a leaf returns: the entries before it
    have smaller keys, the entry at it, if any, has not. *)
Lemma leaf_find_index_spec key (a : list (Z * V)) :
  forall i0,
  exists n : nat,
    Node.leaf_find_index V key a i0 = i0 + Z.of_nat n /\
    (n <= length a)%nat /\
    Forall (fun e => fst e < key) (firstn n a) /\
    match skipn n a with
    | [] => True
    | e :: _ => key <= fst e
    end.
Proof.
  induction a as [|[k v] a IH]; intros i0; simpl.
  - exists 0%nat. simpl. split; [lia|]. split; [lia|]. split; [constructor|exact I].
  - rewrite comparator_nonneg. destruct (key <=? k) eqn:E.
    + apply Z.leb_le in E. exists 0%nat. simpl.
      split; [lia|]. split; [lia|]. split; [constructor | assumption].
    + apply Z.leb_gt in E. destruct (IH (i0 + 1)) as (n & Hn & Hle & Hlt & Hge).
      exists (S n). simpl. split; [lia|]. split; [lia|]. split; [|assumption].
      constructor; [simpl; lia | assumption].
Qed.

Lemma find_key_None key (a : list (Z * V)) :
  Node.find_key V key a = None <-> ~ In key (map fst a).
Proof.
  induction a as [|[k v] a IH]; simpl; [tauto|].
  rewrite comparator_zero. destruct (k =? key) eqn:E.
  - apply Z.eqb_eq in E. split; [discriminate | tauto].
  - apply Z.eqb_neq in E. rewrite IH. tauto.
Qed.

Lemma find_key_insert_other k key value (a1 a2 : list (Z * V)) :
  k <> key ->
  Node.find_key V k (a1 ++ (key, value) :: a2) = Node.find_key V k (a1 ++ a2).
Proof.
  intros Hk. rewrite !find_key_app. simpl. rewrite comparator_zero.
  destruct (key =? k) eqn:E; [apply Z.eqb_eq in E; congruence | reflexivity].
Qed.

Lemma ascending_app l1 l2 :
  ascending (l1 ++ l2) <->
  ascending l1 /\ ascending l2 /\ forall x y, In x l1 -> In y l2 -> x < y.
Proof.
  induction l1 as [|a l1 IH]; simpl.
  - split; [intros H; repeat split; auto; intros x y [] | tauto].
  - rewrite IH, Forall_app, !Forall_forall. split.
    + intros ([H1 H2] & H3 & H4 & H5). repeat split; auto.
      intros x y [<-|Hx] Hy; [apply H2, list_elem_of_In, Hy | auto].
    + intros ((H1 & H2) & H3 & H4). repeat split; auto.
      intros y Hy. apply H4; [left; reflexivity | apply list_elem_of_In, Hy].
Qed.

Lemma ascending_cons x l :
  ascending (x :: l) <-> (forall y, In y l -> x < y) /\ ascending l.
Proof.
  simpl. rewrite Forall_forall. split; intros [H1 H2]; split; auto;
    intros y Hy; apply H1; apply list_elem_of_In; assumption.
Qed.

(** X10: [Insert] of a leaf page puts the entry before the first
    entry whose key is not smaller.  The page then has one entry more;
    [FindKey] finds the inserted value for the key and what it found
    before for every other key; the header of the page is untouched;
    and strictly increasing keys stay strictly increasing when the key
    was not there. *)
Theorem leaf_insert_lookup (l : Node.LeafPage V) (key : Z) (value : V) :
  exists l',
    Node.Leaf_Insert V key value l = Ret l' /\
    Node.FindKey V key l' = Some value /\
    (forall k, k <> key -> Node.FindKey V k l' = Node.FindKey V k l) /\
    Node.size_of (Node.l_array_ V l') = Node.size_of (Node.l_array_ V l) + 1 /\
    Node.next_page_id_ V l' = Node.next_page_id_ V l /\
    Node.l_parent_page_id_ V l' = Node.l_parent_page_id_ V l /\
    (ascending (map fst (Node.l_array_ V l)) ->
     Node.FindKey V key l = None ->
     ascending (map fst (Node.l_array_ V l'))).
Proof.
  destruct (leaf_find_index_spec key (Node.l_array_ V l) 0)
    as (n & Hn & Hle & Hlt & Hge).
  rewrite Z.add_0_l in Hn.
  unfold Node.Leaf_Insert, Node.Leaf_FindIndex, Node.insert_at. rewrite Hn.
  simpl. unfold Node.size_of.
  destruct ((0 <=? Z.of_nat n) && (Z.of_nat n <=? Z.of_nat (length (Node.l_array_ V l))))
    eqn:E; [|apply andb_false_iff in E as [E|E];
             [apply Z.leb_gt in E | apply Z.leb_gt in E]; lia].
  rewrite Nat2Z.id. simpl. eexists. split; [reflexivity|].
  unfold Node.FindKey. simpl.
  assert (Hfirst : Node.find_key V key (firstn n (Node.l_array_ V l)) = None).
  { apply find_key_absent. eapply Forall_impl; [exact Hlt|].
    simpl. intros e He. lia. }
  split; [|split; [|split; [|split; [|split]]]]; try reflexivity.
  - rewrite find_key_app, Hfirst. simpl. rewrite comparator_zero, Z.eqb_refl.
    reflexivity.
  - intros k Hk. rewrite find_key_insert_other by assumption.
    rewrite firstn_skipn. reflexivity.
  - rewrite length_app. simpl. rewrite length_firstn, length_skipn. lia.
  - intros Hasc Habs. rewrite <- (firstn_skipn n (Node.l_array_ V l)) in Hasc, Habs.
    rewrite map_app in Hasc. apply ascending_app in Hasc as (H1 & H2 & H3).
    rewrite map_app. simpl. apply ascending_app.
    apply find_key_None in Habs. rewrite map_app, in_app_iff in Habs.
    assert (Hbig : forall y, In y (map fst (skipn n (Node.l_array_ V l))) ->
                             key < y).
    { intros y Hy. assert (y <> key) by (intros ->; tauto).
      destruct (skipn n (Node.l_array_ V l)) as [|e rest]; [destruct Hy|].
      simpl in Hy, H2. destruct H2 as [H2 _]. rewrite Forall_forall in H2.
      destruct Hy as [<-|Hy]; [lia|].
      apply list_elem_of_In in Hy. specialize (H2 y Hy). lia. }
    split; [assumption|]. split.
    + apply ascending_cons. split; assumption.
    + intros x y Hx [<-|Hy]; [|auto].
      apply in_map_iff in Hx as (e & <- & He).
      rewrite Forall_forall in Hlt. apply Hlt, list_elem_of_In, He.
Qed.

Lemma lookupZ_of_nat {A} (l : list A) (n : nat) :
  lookupZ l (Z.of_nat n) = l !! n.
Proof.
  unfold lookupZ. destruct (Z.of_nat n <? 0) eqn:E; [apply Z.ltb_lt in E; lia|].
  rewrite Nat2Z.id. reflexivity.
Qed.

Lemma lookup_skipn_head {A} (l : list A) (n : nat) : l !! n = head (skipn n l).
Proof. revert n. induction l as [|x l IH]; intros [|n]; simpl; auto. Qed.

Lemma ascending_split (keys1 keys2 : list Z) (key : Z) :
  ascending (keys1 ++ key :: keys2) ->
  ascending (keys1 ++ keys2) /\ ~ In key (keys1 ++ keys2).
Proof.
  intros H. apply ascending_app in H as (H1 & H2 & H3).
  apply ascending_cons in H2 as [H2 H4]. split.
  - apply ascending_app. repeat split; auto.
    intros x y Hx Hy. apply H3; [assumption | right; assumption].
  - rewrite in_app_iff. intros [Hk|Hk].
    + specialize (H3 key key Hk (or_introl eq_refl)). lia.
    + specialize (H2 key Hk). lia.
Qed.

(** X11: [Remove] of a leaf page whose keys are strictly increasing.
    Afterwards [FindKey] misses the key and finds for every other key
    what it found before; the keys are still strictly increasing; the
    page has one entry less when the key was there and is unchanged
    when it was not; the header is untouched. *)
Theorem leaf_remove_lookup (l : Node.LeafPage V) (key : Z) :
  ascending (map fst (Node.l_array_ V l)) ->
  exists l',
    Node.Leaf_Remove V key l = Ret l' /\
    Node.FindKey V key l' = None /\
    (forall k, k <> key -> Node.FindKey V k l' = Node.FindKey V k l) /\
    ascending (map fst (Node.l_array_ V l')) /\
    Node.size_of (Node.l_array_ V l') =
      Node.size_of (Node.l_array_ V l) -
      match Node.FindKey V key l with Some _ => 1 | None => 0 end /\
    (Node.FindKey V key l = None -> l' = l) /\
    Node.next_page_id_ V l' = Node.next_page_id_ V l /\
    Node.l_parent_page_id_ V l' = Node.l_parent_page_id_ V l.
Proof.
  intros Hasc.
  destruct (leaf_find_index_spec key (Node.l_array_ V l) 0)
    as (n & Hn & Hle & Hlt & Hge).
  rewrite Z.add_0_l in Hn.
  unfold Node.Leaf_Remove, Node.Leaf_FindIndex. rewrite Hn.
  rewrite lookupZ_of_nat, lookup_skipn_head. unfold Node.FindKey.
  pose proof (firstn_skipn n (Node.l_array_ V l)) as Hsplit.
  assert (Hfirst : ~ In key (map fst (firstn n (Node.l_array_ V l)))).
  { intros Hk. apply in_map_iff in Hk as (e & He & Hin).
    rewrite Forall_forall in Hlt. apply list_elem_of_In, Hlt in Hin. lia. }
  assert (Hsk : skipn (S n) (Node.l_array_ V l) =
                tl (skipn n (Node.l_array_ V l))).
  { change (S n) with (1 + n)%nat. rewrite <- skipn_skipn.
    destruct (skipn n (Node.l_array_ V l)); reflexivity. }
  destruct (skipn n (Node.l_array_ V l)) as [|[k v] rest] eqn:Es; simpl.
  - rewrite app_nil_r in Hsplit. rewrite Hsplit in Hfirst.
    apply find_key_None in Hfirst. exists l. rewrite Hfirst.
    repeat split; auto. lia.
  - simpl in Hge, Hsk. rewrite comparator_zero.
    destruct (k =? key) eqn:E; simpl.
    + apply Z.eqb_eq in E. subst k.
      assert (Hlen : length (Node.l_array_ V l) = S (n + length rest)).
      { rewrite <- Hsplit at 1. rewrite length_app, length_firstn. simpl. lia. }
      unfold Node.remove_at, Node.size_of.
      destruct (Z.of_nat (length (Node.l_array_ V l)) <=? Z.of_nat n) eqn:E1;
        [apply Z.leb_le in E1; lia|].
      destruct ((0 <=? Z.of_nat n) &&
                (Z.of_nat n <? Z.of_nat (length (Node.l_array_ V l)))) eqn:E2;
        [|apply andb_false_iff in E2 as [E2|E2];
          [apply Z.leb_gt in E2 | apply Z.ltb_ge in E2]; lia].
      rewrite Nat2Z.id, Hsk. simpl. eexists. split; [reflexivity|]. simpl.
      rewrite <- Hsplit in Hasc. rewrite map_app in Hasc. simpl in Hasc.
      apply ascending_split in Hasc as [Hasc Habs].
      rewrite <- map_app in Hasc, Habs.
      split; [apply find_key_None; exact Habs|].
      split.
      { intros k Hk.
        rewrite <- (find_key_insert_other k key v) by assumption.
        rewrite Hsplit. reflexivity. }
      split; [exact Hasc|].
      assert (Hfound : Node.find_key V key (Node.l_array_ V l) = Some v).
      { rewrite <- Hsplit, find_key_app.
        apply find_key_None in Hfirst. rewrite Hfirst. simpl.
        rewrite comparator_zero, Z.eqb_refl. reflexivity. }
      rewrite Hfound. split; [|split; [discriminate | split; reflexivity]].
      rewrite length_app, length_firstn, Hlen. lia.
    + apply Z.eqb_neq in E.
      assert (Habs : Node.find_key V key (Node.l_array_ V l) = None).
      { apply find_key_None. rewrite <- Hsplit, map_app, in_app_iff.
        intros [Hk|Hk]; [tauto|]. simpl in Hk. destruct Hk as [Hk|Hk]; [lia|].
        rewrite <- Hsplit, map_app in Hasc. apply ascending_app in Hasc
          as (_ & Hasc & _). simpl in Hasc. apply ascending_cons in Hasc as [H1 _].
        specialize (H1 key Hk). lia. }
      exists l. rewrite Habs. repeat split; auto. lia.
Qed.

(** X12: the borrowing helpers of a leaf page move one entry
    across the boundary of two neighbouring pages and keep the entries
    of the two pages, in order: [PopBack] of the left page followed by
    [PushFront] on the right one, and [PopFront] of the right page
    followed by [PushBack] on the left one.  The donor page has one
    entry less. *)
Theorem leaf_borrow_keeps_entries (left right : Node.LeafPage V) :
  (Node.l_array_ V left <> [] ->
   exists kv left',
     Node.Leaf_PopBack V left = Ret (kv, left') /\
     Node.l_array_ V left' ++ Node.l_array_ V (Node.Leaf_PushFront V kv right) =
       Node.l_array_ V left ++ Node.l_array_ V right /\
     Node.size_of (Node.l_array_ V left') =
       Node.size_of (Node.l_array_ V left) - 1) /\
  (Node.l_array_ V right <> [] ->
   exists kv right',
     Node.Leaf_PopFront V right = Ret (kv, right') /\
     Node.l_array_ V (Node.Leaf_PushBack V kv left) ++ Node.l_array_ V right' =
       Node.l_array_ V left ++ Node.l_array_ V right /\
     Node.size_of (Node.l_array_ V right') =
       Node.size_of (Node.l_array_ V right) - 1).
Proof.
  split.
  - intros Hne.
    destruct (exists_last Hne) as (a & kv & Ha).
    unfold Node.Leaf_PopBack, Node.at_, Node.truncate, Node.size_of.
    rewrite Ha, length_app. simpl.
    replace (Z.of_nat (length a + 1) - 1) with (Z.of_nat (length a)) by lia.
    rewrite lookupZ_of_nat, lookup_app_r, Nat.sub_diag by lia. simpl.
    destruct ((0 <=? Z.of_nat (length a)) &&
              (Z.of_nat (length a) <=? Z.of_nat (length a + 1))) eqn:E;
      [|apply andb_false_iff in E as [E|E]; apply Z.leb_gt in E; lia].
    rewrite Nat2Z.id, firstn_app, Nat.sub_diag, firstn_all. simpl.
    rewrite app_nil_r. exists kv. eexists. split; [reflexivity|]. simpl.
    split; [rewrite <- app_assoc; reflexivity | lia].
  - intros Hne. destruct (Node.l_array_ V right) as [|kv a] eqn:Ha; [congruence|].
    unfold Node.Leaf_PopFront, Node.at_, Node.remove_at, Node.size_of.
    rewrite Ha. simpl. exists kv. eexists.
    replace (0 <? Z.pos (Pos.of_succ_nat (length a))) with true
      by (symmetry; apply Z.ltb_lt; lia).
    simpl. split; [reflexivity|]. simpl. rewrite <- app_assoc. simpl.
    change (Z.to_nat 0) with 0%nat. rewrite !drop_0.
    split; [reflexivity | lia].
Qed.

End PageProperties.

(** *** Internal page *)

(** The child [FindLeaf] descends into for [key]: the one before the
    index [FindIndex] returns. *)
Definition child_for (key : Z) (i : Node.InternalPage) : outcome Z :=
  Node.ValueAt (Node.FindIndex key i - 1) i.

Lemma internal_find_index_shift key (a : list (Z * Z)) i0 :
  Node.internal_find_index key a i0 = i0 + Node.internal_find_index key a 0.
Proof.
  revert i0. induction a as [|[k v] a IH]; intros i0; simpl; [lia|].
  destruct (0 <? Node.comparator_ k key); [lia|].
  rewrite (IH (i0 + 1)), (IH (0 + 1)). lia.
Qed.

Lemma internal_find_index_range key (a : list (Z * Z)) :
  0 <= Node.internal_find_index key a 0 <= Z.of_nat (length a).
Proof.
  induction a as [|[k v] a IH]; simpl; [lia|].
  destruct (0 <? Node.comparator_ k key); [lia|].
  rewrite internal_find_index_shift. lia.
Qed.

Lemma internal_find_index_all key (a : list (Z * Z)) :
  Node.internal_find_index key a 0 = Z.of_nat (length a) <->
  Forall (fun e => fst e <= key) a.
Proof.
  induction a as [|[k v] a IH]; simpl.
  - split; [constructor | reflexivity].
  - rewrite comparator_pos. rewrite Forall_cons. simpl.
    pose proof (internal_find_index_range key a) as Hr.
    rewrite internal_find_index_shift.
    destruct (key <? k) eqn:E;
      [apply Z.ltb_lt in E | apply Z.ltb_ge in E].
    + split; [lia | intros [H _]; lia].
    + rewrite <- IH. split; [intros H; split; lia | intros [_ H]; lia].
Qed.

Lemma internal_find_index_app_all key (a1 a2 : list (Z * Z)) :
  Forall (fun e => fst e <= key) a1 ->
  Node.internal_find_index key (a1 ++ a2) 0 =
    Z.of_nat (length a1) + Node.internal_find_index key a2 0.
Proof.
  induction a1 as [|[k v] a1 IH]; intros H; simpl; [lia|].
  apply Forall_cons in H as [Hk H]. simpl in Hk.
  rewrite comparator_pos.
  destruct (key <? k) eqn:E; [apply Z.ltb_lt in E; lia|].
  rewrite (internal_find_index_shift _ _ 1), (IH H). lia.
Qed.

Lemma internal_find_index_app_stop key (a1 a2 : list (Z * Z)) :
  Node.internal_find_index key a1 0 < Z.of_nat (length a1) ->
  Node.internal_find_index key (a1 ++ a2) 0 =
    Node.internal_find_index key a1 0.
Proof.
  induction a1 as [|[k v] a1 IH]; simpl; [lia|].
  destruct (0 <? Node.comparator_ k key); [reflexivity|].
  rewrite (internal_find_index_shift _ a1 1),
    (internal_find_index_shift _ (a1 ++ a2) 1).
  intros H. rewrite IH by lia. reflexivity.
Qed.

(** The index [FindIndex] of an internal page returns: the keys of the
    entries 1 .. index - 1 are not above [key], the key of the entry at
    the index is. *)
Lemma internal_find_index_spec key (a : list (Z * Z)) :
  exists n : nat,
    Node.internal_find_index key a 0 = Z.of_nat n /\ (n <= length a)%nat /\
    Forall (fun e => fst e <= key) (firstn n a) /\
    match skipn n a with [] => True | e :: _ => key < fst e end.
Proof.
  induction a as [|[k v] a IH]; simpl.
  - exists 0%nat. split; [reflexivity|]. split; [lia|].
    split; [constructor | exact I].
  - rewrite comparator_pos.
    destruct (key <? k) eqn:E;
      [apply Z.ltb_lt in E | apply Z.ltb_ge in E].
    + exists 0%nat. split; [reflexivity|]. split; [lia|].
      split; [constructor | exact E].
    + destruct IH as (n & Hn & Hle & Hall & Hnext).
      exists (S n). rewrite internal_find_index_shift, Hn.
      split; [lia|]. split; [simpl; lia|]. split; [|exact Hnext].
      simpl. constructor; [exact E | exact Hall].
Qed.

Lemma lookupZ_cons {A} (x : A) (l : list A) (i : Z) :
  lookupZ (x :: l) i = if i =? 0 then Some x else lookupZ l (i - 1).
Proof.
  unfold lookupZ. destruct (i =? 0) eqn:E0.
  - apply Z.eqb_eq in E0. subst i. reflexivity.
  - apply Z.eqb_neq in E0. destruct (i <? 0) eqn:E1.
    + apply Z.ltb_lt in E1.
      destruct (i - 1 <? 0) eqn:E2; [reflexivity | apply Z.ltb_ge in E2; lia].
    + apply Z.ltb_ge in E1.
      destruct (i - 1 <? 0) eqn:E2; [apply Z.ltb_lt in E2; lia|].
      replace (Z.to_nat i) with (S (Z.to_nat (i - 1))) by lia. reflexivity.
Qed.

Lemma lookupZ_app_l {A} (l1 l2 : list A) (i : Z) :
  i < Z.of_nat (length l1) -> lookupZ (l1 ++ l2) i = lookupZ l1 i.
Proof.
  intros H. unfold lookupZ. destruct (i <? 0) eqn:E; [reflexivity|].
  apply Z.ltb_ge in E. apply lookup_app_l. lia.
Qed.

Lemma lookupZ_app_r {A} (l1 l2 : list A) (i : Z) :
  Z.of_nat (length l1) <= i ->
  lookupZ (l1 ++ l2) i = lookupZ l2 (i - Z.of_nat (length l1)).
Proof.
  intros H. unfold lookupZ.
  destruct (i <? 0) eqn:E; [apply Z.ltb_lt in E; lia|].
  destruct (i - Z.of_nat (length l1) <? 0) eqn:E1; [apply Z.ltb_lt in E1; lia|].
  rewrite lookup_app_r by lia. f_equal. lia.
Qed.

Lemma find_index_bounds (i : Node.InternalPage) (key : Z) :
  Node.i_array_ i <> [] ->
  1 <= Node.FindIndex key i <= Node.size_of (Node.i_array_ i).
Proof.
  intros Hne. unfold Node.FindIndex, Node.size_of.
  destruct (Node.i_array_ i) as [|e0 r]; [congruence|]. simpl tl.
  rewrite internal_find_index_shift.
  pose proof (internal_find_index_range key r). simpl length. lia.
Qed.

(** X13: on an internal page with at least one entry, [FindIndex]
    returns an index from 1 to the size, so the entry before it, whose
    child [FindLeaf] follows, exists; the keys of the entries 1 ..
    index - 1 are not above the key, and the key of the entry at the
    index, if there is one, is above it. *)
Theorem internal_find_index_child (i : Node.InternalPage) (key : Z) :
  Node.i_array_ i <> [] ->
  1 <= Node.FindIndex key i <= Node.size_of (Node.i_array_ i) /\
  (exists child, child_for key i = Ret child) /\
  (forall j k, 1 <= j < Node.FindIndex key i ->
               Node.KeyAt j i = Ret k -> k <= key) /\
  (forall k, Node.KeyAt (Node.FindIndex key i) i = Ret k -> key < k).
Proof.
  intros Hne. unfold child_for, Node.FindIndex, Node.ValueAt, Node.KeyAt,
    Node.at_, Node.size_of.
  destruct (Node.i_array_ i) as [|e0 r]; [congruence|]. simpl tl.
  rewrite internal_find_index_shift.
  destruct (internal_find_index_spec key r) as (n & -> & Hle & Hall & Hnext).
  simpl length. split; [lia|]. split; [|split].
  - destruct (lookupZ_in_range (e0 :: r) (1 + Z.of_nat n - 1)) as [e He];
      [simpl length; lia|].
    rewrite He. simpl. eexists. reflexivity.
  - intros j k Hj. rewrite lookupZ_cons.
    destruct (j =? 0) eqn:E; [apply Z.eqb_eq in E; lia|].
    destruct (lookupZ r (j - 1)) as [e|] eqn:He; [|discriminate].
    simpl. intros [= <-].
    unfold lookupZ in He. destruct (j - 1 <? 0); [discriminate|].
    rewrite Forall_forall in Hall. apply Hall.
    apply (list_elem_of_lookup_2 _ (Z.to_nat (j - 1))).
    rewrite lookup_take_lt by lia. exact He.
  - intros k. rewrite lookupZ_cons.
    destruct (1 + Z.of_nat n =? 0) eqn:E; [apply Z.eqb_eq in E; lia|].
    replace (1 + Z.of_nat n - 1) with (Z.of_nat n) by lia.
    rewrite lookupZ_of_nat, lookup_skipn_head.
    destruct (skipn n r) as [|e rest]; [discriminate|].
    simpl. intros [= <-]. exact Hnext.
Qed.

Lemma internal_find_index_next key (a : list (Z * Z)) :
  match a with [] => True | e :: _ => key < fst e end ->
  Node.internal_find_index key a 0 = 0.
Proof.
  destruct a as [|[k v] a]; simpl; [reflexivity|].
  intros H. rewrite comparator_pos.
  destruct (key <? k) eqn:E; [reflexivity | apply Z.ltb_ge in E; lia].
Qed.

Lemma child_index_insert (e0 : Z * Z) (l1 l2 : list (Z * Z)) key value k :
  Forall (fun e => fst e <= key) l1 ->
  match l2 with [] => True | e :: _ => key < fst e end ->
  lookupZ (e0 :: l1 ++ (key, value) :: l2)
          (Node.internal_find_index k (l1 ++ (key, value) :: l2) 0)
  = if (key <=? k) &&
       (Node.internal_find_index k (l1 ++ l2) 0 =? Z.of_nat (length l1))
    then Some (key, value)
    else lookupZ (e0 :: l1 ++ l2) (Node.internal_find_index k (l1 ++ l2) 0).
Proof.
  intros Hall Hnext.
  destruct (key <=? k) eqn:Ek; [apply Z.leb_le in Ek | apply Z.leb_gt in Ek];
    simpl andb.
  - assert (Hall' : Forall (fun e => fst e <= k) l1).
    { eapply Forall_impl; [exact Hall|]. simpl. intros e He. lia. }
    rewrite !internal_find_index_app_all by assumption. simpl.
    rewrite comparator_pos.
    destruct (k <? key) eqn:E; [apply Z.ltb_lt in E; lia|].
    rewrite (internal_find_index_shift _ _ (0 + 1)).
    pose proof (internal_find_index_range k l2) as Hr.
    set (m := Node.internal_find_index k l2 0) in *.
    rewrite !lookupZ_cons.
    destruct (Z.of_nat (length l1) + (0 + 1 + m) =? 0) eqn:E0;
      [apply Z.eqb_eq in E0; lia|].
    rewrite lookupZ_app_r by lia. rewrite lookupZ_cons.
    destruct (Z.of_nat (length l1) + m =? Z.of_nat (length l1)) eqn:E1;
      [apply Z.eqb_eq in E1 | apply Z.eqb_neq in E1].
    + replace (Z.of_nat (length l1) + (0 + 1 + m) - 1 - Z.of_nat (length l1))
        with 0 by lia. reflexivity.
    + destruct (Z.of_nat (length l1) + (0 + 1 + m) - 1 - Z.of_nat (length l1)
                =? 0) eqn:E2; [apply Z.eqb_eq in E2; lia|].
      destruct (Z.of_nat (length l1) + m =? 0) eqn:E3;
        [apply Z.eqb_eq in E3; lia|].
      rewrite lookupZ_app_r by lia. f_equal. lia.
  - pose proof (internal_find_index_range k l1) as Hr.
    destruct (Z.eq_dec (Node.internal_find_index k l1 0) (Z.of_nat (length l1)))
      as [Hp|Hp].
    + assert (Hall' : Forall (fun e => fst e <= k) l1)
        by (apply internal_find_index_all; exact Hp).
      rewrite !internal_find_index_app_all by assumption.
      rewrite (internal_find_index_next k l2)
        by (destruct l2; [exact I | lia]).
      rewrite (internal_find_index_next k ((key, value) :: l2)) by (simpl; lia).
      rewrite Z.add_0_r, !lookupZ_cons.
      destruct (Z.of_nat (length l1) =? 0); [reflexivity|].
      rewrite !lookupZ_app_l by lia. reflexivity.
    + rewrite !internal_find_index_app_stop by lia.
      rewrite !lookupZ_cons.
      destruct (Node.internal_find_index k l1 0 =? 0); [reflexivity|].
      rewrite !lookupZ_app_l by lia. reflexivity.
Qed.

(** X14: [Insert] of an internal page with at least one entry, seen
    through the child [FindLeaf] follows.  The page has one entry more
    and its leftmost child is kept.  A key that is not below the
    inserted key and went to the same child as the inserted key now
    goes to the inserted child; every other key goes where it went
    before. *)
Theorem internal_insert_routes (i : Node.InternalPage) (key value : Z) :
  Node.i_array_ i <> [] ->
  exists i',
    Node.Internal_Insert key value i = Ret i' /\
    Node.size_of (Node.i_array_ i') = Node.size_of (Node.i_array_ i) + 1 /\
    Node.ValueAt 0 i' = Node.ValueAt 0 i /\
    Node.i_parent_page_id_ i' = Node.i_parent_page_id_ i /\
    child_for key i' = Ret value /\
    forall k,
      child_for k i' =
        if (key <=? k) && (Node.FindIndex k i =? Node.FindIndex key i)
        then Ret value else child_for k i.
Proof.
  intros Hne.
  assert (Hroute : forall i',
    Node.Internal_Insert key value i = Ret i' ->
    forall k,
      child_for k i' =
        if (key <=? k) && (Node.FindIndex k i =? Node.FindIndex key i)
        then Ret value else child_for k i).
  { unfold Node.Internal_Insert, child_for, Node.FindIndex, Node.ValueAt,
      Node.at_, Node.insert_at, Node.size_of.
    destruct (Node.i_array_ i) as [|e0 r] eqn:Ha; [congruence|]. simpl tl.
    rewrite (internal_find_index_shift key r 1).
    destruct (internal_find_index_spec key r) as (n & Hn & Hle & Hall & Hnext).
    rewrite Hn. simpl length.
    destruct ((0 <=? 1 + Z.of_nat n) && (1 + Z.of_nat n <=? Z.of_nat (S (length r))))
      eqn:E; [|apply andb_false_iff in E as [E|E]; apply Z.leb_gt in E; lia].
    replace (Z.to_nat (1 + Z.of_nat n)) with (S n) by lia. simpl.
    intros i' [= <-] k. simpl.
    rewrite !(internal_find_index_shift k _ 1).
    replace (1 + Node.internal_find_index k
                   (firstn n r ++ (key, value) :: skipn n r) 0 - 1)
      with (Node.internal_find_index k
              (firstn n r ++ (key, value) :: skipn n r) 0) by lia.
    replace (1 + Node.internal_find_index k r 0 - 1)
      with (Node.internal_find_index k r 0) by lia.
    rewrite (child_index_insert e0 (firstn n r) (skipn n r) key value k Hall Hnext).
    rewrite firstn_skipn, length_firstn.
    replace (1 + Node.internal_find_index k r 0 =? 1 + Z.of_nat n)
      with (Node.internal_find_index k r 0 =? Z.of_nat (n `min` length r))
      by (apply eq_true_iff_eq; rewrite !Z.eqb_eq; lia).
    destruct ((key <=? k) &&
              (Node.internal_find_index k r 0 =? Z.of_nat (n `min` length r)));
      reflexivity. }
  unfold Node.Internal_Insert, Node.insert_at in *.
  destruct (find_index_bounds i key Hne) as (H1 & H2).
  destruct ((0 <=? Node.FindIndex key i) &&
            (Node.FindIndex key i <=? Node.size_of (Node.i_array_ i))) eqn:E;
    [|apply andb_false_iff in E as [E|E]; apply Z.leb_gt in E; lia].
  simpl in *. eexists. split; [reflexivity|].
  specialize (Hroute _ eq_refl).
  split; [|split; [|split; [reflexivity|split; [|exact Hroute]]]].
  - simpl. unfold Node.size_of. rewrite length_app. simpl.
    rewrite length_firstn, length_skipn. unfold Node.size_of in H2. lia.
  - unfold Node.ValueAt, Node.at_. simpl.
    destruct (Node.i_array_ i) as [|e0 r]; [congruence|].
    replace (Z.to_nat (Node.FindIndex key i))
      with (S (Z.to_nat (Node.FindIndex key i - 1))) by lia.
    reflexivity.
  - rewrite Hroute, Z.eqb_refl.
    destruct (key <=? key) eqn:E1; [reflexivity | apply Z.leb_gt in E1; lia].
Qed.

(** A leaf with the keys 1, 3, 5, its right neighbour with the keys
    7, 9, and their parent. *)
Definition leaf_135 : Node.LeafPage Z :=
  Node.mkLeaf 2 4 4 3 [(1, 10); (3, 30); (5, 50)].

Definition leaf_79 : Node.LeafPage Z :=
  Node.mkLeaf 3 4 4 (-1) [(7, 70); (9, 90)].

Definition internal_7 : Node.InternalPage :=
  Node.mkInternal 4 (-1) 4 [(0, 2); (7, 3)].

Lemma leaf_remove_lookup_witness :
  exists l',
    Node.Leaf_Remove Z 3 leaf_135 = Ret l' /\
    Node.FindKey Z 3 l' = None /\
    (forall k, k <> 3 -> Node.FindKey Z k l' = Node.FindKey Z k leaf_135) /\
    ascending (map fst (Node.l_array_ Z l')) /\
    Node.size_of (Node.l_array_ Z l') =
      Node.size_of (Node.l_array_ Z leaf_135) -
      match Node.FindKey Z 3 leaf_135 with Some _ => 1 | None => 0 end /\
    (Node.FindKey Z 3 leaf_135 = None -> l' = leaf_135) /\
    Node.next_page_id_ Z l' = Node.next_page_id_ Z leaf_135 /\
    Node.l_parent_page_id_ Z l' = Node.l_parent_page_id_ Z leaf_135.
Proof.
  apply (leaf_remove_lookup leaf_135 3).
  simpl. repeat constructor; lia.
Defined.

Lemma leaf_borrow_keeps_entries_witness :
  (exists kv left',
     Node.Leaf_PopBack Z leaf_135 = Ret (kv, left') /\
     Node.l_array_ Z left' ++ Node.l_array_ Z (Node.Leaf_PushFront Z kv leaf_79) =
       Node.l_array_ Z leaf_135 ++ Node.l_array_ Z leaf_79 /\
     Node.size_of (Node.l_array_ Z left') =
       Node.size_of (Node.l_array_ Z leaf_135) - 1) /\
  (exists kv right',
     Node.Leaf_PopFront Z leaf_79 = Ret (kv, right') /\
     Node.l_array_ Z (Node.Leaf_PushBack Z kv leaf_135) ++ Node.l_array_ Z right' =
       Node.l_array_ Z leaf_135 ++ Node.l_array_ Z leaf_79 /\
     Node.size_of (Node.l_array_ Z right') =
       Node.size_of (Node.l_array_ Z leaf_79) - 1).
Proof.
  destruct (leaf_borrow_keeps_entries leaf_135 leaf_79) as [H1 H2].
  split; [apply H1 | apply H2]; simpl; discriminate.
Defined.

Lemma internal_find_index_child_witness :
  1 <= Node.FindIndex 8 internal_7 <= Node.size_of (Node.i_array_ internal_7) /\
  (exists child, child_for 8 internal_7 = Ret child) /\
  (forall j k, 1 <= j < Node.FindIndex 8 internal_7 ->
               Node.KeyAt j internal_7 = Ret k -> k <= 8) /\
  (forall k, Node.KeyAt (Node.FindIndex 8 internal_7) internal_7 = Ret k -> 8 < k).
Proof.
  apply (internal_find_index_child internal_7 8).
  simpl. discriminate.
Defined.

Lemma internal_insert_routes_witness :
  exists i',
    Node.Internal_Insert 5 9 internal_7 = Ret i' /\
    Node.size_of (Node.i_array_ i') = Node.size_of (Node.i_array_ internal_7) + 1 /\
    Node.ValueAt 0 i' = Node.ValueAt 0 internal_7 /\
    Node.i_parent_page_id_ i' = Node.i_parent_page_id_ internal_7 /\
    child_for 5 i' = Ret 9 /\
    forall k,
      child_for k i' =
        if (5 <=? k) && (Node.FindIndex k internal_7 =? Node.FindIndex 5 internal_7)
        then Ret 9 else child_for k internal_7.
Proof.
  apply (internal_insert_routes internal_7 5 9).
  simpl. discriminate.
Defined.

Lemma leaf_insert_lookup_witness :
  exists l',
    Node.Leaf_Insert Z 4 40 leaf_135 = Ret l' /\
    Node.FindKey Z 4 l' = Some 40 /\
    (forall k, k <> 4 -> Node.FindKey Z k l' = Node.FindKey Z k leaf_135) /\
    ascending (map fst (Node.l_array_ Z l')).
Proof.
  destruct (leaf_insert_lookup leaf_135 4 40)
    as (l' & Hret & Hkey & Hother & _ & _ & _ & Hasc).
  exists l'. split; [exact Hret|]. split; [exact Hkey|]. split; [exact Hother|].
  apply Hasc.
  - simpl. repeat constructor; lia.
  - reflexivity.
Defined.

(** ** Buffer pool manager: pins, frames and the page table *)

Section PoolProperties.
Context {D : Type}.
Variable zero : D.
Variable fuel : nat.
Hypothesis fuel_enough : (31 < fuel)%nat.

(** Page [k] is resident in frame [f]: the page table says so. *)
Definition resident (k f : Z) (b : BPM.BufferPoolManagerInstance D) : Prop :=
  EHT.Find BPM.hash_page_id k (BPM.page_table_ b) = Some f.

(** What the calls of the pool keep true, besides [BPM.pool_wf]: the
    page table is a finite map; the free list names a frame once, and
    its frames hold no page and no pin; a pin count is never negative;
    a frame the replacer may evict has no pin; the frame of a resident
    page holds that page, is tracked by the replacer, and may be
    evicted once its pin count is 0. *)
Record pool_inv (b : BPM.BufferPoolManagerInstance D) : Prop := mk_pool_inv {
  pi_wf : BPM.pool_wf b;
  pi_table : EHT.map_inv BPM.hash_page_id BPM.is_page_id
               (BPM.in_pool (BPM.pool_size_ b)) 31 (BPM.page_table_ b);
  pi_free : List.NoDup (BPM.free_list_ b);
  pi_blank : forall f page,
      In f (BPM.free_list_ b) -> lookupZ (BPM.pages_ b) f = Some page ->
      BPM.page_id_ page = BPM.INVALID_PAGE_ID /\ BPM.pin_count_ page = 0;
  pi_pins : forall f page,
      lookupZ (BPM.pages_ b) f = Some page -> 0 <= BPM.pin_count_ page;
  pi_flag : forall f n page,
      LRUK.map_ (BPM.replacer_ b) f = Some n -> LRUK.evictable_ n = true ->
      lookupZ (BPM.pages_ b) f = Some page -> BPM.pin_count_ page = 0;
  pi_resident : forall k f,
      resident k f b ->
      BPM.is_page_id k /\
      exists page n,
        lookupZ (BPM.pages_ b) f = Some page /\ BPM.page_id_ page = k /\
        LRUK.map_ (BPM.replacer_ b) f = Some n /\
        (BPM.pin_count_ page = 0 -> LRUK.evictable_ n = true)
}.

Lemma lookupZ_insert {A} (l : list A) (i j : Z) (x : A) :
  0 <= i < Z.of_nat (length l) ->
  lookupZ (<[Z.to_nat i := x]> l) j = if j =? i then Some x else lookupZ l j.
Proof.
  intros Hi. destruct (j =? i) eqn:E.
  - apply Z.eqb_eq in E. subst j.
    apply (lookupZ_storeZ_eq l). apply storeZ_in_range. assumption.
  - apply Z.eqb_neq in E.
    apply (lookupZ_storeZ_ne l _ i j x); [apply storeZ_in_range; assumption|].
    congruence.
Qed.

Lemma pool_frame_page (b : BPM.BufferPoolManagerInstance D) f :
  BPM.pool_wf b -> BPM.in_pool (BPM.pool_size_ b) f ->
  0 <= f < Z.of_nat (length (BPM.pages_ b)) /\
  exists page, lookupZ (BPM.pages_ b) f = Some page.
Proof.
  intros H Hf. destruct (BPM.in_pool_frame b f H Hf) as (_ & _ & Hr).
  split; [assumption | apply lookupZ_in_range; assumption].
Qed.

(** A frame the page table maps a page to is not in the free list. *)
Lemma resident_not_free b k f :
  pool_inv b -> resident k f b -> ~ In f (BPM.free_list_ b).
Proof.
  clear fuel_enough.
  intros H Hk Hin.
  destruct (pi_resident b H k f Hk) as (Hid & page & n & Hp & Hpid & _).
  destruct (pi_blank b H f page Hin Hp) as [Hb _].
  unfold BPM.is_page_id, BPM.INVALID_PAGE_ID in *. lia.
Qed.

(** Two pages are not resident in one frame. *)
Lemma resident_frame_page b k k' f :
  pool_inv b -> resident k f b -> resident k' f b -> k = k'.
Proof.
  intros H Hk Hk'.
  destruct (pi_resident b H k f Hk) as (_ & page & n & Hp & Hpid & _).
  destruct (pi_resident b H k' f Hk') as (_ & page' & n' & Hp' & Hpid' & _).
  congruence.
Qed.

(** The two calls on the replacer that pin a frame leave it tracked
    with its flag unset, and the other frames as they were. *)
Lemma pin_frame_spec n f r :
  0 <= n < 2 ^ 31 -> BPM.in_pool n f ->
  LRUK.wf r -> LRUK.replacer_size_ r = n -> LRUK.tracked (BPM.in_pool n) r ->
  exists r1 r2,
    LRUK.RecordAccess f r = Ret r1 /\ LRUK.SetEvictable f false r1 = Ret r2 /\
    (exists m, LRUK.map_ r2 f = Some m /\ LRUK.evictable_ m = false) /\
    (forall g, g <> f -> LRUK.map_ r2 g = LRUK.map_ r g).
Proof.
  clear fuel_enough.
  intros Hn Hf Hwf Hs Htr.
  destruct (BPM.pin_in_replacer n f r Hn Hf Hwf Hs Htr)
    as (r1 & r2 & H1 & H2 & _).
  exists r1, r2. split; [assumption|]. split; [assumption|].
  destruct (LRUK.RecordAccess_spec f r r1 H1) as (Hm1 & Hg1 & _).
  destruct (LRUK.SetEvictable_flag f false r1 r2 _ H2 Hm1) as (m & Hm & Hfl & _).
  destruct (LRUK.SetEvictable_others f false r1 r2 H2) as [Hg2 _].
  split; [exists m; auto|].
  intros g Hg. rewrite (Hg2 g Hg). apply Hg1. assumption.
Qed.

Lemma iota_NoDup n : List.NoDup (EHT.iota n).
Proof.
  clear fuel_enough.
  unfold EHT.iota. generalize (seq_NoDup (Z.to_nat n) 0).
  induction (seq 0 (Z.to_nat n)) as [|x l IH]; simpl; intros H;
    [constructor|].
  apply List.NoDup_cons_iff in H as [Hx Hl]. constructor; [|auto].
  rewrite in_map_iff. intros (y & Hy & Hin).
  apply Nat2Z.inj in Hy. subst y. contradiction.
Qed.

Lemma pool_inv_new pool_size replacer_k :
  0 <= pool_size < 2 ^ 31 -> pool_inv (BPM.new_bpm zero pool_size replacer_k).
Proof.
  clear fuel_enough.
  intros Hs. split.
  - apply BPM.pool_wf_new. assumption.
  - simpl. apply EHT.map_inv_new; unfold BPM.bucket_size_; lia.
  - simpl. apply iota_NoDup.
  - simpl. intros f page _ Hp. unfold lookupZ in Hp.
    destruct (f <? 0); [discriminate|].
    apply list_elem_of_lookup_2, list_elem_of_In, repeat_spec in Hp.
    subst page. split; reflexivity.
  - simpl. intros f page Hp. unfold lookupZ in Hp.
    destruct (f <? 0); [discriminate|].
    apply list_elem_of_lookup_2, list_elem_of_In, repeat_spec in Hp.
    subst page. simpl. lia.
  - simpl. intros f n page Hn. discriminate.
  - unfold resident. simpl. intros k f Hk. rewrite EHT.Find_new in Hk.
    discriminate.
Qed.

(** The invariant reads a page through its id and its pin count only. *)
Definition page_key (p : BPM.Page D) : Z * Z := (BPM.page_id_ p, BPM.pin_count_ p).

Definition same_keys (ps ps' : list (BPM.Page D)) : Prop :=
  length ps = length ps' /\
  forall j, option_map page_key (lookupZ ps j) = option_map page_key (lookupZ ps' j).

Lemma same_keys_page ps ps' j page :
  same_keys ps ps' -> lookupZ ps j = Some page ->
  exists page', lookupZ ps' j = Some page' /\
                BPM.page_id_ page' = BPM.page_id_ page /\
                BPM.pin_count_ page' = BPM.pin_count_ page.
Proof.
  intros [_ H] Hp. specialize (H j). rewrite Hp in H.
  destruct (lookupZ ps' j) as [page'|]; [|discriminate].
  injection H as H1 H2. eauto.
Qed.

Lemma same_keys_sym ps ps' : same_keys ps ps' -> same_keys ps' ps.
Proof. intros [H1 H2]. split; [congruence | intros j; symmetry; apply H2]. Qed.

Lemma same_keys_insert ps f page page' :
  lookupZ ps f = Some page -> page_key page' = page_key page ->
  same_keys (<[Z.to_nat f := page']> ps) ps.
Proof.
  intros Hp Hk. split; [apply length_insert|].
  intros j. rewrite lookupZ_insert by (eapply lookupZ_Some_range; eassumption).
  destruct (j =? f) eqn:E; [|reflexivity].
  apply Z.eqb_eq in E. subst j. rewrite Hp. simpl. congruence.
Qed.

Lemma pool_inv_pages b ps dm :
  pool_inv b -> same_keys ps (BPM.pages_ b) ->
  pool_inv (BPM.mkBPM (BPM.pool_size_ b) ps (BPM.page_table_ b)
              (BPM.replacer_ b) (BPM.free_list_ b) (BPM.next_page_id_ b) dm).
Proof.
  intros H Hs. pose proof (same_keys_sym _ _ Hs) as Hs'. split; simpl.
  - destruct (pi_wf b H). destruct Hs as [Hlen _]. split; simpl; auto.
    congruence.
  - apply (pi_table b H).
  - apply (pi_free b H).
  - intros f page Hin Hp.
    destruct (same_keys_page _ _ _ _ Hs Hp) as (page' & Hp' & <- & <-).
    apply (pi_blank b H f page' Hin Hp').
  - intros f page Hp.
    destruct (same_keys_page _ _ _ _ Hs Hp) as (page' & Hp' & _ & <-).
    apply (pi_pins b H f page' Hp').
  - intros f n page Hn Hfl Hp.
    destruct (same_keys_page _ _ _ _ Hs Hp) as (page' & Hp' & _ & <-).
    apply (pi_flag b H f n page' Hn Hfl Hp').
  - intros k f Hk.
    destruct (pi_resident b H k f Hk) as (Hid & page & n & Hp & Hpid & Hn & Hz).
    split; [assumption|].
    destruct (same_keys_page _ _ _ _ Hs' Hp) as (page' & Hp' & Hi' & Hc').
    exists page', n. rewrite Hi', Hc'. auto.
Qed.

(** The victim of the replacer leaves the replacer and the page table. *)
Lemma evict_inv b f r' old t' :
  pool_inv b -> LRUK.Evict (BPM.replacer_ b) = (Some f, r') ->
  lookupZ (BPM.pages_ b) f = Some old ->
  EHT.map_inv BPM.hash_page_id BPM.is_page_id
    (BPM.in_pool (BPM.pool_size_ b)) 31 t' ->
  (forall k, EHT.Find BPM.hash_page_id k t'
             = if decide (k = BPM.page_id_ old) then None
               else EHT.Find BPM.hash_page_id k (BPM.page_table_ b)) ->
  let b1 := BPM.mkBPM (BPM.pool_size_ b) (BPM.pages_ b) t' r'
              (BPM.free_list_ b) (BPM.next_page_id_ b) (BPM.disk_manager_ b) in
  pool_inv b1 /\ BPM.pin_count_ old = 0 /\ BPM.in_pool (BPM.pool_size_ b) f /\
  (forall k, ~ resident k f b1) /\
  (forall k f', resident k f' b1 <->
                resident k f' b /\ k <> BPM.page_id_ old).
Proof.
  intros H Hev Hold Ht' Hfind b1.
  pose proof (pi_wf b H) as Hwf.
  destruct (LRUK.Evict_spec _ _ _ (BPM.pw_replacer b Hwf) Hev)
    as ((n & Hn & Hfl) & Hgone & Hothers & _).
  destruct (LRUK.tracked_Evict _ _ (BPM.pw_tracked b Hwf)) as (Htr & Hrs & Hvic).
  pose proof (LRUK.wf_Evict _ (BPM.pw_replacer b Hwf)) as Hrw.
  rewrite Hev in Htr, Hrs, Hvic, Hrw. simpl in Htr, Hrs, Hvic, Hrw.
  assert (Hres : forall k f', resident k f' b1 <->
                              resident k f' b /\ k <> BPM.page_id_ old).
  { unfold resident, b1. simpl. intros k f'. rewrite Hfind.
    destruct (decide (k = BPM.page_id_ old)); split;
      [discriminate | tauto | auto | tauto]. }
  assert (Hnot : forall k, ~ resident k f b1).
  { intros k Hk. apply Hres in Hk as [Hk Hne].
    destruct (pi_resident b H k f Hk) as (_ & page & m & Hp & Hpid & _).
    congruence. }
  split; [|split; [|split; [|split]]].
  - split; simpl.
    + destruct Hwf. split; simpl; auto; [apply (EHT.mi_wf _ _ _ _ _ Ht') | congruence].
    + assumption.
    + apply (pi_free b H).
    + apply (pi_blank b H).
    + apply (pi_pins b H).
    + intros g m page Hm. destruct (Z.eq_dec g f) as [->|Hg]; [congruence|].
      rewrite (Hothers g Hg) in Hm. apply (pi_flag b H g m page Hm).
    + intros k f' Hk. pose proof (Hnot k) as Hf'.
      assert (f' <> f) by (intros ->; contradiction).
      apply Hres in Hk as [Hk _].
      destruct (pi_resident b H k f' Hk) as (Hid & page & m & Hp & Hpid & Hm & Hz).
      split; [assumption|]. exists page, m. rewrite (Hothers f') by assumption.
      auto.
  - apply (pi_flag b H f n old Hn Hfl Hold).
  - apply Hvic. reflexivity.
  - assumption.
  - assumption.
Qed.

(** [take_frame] on a pool that satisfies the invariant: the frame it
    hands out had no pin and is afterwards neither free nor the frame
    of a resident page; only the page that was in it has left the page
    table. *)
Lemma take_frame_inv b :
  pool_inv b ->
  exists fo b1,
    BPM.take_frame b = Ret (fo, b1) /\ pool_inv b1 /\
    BPM.pool_size_ b1 = BPM.pool_size_ b /\
    BPM.next_page_id_ b1 = BPM.next_page_id_ b /\
    match fo with
    | None =>
        b1 = b /\ BPM.free_list_ b = [] /\
        LRUK.evictable_count (BPM.replacer_ b) = 0
    | Some f =>
        BPM.in_pool (BPM.pool_size_ b) f /\
        ~ In f (BPM.free_list_ b1) /\
        (forall g, g <> f -> In g (BPM.free_list_ b) -> In g (BPM.free_list_ b1)) /\
        (forall k, ~ resident k f b1) /\
        (forall j, j <> f -> lookupZ (BPM.pages_ b1) j = lookupZ (BPM.pages_ b) j) /\
        exists old,
          lookupZ (BPM.pages_ b) f = Some old /\ BPM.pin_count_ old = 0 /\
          (forall k f', resident k f' b1 <->
                        resident k f' b /\ k <> BPM.page_id_ old) /\
          (BPM.free_list_ b <> [] /\ f = List.last (BPM.free_list_ b) 0 /\
           BPM.free_list_ b1 = removelast (BPM.free_list_ b) /\
           BPM.disk_manager_ b1 = BPM.disk_manager_ b
           \/
           BPM.free_list_ b = [] /\ BPM.free_list_ b1 = [] /\
           fst (LRUK.Evict (BPM.replacer_ b)) = Some f /\
           BPM.disk_manager_ b1 =
             if BPM.is_dirty_ old
             then BPM.WritePage (BPM.page_id_ old) (BPM.data_ old)
                    (BPM.disk_manager_ b)
             else BPM.disk_manager_ b)
    end.
Proof.
  clear fuel_enough.
  intros H. pose proof (pi_wf b H) as Hwf. unfold BPM.take_frame.
  destruct (BPM.free_list_ b) as [|x l] eqn:Hfree.
  - destruct (LRUK.Evict (BPM.replacer_ b)) as [[f|] r'] eqn:Hev.
    + destruct (LRUK.tracked_Evict _ _ (BPM.pw_tracked b Hwf)) as (_ & _ & Hvic).
      rewrite Hev in Hvic. specialize (Hvic f eq_refl).
      destruct (pool_frame_page b f Hwf Hvic) as (Hrange & old & Hold).
      simpl. rewrite Hold. simpl.
      set (ps := if BPM.is_dirty_ old
                 then <[Z.to_nat f := BPM.mkPage (BPM.data_ old) (BPM.page_id_ old)
                                        (BPM.pin_count_ old) false]> (BPM.pages_ b)
                 else BPM.pages_ b).
      set (dm := if BPM.is_dirty_ old
                 then BPM.WritePage (BPM.page_id_ old) (BPM.data_ old)
                        (BPM.disk_manager_ b)
                 else BPM.disk_manager_ b).
      assert (Hps : same_keys ps (BPM.pages_ b)).
      { unfold ps. destruct (BPM.is_dirty_ old).
        - apply (same_keys_insert _ _ old); [assumption | reflexivity].
        - split; reflexivity. }
      assert (Hps_f : exists old',
                 lookupZ ps f = Some old' /\
                 BPM.page_id_ old' = BPM.page_id_ old).
      { unfold ps. destruct (BPM.is_dirty_ old).
        - rewrite lookupZ_insert, Z.eqb_refl by assumption. eauto.
        - eauto. }
      assert (Hps_o : forall j, j <> f -> lookupZ ps j = lookupZ (BPM.pages_ b) j).
      { intros j Hj. unfold ps. destruct (BPM.is_dirty_ old); [|reflexivity].
        rewrite lookupZ_insert by assumption.
        destruct (j =? f) eqn:E; [apply Z.eqb_eq in E; congruence | reflexivity]. }
      pose proof (pool_inv_pages b ps dm H Hps) as H0.
      destruct Hps_f as (old' & Hold' & Hid').
      destruct (EHT.Remove_map BPM.hash_page_id BPM.is_page_id
                  (BPM.in_pool (BPM.pool_size_ b)) 31 (BPM.page_id_ old)
                  (BPM.page_table_ b) (pi_table b H))
        as (t' & Hrm & Ht' & _ & _ & _ & _ & Hfind).
      destruct (evict_inv _ f r' old' t' H0) as (H1 & Hpin & _ & Hnot & Hres);
        [exact Hev | exact Hold' | exact Ht' | rewrite Hid'; exact Hfind |].
      simpl in H1, Hnot, Hres.
      assert (Hstep :
        (let* b2 :=
           (if BPM.is_dirty_ old
            then let* ps0 := storeZ (BPM.pages_ b) f
                               (BPM.mkPage (BPM.data_ old) (BPM.page_id_ old)
                                  (BPM.pin_count_ old) false) in
                 Ret (BPM.set_pages
                        (BPM.set_disk (BPM.set_replacer b r')
                           (BPM.WritePage (BPM.page_id_ old) (BPM.data_ old)
                              (BPM.disk_manager_ b))) ps0)
            else Ret (BPM.set_replacer b r')) in
         let* (_, t) := EHT.Remove BPM.hash_page_id (BPM.page_id_ old)
                           (BPM.page_table_ b2) in
         Ret (Some f, BPM.set_page_table b2 t))
        = Ret (Some f, BPM.mkBPM (BPM.pool_size_ b) ps t' r' [] (BPM.next_page_id_ b) dm)).
      { unfold ps, dm. destruct (BPM.is_dirty_ old).
        - rewrite storeZ_in_range by assumption. simpl. rewrite Hrm. simpl.
          unfold BPM.set_page_table. simpl. rewrite Hfree. reflexivity.
        - simpl. rewrite Hrm. simpl.
          unfold BPM.set_page_table. simpl. rewrite Hfree. reflexivity. }
      simpl in Hstep. rewrite Hstep. clear Hstep.
      rewrite Hfree in H1, Hnot, Hres.
      eexists _, _. split; [reflexivity|]. split; [exact H1|].
      split; [reflexivity|]. split; [reflexivity|].
      split; [exact Hvic|]. split; [simpl; tauto|].
      split; [intros g _ []|]. split; [exact Hnot|].
      split; [exact Hps_o|]. exists old. split; [exact Hold|].
      split; [|split].
      * destruct (same_keys_page _ _ _ _ Hps Hold') as (o & Ho & _ & Hc).
        congruence.
      * intros k f'. rewrite Hres, Hid'. unfold resident. simpl. tauto.
      * right. simpl. auto.
    + eexists _, _. split; [reflexivity|]. split; [exact H|].
      split; [reflexivity|]. split; [reflexivity|]. split; [reflexivity|].
      split; [reflexivity|].
      apply (LRUK.Evict_None_iff _ (BPM.pw_replacer b Hwf)).
      rewrite Hev. reflexivity.
  - rewrite <- Hfree. eexists _, _. split; [reflexivity|].
    assert (Hne : BPM.free_list_ b <> []) by (rewrite Hfree; discriminate).
    pose proof (app_removelast_last 0 Hne) as Hsplit.
    set (f := List.last (BPM.free_list_ b) 0) in *.
    assert (Hin : In f (BPM.free_list_ b))
      by (rewrite Hsplit; apply in_or_app; right; left; reflexivity).
    assert (Hpool : BPM.in_pool (BPM.pool_size_ b) f).
    { pose proof (BPM.pw_free b Hwf) as Hall. rewrite Forall_forall in Hall.
      apply Hall, list_elem_of_In, Hin. }
    destruct (pool_frame_page b f Hwf Hpool) as (Hrange & old & Hold).
    destruct (pi_blank b H f old Hin Hold) as [Hblank Hpin].
    pose proof (pi_free b H) as Hnd. rewrite Hsplit in Hnd.
    assert (Hincl : forall g, In g (removelast (BPM.free_list_ b)) ->
                              In g (BPM.free_list_ b)).
    { intros g Hg. rewrite Hsplit. apply in_or_app. left. exact Hg. }
    assert (Hnotres : forall k, ~ resident k f b).
    { intros k Hk. apply (resident_not_free b k f H Hk Hin). }
    split; [|split; [reflexivity|split; [reflexivity|]]].
    + split; simpl.
      * destruct Hwf. split; simpl; auto.
        rewrite Hsplit in pw_free. apply Forall_app in pw_free. tauto.
      * apply (pi_table b H).
      * apply List.NoDup_app_remove_r in Hnd. exact Hnd.
      * intros g page Hg. apply (pi_blank b H). auto.
      * apply (pi_pins b H).
      * apply (pi_flag b H).
      * apply (pi_resident b H).
    + split; [exact Hpool|].
      split; [|split; [|split; [exact Hnotres|split; [reflexivity|]]]].
      * simpl. intros Hf. apply List.NoDup_remove_2 in Hnd.
        rewrite app_nil_r in Hnd. contradiction.
      * simpl. intros g Hg Hgin. rewrite Hsplit in Hgin.
        apply in_app_or in Hgin as [Hgin|[Hgin|[]]]; [assumption | congruence].
      * exists old. split; [exact Hold|]. split; [exact Hpin|]. split.
        -- intros k f'. unfold resident. simpl. split; [|tauto].
           intros Hk. split; [exact Hk|].
           destruct (pi_resident b H k f' Hk) as (Hid & _).
           unfold BPM.is_page_id, BPM.INVALID_PAGE_ID in *. lia.
        -- left. simpl. auto.
Qed.

Lemma pin_frame_maps f r r1 r2 :
  LRUK.RecordAccess f r = Ret r1 -> LRUK.SetEvictable f false r1 = Ret r2 ->
  (exists m, LRUK.map_ r2 f = Some m /\ LRUK.evictable_ m = false) /\
  (forall g, g <> f -> LRUK.map_ r2 g = LRUK.map_ r g).
Proof.
  clear fuel_enough.
  intros H1 H2.
  destruct (LRUK.RecordAccess_spec f r r1 H1) as (Hm1 & Hg1 & _).
  destruct (LRUK.SetEvictable_flag f false r1 r2 _ H2 Hm1) as (m & Hm & Hfl & _).
  destruct (LRUK.SetEvictable_others f false r1 r2 H2) as [Hg2 _].
  split; [exists m; auto|].
  intros g Hg. rewrite (Hg2 g Hg). apply Hg1. assumption.
Qed.

Lemma install_table f p d (b b' : BPM.BufferPoolManagerInstance D) :
  BPM.install fuel f p d b = Ret b' ->
  EHT.Insert BPM.hash_page_id fuel p f (BPM.page_table_ b)
    = Ret (BPM.page_table_ b').
Proof.
  unfold BPM.install. intros H.
  bind_inv H. simpl in H. bind_inv H. simpl in H.
  bind_inv H. bind_inv H. injection H as <-. simpl. assumption.
Qed.

(** [install] puts the page into a frame that is neither free nor the
    frame of a resident page. *)
Lemma install_inv f p d b :
  pool_inv b -> BPM.in_pool (BPM.pool_size_ b) f -> BPM.is_page_id p ->
  ~ In f (BPM.free_list_ b) -> (forall k, ~ resident k f b) ->
  exists b',
    BPM.install fuel f p d b = Ret b' /\ pool_inv b' /\
    BPM.pool_size_ b' = BPM.pool_size_ b /\
    BPM.next_page_id_ b' = BPM.next_page_id_ b /\
    BPM.free_list_ b' = BPM.free_list_ b /\
    BPM.disk_manager_ b' = BPM.disk_manager_ b /\
    lookupZ (BPM.pages_ b') f = Some (BPM.mkPage d p 1 false) /\
    (forall j, j <> f -> lookupZ (BPM.pages_ b') j = lookupZ (BPM.pages_ b) j) /\
    (forall k f', resident k f' b' <->
                  if decide (k = p) then f' = f else resident k f' b).
Proof.
  intros H Hf Hp Hfree Hnot. pose proof (pi_wf b H) as Hwf.
  destruct (BPM.install_total fuel f p d b Hwf Hf Hp fuel_enough)
    as (b' & Hinst & Hwf' & Hsz & Hnx).
  pose proof (install_table f p d b b' Hinst) as Hins.
  destruct (BPM.install_Ret fuel f p d b b' Hinst)
    as (Hpage & Hother & _ & (r1 & Hr1 & Hr2) & Hdisk & Hfl & _).
  destruct (pin_frame_maps f _ r1 _ Hr1 Hr2) as ((m & Hm & Hmf) & Hmo).
  destruct (EHT.Insert_map BPM.hash_page_id BPM.is_page_id
              (BPM.in_pool (BPM.pool_size_ b)) 31
              BPM.hash_page_id_range BPM.hash_page_id_inj fuel p f
              (BPM.page_table_ b) (pi_table b H) Hp Hf ltac:(lia))
    as (t' & Hins' & Ht' & _ & _ & _ & Hfind).
  rewrite Hins in Hins'. injection Hins' as <-.
  assert (Hres : forall k f', resident k f' b' <->
                              if decide (k = p) then f' = f else resident k f' b).
  { intros k f'. unfold resident. rewrite Hfind.
    destruct (decide (k = p)); [|tauto].
    split; [intros [= <-]; reflexivity | intros ->; reflexivity]. }
  exists b'. split; [assumption|].
  split; [|repeat split; try assumption; apply Hres].
  split.
  - assumption.
  - rewrite Hsz. assumption.
  - rewrite Hfl. apply (pi_free b H).
  - intros g page. rewrite Hfl. intros Hg.
    assert (g <> f) by (intros ->; contradiction).
    rewrite Hother by assumption. apply (pi_blank b H g page Hg).
  - intros g page. destruct (Z.eq_dec g f) as [->|Hg].
    + rewrite Hpage. intros [= <-]. simpl. lia.
    + rewrite Hother by assumption. apply (pi_pins b H).
  - intros g n page. destruct (Z.eq_dec g f) as [->|Hg].
    + rewrite Hm. intros [= <-]. congruence.
    + rewrite Hmo, Hother by assumption. apply (pi_flag b H).
  - intros k f' Hk. apply Hres in Hk.
    destruct (decide (k = p)) as [->|Hne].
    + subst f'. split; [assumption|]. exists (BPM.mkPage d p 1 false), m.
      split; [assumption|]. split; [reflexivity|]. split; [assumption|].
      simpl. lia.
    + assert (f' <> f) by (intros ->; apply (Hnot k); assumption).
      destruct (pi_resident b H k f' Hk) as (Hid & page & n & Hpg & Hpid & Hn & Hz).
      split; [assumption|]. exists page, n.
      rewrite Hother, Hmo by assumption. auto.
Qed.

(** Every frame is in the free list or the frame of the page it
    holds, and the resident pages are pages [NewPgImp] has handed
    out. *)
Definition frames_resident (b : BPM.BufferPoolManagerInstance D) : Prop :=
  forall f page,
    lookupZ (BPM.pages_ b) f = Some page ->
    In f (BPM.free_list_ b) \/ resident (BPM.page_id_ page) f b.

Definition allocated (b : BPM.BufferPoolManagerInstance D) : Prop :=
  forall k f, resident k f b -> k < BPM.next_page_id_ b.

Record pool_consistent (b : BPM.BufferPoolManagerInstance D) : Prop :=
  mk_pool_consistent {
  pc_inv : pool_inv b;
  pc_frames : frames_resident b;
  pc_alloc : allocated b
}.

Lemma pool_consistent_new pool_size replacer_k :
  0 <= pool_size < 2 ^ 31 ->
  pool_consistent (BPM.new_bpm zero pool_size replacer_k).
Proof.
  clear fuel_enough.
  intros Hs. split.
  - apply pool_inv_new. assumption.
  - intros f page Hp. left. simpl in *.
    apply lookupZ_Some_range in Hp. rewrite repeat_length in Hp.
    apply EHT.In_iota. lia.
  - intros k f Hk. unfold resident in Hk. simpl in Hk.
    rewrite EHT.Find_new in Hk. discriminate.
Qed.

Lemma pool_inv_next b n :
  pool_inv b -> 0 <= n -> pool_inv (BPM.set_next_page_id b n).
Proof.
  intros H Hn. split; simpl; try apply H.
  destruct (pi_wf b H). split; simpl; auto.
Qed.

(** A page loaded into the frame [take_frame] handed out. *)
Lemma load_consistent b b1 b' f p d old :
  pool_consistent b -> pool_inv b' ->
  lookupZ (BPM.pages_ b) f = Some old ->
  (forall k f', resident k f' b1 <-> resident k f' b /\ k <> BPM.page_id_ old) ->
  (forall j, j <> f -> lookupZ (BPM.pages_ b1) j = lookupZ (BPM.pages_ b) j) ->
  lookupZ (BPM.pages_ b') f = Some (BPM.mkPage d p 1 false) ->
  (forall j, j <> f -> lookupZ (BPM.pages_ b') j = lookupZ (BPM.pages_ b1) j) ->
  (forall k f', resident k f' b' <->
                if decide (k = p) then f' = f else resident k f' b1) ->
  (forall f', ~ resident p f' b) ->
  (forall g, g <> f -> In g (BPM.free_list_ b) -> In g (BPM.free_list_ b')) ->
  BPM.next_page_id_ b <= BPM.next_page_id_ b' -> p < BPM.next_page_id_ b' ->
  pool_consistent b' /\
  (forall k f', f' <> f -> (resident k f' b' <-> resident k f' b)).
Proof.
  clear fuel_enough.
  intros H H' Hold Hres1 Hpg1 Hpage' Hpg' Hres' Hnotp Hfree Hnext Hp.
  assert (HA : forall k f', f' <> f -> resident k f' b -> k <> BPM.page_id_ old).
  { intros k f' Hf' Hk ->.
    destruct (pc_frames b H f old Hold) as [Hb|Hr].
    - destruct (pi_blank b (pc_inv b H) f old Hb Hold) as [Hblank _].
      destruct (pi_resident b (pc_inv b H) _ f' Hk) as (Hid & _).
      unfold BPM.is_page_id, BPM.INVALID_PAGE_ID in *. lia.
    - unfold resident in *. congruence. }
  assert (HB : forall k f', f' <> f -> (resident k f' b' <-> resident k f' b)).
  { intros k f' Hf'. rewrite Hres'. destruct (decide (k = p)) as [->|Hk].
    - split; [contradiction | intros Hr; destruct (Hnotp f' Hr)].
    - rewrite Hres1. split; [tauto|]. intros Hr. split; [assumption|].
      apply (HA k f'); assumption. }
  split; [|exact HB]. split; [assumption| |].
  - intros j page. destruct (Z.eq_dec j f) as [->|Hj].
    + rewrite Hpage'. intros [= <-]. right. simpl. apply Hres'.
      destruct (decide (p = p)); [reflexivity | congruence].
    + rewrite Hpg', Hpg1 by assumption. intros Hpage.
      destruct (pc_frames b H j page Hpage) as [Hb|Hr]; [left; auto|].
      right. apply HB; assumption.
  - intros k f' Hk. apply Hres' in Hk. destruct (decide (k = p)) as [->|Hne];
      [assumption|].
    apply Hres1 in Hk as [Hk _]. pose proof (pc_alloc b H k f' Hk). lia.
Qed.

Lemma new_page_step b :
  pool_consistent b -> BPM.next_page_id_ b < 2 ^ 31 ->
  exists res b',
    BPM.NewPgImp zero fuel b = Ret (res, b') /\ pool_consistent b' /\
    BPM.pool_size_ b' = BPM.pool_size_ b /\
    match res with
    | None =>
        b' = b /\ BPM.free_list_ b = [] /\
        LRUK.evictable_count (BPM.replacer_ b) = 0
    | Some (id, f) =>
        id = BPM.next_page_id_ b /\ BPM.next_page_id_ b' = id + 1 /\
        (exists old, lookupZ (BPM.pages_ b) f = Some old /\
                     BPM.pin_count_ old = 0) /\
        lookupZ (BPM.pages_ b') f = Some (BPM.mkPage zero id 1 false) /\
        (forall j, j <> f ->
                   lookupZ (BPM.pages_ b') j = lookupZ (BPM.pages_ b) j) /\
        resident id f b' /\
        (forall k f', f' <> f -> (resident k f' b' <-> resident k f' b))
    end.
Proof.
  intros H Hnext. pose proof (pc_inv b H) as Hinv. unfold BPM.NewPgImp.
  destruct (take_frame_inv b Hinv) as (fo & b1 & Htake & H1 & Hsz & Hnx & Hpost).
  rewrite Htake. simpl. destruct fo as [f|].
  - destruct Hpost
      as (Hf & Hfree & Hkeep & Hnot & Hpg1 & old & Hold & Hpin & Hres1 & _).
    pose proof (BPM.pw_next b (pi_wf b Hinv)) as Hn0.
    assert (H1' : pool_inv (BPM.set_next_page_id b1 (BPM.next_page_id_ b1 + 1)))
      by (apply pool_inv_next; [assumption | lia]).
    destruct (install_inv f (BPM.next_page_id_ b1) zero _ H1')
      as (b' & Hinst & H' & Hsz' & Hnx' & Hfl' & _ & Hpage' & Hpg' & Hres');
      [simpl; rewrite Hsz; assumption | unfold BPM.is_page_id; lia
       | exact Hfree | exact Hnot |].
    rewrite Hinst. simpl. simpl in Hnx', Hsz', Hpg', Hfl'.
    destruct (load_consistent b b1 b' f (BPM.next_page_id_ b1) zero old
                H H' Hold Hres1 Hpg1 Hpage' Hpg' Hres') as [Hc HB].
    + intros f' Hr. pose proof (pc_alloc b H _ f' Hr). lia.
    + rewrite Hfl'. exact Hkeep.
    + lia.
    + lia.
    + eexists _, _. split; [reflexivity|]. split; [assumption|].
      split; [congruence|]. split; [congruence|]. split; [lia|].
      split; [eauto|]. split; [assumption|].
      split; [intros j Hj; rewrite Hpg', Hpg1 by assumption; reflexivity|].
      split; [|exact HB]. apply Hres'.
      destruct (decide (BPM.next_page_id_ b1 = BPM.next_page_id_ b1));
        [reflexivity | congruence].
  - destruct Hpost as (-> & Hfree & Hev).
    eexists _, _. split; [reflexivity|]. split; [assumption|].
    split; [reflexivity|]. auto.
Qed.

Lemma fetch_page_step p b :
  pool_consistent b -> 0 <= p < BPM.next_page_id_ b ->
  BPM.next_page_id_ b <= 2 ^ 31 ->
  exists fo b',
    BPM.FetchPgImp zero fuel p b = Ret (fo, b') /\ pool_consistent b' /\
    BPM.pool_size_ b' = BPM.pool_size_ b /\
    BPM.next_page_id_ b' = BPM.next_page_id_ b /\
    match fo with
    | None =>
        b' = b /\ (forall f, ~ resident p f b) /\ BPM.free_list_ b = [] /\
        LRUK.evictable_count (BPM.replacer_ b) = 0
    | Some f =>
        resident p f b' /\
        (forall j, j <> f ->
                   lookupZ (BPM.pages_ b') j = lookupZ (BPM.pages_ b) j) /\
        (forall k f', f' <> f -> (resident k f' b' <-> resident k f' b)) /\
        exists page,
          lookupZ (BPM.pages_ b) f = Some page /\
          match EHT.Find BPM.hash_page_id p (BPM.page_table_ b) with
          | Some f0 =>
              f = f0 /\
              lookupZ (BPM.pages_ b') f
              = Some (BPM.mkPage (BPM.data_ page) p (BPM.pin_count_ page + 1)
                        (BPM.is_dirty_ page)) /\
              BPM.page_table_ b' = BPM.page_table_ b /\
              BPM.free_list_ b' = BPM.free_list_ b /\
              BPM.disk_manager_ b' = BPM.disk_manager_ b
          | None =>
              BPM.pin_count_ page = 0 /\
              lookupZ (BPM.pages_ b') f
              = Some (BPM.mkPage (BPM.ReadPage zero p (BPM.disk_manager_ b'))
                        p 1 false)
          end
    end.
Proof.
  intros H Hp Hnext. pose proof (pc_inv b H) as Hinv.
  pose proof (pi_wf b Hinv) as Hwf.
  assert (Hid : BPM.is_page_id p) by (unfold BPM.is_page_id; lia).
  unfold BPM.FetchPgImp.
  destruct (EHT.Find BPM.hash_page_id p (BPM.page_table_ b)) as [f|] eqn:Hfind.
  - destruct (pi_resident b Hinv p f Hfind) as (_ & page & n & Hpage & Hpid & Hn & _).
    pose proof (EHT.Find_ran _ _ _ _ _ _ _ (BPM.pw_table b Hwf) Hfind) as Hf.
    destruct (pool_frame_page b f Hwf Hf) as (Hrange & _).
    destruct (pin_frame_spec (BPM.pool_size_ b) f (BPM.replacer_ b)
                (BPM.pw_size b Hwf) Hf (BPM.pw_replacer b Hwf)
                (BPM.pw_rsize b Hwf) (BPM.pw_tracked b Hwf))
      as (r1 & r2 & Hr1 & Hr2 & (m & Hm & Hmf) & Hmo).
    destruct (BPM.FetchPgImp_total zero fuel p b Hwf Hid fuel_enough)
      as (fo & b' & Hret & Hwf').
    revert Hret. unfold BPM.FetchPgImp. rewrite Hfind, Hpage. simpl.
    rewrite storeZ_in_range by assumption. simpl. rewrite Hr1. simpl.
    rewrite Hr2. simpl. intros Hret. eexists _, _. split; [reflexivity|].
    injection Hret as <- <-.
    assert (Hpages : forall j,
               lookupZ (BPM.pages_
                          (BPM.set_replacer
                             (BPM.set_pages b
                                (<[Z.to_nat f :=
                                     BPM.mkPage (BPM.data_ page) (BPM.page_id_ page)
                                       (BPM.pin_count_ page + 1) (BPM.is_dirty_ page)]>
                                   (BPM.pages_ b))) r2)) j
               = if j =? f
                 then Some (BPM.mkPage (BPM.data_ page) (BPM.page_id_ page)
                              (BPM.pin_count_ page + 1) (BPM.is_dirty_ page))
                 else lookupZ (BPM.pages_ b) j).
    { intros j. simpl. apply lookupZ_insert. assumption. }
    set (b' := BPM.set_replacer _ r2) in *.
    assert (Hother : forall j, j <> f ->
                               lookupZ (BPM.pages_ b') j = lookupZ (BPM.pages_ b) j).
    { intros j Hj. rewrite Hpages.
      destruct (j =? f) eqn:E; [apply Z.eqb_eq in E; congruence | reflexivity]. }
    assert (Hthis : lookupZ (BPM.pages_ b') f
                    = Some (BPM.mkPage (BPM.data_ page) p
                              (BPM.pin_count_ page + 1) (BPM.is_dirty_ page))).
    { rewrite Hpages, Z.eqb_refl, Hpid. reflexivity. }
    assert (Hres : forall k f', resident k f' b' <-> resident k f' b)
      by (intros k f'; unfold resident; simpl; tauto).
    pose proof (pi_pins b Hinv f page Hpage) as Hpin.
    split; [|split; [reflexivity | split; [reflexivity|]]].
    + split; [split|..].
      * assumption.
      * apply (pi_table b Hinv).
      * apply (pi_free b Hinv).
      * intros g pg Hg. change (BPM.free_list_ b') with (BPM.free_list_ b) in Hg.
        assert (g <> f)
          by (intros ->; apply (resident_not_free b p f Hinv Hfind Hg)).
        rewrite Hother by assumption. apply (pi_blank b Hinv g pg Hg).
      * intros g pg. destruct (Z.eq_dec g f) as [->|Hg].
        -- rewrite Hthis. intros [= <-]. simpl. lia.
        -- rewrite Hother by assumption. apply (pi_pins b Hinv).
      * intros g n0 pg. change (BPM.replacer_ b') with r2.
        destruct (Z.eq_dec g f) as [->|Hg].
        -- rewrite Hm. intros [= <-]. congruence.
        -- rewrite Hmo, Hother by assumption. apply (pi_flag b Hinv).
      * intros k f' Hk. apply Hres in Hk. change (BPM.replacer_ b') with r2.
        destruct (pi_resident b Hinv k f' Hk)
          as (Hidk & pg & n0 & Hpg & Hpidk & Hn0 & Hz).
        split; [assumption|]. destruct (Z.eq_dec f' f) as [->|Hf'].
        -- eexists _, m. split; [exact Hthis|]. simpl.
           split; [congruence|]. split; [assumption | lia].
        -- exists pg, n0. rewrite Hother, Hmo by assumption. auto.
      * intros j pg. destruct (Z.eq_dec j f) as [->|Hj].
        -- rewrite Hthis. intros [= <-]. right. simpl. apply Hres. exact Hfind.
        -- rewrite Hother by assumption. intros Hpg.
           destruct (pc_frames b H j pg Hpg); [left | right; apply Hres]; assumption.
      * intros k f' Hk. apply Hres in Hk. apply (pc_alloc b H k f' Hk).
    + split; [apply Hres; exact Hfind|]. split; [exact Hother|].
      split; [intros k f' _; apply Hres|].
      exists page. split; [assumption|]. repeat split; assumption.
  - destruct (take_frame_inv b Hinv) as (fo & b1 & Htake & H1 & Hsz & Hnx & Hpost).
    rewrite Htake. simpl. destruct fo as [f|].
    + destruct Hpost
        as (Hf & Hfree & Hkeep & Hnot & Hpg1 & old & Hold & Hpin & Hres1 & _).
      destruct (install_inv f p (BPM.ReadPage zero p (BPM.disk_manager_ b1)) b1 H1)
        as (b' & Hinst & H' & Hsz' & Hnx' & Hfl' & Hdisk & Hpage' & Hpg' & Hres');
        [rewrite Hsz; assumption | assumption | exact Hfree | exact Hnot |].
      rewrite Hinst. simpl.
      destruct (load_consistent b b1 b' f p _ old
                  H H' Hold Hres1 Hpg1 Hpage' Hpg' Hres') as [Hc HB].
      * intros f' Hr. unfold resident in Hr. congruence.
      * rewrite Hfl'. exact Hkeep.
      * lia.
      * lia.
      * eexists _, _. split; [reflexivity|]. split; [assumption|].
        split; [congruence|]. split; [congruence|].
        split; [apply Hres'; destruct (decide (p = p)); [reflexivity | congruence]|].
        split; [intros j Hj; rewrite Hpg', Hpg1 by assumption; reflexivity|].
        split; [exact HB|]. exists old. split; [assumption|].
        split; [assumption|]. rewrite Hdisk. assumption.
    + destruct Hpost as (-> & Hfree & Hev).
      eexists _, _. split; [reflexivity|]. split; [assumption|].
      split; [reflexivity|]. split; [reflexivity|]. split; [reflexivity|].
      split; [|auto]. intros f Hr. unfold resident in Hr. congruence.
Qed.

Lemma unpin_page_step p dirty b :
  pool_consistent b ->
  exists ok b',
    BPM.UnpinPgImp p dirty b = Ret (ok, b') /\ pool_consistent b' /\
    BPM.pool_size_ b' = BPM.pool_size_ b /\
    BPM.next_page_id_ b' = BPM.next_page_id_ b /\
    BPM.page_table_ b' = BPM.page_table_ b /\
    BPM.free_list_ b' = BPM.free_list_ b /\
    BPM.disk_manager_ b' = BPM.disk_manager_ b /\
    match EHT.Find BPM.hash_page_id p (BPM.page_table_ b) with
    | None => ok = false /\ b' = b
    | Some f =>
        exists page,
          lookupZ (BPM.pages_ b) f = Some page /\
          if BPM.pin_count_ page =? 0 then ok = false /\ b' = b
          else
            ok = true /\
            lookupZ (BPM.pages_ b') f
            = Some (BPM.mkPage (BPM.data_ page) p (BPM.pin_count_ page - 1)
                      (if dirty then true else BPM.is_dirty_ page)) /\
            (forall j, j <> f ->
                       lookupZ (BPM.pages_ b') j = lookupZ (BPM.pages_ b) j) /\
            (forall g, g <> f -> LRUK.map_ (BPM.replacer_ b') g
                                 = LRUK.map_ (BPM.replacer_ b) g) /\
            (BPM.pin_count_ page = 1 ->
             exists n, LRUK.map_ (BPM.replacer_ b') f = Some n /\
                       LRUK.evictable_ n = true)
    end.
Proof.
  clear fuel_enough.
  intros H. pose proof (pc_inv b H) as Hinv. pose proof (pi_wf b Hinv) as Hwf.
  destruct (BPM.UnpinPgImp_total p dirty b Hwf) as (ok & b' & Hret & Hwf').
  exists ok, b'. split; [assumption|]. revert Hret. unfold BPM.UnpinPgImp.
  destruct (EHT.Find BPM.hash_page_id p (BPM.page_table_ b)) as [f|] eqn:Hfind;
    [|intros [= <- <-]; split; [exact H|]; repeat split; reflexivity].
  destruct (pi_resident b Hinv p f Hfind) as (_ & page & n & Hpage & Hpid & Hn & Hz).
  pose proof (pi_pins b Hinv f page Hpage) as Hpin.
  pose proof (EHT.Find_ran _ _ _ _ _ _ _ (BPM.pw_table b Hwf) Hfind) as Hf.
  destruct (pool_frame_page b f Hwf Hf) as (Hrange & _).
  rewrite Hpage. simpl.
  destruct (BPM.pin_count_ page <=? 0) eqn:Ele.
  { apply Z.leb_le in Ele. intros [= <- <-].
    split; [assumption|]. repeat split; try reflexivity.
    exists page. split; [first [assumption | reflexivity]|].
    replace (BPM.pin_count_ page =? 0) with true
      by (symmetry; apply Z.eqb_eq; lia). auto. }
  apply Z.leb_gt in Ele.
  assert (Hr : exists r,
             (if BPM.pin_count_ page - 1 =? 0
              then LRUK.SetEvictable f true (BPM.replacer_ b)
              else Ret (BPM.replacer_ b)) = Ret r /\
             (forall g, g <> f -> LRUK.map_ r g = LRUK.map_ (BPM.replacer_ b) g) /\
             exists m, LRUK.map_ r f = Some m /\
                       LRUK.evictable_ m
                       = if BPM.pin_count_ page - 1 =? 0 then true
                         else LRUK.evictable_ n).
  { destruct (BPM.pin_count_ page - 1 =? 0).
    - destruct (BPM.in_pool_frame b f Hwf Hf) as (_ & Hvalid & _).
      destruct (LRUK.SetEvictable_returns f true _ Hvalid) as [r Hr].
      destruct (LRUK.SetEvictable_flag f true _ r n Hr Hn) as (m & Hm & Hfl & _).
      destruct (LRUK.SetEvictable_others f true _ r Hr) as [Hg _].
      exists r. split; [assumption|]. split; [assumption|]. eauto.
    - exists (BPM.replacer_ b). split; [reflexivity|]. split; [reflexivity|].
      eauto. }
  destruct Hr as (r & Hr & Hmo & m & Hm & Hmf). rewrite Hr. simpl.
  rewrite storeZ_in_range by assumption. simpl. intros [= <- <-].
  set (page' := BPM.mkPage (BPM.data_ page) (BPM.page_id_ page)
                  (BPM.pin_count_ page - 1)
                  (if dirty then true else BPM.is_dirty_ page)) in *.
  set (b' := BPM.set_replacer _ r) in *.
  assert (Hpages : forall j, lookupZ (BPM.pages_ b') j
                             = if j =? f then Some page'
                               else lookupZ (BPM.pages_ b) j).
  { intros j. simpl. apply lookupZ_insert. assumption. }
  assert (Hother : forall j, j <> f ->
                             lookupZ (BPM.pages_ b') j = lookupZ (BPM.pages_ b) j).
  { intros j Hj. rewrite Hpages.
    destruct (j =? f) eqn:E; [apply Z.eqb_eq in E; congruence | reflexivity]. }
  assert (Hthis : lookupZ (BPM.pages_ b') f = Some page')
    by (rewrite Hpages, Z.eqb_refl; reflexivity).
  assert (Hres : forall k f', resident k f' b' <-> resident k f' b)
    by (intros k f'; unfold resident; simpl; tauto).
  split; [|repeat split; try reflexivity].
  - split; [split|..].
    + assumption.
    + apply (pi_table b Hinv).
    + apply (pi_free b Hinv).
    + intros g pg Hg. change (BPM.free_list_ b') with (BPM.free_list_ b) in Hg.
      assert (g <> f)
        by (intros ->; apply (resident_not_free b p f Hinv Hfind Hg)).
      rewrite Hother by assumption. apply (pi_blank b Hinv g pg Hg).
    + intros g pg. destruct (Z.eq_dec g f) as [->|Hg].
      * rewrite Hthis. intros [= <-]. simpl. lia.
      * rewrite Hother by assumption. apply (pi_pins b Hinv).
    + intros g n0 pg. change (BPM.replacer_ b') with r.
      destruct (Z.eq_dec g f) as [->|Hg].
      * rewrite Hm, Hthis. intros [= <-] Hfl [= <-]. simpl.
        rewrite Hmf in Hfl.
        destruct (BPM.pin_count_ page - 1 =? 0) eqn:E;
          [apply Z.eqb_eq in E; assumption|].
        pose proof (pi_flag b Hinv f n page Hn Hfl Hpage). lia.
      * rewrite Hmo, Hother by assumption. apply (pi_flag b Hinv).
    + intros k f' Hk. apply Hres in Hk. change (BPM.replacer_ b') with r.
      destruct (pi_resident b Hinv k f' Hk)
        as (Hidk & pg & n0 & Hpg & Hpidk & Hn0 & Hz0).
      split; [assumption|]. destruct (Z.eq_dec f' f) as [->|Hf'].
      * exists page', m. split; [exact Hthis|]. simpl.
        split; [congruence|]. split; [assumption|]. intros Hzero.
        rewrite Hmf. apply Z.eqb_eq in Hzero. rewrite Hzero. reflexivity.
      * exists pg, n0. rewrite Hother, Hmo by assumption. auto.
    + intros j pg. destruct (Z.eq_dec j f) as [->|Hj].
      * rewrite Hthis. intros [= <-]. right. simpl. rewrite Hpid.
        apply Hres. exact Hfind.
      * rewrite Hother by assumption. intros Hpg.
        destruct (pc_frames b H j pg Hpg); [left | right; apply Hres]; assumption.
    + intros k f' Hk. apply Hres in Hk. apply (pc_alloc b H k f' Hk).
  - exists page. split; [first [assumption | reflexivity]|].
    destruct (BPM.pin_count_ page =? 0) eqn:E0; [apply Z.eqb_eq in E0; lia|].
    split; [reflexivity|]. split; [rewrite Hthis; unfold page'; congruence|].
    split; [exact Hother|]. split; [exact Hmo|].
    intros H1. exists m. split; [assumption|]. rewrite Hmf.
    replace (BPM.pin_count_ page - 1 =? 0) with true
      by (symmetry; apply Z.eqb_eq; lia). reflexivity.
Qed.

Lemma flush_page_step p b :
  pool_consistent b ->
  exists ok b',
    BPM.FlushPgImp p b = Ret (ok, b') /\ pool_consistent b' /\
    BPM.pool_size_ b' = BPM.pool_size_ b /\
    BPM.next_page_id_ b' = BPM.next_page_id_ b /\
    BPM.page_table_ b' = BPM.page_table_ b /\
    BPM.free_list_ b' = BPM.free_list_ b /\
    BPM.replacer_ b' = BPM.replacer_ b /\
    match EHT.Find BPM.hash_page_id p (BPM.page_table_ b) with
    | None => ok = false /\ b' = b
    | Some f =>
        exists page,
          lookupZ (BPM.pages_ b) f = Some page /\ ok = true /\
          lookupZ (BPM.pages_ b') f
          = Some (BPM.mkPage (BPM.data_ page) p (BPM.pin_count_ page) false) /\
          (forall j, j <> f ->
                     lookupZ (BPM.pages_ b') j = lookupZ (BPM.pages_ b) j) /\
          BPM.disk_manager_ b'
          = BPM.WritePage p (BPM.data_ page) (BPM.disk_manager_ b)
    end.
Proof.
  intros H. pose proof (pc_inv b H) as Hinv. pose proof (pi_wf b Hinv) as Hwf.
  unfold BPM.FlushPgImp.
  destruct (EHT.Find BPM.hash_page_id p (BPM.page_table_ b)) as [f|] eqn:Hfind;
    [|eexists _, _; split; [reflexivity|]; split; [exact H|];
      repeat split; reflexivity].
  destruct (pi_resident b Hinv p f Hfind) as (_ & page & n & Hpage & Hpid & Hn & Hz).
  pose proof (EHT.Find_ran _ _ _ _ _ _ _ (BPM.pw_table b Hwf) Hfind) as Hf.
  destruct (pool_frame_page b f Hwf Hf) as (Hrange & _).
  rewrite Hpage. simpl. rewrite storeZ_in_range by assumption. simpl.
  eexists _, _. split; [reflexivity|].
  set (page' := BPM.mkPage (BPM.data_ page) (BPM.page_id_ page)
                  (BPM.pin_count_ page) false).
  assert (Hs : same_keys (<[Z.to_nat f := page']> (BPM.pages_ b)) (BPM.pages_ b))
    by (apply (same_keys_insert _ _ page); [assumption | reflexivity]).
  assert (Hpages : forall j,
             lookupZ (<[Z.to_nat f := page']> (BPM.pages_ b)) j
             = if j =? f then Some page' else lookupZ (BPM.pages_ b) j)
    by (intros j; apply lookupZ_insert; assumption).
  split; [|repeat split; try reflexivity].
  - split.
    + apply (pool_inv_pages b _ _ Hinv Hs).
    + intros j pg. simpl. intros Hpg.
      destruct (same_keys_page _ _ _ _ Hs Hpg) as (pg0 & Hpg0 & Hi & _).
      rewrite <- Hi.
      destruct (pc_frames b H j pg0 Hpg0); [left | right]; assumption.
    + apply (pc_alloc b H).
  - exists page. split; [first [assumption | reflexivity]|]. split; [reflexivity|]. simpl.
    split; [rewrite Hpages, Z.eqb_refl; unfold page'; congruence|].
    split; [|reflexivity]. intros j Hj. rewrite Hpages.
    destruct (j =? f) eqn:E; [apply Z.eqb_eq in E; congruence | reflexivity].
Qed.

Lemma delete_page_step p b :
  pool_consistent b ->
  exists ok b',
    BPM.DeletePgImp zero p b = Ret (ok, b') /\ pool_consistent b' /\
    BPM.pool_size_ b' = BPM.pool_size_ b /\
    BPM.next_page_id_ b' = BPM.next_page_id_ b /\
    BPM.disk_manager_ b' = BPM.disk_manager_ b /\
    match EHT.Find BPM.hash_page_id p (BPM.page_table_ b) with
    | None => ok = true /\ b' = b
    | Some f =>
        exists page,
          lookupZ (BPM.pages_ b) f = Some page /\
          if BPM.pin_count_ page =? 0
          then
            ok = true /\
            (forall k f', resident k f' b' <-> resident k f' b /\ k <> p) /\
            BPM.free_list_ b' = BPM.free_list_ b ++ [f] /\
            lookupZ (BPM.pages_ b') f = Some (BPM.blank_page zero) /\
            (forall j, j <> f ->
                       lookupZ (BPM.pages_ b') j = lookupZ (BPM.pages_ b) j) /\
            LRUK.map_ (BPM.replacer_ b') f = None /\
            (forall g, g <> f -> LRUK.map_ (BPM.replacer_ b') g
                                 = LRUK.map_ (BPM.replacer_ b) g)
          else ok = false /\ b' = b
    end.
Proof.
  clear fuel_enough.
  intros H. pose proof (pc_inv b H) as Hinv. pose proof (pi_wf b Hinv) as Hwf.
  destruct (BPM.DeletePgImp_total zero p b Hwf) as (ok & b' & Hret & Hwf').
  exists ok, b'. split; [assumption|]. revert Hret. unfold BPM.DeletePgImp.
  destruct (EHT.Find BPM.hash_page_id p (BPM.page_table_ b)) as [f|] eqn:Hfind;
    [|intros [= <- <-]; split; [exact H|]; repeat split; reflexivity].
  destruct (pi_resident b Hinv p f Hfind) as (_ & page & n & Hpage & Hpid & Hn & Hz).
  pose proof (EHT.Find_ran _ _ _ _ _ _ _ (BPM.pw_table b Hwf) Hfind) as Hf.
  destruct (pool_frame_page b f Hwf Hf) as (Hrange & _).
  rewrite Hpage. simpl.
  destruct (BPM.pin_count_ page =? 0) eqn:Epin; simpl.
  2:{ intros [= <- <-]. split; [exact H|]. repeat split; try reflexivity.
      exists page. rewrite Epin. auto. }
  apply Z.eqb_eq in Epin.
  destruct (EHT.Remove_map BPM.hash_page_id BPM.is_page_id
              (BPM.in_pool (BPM.pool_size_ b)) 31 p
              (BPM.page_table_ b) (pi_table b Hinv))
    as (t' & Hrm & Ht' & _ & _ & _ & _ & Hfind').
  rewrite Hrm. simpl. rewrite storeZ_in_range by assumption. simpl.
  intros [= <- <-].
  pose proof (LRUK.Remove_spec f _ (BPM.pw_replacer b Hwf)) as Hrem.
  rewrite Hn, (Hz Epin) in Hrem. destruct Hrem as (Hgone & Hmo & _).
  set (b' := BPM.set_pages _ _) in *.
  assert (Hpages : forall j, lookupZ (BPM.pages_ b') j
                             = if j =? f then Some (BPM.blank_page zero)
                               else lookupZ (BPM.pages_ b) j).
  { intros j. simpl. apply lookupZ_insert. assumption. }
  assert (Hother : forall j, j <> f ->
                             lookupZ (BPM.pages_ b') j = lookupZ (BPM.pages_ b) j).
  { intros j Hj. rewrite Hpages.
    destruct (j =? f) eqn:E; [apply Z.eqb_eq in E; congruence | reflexivity]. }
  assert (Hthis : lookupZ (BPM.pages_ b') f = Some (BPM.blank_page zero))
    by (rewrite Hpages, Z.eqb_refl; reflexivity).
  assert (Hres : forall k f', resident k f' b' <-> resident k f' b /\ k <> p).
  { intros k f'. unfold resident. simpl. rewrite Hfind'.
    destruct (decide (k = p)); split;
      [discriminate | tauto | auto | tauto]. }
  assert (Hframe : forall k f', resident k f' b' -> f' <> f).
  { intros k f' Hk ->. apply Hres in Hk as [Hk Hne].
    apply Hne. apply (resident_frame_page b k p f Hinv Hk Hfind). }
  assert (Hnotfree : ~ In f (BPM.free_list_ b))
    by (apply (resident_not_free b p f Hinv Hfind)).
  split; [|repeat split; try reflexivity].
  - split; [split|..].
    + assumption.
    + exact Ht'.
    + simpl. apply List.NoDup_app;
        [apply (pi_free b Hinv) | constructor; [intros [] | constructor]|].
      intros g Hg [<-|[]]. contradiction.
    + intros g pg Hg. change (In g (BPM.free_list_ b ++ [f])) in Hg.
      apply in_app_or in Hg as [Hg|[<-|[]]].
      * assert (g <> f) by (intros ->; contradiction).
        rewrite Hother by assumption. apply (pi_blank b Hinv g pg Hg).
      * rewrite Hthis. intros [= <-]. split; reflexivity.
    + intros g pg. destruct (Z.eq_dec g f) as [->|Hg].
      * rewrite Hthis. intros [= <-]. simpl. lia.
      * rewrite Hother by assumption. apply (pi_pins b Hinv).
    + intros g n0 pg. simpl LRUK.map_.
      change (BPM.replacer_ b') with (LRUK.Remove f (BPM.replacer_ b)).
      destruct (Z.eq_dec g f) as [->|Hg].
      * rewrite Hgone. discriminate.
      * rewrite Hmo, Hother by assumption. apply (pi_flag b Hinv).
    + intros k f' Hk. pose proof (Hframe k f' Hk) as Hf'.
      apply Hres in Hk as [Hk _].
      change (BPM.replacer_ b') with (LRUK.Remove f (BPM.replacer_ b)).
      destruct (pi_resident b Hinv k f' Hk)
        as (Hidk & pg & n0 & Hpg & Hpidk & Hn0 & Hz0).
      split; [assumption|]. exists pg, n0.
      rewrite Hother, Hmo by assumption. auto.
    + intros j pg. destruct (Z.eq_dec j f) as [->|Hj].
      * intros _. left. simpl. apply in_or_app. right. left. reflexivity.
      * rewrite Hother by assumption. intros Hpg.
        destruct (pc_frames b H j pg Hpg) as [Hfr|Hr].
        -- left. simpl. apply in_or_app. left. assumption.
        -- right. apply Hres. split; [assumption|]. intros Heq.
           rewrite Heq in Hr. unfold resident in Hr. congruence.
    + intros k f' Hk. apply Hres in Hk as [Hk _]. apply (pc_alloc b H k f' Hk).
  - exists page. split; [reflexivity|].
    replace (BPM.pin_count_ page =? 0) with true
      by (symmetry; apply Z.eqb_eq; assumption).
    split; [reflexivity|]. split; [exact Hres|]. split; [reflexivity|].
    split; [exact Hthis|]. split; [exact Hother|]. split; assumption.
Qed.

(** *** The calls of a client *)

Inductive pool_call : Type :=
| CallNew
| CallFetch (page_id : Z)
| CallUnpin (page_id : Z) (is_dirty : bool)
| CallFlush (page_id : Z)
| CallDelete (page_id : Z).

Definition do_call (c : pool_call) (b : BPM.BufferPoolManagerInstance D)
  : outcome (BPM.BufferPoolManagerInstance D) :=
  match c with
  | CallNew => let* (_, b') := BPM.NewPgImp zero fuel b in Ret b'
  | CallFetch p => let* (_, b') := BPM.FetchPgImp zero fuel p b in Ret b'
  | CallUnpin p d => let* (_, b') := BPM.UnpinPgImp p d b in Ret b'
  | CallFlush p => let* (_, b') := BPM.FlushPgImp p b in Ret b'
  | CallDelete p => let* (_, b') := BPM.DeletePgImp zero p b in Ret b'
  end.

(** A client fetches pages that [NewPgImp] has handed out, and page
    ids are [int32_t]. *)
Definition call_allowed (c : pool_call) (b : BPM.BufferPoolManagerInstance D)
  : Prop :=
  match c with
  | CallNew => BPM.next_page_id_ b < 2 ^ 31
  | CallFetch p => 0 <= p < BPM.next_page_id_ b
  | _ => True
  end.

Inductive pool_reachable (pool_size replacer_k : Z)
  : BPM.BufferPoolManagerInstance D -> Prop :=
| reach_new :
    pool_reachable pool_size replacer_k (BPM.new_bpm zero pool_size replacer_k)
| reach_call b c b' :
    pool_reachable pool_size replacer_k b -> call_allowed c b ->
    do_call c b = Ret b' -> pool_reachable pool_size replacer_k b'.

Lemma do_call_step c b :
  pool_consistent b -> BPM.next_page_id_ b <= 2 ^ 31 -> call_allowed c b ->
  exists b', do_call c b = Ret b' /\ pool_consistent b' /\
             BPM.next_page_id_ b' <= 2 ^ 31 /\
             BPM.pool_size_ b' = BPM.pool_size_ b.
Proof.
  intros H Hnext Hc. destruct c as [|p|p d|p|p]; simpl in *.
  - destruct (new_page_step b H Hc) as (res & b' & Hret & H' & Hsz & Hpost).
    rewrite Hret. simpl. exists b'. split; [reflexivity|]. split; [assumption|].
    split; [|assumption]. destruct res as [[id f]|].
    + destruct Hpost as (-> & -> & _). lia.
    + destruct Hpost as (-> & _). assumption.
  - destruct (fetch_page_step p b H Hc Hnext)
      as (fo & b' & Hret & H' & Hsz & Hnx & _).
    rewrite Hret. simpl. exists b'. rewrite Hnx. auto.
  - destruct (unpin_page_step p d b H) as (ok & b' & Hret & H' & Hsz & Hnx & _).
    rewrite Hret. simpl. exists b'. rewrite Hnx. auto.
  - destruct (flush_page_step p b H) as (ok & b' & Hret & H' & Hsz & Hnx & _).
    rewrite Hret. simpl. exists b'. rewrite Hnx. auto.
  - destruct (delete_page_step p b H) as (ok & b' & Hret & H' & Hsz & Hnx & _).
    rewrite Hret. simpl. exists b'. rewrite Hnx. auto.
Qed.

(** X15: every state a client reaches from a new pool, by calls
    that fetch only pages [NewPgImp] has handed out, keeps the pool
    consistent: the page table, the free list, the pin counts and the
    evictable flags of the replacer agree ([pool_inv]), and every frame
    is in the free list or holds the page the page table has for it.
    In such a state every allowed call returns: no frame index is out
    of range and the replacer raises no exception. *)
Theorem pool_calls_return pool_size replacer_k b :
  0 <= pool_size < 2 ^ 31 -> pool_reachable pool_size replacer_k b ->
  pool_consistent b /\ BPM.pool_size_ b = pool_size /\
  0 <= BPM.next_page_id_ b <= 2 ^ 31 /\
  forall c, call_allowed c b -> exists b', do_call c b = Ret b'.
Proof.
  intros Hs Hr.
  assert (Hinv : pool_consistent b /\ BPM.next_page_id_ b <= 2 ^ 31 /\
                 BPM.pool_size_ b = pool_size).
  { induction Hr as [|b c b' Hr IH Hc Hcall].
    - split; [apply pool_consistent_new; assumption|]. simpl. split; [lia|].
      reflexivity.
    - destruct IH as (H & Hnext & Hsz).
      destruct (do_call_step c b H Hnext Hc) as (b2 & Hret & H2 & Hn2 & Hs2).
      rewrite Hcall in Hret. injection Hret as <-.
      split; [assumption|]. split; [assumption | congruence]. }
  destruct Hinv as (H & Hnext & Hsz).
  split; [assumption|]. split; [assumption|].
  split; [pose proof (BPM.pw_next b (pi_wf b (pc_inv b H))); lia|].
  intros c Hc. destruct (do_call_step c b H Hnext Hc) as (b' & Hret & _).
  eauto.
Qed.

(** X16: a pinned page is safe from every call but its own unpin.
    If page [k] is resident in frame [f] with a pin count above 0,
    then after any allowed call other than [UnpinPgImp] of [k] the
    page is still resident in the same frame, with the same bytes and
    a pin count that is not lower: it is not evicted, not deleted, and
    its frame is not handed to another page. *)
Theorem pinned_page_stays b c k f page :
  pool_consistent b -> BPM.next_page_id_ b <= 2 ^ 31 -> call_allowed c b ->
  resident k f b -> lookupZ (BPM.pages_ b) f = Some page ->
  0 < BPM.pin_count_ page -> (forall d, c <> CallUnpin k d) ->
  exists b' page',
    do_call c b = Ret b' /\ resident k f b' /\
    lookupZ (BPM.pages_ b') f = Some page' /\
    BPM.data_ page' = BPM.data_ page /\ BPM.page_id_ page' = k /\
    BPM.pin_count_ page <= BPM.pin_count_ page'.
Proof.
  intros H Hnext Hc Hk Hpage Hpin Hnot.
  pose proof (pc_inv b H) as Hinv.
  destruct (pi_resident b Hinv k f Hk) as (_ & pg & _ & Hpg & Hpid & _).
  assert (pg = page) by congruence. subst pg.
  assert (Hsame : exists page',
             lookupZ (BPM.pages_ b) f = Some page' /\
             BPM.data_ page' = BPM.data_ page /\ BPM.page_id_ page' = k /\
             BPM.pin_count_ page <= BPM.pin_count_ page')
    by (exists page; repeat split; auto; lia).
  destruct c as [|p|p d|p|p]; simpl in *.
  - destruct (new_page_step b H Hc) as (res & b' & Hret & H' & Hsz & Hpost).
    rewrite Hret. simpl. destruct res as [[id fr]|].
    + destruct Hpost as (_ & _ & (old & Hold & Hold0) & _ & Hother & _ & Hres).
      assert (f <> fr) by (intros ->; assert (old = page) by congruence;
                           subst old; lia).
      destruct Hsame as (page' & Hp' & Hrest). exists b', page'.
      split; [reflexivity|]. split; [apply Hres; assumption|].
      rewrite Hother by assumption. auto.
    + destruct Hpost as (-> & _). destruct Hsame as (page' & Hp' & Hrest).
      exists b, page'. auto.
  - destruct (fetch_page_step p b H Hc Hnext)
      as (fo & b' & Hret & H' & Hsz & Hnx & Hpost).
    rewrite Hret. simpl. destruct fo as [fr|].
    + destruct Hpost as (Hpr & Hother & Hres & pg & Hpg' & Hcase).
      destruct (Z.eq_dec f fr) as [->|Hf].
      * assert (pg = page) by congruence. subst pg.
        destruct (EHT.Find BPM.hash_page_id p (BPM.page_table_ b)) as [f0|] eqn:Hfind;
          [|lia].
        destruct Hcase as (-> & Hthis & _).
        assert (k = p) by (apply (resident_frame_page b k p f0 Hinv Hk Hfind)).
        subst p. eexists b', _. split; [reflexivity|]. split; [assumption|].
        split; [exact Hthis|]. simpl. repeat split; auto; lia.
      * destruct Hsame as (page' & Hp' & Hrest). exists b', page'.
        split; [reflexivity|]. split; [apply Hres; assumption|].
        rewrite Hother by assumption. auto.
    + destruct Hpost as (-> & _). destruct Hsame as (page' & Hp' & Hrest).
      exists b, page'. auto.
  - destruct (unpin_page_step p d b H)
      as (ok & b' & Hret & H' & Hsz & Hnx & Htab & _ & _ & Hpost).
    rewrite Hret. simpl.
    assert (Hk' : resident k f b') by (unfold resident; rewrite Htab; exact Hk).
    assert (Hkp : k <> p) by (intros ->; apply (Hnot d); reflexivity).
    destruct (EHT.Find BPM.hash_page_id p (BPM.page_table_ b)) as [fr|] eqn:Hfind.
    + destruct Hpost as (pg & Hpg' & Hcase).
      assert (f <> fr)
        by (intros ->; apply Hkp;
            apply (resident_frame_page b k p fr Hinv Hk Hfind)).
      destruct (BPM.pin_count_ pg =? 0).
      * destruct Hcase as (_ & ->). destruct Hsame as (page' & Hp' & Hrest).
        exists b, page'. auto.
      * destruct Hcase as (_ & _ & Hother & _).
        destruct Hsame as (page' & Hp' & Hrest). exists b', page'.
        split; [reflexivity|]. split; [assumption|].
        rewrite Hother by assumption. auto.
    + destruct Hpost as (_ & ->). destruct Hsame as (page' & Hp' & Hrest).
      exists b, page'. auto.
  - destruct (flush_page_step p b H)
      as (ok & b' & Hret & H' & Hsz & Hnx & Htab & _ & _ & Hpost).
    rewrite Hret. simpl.
    assert (Hk' : resident k f b') by (unfold resident; rewrite Htab; exact Hk).
    destruct (EHT.Find BPM.hash_page_id p (BPM.page_table_ b)) as [fr|] eqn:Hfind.
    + destruct Hpost as (pg & Hpg' & _ & Hthis & Hother & _).
      destruct (Z.eq_dec f fr) as [->|Hf].
      * assert (pg = page) by congruence. subst pg.
        assert (k = p) by (apply (resident_frame_page b k p fr Hinv Hk Hfind)).
        subst p. eexists b', _. split; [reflexivity|]. split; [assumption|].
        split; [exact Hthis|]. simpl. repeat split; auto; lia.
      * destruct Hsame as (page' & Hp' & Hrest). exists b', page'.
        split; [reflexivity|]. split; [assumption|].
        rewrite Hother by assumption. auto.
    + destruct Hpost as (_ & ->). destruct Hsame as (page' & Hp' & Hrest).
      exists b, page'. auto.
  - destruct (delete_page_step p b H)
      as (ok & b' & Hret & H' & Hsz & Hnx & _ & Hpost).
    rewrite Hret. simpl.
    destruct (EHT.Find BPM.hash_page_id p (BPM.page_table_ b)) as [fr|] eqn:Hfind.
    + destruct Hpost as (pg & Hpg' & Hcase).
      destruct (BPM.pin_count_ pg =? 0) eqn:E0.
      * apply Z.eqb_eq in E0.
        assert (f <> fr) by (intros ->; assert (pg = page) by congruence;
                             subst pg; lia).
        assert (k <> p) by (intros ->; unfold resident in Hk; congruence).
        destruct Hcase as (_ & Hres & _ & _ & Hother & _).
        destruct Hsame as (page' & Hp' & Hrest). exists b', page'.
        split; [reflexivity|]. split; [apply Hres; auto|].
        rewrite Hother by assumption. auto.
      * destruct Hcase as (_ & ->). destruct Hsame as (page' & Hp' & Hrest).
        exists b, page'. auto.
    + destruct Hpost as (_ & ->). destruct Hsame as (page' & Hp' & Hrest).
      exists b, page'. auto.
Qed.

Lemma new_page_frame b res b' :
  BPM.free_list_ b <> [] -> BPM.NewPgImp zero fuel b = Ret (res, b') ->
  exists id, res = Some (id, List.last (BPM.free_list_ b) 0).
Proof.
  intros Hne. unfold BPM.NewPgImp, BPM.take_frame.
  destruct (BPM.free_list_ b) as [|x l] eqn:Hfree; [congruence|].
  simpl obind. intros Hret. bind_inv Hret. injection Hret as <- <-. eauto.
Qed.

(** X17: [NewPgImp] on a consistent pool returns, and the frame it
    hands out had pin count 0: a pinned page is never the one that
    gives way.  The new page has the next page id, zeroed bytes, pin
    count 1 and a clean flag; every other frame keeps its page, bytes,
    pin count and flag; and every page that was resident in another
    frame is still resident there. *)
Theorem new_page_takes_unpinned_frame b :
  pool_consistent b -> BPM.next_page_id_ b < 2 ^ 31 ->
  exists res b',
    BPM.NewPgImp zero fuel b = Ret (res, b') /\ pool_consistent b' /\
    match res with
    | None => b' = b
    | Some (id, f) =>
        id = BPM.next_page_id_ b /\ BPM.next_page_id_ b' = id + 1 /\
        (forall f', ~ resident id f' b) /\
        (exists old, lookupZ (BPM.pages_ b) f = Some old /\
                     BPM.pin_count_ old = 0) /\
        lookupZ (BPM.pages_ b') f = Some (BPM.mkPage zero id 1 false) /\
        (forall j, j <> f ->
                   lookupZ (BPM.pages_ b') j = lookupZ (BPM.pages_ b) j) /\
        resident id f b' /\
        (forall k f', f' <> f -> (resident k f' b' <-> resident k f' b))
    end.
Proof.
  intros H Hnext.
  destruct (new_page_step b H Hnext) as (res & b' & Hret & H' & _ & Hpost).
  exists res, b'. split; [assumption|]. split; [assumption|].
  destruct res as [[id f]|]; [|tauto].
  destruct Hpost as (-> & Hn & Hold & Hpage & Hother & Hres & Hkeep).
  split; [reflexivity|]. split; [assumption|]. split; [|tauto].
  intros f' Hr. pose proof (pc_alloc b H _ f' Hr). lia.
Qed.

(** X18: [FetchPgImp] of a page [NewPgImp] has handed out, on a
    consistent pool.  It returns; a frame it returns holds the page
    asked for.  A resident page keeps its frame and bytes and gets one
    pin more, and nothing else changes.  A page that is not resident
    is loaded into a frame that had pin count 0, with the bytes the
    disk manager has for it, pin count 1 and a clean flag.  In both
    cases every other frame and every other resident page is as
    before.  It returns null only for a page that is not resident,
    with nothing changed. *)
Theorem fetch_page_contract p b :
  pool_consistent b -> 0 <= p < BPM.next_page_id_ b ->
  BPM.next_page_id_ b <= 2 ^ 31 ->
  exists fo b',
    BPM.FetchPgImp zero fuel p b = Ret (fo, b') /\ pool_consistent b' /\
    match fo with
    | None => b' = b /\ forall f, ~ resident p f b
    | Some f =>
        resident p f b' /\
        (forall j, j <> f ->
                   lookupZ (BPM.pages_ b') j = lookupZ (BPM.pages_ b) j) /\
        (forall k f', f' <> f -> (resident k f' b' <-> resident k f' b)) /\
        exists page,
          lookupZ (BPM.pages_ b) f = Some page /\
          ((resident p f b /\
            lookupZ (BPM.pages_ b') f
            = Some (BPM.mkPage (BPM.data_ page) p (BPM.pin_count_ page + 1)
                      (BPM.is_dirty_ page)) /\
            BPM.page_table_ b' = BPM.page_table_ b /\
            BPM.free_list_ b' = BPM.free_list_ b /\
            BPM.disk_manager_ b' = BPM.disk_manager_ b)
           \/
           ((forall f', ~ resident p f' b) /\ BPM.pin_count_ page = 0 /\
            lookupZ (BPM.pages_ b') f
            = Some (BPM.mkPage (BPM.ReadPage zero p (BPM.disk_manager_ b'))
                      p 1 false)))
    end.
Proof.
  intros H Hp Hnext.
  destruct (fetch_page_step p b H Hp Hnext)
    as (fo & b' & Hret & H' & _ & _ & Hpost).
  exists fo, b'. split; [assumption|]. split; [assumption|].
  destruct fo as [f|]; [|tauto].
  destruct Hpost as (Hr & Hother & Hkeep & page & Hpage & Hcase).
  split; [assumption|]. split; [assumption|]. split; [assumption|].
  exists page. split; [assumption|]. unfold resident.
  destruct (EHT.Find BPM.hash_page_id p (BPM.page_table_ b)) as [f0|].
  - left. destruct Hcase as (-> & Hcase). split; [reflexivity | exact Hcase].
  - right. split; [discriminate | exact Hcase].
Qed.

(** X19: [DeletePgImp] on a consistent pool.  For a page that is not
    resident it returns true and changes nothing; for a resident page
    with a pin it returns false and changes nothing.  A resident page
    without a pin leaves the page table and the replacer, its frame is
    reset and goes to the back of the free list, and nothing is
    written to disk, whatever the dirty flag; the other resident pages
    stay.  The next [NewPgImp] hands out that very frame. *)
Theorem delete_page_contract p b :
  pool_consistent b -> BPM.next_page_id_ b < 2 ^ 31 ->
  exists ok b1,
    BPM.DeletePgImp zero p b = Ret (ok, b1) /\ pool_consistent b1 /\
    BPM.disk_manager_ b1 = BPM.disk_manager_ b /\
    match EHT.Find BPM.hash_page_id p (BPM.page_table_ b) with
    | None => ok = true /\ b1 = b
    | Some f =>
        exists page,
          lookupZ (BPM.pages_ b) f = Some page /\
          if BPM.pin_count_ page =? 0
          then
            ok = true /\
            (forall k f', resident k f' b1 <-> resident k f' b /\ k <> p) /\
            BPM.free_list_ b1 = BPM.free_list_ b ++ [f] /\
            lookupZ (BPM.pages_ b1) f = Some (BPM.blank_page zero) /\
            (forall j, j <> f ->
                       lookupZ (BPM.pages_ b1) j = lookupZ (BPM.pages_ b) j) /\
            LRUK.map_ (BPM.replacer_ b1) f = None /\
            exists b2,
              BPM.NewPgImp zero fuel b1
              = Ret (Some (BPM.next_page_id_ b, f), b2)
          else ok = false /\ b1 = b
    end.
Proof.
  intros H Hnext.
  destruct (delete_page_step p b H) as (ok & b1 & Hret & H1 & _ & Hnx & Hdisk & Hpost).
  exists ok, b1. split; [assumption|]. split; [assumption|].
  split; [assumption|].
  destruct (EHT.Find BPM.hash_page_id p (BPM.page_table_ b)) as [f|];
    [|assumption].
  destruct Hpost as (page & Hpage & Hcase). exists page. split; [assumption|].
  destruct (BPM.pin_count_ page =? 0); [|assumption].
  destruct Hcase as (Hok & Hres & Hfree & Hblank & Hother & Hgone & _).
  repeat (split; [assumption|]).
  destruct (new_page_step b1 H1 ltac:(lia)) as (res & b2 & Hnew & _ & _ & Hpost).
  destruct (new_page_frame b1 res b2) as [id Hid];
    [rewrite Hfree; intros He; apply app_eq_nil in He as [_ He]; discriminate
    | assumption |].
  rewrite Hfree, last_last in Hid. subst res.
  destruct Hpost as (-> & _). exists b2. rewrite <- Hnx. assumption.
Qed.

(** X20: on a consistent pool [NewPgImp] returns null exactly when
    every frame of the pool holds a page with a pin count above 0. *)
Theorem new_page_null_iff_all_pinned b res b' :
  pool_consistent b -> BPM.next_page_id_ b < 2 ^ 31 ->
  BPM.NewPgImp zero fuel b = Ret (res, b') ->
  (res = None <->
   forall f, BPM.in_pool (BPM.pool_size_ b) f ->
             exists page, lookupZ (BPM.pages_ b) f = Some page /\
                          0 < BPM.pin_count_ page /\
                          resident (BPM.page_id_ page) f b).
Proof.
  intros H Hnext Hret. pose proof (pc_inv b H) as Hinv.
  pose proof (pi_wf b Hinv) as Hwf.
  destruct (new_page_step b H Hnext) as (res0 & b0 & Hret0 & _ & _ & Hpost).
  rewrite Hret in Hret0. injection Hret0 as <- <-. split.
  - intros ->. destruct Hpost as (_ & Hfree & Hev).
    intros f Hf. destruct (pool_frame_page b f Hwf Hf) as (_ & page & Hpage).
    exists page. split; [assumption|].
    destruct (pc_frames b H f page Hpage) as [Hin|Hr];
      [rewrite Hfree in Hin; destruct Hin|].
    split; [|assumption].
    destruct (pi_resident b Hinv _ f Hr) as (_ & pg & n & Hpg & _ & Hn & Hz).
    assert (pg = page) by congruence. subst pg.
    pose proof (pi_pins b Hinv f page Hpage) as Hpin.
    destruct (Z.eq_dec (BPM.pin_count_ page) 0) as [Hzero|]; [|lia].
    exfalso. specialize (Hz Hzero).
    unfold LRUK.evictable_count in Hev. apply LRUK.ecount_zero in Hev.
    apply LRUK.find_node_Some in Hn as [_ Hin].
    rewrite Forall_forall in Hev. apply list_elem_of_In, Hev in Hin. congruence.
  - intros Hall. destruct res as [[id f]|]; [|reflexivity]. exfalso.
    destruct Hpost as (_ & _ & (old & Hold & Hzero) & _).
    assert (Hf : BPM.in_pool (BPM.pool_size_ b) f).
    { apply lookupZ_Some_range in Hold. rewrite (BPM.pw_pages b Hwf) in Hold.
      exact Hold. }
    destruct (Hall f Hf) as (page & Hpage & Hpin & _).
    assert (page = old) by congruence. subst page. lia.
Qed.

End PoolProperties.

(** The state after one more call, for the scenarios below. *)
Definition after_call {D} (zero : D) (fuel : nat) (c : pool_call)
  (b : BPM.BufferPoolManagerInstance D) : BPM.BufferPoolManagerInstance D :=
  match do_call zero fuel c b with Ret b' => b' | _ => b end.

Lemma after_call_consistent {D} (zero : D) (fuel : nat) c b :
  (31 < fuel)%nat ->
  pool_consistent b /\ BPM.next_page_id_ b <= 2 ^ 31 ->
  call_allowed c b ->
  pool_consistent (after_call zero fuel c b) /\
  BPM.next_page_id_ (after_call zero fuel c b) <= 2 ^ 31.
Proof.
  intros Hfuel [H Hnext] Hc. unfold after_call.
  destruct (do_call_step zero fuel Hfuel c b H Hnext Hc)
    as (b' & Hret & H' & Hn' & _).
  rewrite Hret. auto.
Qed.

(** A pool of two frames with pages of one integer: new; after
    [NewPgImp] (page 0, pinned, in frame 1); after the page is
    unpinned as dirty; and after a second [NewPgImp] instead (both
    frames pinned). *)
Definition pool_start : BPM.BufferPoolManagerInstance Z := BPM.new_bpm 0 2 2.
Definition pool_one : BPM.BufferPoolManagerInstance Z :=
  after_call 0 32 CallNew pool_start.
Definition pool_unpinned : BPM.BufferPoolManagerInstance Z :=
  after_call 0 32 (CallUnpin 0 true) pool_one.
Definition pool_full : BPM.BufferPoolManagerInstance Z :=
  after_call 0 32 CallNew pool_one.

Lemma pool_start_consistent :
  pool_consistent pool_start /\ BPM.next_page_id_ pool_start <= 2 ^ 31.
Proof.
  split; [apply (pool_consistent_new 0); lia | simpl; lia].
Qed.

Lemma pool_one_consistent :
  pool_consistent pool_one /\ BPM.next_page_id_ pool_one <= 2 ^ 31.
Proof.
  apply after_call_consistent; [lia | exact pool_start_consistent|].
  simpl. lia.
Qed.

Lemma pool_unpinned_consistent :
  pool_consistent pool_unpinned /\ BPM.next_page_id_ pool_unpinned <= 2 ^ 31.
Proof.
  apply after_call_consistent; [lia | exact pool_one_consistent|].
  exact I.
Qed.

Lemma pool_full_consistent :
  pool_consistent pool_full /\ BPM.next_page_id_ pool_full <= 2 ^ 31.
Proof.
  apply after_call_consistent; [lia | exact pool_one_consistent|].
  vm_compute. reflexivity.
Qed.

Lemma pool_calls_return_witness :
  pool_consistent pool_one /\ BPM.pool_size_ pool_one = 2 /\
  0 <= BPM.next_page_id_ pool_one <= 2 ^ 31 /\
  forall c, call_allowed c pool_one -> exists b', do_call 0 32 c pool_one = Ret b'.
Proof.
  apply (pool_calls_return 0 32 ltac:(lia) 2 2 pool_one).
  - lia.
  - apply (reach_call 0 32 2 2 pool_start CallNew).
    + apply reach_new.
    + simpl. lia.
    + vm_compute. reflexivity.
Defined.

Lemma pinned_page_stays_witness :
  exists b' page',
    do_call 0 32 CallNew pool_one = Ret b' /\ resident 0 1 b' /\
    lookupZ (BPM.pages_ b') 1 = Some page' /\
    BPM.data_ page' = BPM.data_ (BPM.mkPage 0 0 1 false) /\
    BPM.page_id_ page' = 0 /\
    BPM.pin_count_ (BPM.mkPage 0 0 1 false) <= BPM.pin_count_ page'.
Proof.
  apply (pinned_page_stays 0 32 ltac:(lia) pool_one CallNew 0 1
           (BPM.mkPage 0 0 1 false)).
  - apply pool_one_consistent.
  - apply pool_one_consistent.
  - vm_compute. reflexivity.
  - vm_compute. reflexivity.
  - vm_compute. reflexivity.
  - simpl. lia.
  - discriminate.
Defined.

Lemma new_page_takes_unpinned_frame_witness :
  exists res b',
    BPM.NewPgImp 0 32 pool_unpinned = Ret (res, b') /\ pool_consistent b' /\
    match res with
    | None => b' = pool_unpinned
    | Some (id, f) =>
        id = BPM.next_page_id_ pool_unpinned /\
        BPM.next_page_id_ b' = id + 1 /\
        (forall f', ~ resident id f' pool_unpinned) /\
        (exists old, lookupZ (BPM.pages_ pool_unpinned) f = Some old /\
                     BPM.pin_count_ old = 0) /\
        lookupZ (BPM.pages_ b') f = Some (BPM.mkPage 0 id 1 false) /\
        (forall j, j <> f ->
                   lookupZ (BPM.pages_ b') j
                   = lookupZ (BPM.pages_ pool_unpinned) j) /\
        resident id f b' /\
        (forall k f', f' <> f ->
                      (resident k f' b' <-> resident k f' pool_unpinned))
    end.
Proof.
  apply (new_page_takes_unpinned_frame 0 32 ltac:(lia) pool_unpinned).
  - apply pool_unpinned_consistent.
  - vm_compute. reflexivity.
Defined.

Lemma fetch_page_contract_witness :
  exists fo b',
    BPM.FetchPgImp 0 32 0 pool_unpinned = Ret (fo, b') /\ pool_consistent b' /\
    match fo with
    | None => b' = pool_unpinned /\ forall f, ~ resident 0 f pool_unpinned
    | Some f =>
        resident 0 f b' /\
        (forall j, j <> f ->
                   lookupZ (BPM.pages_ b') j
                   = lookupZ (BPM.pages_ pool_unpinned) j) /\
        (forall k f', f' <> f ->
                      (resident k f' b' <-> resident k f' pool_unpinned)) /\
        exists page,
          lookupZ (BPM.pages_ pool_unpinned) f = Some page /\
          ((resident 0 f pool_unpinned /\
            lookupZ (BPM.pages_ b') f
            = Some (BPM.mkPage (BPM.data_ page) 0 (BPM.pin_count_ page + 1)
                      (BPM.is_dirty_ page)) /\
            BPM.page_table_ b' = BPM.page_table_ pool_unpinned /\
            BPM.free_list_ b' = BPM.free_list_ pool_unpinned /\
            BPM.disk_manager_ b' = BPM.disk_manager_ pool_unpinned)
           \/
           ((forall f', ~ resident 0 f' pool_unpinned) /\
            BPM.pin_count_ page = 0 /\
            lookupZ (BPM.pages_ b') f
            = Some (BPM.mkPage (BPM.ReadPage 0 0 (BPM.disk_manager_ b'))
                      0 1 false)))
    end.
Proof.
  apply (fetch_page_contract 0 32 ltac:(lia) 0 pool_unpinned).
  - apply pool_unpinned_consistent.
  - vm_compute. split; [discriminate | reflexivity].
  - apply pool_unpinned_consistent.
Defined.

Lemma delete_page_contract_witness :
  exists ok b1,
    BPM.DeletePgImp 0 0 pool_unpinned = Ret (ok, b1) /\ pool_consistent b1 /\
    BPM.disk_manager_ b1 = BPM.disk_manager_ pool_unpinned /\
    match EHT.Find BPM.hash_page_id 0 (BPM.page_table_ pool_unpinned) with
    | None => ok = true /\ b1 = pool_unpinned
    | Some f =>
        exists page,
          lookupZ (BPM.pages_ pool_unpinned) f = Some page /\
          if BPM.pin_count_ page =? 0
          then
            ok = true /\
            (forall k f', resident k f' b1 <->
                          resident k f' pool_unpinned /\ k <> 0) /\
            BPM.free_list_ b1 = BPM.free_list_ pool_unpinned ++ [f] /\
            lookupZ (BPM.pages_ b1) f = Some (BPM.blank_page 0) /\
            (forall j, j <> f ->
                       lookupZ (BPM.pages_ b1) j
                       = lookupZ (BPM.pages_ pool_unpinned) j) /\
            LRUK.map_ (BPM.replacer_ b1) f = None /\
            exists b2,
              BPM.NewPgImp 0 32 b1
              = Ret (Some (BPM.next_page_id_ pool_unpinned, f), b2)
          else ok = false /\ b1 = pool_unpinned
    end.
Proof.
  apply (delete_page_contract 0 32 ltac:(lia) 0 pool_unpinned).
  - apply pool_unpinned_consistent.
  - vm_compute. reflexivity.
Defined.

Lemma new_page_null_iff_all_pinned_witness :
  @None (Z * Z) = None <->
  forall f, BPM.in_pool (BPM.pool_size_ pool_full) f ->
            exists page, lookupZ (BPM.pages_ pool_full) f = Some page /\
                         0 < BPM.pin_count_ page /\
                         resident (BPM.page_id_ page) f pool_full.
Proof.
  apply (new_page_null_iff_all_pinned 0 32 ltac:(lia) pool_full None pool_full).
  - apply pool_full_consistent.
  - vm_compute. reflexivity.
  - vm_compute. reflexivity.
Defined.

(** ** Index iterator: a scan of the last leaf *)

Section IteratorProperties.
Context {V : Type}.
Variable fuel : nat.

Lemma iterator_leaf_index leaf i j (b : BPM.BufferPoolManagerInstance (Node.PageData V)) :
  BPT.iterator_leaf V (BPT.mkIterator leaf i) b
  = BPT.iterator_leaf V (BPT.mkIterator leaf j) b.
Proof. reflexivity. Qed.

Lemma scan_last_leaf_from n leaf (b : BPM.BufferPoolManagerInstance (Node.PageData V)) l :
  Node.GetNextPageId V l = -1 ->
  forall i : nat,
    BPT.iterator_leaf V (BPT.mkIterator leaf (Z.of_nat i)) b = Ret l ->
    (length (skipn i (Node.l_array_ V l)) < n)%nat ->
    BPT.scan V fuel n (BPT.mkIterator leaf (Z.of_nat i)) b
    = Ret (skipn i (Node.l_array_ V l), b).
Proof.
  intros Hnext. induction n as [|n IH]; intros i Hleaf Hlen; [lia|].
  simpl. unfold BPT.IsEnd. rewrite Hleaf. simpl. rewrite Hnext.
  unfold Node.size_of. rewrite length_skipn in Hlen.
  destruct (Z.of_nat (length (Node.l_array_ V l)) <=? Z.of_nat i) eqn:E.
  - apply Z.leb_le in E. simpl. rewrite skipn_all2 by lia. reflexivity.
  - apply Z.leb_gt in E. simpl.
    destruct (lookup_lt_is_Some_2 (Node.l_array_ V l) i ltac:(lia)) as [kv Hkv].
    unfold BPT.dereference, BPT.increment. rewrite Hleaf. simpl.
    unfold Node.MappingAt, Node.at_. rewrite lookupZ_of_nat, Hkv. simpl.
    unfold Node.size_of.
    destruct (Z.of_nat (length (Node.l_array_ V l)) <=? Z.of_nat i) eqn:E1;
      [apply Z.leb_le in E1; lia|].
    assert (Hstep : (if Z.of_nat i <? Z.of_nat (length (Node.l_array_ V l)) - 1
                     then Ret (BPT.mkIterator leaf (Z.of_nat i + 1), b)
                     else if Node.GetNextPageId V l =? -1
                          then Ret (BPT.mkIterator leaf (Z.of_nat i + 1), b)
                          else
                            let* (next_page, b0) :=
                              BPM.FetchPgImp Node.Zeroed fuel
                                (Node.GetNextPageId V l) b in
                            let* next_leaf := deref next_page in
                            let* _ := BPM.GetData next_leaf b0 in
                            let* (_, b1) :=
                              BPM.UnpinPgImp (Node.GetNextPageId V l) false b0 in
                            Ret (BPT.mkIterator next_leaf 0, b1))
                    = Ret (BPT.mkIterator leaf (Z.of_nat (S i)), b)).
    { replace (Z.of_nat i + 1) with (Z.of_nat (S i)) by lia.
      rewrite Hnext. simpl.
      destruct (Z.of_nat i <? Z.of_nat (length (Node.l_array_ V l)) - 1);
        reflexivity. }
    simpl in Hstep. rewrite Hstep. simpl.
    rewrite (IH (S i)); [|exact Hleaf | rewrite length_skipn; lia].
    simpl. rewrite (drop_S _ _ _ Hkv). reflexivity.
Qed.

(** X21: an iterator on the last leaf (the one without a next page)
    at an index from 0 to the size.  The loop of a scan, [operator*]
    and [operator++] until [IsEnd], returns the entries of the leaf
    from the index on, in order, and leaves the pool as it was: no
    page is fetched or unpinned.  At the size of the leaf and beyond
    the iterator is at the end, and [operator++] throws. *)
Theorem iterator_scan_last_leaf (n : nat) (it : BPT.IndexIterator)
    (b : BPM.BufferPoolManagerInstance (Node.PageData V)) (l : Node.LeafPage V) :
  BPT.iterator_leaf V it b = Ret l -> Node.GetNextPageId V l = -1 ->
  0 <= BPT.key_index_ it ->
  (length (Node.l_array_ V l) < n)%nat ->
  BPT.scan V fuel n it b
  = Ret (skipn (Z.to_nat (BPT.key_index_ it)) (Node.l_array_ V l), b) /\
  (Node.size_of (Node.l_array_ V l) <= BPT.key_index_ it ->
   BPT.IsEnd V it b = Ret true /\
   BPT.increment V fuel it b = Throw "B+ tree index_iterator '++' out of range").
Proof.
  intros Hleaf Hnext Hi Hn. destruct it as [leaf i]. simpl in *. split.
  - rewrite <- (Z2Nat.id i) at 1 by assumption.
    apply scan_last_leaf_from; [assumption| |rewrite length_skipn; lia].
    rewrite Z2Nat.id by assumption. exact Hleaf.
  - intros Hsize. unfold BPT.IsEnd, BPT.increment. rewrite Hleaf. simpl.
    rewrite Hnext.
    replace (Node.size_of (Node.l_array_ V l) <=? i) with true
      by (symmetry; apply Z.leb_le; assumption).
    split; reflexivity.
Qed.

End IteratorProperties.

(** A pool whose frame 0 holds the leaf with the keys 7, 9. *)
Definition pool_leaf_79 : BPM.BufferPoolManagerInstance (Node.PageData Z) :=
  BPM.set_pages (BPM.new_bpm Node.Zeroed 1 2)
    [BPM.mkPage (Node.Leaf leaf_79) 3 0 false].

Lemma iterator_scan_last_leaf_witness :
  BPT.scan Z 32 3 (BPT.mkIterator 0 1) pool_leaf_79
  = Ret (skipn (Z.to_nat (BPT.key_index_ (BPT.mkIterator 0 1)))
           (Node.l_array_ Z leaf_79), pool_leaf_79) /\
  (Node.size_of (Node.l_array_ Z leaf_79) <= BPT.key_index_ (BPT.mkIterator 0 1) ->
   BPT.IsEnd Z (BPT.mkIterator 0 1) pool_leaf_79 = Ret true /\
   BPT.increment Z 32 (BPT.mkIterator 0 1) pool_leaf_79
   = Throw "B+ tree index_iterator '++' out of range").
Proof.
  apply (iterator_scan_last_leaf 32 3 (BPT.mkIterator 0 1) pool_leaf_79 leaf_79).
  - reflexivity.
  - reflexivity.
  - simpl. lia.
  - simpl. lia.
Defined.

(** ** B+ tree: a tree that is one leaf *)

Lemma set_data_step {D} (f : Z) (d : D) (b : BPM.BufferPoolManagerInstance D) page :
  pool_consistent b -> lookupZ (BPM.pages_ b) f = Some page ->
  exists b',
    BPM.SetData f d b = Ret b' /\ pool_consistent b' /\
    lookupZ (BPM.pages_ b') f
    = Some (BPM.mkPage d (BPM.page_id_ page) (BPM.pin_count_ page)
              (BPM.is_dirty_ page)) /\
    (forall j, j <> f -> lookupZ (BPM.pages_ b') j = lookupZ (BPM.pages_ b) j) /\
    BPM.page_table_ b' = BPM.page_table_ b /\
    BPM.next_page_id_ b' = BPM.next_page_id_ b /\
    BPM.free_list_ b' = BPM.free_list_ b /\
    BPM.disk_manager_ b' = BPM.disk_manager_ b.
Proof.
  intros H Hpage. pose proof (lookupZ_Some_range _ _ _ Hpage) as Hrange.
  unfold BPM.SetData. rewrite Hpage. simpl.
  rewrite storeZ_in_range by assumption. simpl.
  eexists. split; [reflexivity|].
  set (page' := BPM.mkPage d (BPM.page_id_ page) (BPM.pin_count_ page)
                  (BPM.is_dirty_ page)).
  assert (Hs : same_keys (<[Z.to_nat f := page']> (BPM.pages_ b)) (BPM.pages_ b))
    by (apply (same_keys_insert _ _ page); [assumption | reflexivity]).
  assert (Hpages : forall j,
             lookupZ (<[Z.to_nat f := page']> (BPM.pages_ b)) j
             = if j =? f then Some page' else lookupZ (BPM.pages_ b) j)
    by (intros j; apply lookupZ_insert; assumption).
  split; [|simpl; repeat split; try reflexivity].
  - split.
    + apply (pool_inv_pages b _ (BPM.disk_manager_ b) (pc_inv b H) Hs).
    + intros j pg. simpl. intros Hpg.
      destruct (same_keys_page _ _ _ _ Hs Hpg) as (pg0 & Hpg0 & Hi & _).
      rewrite <- Hi.
      destruct (pc_frames b H j pg0 Hpg0); [left | right]; assumption.
    + apply (pc_alloc b H).
  - rewrite Hpages, Z.eqb_refl. reflexivity.
  - intros j Hj. rewrite Hpages.
    destruct (j =? f) eqn:E; [apply Z.eqb_eq in E; congruence | reflexivity].
Qed.

Section TreeProperties.
Context {V : Type}.
Variable fuel : nat.
Hypothesis fuel_enough : (31 < fuel)%nat.

(** The tree is one leaf: the root page is resident in frame [f],
    whose page [page] holds the leaf [l], in a consistent pool. *)
Definition root_leaf (t : BPT.BPlusTree V) (f : Z)
    (page : BPM.Page (Node.PageData V)) (l : Node.LeafPage V) : Prop :=
  pool_consistent (BPT.buffer_pool_manager_ V t) /\
  BPM.next_page_id_ (BPT.buffer_pool_manager_ V t) <= 2 ^ 31 /\
  0 <= BPT.root_page_id_ V t < BPM.next_page_id_ (BPT.buffer_pool_manager_ V t) /\
  resident (BPT.root_page_id_ V t) f (BPT.buffer_pool_manager_ V t) /\
  lookupZ (BPM.pages_ (BPT.buffer_pool_manager_ V t)) f = Some page /\
  BPM.data_ page = Node.Leaf l.

(** What a call may change while the tree stays one leaf in [f]:
    nothing but the replacer's record of accesses. *)
Definition same_frames (t t' : BPT.BPlusTree V) : Prop :=
  BPT.root_page_id_ V t' = BPT.root_page_id_ V t /\
  BPT.leaf_max_size_ V t' = BPT.leaf_max_size_ V t /\
  (forall j, lookupZ (BPM.pages_ (BPT.buffer_pool_manager_ V t')) j
             = lookupZ (BPM.pages_ (BPT.buffer_pool_manager_ V t)) j) /\
  BPM.page_table_ (BPT.buffer_pool_manager_ V t')
  = BPM.page_table_ (BPT.buffer_pool_manager_ V t) /\
  BPM.free_list_ (BPT.buffer_pool_manager_ V t')
  = BPM.free_list_ (BPT.buffer_pool_manager_ V t) /\
  BPM.disk_manager_ (BPT.buffer_pool_manager_ V t')
  = BPM.disk_manager_ (BPT.buffer_pool_manager_ V t).

Lemma find_leaf_root key t f page l :
  root_leaf t f page l ->
  exists t', BPT.FindLeaf V fuel key t = Ret (f, t') /\
             root_leaf t' f page l /\ same_frames t t'.
Proof.
  intros (H & Hnext & Hroot & Hres & Hpage & Hdata).
  destruct t as [name root b lmax imax]. simpl in *.
  unfold BPT.FindLeaf, BPT.FetchPage. simpl.
  destruct (fetch_page_step Node.Zeroed fuel fuel_enough root b H Hroot Hnext)
    as (fo & b1 & Hret & H1 & _ & Hnx1 & Hpost).
  rewrite Hret. simpl. unfold resident in Hres.
  destruct fo as [f'|]; [|destruct Hpost as (_ & Hno & _); destruct (Hno f Hres)].
  destruct Hpost as (_ & Hother1 & _ & page0 & Hpage0 & Hcase).
  rewrite Hres in Hcase. destruct Hcase as (-> & Hthis1 & Htab1 & Hfree1 & Hdisk1).
  assert (page0 = page) by congruence. subst page0. simpl.
  destruct fuel as [|n]; [lia|]. simpl.
  unfold BPT.is_leaf_at, BPT.page_at, BPM.GetData. simpl.
  rewrite Hthis1. simpl. rewrite Hdata. simpl.
  unfold BPT.UnpinPage. simpl.
  destruct (unpin_page_step root false b1 H1)
    as (ok & b2 & Hret2 & H2 & _ & Hnx2 & Htab2 & Hfree2 & Hdisk2 & Hpost2).
  rewrite Hret2. simpl. rewrite Htab1, Hres in Hpost2.
  destruct Hpost2 as (page1 & Hpage1 & Hcase2).
  rewrite Hthis1 in Hpage1. injection Hpage1 as <-. simpl in Hcase2.
  pose proof (pi_pins b (pc_inv b H) f page Hpage) as Hpin.
  destruct (BPM.pin_count_ page + 1 =? 0) eqn:E; [apply Z.eqb_eq in E; lia|].
  destruct Hcase2 as (_ & Hthis2 & Hother2 & _).
  destruct (pi_resident b (pc_inv b H) root f Hres)
    as (_ & pg & _ & Hpg & Hpid & _).
  assert (pg = page) by congruence. subst pg.
  assert (Hsame : forall j, lookupZ (BPM.pages_ b2) j = lookupZ (BPM.pages_ b) j).
  { intros j. destruct (Z.eq_dec j f) as [->|Hj].
    - rewrite Hthis2, Hpage. f_equal. destruct page; simpl in *. f_equal; lia.
    - rewrite Hother2, Hother1 by assumption. reflexivity. }
  eexists. split; [reflexivity|]. split.
  - unfold root_leaf. simpl. split; [assumption|]. split; [lia|].
    split; [lia|]. split; [unfold resident; congruence|].
    split; [rewrite Hsame; assumption | assumption].
  - unfold same_frames. simpl. repeat split; try assumption; congruence.
Qed.

Lemma get_value_root key t f page l :
  root_leaf t f page l ->
  exists t', BPT.GetValue V fuel key t = Ret (Node.FindKey V key l, t') /\
             root_leaf t' f page l /\ same_frames t t'.
Proof.
  intros H. unfold BPT.GetValue, BPT.IsEmpty.
  destruct H as (Hc & Hnext & Hroot & Hrest) eqn:Hkeep. clear Hkeep.
  destruct (BPT.root_page_id_ V t =? -1) eqn:E; [apply Z.eqb_eq in E; lia|].
  destruct (find_leaf_root key t f page l) as (t' & Hfind & H' & Hsame);
    [unfold root_leaf; tauto|].
  rewrite Hfind. simpl.
  destruct H' as (Hc' & Hnext' & Hroot' & Hres' & Hpage' & Hdata') eqn:Hkeep.
  clear Hkeep.
  unfold BPT.leaf_at, BPT.page_at, BPM.GetData. rewrite Hpage'. simpl.
  rewrite Hdata'. simpl. exists t'. split; [reflexivity|].
  split; [unfold root_leaf; tauto | assumption].
Qed.

Lemma leaf_insert_find (l : Node.LeafPage V) key value :
  exists l',
    Node.Leaf_Insert V key value l = Ret l' /\
    (forall k, Node.FindKey V k l'
               = if decide (k = key) then Some value else Node.FindKey V k l) /\
    Node.size_of (Node.l_array_ V l') = Node.size_of (Node.l_array_ V l) + 1.
Proof.
  clear fuel_enough.
  destruct (leaf_find_index_spec key (Node.l_array_ V l) 0)
    as (n & Hn & Hle & Hlt & Hge).
  rewrite Z.add_0_l in Hn.
  unfold Node.Leaf_Insert, Node.Leaf_FindIndex, Node.insert_at. rewrite Hn.
  unfold Node.size_of.
  destruct ((0 <=? Z.of_nat n) && (Z.of_nat n <=? Z.of_nat (length (Node.l_array_ V l))))
    eqn:E; [|apply andb_false_iff in E as [E|E]; apply Z.leb_gt in E; lia].
  rewrite Nat2Z.id. simpl. eexists. split; [reflexivity|].
  unfold Node.FindKey. simpl. split.
  - intros k. destruct (decide (k = key)) as [->|Hk].
    + rewrite find_key_app.
      replace (Node.find_key V key (firstn n (Node.l_array_ V l))) with (@None V).
      * simpl. rewrite comparator_zero, Z.eqb_refl. reflexivity.
      * symmetry. apply find_key_absent. eapply Forall_impl; [exact Hlt|].
        simpl. intros e He. lia.
    + rewrite find_key_insert_other by assumption.
      rewrite firstn_skipn. reflexivity.
  - rewrite length_app. simpl. rewrite length_firstn, length_skipn. lia.
Qed.

Lemma leaf_remove_find (l : Node.LeafPage V) key :
  ascending (map fst (Node.l_array_ V l)) ->
  exists l',
    Node.Leaf_Remove V key l = Ret l' /\
    (forall k, Node.FindKey V k l'
               = if decide (k = key) then None else Node.FindKey V k l) /\
    Node.l_parent_page_id_ V l' = Node.l_parent_page_id_ V l.
Proof.
  clear fuel_enough.
  intros Hasc.
  destruct (leaf_find_index_spec key (Node.l_array_ V l) 0)
    as (n & Hn & Hle & Hlt & Hge).
  rewrite Z.add_0_l in Hn.
  unfold Node.Leaf_Remove, Node.Leaf_FindIndex. rewrite Hn.
  rewrite lookupZ_of_nat, lookup_skipn_head. unfold Node.FindKey.
  pose proof (firstn_skipn n (Node.l_array_ V l)) as Hsplit.
  assert (Hfirst : ~ In key (map fst (firstn n (Node.l_array_ V l)))).
  { intros Hk. apply in_map_iff in Hk as (e & He & Hin).
    rewrite Forall_forall in Hlt. apply list_elem_of_In, Hlt in Hin. lia. }
  assert (Hsk : skipn (S n) (Node.l_array_ V l) =
                tl (skipn n (Node.l_array_ V l))).
  { change (S n) with (1 + n)%nat. rewrite <- skipn_skipn.
    destruct (skipn n (Node.l_array_ V l)); reflexivity. }
  assert (Hunchanged : Node.find_key V key (Node.l_array_ V l) = None ->
            forall k, Node.find_key V k (Node.l_array_ V l)
                      = if decide (k = key) then None
                        else Node.find_key V k (Node.l_array_ V l)).
  { intros Habs k. destruct (decide (k = key)) as [->|]; [exact Habs | reflexivity]. }
  destruct (skipn n (Node.l_array_ V l)) as [|[k v] rest] eqn:Es; simpl.
  - rewrite app_nil_r in Hsplit. rewrite Hsplit in Hfirst.
    apply find_key_None in Hfirst. exists l. auto.
  - simpl in Hge, Hsk. rewrite comparator_zero.
    destruct (k =? key) eqn:E; simpl.
    + apply Z.eqb_eq in E. subst k.
      assert (Hlen : length (Node.l_array_ V l) = S (n + length rest)).
      { rewrite <- Hsplit at 1. rewrite length_app, length_firstn. simpl. lia. }
      unfold Node.remove_at, Node.size_of.
      destruct (Z.of_nat (length (Node.l_array_ V l)) <=? Z.of_nat n) eqn:E1;
        [apply Z.leb_le in E1; lia|].
      destruct ((0 <=? Z.of_nat n) &&
                (Z.of_nat n <? Z.of_nat (length (Node.l_array_ V l)))) eqn:E2;
        [|apply andb_false_iff in E2 as [E2|E2];
          [apply Z.leb_gt in E2 | apply Z.ltb_ge in E2]; lia].
      rewrite Nat2Z.id, Hsk. simpl. eexists. split; [reflexivity|]. simpl.
      rewrite <- Hsplit in Hasc. rewrite map_app in Hasc. simpl in Hasc.
      apply ascending_split in Hasc as [_ Habs].
      rewrite <- map_app in Habs.
      split; [|reflexivity]. intros k.
      destruct (decide (k = key)) as [->|Hk];
        [apply find_key_None; exact Habs|].
      rewrite <- (find_key_insert_other k key v) by assumption.
      rewrite Hsplit. reflexivity.
    + apply Z.eqb_neq in E.
      assert (Habs : Node.find_key V key (Node.l_array_ V l) = None).
      { apply find_key_None. rewrite <- Hsplit, map_app, in_app_iff.
        intros [Hk|Hk]; [tauto|]. simpl in Hk. destruct Hk as [Hk|Hk]; [lia|].
        rewrite <- Hsplit, map_app in Hasc. apply ascending_app in Hasc
          as (_ & Hasc & _). simpl in Hasc. apply ascending_cons in Hasc as [H1 _].
        specialize (H1 key Hk). lia. }
      exists l. auto.
Qed.

Lemma put_leaf_root t f page l l' :
  root_leaf t f page l ->
  exists t',
    BPT.put_leaf V f l' t = Ret t' /\
    root_leaf t' f (BPM.mkPage (Node.Leaf l') (BPM.page_id_ page)
                      (BPM.pin_count_ page) (BPM.is_dirty_ page)) l' /\
    BPT.root_page_id_ V t' = BPT.root_page_id_ V t /\
    BPT.leaf_max_size_ V t' = BPT.leaf_max_size_ V t /\
    (forall j, j <> f ->
               lookupZ (BPM.pages_ (BPT.buffer_pool_manager_ V t')) j
               = lookupZ (BPM.pages_ (BPT.buffer_pool_manager_ V t)) j) /\
    BPM.disk_manager_ (BPT.buffer_pool_manager_ V t')
    = BPM.disk_manager_ (BPT.buffer_pool_manager_ V t).
Proof.
  intros (H & Hnext & Hroot & Hres & Hpage & Hdata).
  destruct t as [name root b lmax imax]. simpl in *.
  unfold BPT.put_leaf, BPT.put_page. simpl.
  destruct (set_data_step f (Node.Leaf l') b page H Hpage)
    as (b' & Hret & H' & Hthis & Hother & Htab & Hnx & Hfree & Hdisk).
  rewrite Hret. simpl. eexists. split; [reflexivity|].
  unfold root_leaf, resident in *. simpl. rewrite Hnx, Htab.
  split; [split; [assumption|]; repeat split; try assumption; lia|].
  repeat split; assumption.
Qed.

(** X22: [Insert] and [GetValue] on a tree that is one leaf, the
    root page being resident.  A key that is in the leaf is refused:
    [Insert] returns false and changes no frame.  A key that is not,
    when the leaf has room for it below its maximum, goes into the
    leaf: [Insert] returns true, and [GetValue] then finds the value
    for this key and what the leaf had for every other key.  The
    frame of the root keeps its pin count and, although its bytes
    changed, its dirty flag; no other frame changes and nothing is
    written to disk. *)
Theorem tree_leaf_insert_get (t : BPT.BPlusTree V) f page l key value :
  root_leaf t f page l ->
  Node.size_of (Node.l_array_ V l) + 1 < BPT.leaf_max_size_ V t ->
  match Node.FindKey V key l with
  | Some _ =>
      exists t', BPT.Insert V fuel key value t = Ret (false, t') /\
                 root_leaf t' f page l /\ same_frames t t'
  | None =>
      exists t1 l1,
        BPT.Insert V fuel key value t = Ret (true, t1) /\
        Node.Leaf_Insert V key value l = Ret l1 /\
        root_leaf t1 f (BPM.mkPage (Node.Leaf l1) (BPM.page_id_ page)
                          (BPM.pin_count_ page) (BPM.is_dirty_ page)) l1 /\
        (forall j, j <> f ->
                   lookupZ (BPM.pages_ (BPT.buffer_pool_manager_ V t1)) j
                   = lookupZ (BPM.pages_ (BPT.buffer_pool_manager_ V t)) j) /\
        BPM.disk_manager_ (BPT.buffer_pool_manager_ V t1)
        = BPM.disk_manager_ (BPT.buffer_pool_manager_ V t) /\
        forall k, exists t2,
          BPT.GetValue V fuel k t1
          = Ret (if decide (k = key) then Some value else Node.FindKey V k l, t2)
  end.
Proof.
  intros H Hsize.
  assert (Hne : (BPT.root_page_id_ V t =? -1) = false).
  { destruct H as (_ & _ & Hroot & _). apply Z.eqb_neq. lia. }
  destruct (get_value_root key t f page l H) as (t0 & Hget & H0 & Hsame0).
  unfold BPT.Insert, BPT.IsEmpty. rewrite Hne, Hget. simpl.
  destruct (Node.FindKey V key l) as [v|] eqn:Hfound.
  - exists t0. auto.
  - unfold BPT.InsertIntoLeaf.
    destruct (find_leaf_root key t0 f page l H0) as (t1 & Hfind & H1 & Hsame1).
    rewrite Hfind. simpl.
    assert (Hleaf : BPT.leaf_at V f t1 = Ret l).
    { destruct H1 as (_ & _ & _ & _ & Hpage1 & Hdata1).
      unfold BPT.leaf_at, BPT.page_at, BPM.GetData. rewrite Hpage1. simpl.
      rewrite Hdata1. reflexivity. }
    rewrite Hleaf. simpl.
    destruct (leaf_insert_find l key value) as (l1 & Hins & Hkeys & Hlen).
    rewrite Hins. simpl.
    destruct (put_leaf_root t1 f page l l1 H1)
      as (t2 & Hput & H2 & Hroot2 & Hmax2 & Hother2 & Hdisk2).
    rewrite Hput. simpl.
    assert (Hsz : BPT.size_at V f t2 = Ret (Node.size_of (Node.l_array_ V l1))).
    { destruct H2 as (_ & _ & _ & _ & Hpage2 & _).
      unfold BPT.size_at, BPT.page_at, BPM.GetData. rewrite Hpage2. reflexivity. }
    rewrite Hsz. simpl.
    destruct Hsame0 as (Hr0 & Hm0 & Hp0 & _ & _ & Hd0).
    destruct Hsame1 as (Hr1 & Hm1 & Hp1 & _ & _ & Hd1).
    replace (Node.size_of (Node.l_array_ V l1) <? BPT.leaf_max_size_ V t2)
      with true by (symmetry; apply Z.ltb_lt; lia).
    exists t2, l1. split; [reflexivity|]. split; [reflexivity|].
    split; [assumption|].
    split; [intros j Hj; rewrite Hother2, Hp1, Hp0 by assumption; reflexivity|].
    split; [congruence|].
    intros k. destruct (get_value_root k t2 f _ l1 H2) as (t3 & Hget3 & _).
    exists t3. rewrite Hget3, Hkeys. reflexivity.
Qed.

(** X23: [Remove] on a tree that is one leaf with strictly increasing
    keys, the root page being resident.  It returns without any
    rebalancing; [GetValue] then misses the key and finds for every
    other key what the leaf had.  The root page is kept even when its
    last key goes: the tree does not become empty again.  The frame of
    the root keeps its pin count and its dirty flag; no other frame
    changes and nothing is written to disk. *)
Theorem tree_leaf_remove_get (t : BPT.BPlusTree V) f page l key :
  root_leaf t f page l ->
  Node.l_parent_page_id_ V l = -1 -> Node.l_array_ V l <> [] ->
  ascending (map fst (Node.l_array_ V l)) ->
  exists t1 l1,
    BPT.Remove V fuel key t = Ret (BPT.Untouched, t1) /\
    Node.Leaf_Remove V key l = Ret l1 /\
    root_leaf t1 f (BPM.mkPage (Node.Leaf l1) (BPM.page_id_ page)
                      (BPM.pin_count_ page) (BPM.is_dirty_ page)) l1 /\
    BPT.IsEmpty V t1 = false /\
    (forall j, j <> f ->
               lookupZ (BPM.pages_ (BPT.buffer_pool_manager_ V t1)) j
               = lookupZ (BPM.pages_ (BPT.buffer_pool_manager_ V t)) j) /\
    BPM.disk_manager_ (BPT.buffer_pool_manager_ V t1)
    = BPM.disk_manager_ (BPT.buffer_pool_manager_ V t) /\
    forall k, exists t2,
      BPT.GetValue V fuel k t1
      = Ret (if decide (k = key) then None else Node.FindKey V k l, t2).
Proof.
  intros H Hparent Hne Hasc.
  assert (Hroot : (BPT.root_page_id_ V t =? -1) = false).
  { destruct H as (_ & _ & Hroot & _). apply Z.eqb_neq. lia. }
  unfold BPT.Remove, BPT.IsEmpty. rewrite Hroot.
  destruct (find_leaf_root key t f page l H) as (t1 & Hfind & H1 & Hsame1).
  rewrite Hfind. simpl.
  assert (Hpage1 : BPT.page_at V f t1 = Ret (Node.Leaf l)).
  { destruct H1 as (_ & _ & _ & _ & Hpage1 & Hdata1).
    unfold BPT.page_at, BPM.GetData. rewrite Hpage1. simpl.
    rewrite Hdata1. reflexivity. }
  unfold BPT.size_at, BPT.leaf_at. rewrite Hpage1. simpl.
  destruct (Node.l_array_ V l) as [|[k0 v0] rest] eqn:Harr; [congruence|].
  unfold Node.size_of. simpl length.
  replace (0 <? Z.of_nat (S (length rest))) with true
    by (symmetry; apply Z.ltb_lt; lia).
  simpl. unfold Node.Leaf_KeyAt, Node.at_. rewrite Harr. simpl.
  destruct (leaf_remove_find l key) as (l1 & Hrem & Hkeys & Hpar1);
    [rewrite Harr; exact Hasc|].
  rewrite Hrem. simpl.
  destruct (put_leaf_root t1 f page l l1 H1)
    as (t2 & Hput & H2 & Hroot2 & Hmax2 & Hother2 & Hdisk2).
  rewrite Hput. simpl.
  assert (His : BPT.is_root_at V f t2 = Ret true).
  { destruct H2 as (_ & _ & _ & _ & Hpage2 & _).
    unfold BPT.is_root_at, BPT.page_at, BPM.GetData. rewrite Hpage2. simpl.
    unfold Node.IsRootPage. simpl. rewrite Hpar1, Hparent. reflexivity. }
  rewrite His. simpl.
  destruct Hsame1 as (Hr1 & Hm1 & Hp1 & _ & _ & Hd1).
  exists t2, l1. split; [reflexivity|]. split; [reflexivity|].
  split; [assumption|].
  split; [rewrite Hroot2, Hr1; exact Hroot|].
  split; [intros j Hj; rewrite Hother2, Hp1 by assumption; reflexivity|].
  split; [congruence|].
  intros k. destruct (get_value_root k t2 f _ l1 H2) as (t3 & Hget3 & _).
  exists t3. rewrite Hget3, Hkeys. reflexivity.
Qed.

End TreeProperties.

(** A tree of one leaf with the keys 1, 3: the root is page 0, pinned
    once, in frame 2 of a pool of three frames. *)
Definition root_13 : Node.LeafPage Z :=
  Node.mkLeaf 0 (-1) 4 (-1) [(1, 10); (3, 30)].

Definition tree_pool_new : BPM.BufferPoolManagerInstance (Node.PageData Z) :=
  after_call Node.Zeroed 32 CallNew (BPM.new_bpm Node.Zeroed 3 2).

Definition tree_pool : BPM.BufferPoolManagerInstance (Node.PageData Z) :=
  match BPM.SetData 2 (Node.Leaf root_13) tree_pool_new with
  | Ret b => b
  | _ => tree_pool_new
  end.

Definition tree_13 : BPT.BPlusTree Z := BPT.mkTree Z "index" 0 tree_pool 4 4.

Definition tree_13_page : BPM.Page (Node.PageData Z) :=
  BPM.mkPage (Node.Leaf root_13) 0 1 false.

Lemma tree_13_root_leaf : root_leaf tree_13 2 tree_13_page root_13.
Proof.
  assert (H0 : pool_consistent tree_pool_new /\
               BPM.next_page_id_ tree_pool_new <= 2 ^ 31).
  { apply after_call_consistent; [lia| |simpl; lia].
    split; [apply (pool_consistent_new Node.Zeroed); lia | simpl; lia]. }
  destruct H0 as [H0 _].
  destruct (set_data_step 2 (Node.Leaf root_13) tree_pool_new
              (BPM.mkPage Node.Zeroed 0 1 false) H0)
    as (b' & Hret & H' & _); [vm_compute; reflexivity|].
  unfold root_leaf, tree_13. simpl. unfold tree_pool. rewrite Hret.
  split; [exact H'|].
  assert (Hb : b' = tree_pool)
    by (unfold tree_pool; rewrite Hret; reflexivity).
  rewrite Hb. split; [vm_compute; discriminate|].
  split; [vm_compute; split; [discriminate | reflexivity]|].
  split; [vm_compute; reflexivity|]. split; vm_compute; reflexivity.
Qed.

Lemma tree_leaf_insert_get_witness :
  match Node.FindKey Z 2 root_13 with
  | Some _ =>
      exists t', BPT.Insert Z 32 2 20 tree_13 = Ret (false, t') /\
                 root_leaf t' 2 tree_13_page root_13 /\ same_frames tree_13 t'
  | None =>
      exists t1 l1,
        BPT.Insert Z 32 2 20 tree_13 = Ret (true, t1) /\
        Node.Leaf_Insert Z 2 20 root_13 = Ret l1 /\
        root_leaf t1 2 (BPM.mkPage (Node.Leaf l1) (BPM.page_id_ tree_13_page)
                          (BPM.pin_count_ tree_13_page)
                          (BPM.is_dirty_ tree_13_page)) l1 /\
        (forall j, j <> 2 ->
                   lookupZ (BPM.pages_ (BPT.buffer_pool_manager_ Z t1)) j
                   = lookupZ (BPM.pages_ (BPT.buffer_pool_manager_ Z tree_13)) j) /\
        BPM.disk_manager_ (BPT.buffer_pool_manager_ Z t1)
        = BPM.disk_manager_ (BPT.buffer_pool_manager_ Z tree_13) /\
        forall k, exists t2,
          BPT.GetValue Z 32 k t1
          = Ret (if decide (k = 2) then Some 20 else Node.FindKey Z k root_13, t2)
  end.
Proof.
  apply (tree_leaf_insert_get 32 ltac:(lia) tree_13 2 tree_13_page root_13 2 20).
  - exact tree_13_root_leaf.
  - vm_compute. reflexivity.
Defined.

Lemma tree_leaf_remove_get_witness :
  exists t1 l1,
    BPT.Remove Z 32 3 tree_13 = Ret (BPT.Untouched, t1) /\
    Node.Leaf_Remove Z 3 root_13 = Ret l1 /\
    root_leaf t1 2 (BPM.mkPage (Node.Leaf l1) (BPM.page_id_ tree_13_page)
                      (BPM.pin_count_ tree_13_page)
                      (BPM.is_dirty_ tree_13_page)) l1 /\
    BPT.IsEmpty Z t1 = false /\
    (forall j, j <> 2 ->
               lookupZ (BPM.pages_ (BPT.buffer_pool_manager_ Z t1)) j
               = lookupZ (BPM.pages_ (BPT.buffer_pool_manager_ Z tree_13)) j) /\
    BPM.disk_manager_ (BPT.buffer_pool_manager_ Z t1)
    = BPM.disk_manager_ (BPT.buffer_pool_manager_ Z tree_13) /\
    forall k, exists t2,
      BPT.GetValue Z 32 k t1
      = Ret (if decide (k = 3) then None else Node.FindKey Z k root_13, t2).
Proof.
  apply (tree_leaf_remove_get 32 ltac:(lia) tree_13 2 tree_13_page root_13 3).
  - exact tree_13_root_leaf.
  - reflexivity.
  - simpl. discriminate.
  - simpl. repeat constructor; lia.
Defined.

(** ** Buffer pool manager: a page that is evicted and fetched again *)

Section PoolWriteBack.
Context {D : Type}.
Variable zero : D.
Variable fuel : nat.
Hypothesis fuel_enough : (31 < fuel)%nat.

Lemma read_after_write p q (d : D) dm :
  BPM.ReadPage zero p (BPM.WritePage q d dm)
  = if q =? p then d else BPM.ReadPage zero p dm.
Proof. reflexivity. Qed.

(** The disk after a [FetchPgImp] that loaded the page: as before, or
    with the page that gave way written to it. *)
Lemma fetch_page_disk p (b : BPM.BufferPoolManagerInstance D) f b' :
  EHT.Find BPM.hash_page_id p (BPM.page_table_ b) = None ->
  BPM.FetchPgImp zero fuel p b = Ret (Some f, b') ->
  BPM.disk_manager_ b' = BPM.disk_manager_ b \/
  BPM.free_list_ b = [] /\
  exists old,
    lookupZ (BPM.pages_ b) f = Some old /\
    BPM.disk_manager_ b'
    = BPM.WritePage (BPM.page_id_ old) (BPM.data_ old) (BPM.disk_manager_ b).
Proof.
  intros Hfind H. unfold BPM.FetchPgImp in H. rewrite Hfind in H.
  bind_inv H. destruct a as [fo b1]. destruct fo as [f'|]; [|discriminate].
  bind_inv H. injection H as <- <-. rename a into b2.
  apply BPM.install_Ret in E0 as (_ & _ & _ & _ & Hdisk & _).
  apply BPM.take_frame_Ret in E
    as [(_ & _ & Hfo & _)
       |[(Hfree & g & old & Hfo & _ & Hold & Hd & _)|(_ & _ & ->)]];
    [discriminate | | left; rewrite Hdisk; reflexivity].
  injection Hfo as <-. rewrite Hdisk, Hd.
  destruct (BPM.is_dirty_ old); [right; eauto | left; reflexivity].
Qed.

(** X24: a page that gives way to a new page, and is fetched again.
    When [NewPgImp] takes the frame of the resident page [p], the page
    is written to disk under its id exactly when its dirty flag is
    set, and is no longer resident.  The next [FetchPgImp] of [p]
    returns, and the page it loads holds the bytes the frame had if
    the flag was set, and the bytes the disk had for [p] before if it
    was not: changes to a page that was never unpinned as dirty are
    lost. *)
Theorem evicted_page_comes_back b p f page id b1 :
  pool_consistent b -> BPM.next_page_id_ b < 2 ^ 31 ->
  resident p f b -> lookupZ (BPM.pages_ b) f = Some page ->
  BPM.NewPgImp zero fuel b = Ret (Some (id, f), b1) ->
  BPM.pin_count_ page = 0 /\
  BPM.disk_manager_ b1
  = (if BPM.is_dirty_ page
     then BPM.WritePage p (BPM.data_ page) (BPM.disk_manager_ b)
     else BPM.disk_manager_ b) /\
  (forall f', ~ resident p f' b1) /\
  exists fo b2,
    BPM.FetchPgImp zero fuel p b1 = Ret (fo, b2) /\
    forall f2, fo = Some f2 ->
      lookupZ (BPM.pages_ b2) f2
      = Some (BPM.mkPage
                (if BPM.is_dirty_ page then BPM.data_ page
                 else BPM.ReadPage zero p (BPM.disk_manager_ b))
                p 1 false).
Proof.
  intros H Hnext Hres Hpage Hnew.
  pose proof (pc_inv b H) as Hinv. pose proof (pi_wf b Hinv) as Hwf.
  destruct (pi_resident b Hinv p f Hres) as (Hid & pg & _ & Hpg & Hpid & _).
  assert (pg = page) by congruence. subst pg.
  pose proof (pc_alloc b H p f Hres) as Halloc.
  destruct (new_page_returned zero fuel b (BPM.pw_replacer b Hwf)) as [_ Hret].
  destruct (Hret id f b1 Hnew) as (_ & _ & Hcase).
  assert (Hdisk : BPM.free_list_ b = [] /\
                  BPM.disk_manager_ b1
                  = if BPM.is_dirty_ page
                    then BPM.WritePage p (BPM.data_ page) (BPM.disk_manager_ b)
                    else BPM.disk_manager_ b).
  { destruct Hcase as [(Hne & Hlast & _)|(Hfree & _ & old & Hold & Hd)].
    - exfalso. apply (resident_not_free b p f Hinv Hres). rewrite Hlast.
      rewrite (app_removelast_last 0 Hne) at 2.
      apply in_or_app. right. left. reflexivity.
    - assert (old = page) by congruence. subst old. rewrite Hpid in Hd. auto. }
  destruct Hdisk as [Hfree Hdisk].
  destruct (new_page_step zero fuel fuel_enough b H Hnext)
    as (res & b1' & Hnew' & H1 & _ & Hpost).
  rewrite Hnew in Hnew'. injection Hnew' as <- <-.
  destruct Hpost as (-> & Hnx1 & (old & Hold & Hpin) & _ & _ & Hnewres & Hkeep).
  assert (old = page) by congruence. subst old.
  assert (Hgone : forall f', ~ resident p f' b1).
  { intros f' Hr. destruct (Z.eq_dec f' f) as [->|Hf'].
    - pose proof (resident_frame_page b1 _ _ f (pc_inv b1 H1) Hr Hnewres). lia.
    - apply Hkeep in Hr; [|assumption]. unfold resident in *. congruence. }
  split; [assumption|]. split; [assumption|]. split; [assumption|].
  destruct (fetch_page_step zero fuel fuel_enough p b1 H1)
    as (fo & b2 & Hfetch & H2 & _ & _ & Hpost2);
    [unfold BPM.is_page_id in Hid; lia | lia |].
  exists fo, b2. split; [assumption|]. intros f2 ->.
  destruct Hpost2 as (_ & _ & _ & old2 & Hold2 & Hcase2).
  assert (Hnone : EHT.Find BPM.hash_page_id p (BPM.page_table_ b1) = None).
  { destruct (EHT.Find BPM.hash_page_id p (BPM.page_table_ b1)) as [g|] eqn:E;
      [destruct (Hgone g E) | reflexivity]. }
  rewrite Hnone in Hcase2. destruct Hcase2 as (_ & Hloaded).
  rewrite Hloaded. f_equal. f_equal.
  assert (Hread : BPM.ReadPage zero p (BPM.disk_manager_ b2)
                  = BPM.ReadPage zero p (BPM.disk_manager_ b1)).
  { destruct (fetch_page_disk p b1 f2 b2 Hnone Hfetch)
      as [->|(Hfree1 & old3 & Hold3 & ->)]; [reflexivity|].
    rewrite read_after_write.
    destruct (BPM.page_id_ old3 =? p) eqn:E; [|reflexivity].
    apply Z.eqb_eq in E. exfalso.
    destruct (pc_frames b1 H1 f2 old3 Hold3) as [Hin|Hr].
    - rewrite Hfree1 in Hin. destruct Hin.
    - rewrite E in Hr. apply (Hgone f2 Hr). }
  rewrite Hread, Hdisk. destruct (BPM.is_dirty_ page); [|reflexivity].
  rewrite read_after_write, Z.eqb_refl. reflexivity.
Qed.

End PoolWriteBack.

(** A pool of one frame: page 0 is created, written to (the integer
    7), and unpinned as dirty; then [NewPgImp] takes its frame. *)
Definition pool_written : BPM.BufferPoolManagerInstance Z :=
  match BPM.SetData 0 7 (after_call 0 32 CallNew (BPM.new_bpm 0 1 2)) with
  | Ret b => b
  | _ => BPM.new_bpm 0 1 2
  end.

Definition pool_dirty : BPM.BufferPoolManagerInstance Z :=
  after_call 0 32 (CallUnpin 0 true) pool_written.

Definition pool_evicted : BPM.BufferPoolManagerInstance Z :=
  after_call 0 32 CallNew pool_dirty.

Lemma pool_dirty_consistent :
  pool_consistent pool_dirty /\ BPM.next_page_id_ pool_dirty <= 2 ^ 31.
Proof.
  assert (H0 : pool_consistent (after_call 0 32 CallNew (BPM.new_bpm 0 1 2)) /\
               BPM.next_page_id_ (after_call 0 32 CallNew (BPM.new_bpm 0 1 2))
               <= 2 ^ 31).
  { apply after_call_consistent; [lia| |simpl; lia].
    split; [apply (pool_consistent_new 0); lia | simpl; lia]. }
  destruct H0 as [H0 Hn0].
  destruct (set_data_step 0 7 _ (BPM.mkPage 0 0 1 false) H0)
    as (b' & Hret & H' & _ & _ & _ & Hnx & _); [vm_compute; reflexivity|].
  assert (Hb : b' = pool_written)
    by (unfold pool_written; rewrite Hret; reflexivity).
  subst b'. apply after_call_consistent; [lia | split | exact I].
  - exact H'.
  - rewrite Hnx. exact Hn0.
Qed.

Lemma evicted_page_comes_back_witness :
  BPM.pin_count_ (BPM.mkPage 7 0 0 true) = 0 /\
  BPM.disk_manager_ pool_evicted
  = (if BPM.is_dirty_ (BPM.mkPage 7 0 0 true)
     then BPM.WritePage 0 (BPM.data_ (BPM.mkPage 7 0 0 true))
            (BPM.disk_manager_ pool_dirty)
     else BPM.disk_manager_ pool_dirty) /\
  (forall f', ~ resident 0 f' pool_evicted) /\
  exists fo b2,
    BPM.FetchPgImp 0 32 0 pool_evicted = Ret (fo, b2) /\
    forall f2, fo = Some f2 ->
      lookupZ (BPM.pages_ b2) f2
      = Some (BPM.mkPage
                (if BPM.is_dirty_ (BPM.mkPage 7 0 0 true)
                 then BPM.data_ (BPM.mkPage 7 0 0 true)
                 else BPM.ReadPage 0 0 (BPM.disk_manager_ pool_dirty))
                0 1 false).
Proof.
  apply (evicted_page_comes_back 0 32 ltac:(lia) pool_dirty 0 0
           (BPM.mkPage 7 0 0 true) 1 pool_evicted).
  - apply pool_dirty_consistent.
  - vm_compute. reflexivity.
  - vm_compute. reflexivity.
  - vm_compute. reflexivity.
  - vm_compute. reflexivity.
Defined.

(** ** B+ tree: iterators over a tree that is one leaf *)

Lemma filter_from_index {V} key (a : list (Z * V)) (n : nat) :
  ascending (map fst a) ->
  Forall (fun e => fst e < key) (firstn n a) ->
  match skipn n a with [] => True | e :: _ => key <= fst e end ->
  List.filter (fun e => key <=? fst e) a = skipn n a.
Proof.
  intros Hasc Hlt Hge. rewrite <- (firstn_skipn n a) at 1.
  rewrite <- (firstn_skipn n a), map_app in Hasc.
  apply ascending_app in Hasc as (_ & Hasc & _).
  rewrite List.filter_app.
  assert (H1 : List.filter (fun e => key <=? fst e) (firstn n a) = []).
  { induction (firstn n a) as [|e r IH]; [reflexivity|].
    apply Forall_cons in Hlt as [He Hr]. simpl.
    destruct (key <=? fst e) eqn:E; [apply Z.leb_le in E; lia | auto]. }
  rewrite H1. simpl.
  assert (H2 : Forall (fun e => key <= fst e) (skipn n a)).
  { destruct (skipn n a) as [|e r]; [constructor|]. simpl in Hasc.
    destruct Hasc as [Hall _]. constructor; [assumption|].
    rewrite Forall_forall in Hall. apply Forall_forall. intros x Hx.
    assert (fst e < fst x); [|lia].
    apply Hall. apply list_elem_of_In, in_map, list_elem_of_In. assumption. }
  clear Hasc Hge. revert H2.
  induction (skipn n a) as [|e r IH]; intros H2; [reflexivity|].
  apply Forall_cons in H2 as [He Hr]. simpl.
  destruct (key <=? fst e) eqn:E; [|apply Z.leb_gt in E; lia].
  f_equal. apply IH. assumption.
Qed.

Section TreeScan.
Context {V : Type}.
Variable fuel : nat.
Hypothesis fuel_enough : (31 < fuel)%nat.

(** [FetchPage] of the root, a look at the leaf, [UnpinPage]: what
    [Begin] and [End] do on a tree that is one leaf. *)
Lemma visit_root rightmost (t : BPT.BPlusTree V) f page l :
  root_leaf t f page l ->
  exists t',
    (let* (root_page, t0) := BPT.FetchPage V fuel (BPT.root_page_id_ V t) t in
     let* (cur_node, t0) := BPT.descend_edge V fuel fuel rightmost root_page t0 in
     let* t0 := BPT.UnpinPage V (BPT.root_page_id_ V t0) false t0 in
     Ret (cur_node, t0)) = Ret (f, t') /\
    root_leaf t' f page l /\ same_frames t t'.
Proof.
  intros (H & Hnext & Hroot & Hres & Hpage & Hdata).
  destruct t as [name root b lmax imax]. simpl in *.
  unfold BPT.FetchPage. simpl.
  destruct (fetch_page_step Node.Zeroed fuel fuel_enough root b H Hroot Hnext)
    as (fo & b1 & Hret & H1 & _ & Hnx1 & Hpost).
  rewrite Hret. simpl. unfold resident in Hres.
  destruct fo as [f'|]; [|destruct Hpost as (_ & Hno & _); destruct (Hno f Hres)].
  destruct Hpost as (_ & Hother1 & _ & page0 & Hpage0 & Hcase).
  rewrite Hres in Hcase. destruct Hcase as (-> & Hthis1 & Htab1 & Hfree1 & Hdisk1).
  assert (page0 = page) by congruence. subst page0. simpl.
  assert (Hleaf : forall n, (0 < n)%nat ->
            BPT.descend_edge V fuel n rightmost f
              (BPT.mkTree V name root b1 lmax imax)
            = Ret (f, BPT.mkTree V name root b1 lmax imax)).
  { intros n Hn. destruct n as [|n]; [lia|]. simpl.
    unfold BPT.is_leaf_at, BPT.page_at, BPM.GetData. simpl.
    rewrite Hthis1. simpl. rewrite Hdata. reflexivity. }
  unfold BPT.set_bpm. simpl. rewrite Hleaf by lia. simpl.
  unfold BPT.UnpinPage. simpl.
  destruct (unpin_page_step root false b1 H1)
    as (ok & b2 & Hret2 & H2 & _ & Hnx2 & Htab2 & Hfree2 & Hdisk2 & Hpost2).
  rewrite Hret2. simpl. rewrite Htab1, Hres in Hpost2.
  destruct Hpost2 as (page1 & Hpage1 & Hcase2).
  rewrite Hthis1 in Hpage1. injection Hpage1 as <-. simpl in Hcase2.
  pose proof (pi_pins b (pc_inv b H) f page Hpage) as Hpin.
  destruct (BPM.pin_count_ page + 1 =? 0) eqn:E; [apply Z.eqb_eq in E; lia|].
  destruct Hcase2 as (_ & Hthis2 & Hother2 & _).
  destruct (pi_resident b (pc_inv b H) root f Hres)
    as (_ & pg & _ & Hpg & Hpid & _).
  assert (pg = page) by congruence. subst pg.
  assert (Hsame : forall j, lookupZ (BPM.pages_ b2) j = lookupZ (BPM.pages_ b) j).
  { intros j. destruct (Z.eq_dec j f) as [->|Hj].
    - rewrite Hthis2, Hpage. f_equal. destruct page; simpl in *. f_equal; lia.
    - rewrite Hother2, Hother1 by assumption. reflexivity. }
  eexists. split; [reflexivity|]. split.
  - unfold root_leaf. simpl. split; [assumption|]. split; [lia|].
    split; [lia|]. split; [unfold resident; congruence|].
    split; [rewrite Hsame; assumption | assumption].
  - unfold same_frames. simpl. repeat split; try assumption; congruence.
Qed.

(** X25: iterators over a tree that is one leaf, the root page being
    resident.  [Begin], [Begin(key)] and [End] return and leave every
    frame as it was (no pin is held).  A scan from [Begin] returns the
    entries of the leaf in order; a scan from [Begin(key)], the keys
    being strictly increasing, returns exactly the entries whose key
    is not below [key]; the iterator of [End] is at the end. *)
Theorem tree_leaf_scan (t : BPT.BPlusTree V) f page l (n : nat) :
  root_leaf t f page l -> Node.GetNextPageId V l = -1 ->
  (length (Node.l_array_ V l) < n)%nat ->
  (exists it t',
     BPT.Begin V fuel t = Ret (it, t') /\ same_frames t t' /\
     BPT.scan V fuel n it (BPT.buffer_pool_manager_ V t')
     = Ret (Node.l_array_ V l, BPT.buffer_pool_manager_ V t')) /\
  (forall key,
     ascending (map fst (Node.l_array_ V l)) ->
     exists it t',
       BPT.Begin_at V fuel key t = Ret (it, t') /\ same_frames t t' /\
       BPT.scan V fuel n it (BPT.buffer_pool_manager_ V t')
       = Ret (List.filter (fun e => key <=? fst e) (Node.l_array_ V l),
              BPT.buffer_pool_manager_ V t')) /\
  (exists it t',
     BPT.End V fuel t = Ret (it, t') /\ same_frames t t' /\
     BPT.IsEnd V it (BPT.buffer_pool_manager_ V t') = Ret true).
Proof.
  intros H Hlast Hn.
  assert (Hroot : negb (BPT.IsEmpty V t) = true).
  { destruct H as (_ & _ & Hroot & _). unfold BPT.IsEmpty.
    apply negb_true_iff, Z.eqb_neq. lia. }
  assert (Hleaf : forall t' i,
            root_leaf t' f page l ->
            BPT.iterator_leaf V (BPT.mkIterator f i) (BPT.buffer_pool_manager_ V t')
            = Ret l).
  { intros t' i (_ & _ & _ & _ & Hpage & Hdata).
    unfold BPT.iterator_leaf, BPM.GetData. simpl. rewrite Hpage. simpl.
    rewrite Hdata. reflexivity. }
  split; [|split].
  - destruct (visit_root false t f page l H) as (t' & Hvisit & H' & Hsame).
    unfold BPT.Begin. rewrite Hroot. simpl.
    simpl in Hvisit.
    destruct (BPT.FetchPage V fuel (BPT.root_page_id_ V t) t) as [[rp t0]| | |];
      try discriminate. simpl in *.
    destruct (BPT.descend_edge V fuel fuel false rp t0) as [[cur t1]| | |];
      try discriminate. simpl in *.
    destruct (BPT.UnpinPage V (BPT.root_page_id_ V t1) false t1) as [t2| | |];
      try discriminate. simpl in *.
    injection Hvisit as -> ->.
    eexists _, t'. split; [reflexivity|]. split; [assumption|].
    apply (scan_last_leaf_from fuel n f _ l Hlast 0%nat);
      [apply (Hleaf t' 0 H') | simpl; assumption].
  - intros key Hasc.
    destruct (find_leaf_root fuel fuel_enough key t f page l H)
      as (t' & Hfind & H' & Hsame).
    unfold BPT.Begin_at. rewrite Hroot. simpl. rewrite Hfind. simpl.
    assert (Hl : BPT.leaf_at V f t' = Ret l).
    { destruct H' as (_ & _ & _ & _ & Hpage & Hdata).
      unfold BPT.leaf_at, BPT.page_at, BPM.GetData. rewrite Hpage. simpl.
      rewrite Hdata. reflexivity. }
    rewrite Hl. simpl. eexists _, t'. split; [reflexivity|].
    split; [assumption|].
    destruct (leaf_find_index_spec key (Node.l_array_ V l) 0)
      as (i & Hi & Hle & Hlt & Hge).
    rewrite Z.add_0_l in Hi. unfold Node.Leaf_FindIndex. rewrite Hi.
    rewrite (filter_from_index key _ i Hasc Hlt Hge).
    apply (scan_last_leaf_from fuel n f _ l Hlast i);
      [apply (Hleaf t' _ H') | rewrite length_skipn; lia].
  - destruct (visit_root true t f page l H) as (t' & Hvisit & H' & Hsame).
    unfold BPT.End. rewrite Hroot. simpl.
    simpl in Hvisit.
    destruct (BPT.FetchPage V fuel (BPT.root_page_id_ V t) t) as [[rp t0]| | |];
      try discriminate. simpl in *.
    destruct (BPT.descend_edge V fuel fuel true rp t0) as [[cur t1]| | |];
      try discriminate. simpl in *.
    destruct (BPT.UnpinPage V (BPT.root_page_id_ V t1) false t1) as [t2| | |];
      try discriminate. simpl in *.
    injection Hvisit as -> ->.
    assert (Hsz : BPT.size_at V f t' = Ret (Node.size_of (Node.l_array_ V l))).
    { destruct H' as (_ & _ & _ & _ & Hpage & Hdata).
      unfold BPT.size_at, BPT.page_at, BPM.GetData. rewrite Hpage. simpl.
      rewrite Hdata. reflexivity. }
    rewrite Hsz. simpl. eexists _, t'. split; [reflexivity|].
    split; [assumption|].
    unfold BPT.IsEnd. rewrite (Hleaf t' _ H'). simpl. rewrite Hlast.
    replace (Node.size_of (Node.l_array_ V l)
             <=? Node.size_of (Node.l_array_ V l) - 1 + 1)
      with true by (symmetry; apply Z.leb_le; lia).
    reflexivity.
Qed.

End TreeScan.

Lemma tree_leaf_scan_witness :
  (exists it t',
     BPT.Begin Z 32 tree_13 = Ret (it, t') /\ same_frames tree_13 t' /\
     BPT.scan Z 32 3 it (BPT.buffer_pool_manager_ Z t')
     = Ret (Node.l_array_ Z root_13, BPT.buffer_pool_manager_ Z t')) /\
  (forall key,
     ascending (map fst (Node.l_array_ Z root_13)) ->
     exists it t',
       BPT.Begin_at Z 32 key tree_13 = Ret (it, t') /\ same_frames tree_13 t' /\
       BPT.scan Z 32 3 it (BPT.buffer_pool_manager_ Z t')
       = Ret (List.filter (fun e => key <=? fst e) (Node.l_array_ Z root_13),
              BPT.buffer_pool_manager_ Z t')) /\
  (exists it t',
     BPT.End Z 32 tree_13 = Ret (it, t') /\ same_frames tree_13 t' /\
     BPT.IsEnd Z it (BPT.buffer_pool_manager_ Z t') = Ret true).
Proof.
  apply (tree_leaf_scan 32 ltac:(lia) tree_13 2 tree_13_page root_13 3).
  - exact tree_13_root_leaf.
  - reflexivity.
  - simpl. lia.
Defined.

(** ** Buffer pool manager: flushing *)

Section PoolFlush.
Context {D : Type}.
Variable zero : D.

(** [FlushAllPgsImp] (lines 352-357 of the same file): one turn of
    its loop writes frame [i] to disk under the page id the frame
    holds and clears its dirty flag. *)
Definition flush_frame (b : BPM.BufferPoolManagerInstance D) (i : Z)
  : outcome (BPM.BufferPoolManagerInstance D) :=
  let* page := deref (lookupZ (BPM.pages_ b) i) in
  let b := BPM.set_disk b (BPM.WritePage (BPM.page_id_ page) (BPM.data_ page)
                             (BPM.disk_manager_ b)) in
  let* ps := storeZ (BPM.pages_ b) i
               (BPM.mkPage (BPM.data_ page) (BPM.page_id_ page)
                  (BPM.pin_count_ page) false) in
  Ret (BPM.set_pages b ps).

Fixpoint flush_frames (idx : list Z) (b : BPM.BufferPoolManagerInstance D)
  : outcome (BPM.BufferPoolManagerInstance D) :=
  match idx with
  | [] => Ret b
  | i :: rest => let* b := flush_frame b i in flush_frames rest b
  end.

Definition FlushAllPgsImp (b : BPM.BufferPoolManagerInstance D)
  : outcome (BPM.BufferPoolManagerInstance D) :=
  flush_frames (EHT.iota (BPM.pool_size_ b)) b.

Definition clean (page : BPM.Page D) : BPM.Page D :=
  BPM.mkPage (BPM.data_ page) (BPM.page_id_ page) (BPM.pin_count_ page) false.

Lemma flush_frame_step b i :
  pool_consistent b -> BPM.in_pool (BPM.pool_size_ b) i ->
  exists b1 page,
    lookupZ (BPM.pages_ b) i = Some page /\
    flush_frame b i = Ret b1 /\ pool_consistent b1 /\
    BPM.pool_size_ b1 = BPM.pool_size_ b /\
    BPM.page_table_ b1 = BPM.page_table_ b /\
    BPM.free_list_ b1 = BPM.free_list_ b /\
    BPM.replacer_ b1 = BPM.replacer_ b /\
    BPM.next_page_id_ b1 = BPM.next_page_id_ b /\
    lookupZ (BPM.pages_ b1) i = Some (clean page) /\
    (forall j, j <> i -> lookupZ (BPM.pages_ b1) j = lookupZ (BPM.pages_ b) j) /\
    BPM.disk_manager_ b1
    = BPM.WritePage (BPM.page_id_ page) (BPM.data_ page) (BPM.disk_manager_ b).
Proof.
  intros H Hi. pose proof (pc_inv b H) as Hinv.
  destruct (pool_frame_page b i (pi_wf b Hinv) Hi) as (Hrange & page & Hpage).
  unfold flush_frame. rewrite Hpage. simpl.
  rewrite storeZ_in_range by assumption. simpl.
  eexists _, page. split; [reflexivity|]. split; [reflexivity|].
  assert (Hs : same_keys (<[Z.to_nat i := clean page]> (BPM.pages_ b))
                 (BPM.pages_ b))
    by (apply (same_keys_insert _ _ page); [assumption | reflexivity]).
  assert (Hpages : forall j,
             lookupZ (<[Z.to_nat i := clean page]> (BPM.pages_ b)) j
             = if j =? i then Some (clean page) else lookupZ (BPM.pages_ b) j)
    by (intros j; apply lookupZ_insert; assumption).
  split; [|simpl; repeat split; try reflexivity].
  - split.
    + apply (pool_inv_pages b _ _ Hinv Hs).
    + intros j pg. simpl. intros Hpg.
      destruct (same_keys_page _ _ _ _ Hs Hpg) as (pg0 & Hpg0 & Hid & _).
      rewrite <- Hid.
      destruct (pc_frames b H j pg0 Hpg0); [left | right]; assumption.
    + apply (pc_alloc b H).
  - fold (clean page). rewrite Hpages, Z.eqb_refl. reflexivity.
  - intros j Hj. fold (clean page). rewrite Hpages.
    destruct (j =? i) eqn:E; [apply Z.eqb_eq in E; congruence | reflexivity].
Qed.

Lemma flush_frames_spec idx :
  List.NoDup idx ->
  forall b,
    pool_consistent b -> Forall (BPM.in_pool (BPM.pool_size_ b)) idx ->
    exists b',
      flush_frames idx b = Ret b' /\ pool_consistent b' /\
      BPM.pool_size_ b' = BPM.pool_size_ b /\
      BPM.page_table_ b' = BPM.page_table_ b /\
      BPM.free_list_ b' = BPM.free_list_ b /\
      BPM.replacer_ b' = BPM.replacer_ b /\
      BPM.next_page_id_ b' = BPM.next_page_id_ b /\
      (forall j page,
         lookupZ (BPM.pages_ b) j = Some page ->
         lookupZ (BPM.pages_ b') j
         = Some (if in_dec Z.eq_dec j idx then clean page else page)) /\
      (forall p f page,
         resident p f b -> lookupZ (BPM.pages_ b) f = Some page ->
         BPM.ReadPage zero p (BPM.disk_manager_ b')
         = if in_dec Z.eq_dec f idx then BPM.data_ page
           else BPM.ReadPage zero p (BPM.disk_manager_ b)) /\
      (forall e, In e (BPM.written (BPM.disk_manager_ b)) ->
                 In e (BPM.written (BPM.disk_manager_ b'))) /\
      (forall f, In f idx -> In f (BPM.free_list_ b) ->
                 In BPM.INVALID_PAGE_ID
                   (map fst (BPM.written (BPM.disk_manager_ b')))).
Proof.
  induction idx as [|i rest IH]; intros Hnd b H Hall.
  - exists b. split; [reflexivity|]. split; [assumption|].
    repeat (split; [reflexivity|]).
    split; [intros j page Hp; simpl; assumption|].
    split; [intros; reflexivity|]. split; [auto|]. intros f [].
  - apply List.NoDup_cons_iff in Hnd as [Hi Hnd].
    apply Forall_cons in Hall as [Hin Hall].
    destruct (flush_frame_step b i H Hin)
      as (b1 & pgi & Hpgi & Hret & H1 & Hsz1 & Htab1 & Hfl1 & Hrp1 & Hnx1
          & Hthis1 & Hother1 & Hdisk1).
    assert (Hstep : flush_frames (i :: rest) b = flush_frames rest b1)
      by (simpl; rewrite Hret; reflexivity).
    rewrite Hstep.
    destruct (IH Hnd b1 H1) as (b' & Hrun & H' & Hsz & Htab & Hfl & Hrp & Hnx
                                & Hpages & Hread & Hmono & Hfree);
      [rewrite Hsz1; assumption|].
    exists b'. split; [assumption|]. split; [assumption|].
    split; [congruence|]. split; [congruence|]. split; [congruence|].
    split; [congruence|]. split; [congruence|].
    pose proof (pc_inv b H) as Hinv.
    split; [|split; [|split; [|]]].
    + intros j page Hpage. destruct (Z.eq_dec j i) as [->|Hj].
      * rewrite (Hpages i _ Hthis1).
        assert (pgi = page) by congruence. subst pgi.
        destruct (in_dec Z.eq_dec i rest); [contradiction|].
        destruct (in_dec Z.eq_dec i (i :: rest)) as [_|Hn];
          [reflexivity | destruct Hn; left; reflexivity].
      * rewrite (Hpages j page) by (rewrite Hother1; assumption).
        destruct (in_dec Z.eq_dec j rest) as [Hr|Hr];
          destruct (in_dec Z.eq_dec j (i :: rest)) as [Hc|Hc];
          try reflexivity.
        -- destruct Hc. right. assumption.
        -- destruct Hc as [Hc|Hc]; [congruence | contradiction].
    + intros p f page Hres Hpage.
      assert (Hres1 : resident p f b1) by (unfold resident; rewrite Htab1; exact Hres).
      destruct (pi_resident b Hinv p f Hres) as (Hid & pg & _ & Hpg & Hpid & _).
      assert (pg = page) by congruence. subst pg.
      destruct (Z.eq_dec f i) as [->|Hf].
      * assert (pgi = page) by congruence. subst pgi.
        rewrite (Hread p i _ Hres1 Hthis1).
        destruct (in_dec Z.eq_dec i rest); [contradiction|].
        destruct (in_dec Z.eq_dec i (i :: rest)) as [_|Hn];
          [|destruct Hn; left; reflexivity].
        rewrite Hdisk1. unfold BPM.ReadPage, BPM.WritePage. simpl.
        rewrite Hpid, Z.eqb_refl. reflexivity.
      * rewrite (Hread p f page Hres1) by (rewrite Hother1; assumption).
        assert (Hsame : BPM.ReadPage zero p (BPM.disk_manager_ b1)
                        = BPM.ReadPage zero p (BPM.disk_manager_ b)).
        { rewrite Hdisk1. unfold BPM.ReadPage, BPM.WritePage. simpl.
          destruct (BPM.page_id_ pgi =? p) eqn:E; [|reflexivity].
          apply Z.eqb_eq in E. exfalso.
          destruct (pc_frames b H i pgi Hpgi) as [Hfr|Hr].
          - destruct (pi_blank b Hinv i pgi Hfr Hpgi) as [Hb _].
            unfold BPM.is_page_id, BPM.INVALID_PAGE_ID in *. lia.
          - rewrite E in Hr. unfold resident in *. congruence. }
        destruct (in_dec Z.eq_dec f rest) as [Hr|Hr];
          destruct (in_dec Z.eq_dec f (i :: rest)) as [Hc|Hc];
          try reflexivity; try assumption.
        -- destruct Hc. right. assumption.
        -- destruct Hc as [Hc|Hc]; [congruence | contradiction].
    + intros e He. apply Hmono. rewrite Hdisk1. right. assumption.
    + intros f [<-|Hf] Hfr.
      * destruct (pi_blank b Hinv i pgi Hfr Hpgi) as [Hb _].
        apply in_map_iff. exists (BPM.page_id_ pgi, BPM.data_ pgi).
        split; [exact Hb|]. apply Hmono. rewrite Hdisk1. left. reflexivity.
      * apply (Hfree f Hf). rewrite Hfl1. assumption.
Qed.

(** X26: [FlushPgImp] on a consistent pool.  For a page that is not
    resident it returns false and changes nothing.  A resident page is
    written to disk whatever its dirty flag and its pin count: the
    disk then has the bytes of its frame, the dirty flag is cleared,
    and the page stays resident with the pin count and bytes it had;
    no other frame changes. *)
Theorem flush_page_contract p b :
  pool_consistent b ->
  exists ok b',
    BPM.FlushPgImp p b = Ret (ok, b') /\ pool_consistent b' /\
    BPM.page_table_ b' = BPM.page_table_ b /\
    BPM.free_list_ b' = BPM.free_list_ b /\
    BPM.replacer_ b' = BPM.replacer_ b /\
    match EHT.Find BPM.hash_page_id p (BPM.page_table_ b) with
    | None => ok = false /\ b' = b
    | Some f =>
        exists page,
          lookupZ (BPM.pages_ b) f = Some page /\ ok = true /\
          lookupZ (BPM.pages_ b') f
          = Some (BPM.mkPage (BPM.data_ page) p (BPM.pin_count_ page) false) /\
          (forall j, j <> f ->
                     lookupZ (BPM.pages_ b') j = lookupZ (BPM.pages_ b) j) /\
          BPM.ReadPage zero p (BPM.disk_manager_ b') = BPM.data_ page
    end.
Proof.
  intros H.
  destruct (flush_page_step p b H)
    as (ok & b' & Hret & H' & _ & _ & Htab & Hfl & Hrp & Hpost).
  exists ok, b'. repeat (split; [assumption|]).
  destruct (EHT.Find BPM.hash_page_id p (BPM.page_table_ b)) as [f|];
    [|assumption].
  destruct Hpost as (page & Hpage & Hok & Hthis & Hother & Hdisk).
  exists page. repeat (split; [assumption|]).
  rewrite Hdisk. unfold BPM.ReadPage, BPM.WritePage. simpl.
  rewrite Z.eqb_refl. reflexivity.
Qed.

(** X27: [FlushAllPgsImp] on a consistent pool returns.  Every frame
    is then clean and keeps its page, bytes and pin count; page table,
    free list and replacer are unchanged; for every resident page the
    disk has the bytes of its frame.  The loop runs over all frames,
    not over the resident pages: for a frame of the free list it calls
    the disk manager with the page id -1. *)
Theorem flush_all_pages b :
  pool_consistent b ->
  exists b',
    FlushAllPgsImp b = Ret b' /\ pool_consistent b' /\
    BPM.page_table_ b' = BPM.page_table_ b /\
    BPM.free_list_ b' = BPM.free_list_ b /\
    BPM.replacer_ b' = BPM.replacer_ b /\
    (forall j page,
       lookupZ (BPM.pages_ b) j = Some page ->
       lookupZ (BPM.pages_ b') j = Some (clean page)) /\
    (forall p f page,
       resident p f b -> lookupZ (BPM.pages_ b) f = Some page ->
       BPM.ReadPage zero p (BPM.disk_manager_ b') = BPM.data_ page) /\
    (BPM.free_list_ b <> [] ->
     In BPM.INVALID_PAGE_ID (map fst (BPM.written (BPM.disk_manager_ b')))).
Proof.
  intros H. pose proof (pc_inv b H) as Hinv. pose proof (pi_wf b Hinv) as Hwf.
  assert (Hidx : forall j page, lookupZ (BPM.pages_ b) j = Some page ->
                                In j (EHT.iota (BPM.pool_size_ b))).
  { intros j page Hp. apply lookupZ_Some_range in Hp.
    rewrite (BPM.pw_pages b Hwf) in Hp. apply EHT.In_iota. assumption. }
  destruct (flush_frames_spec (EHT.iota (BPM.pool_size_ b))
              (iota_NoDup _) b H)
    as (b' & Hrun & H' & _ & Htab & Hfl & Hrp & _ & Hpages & Hread & _ & Hfree).
  { apply Forall_forall. intros j Hj. apply list_elem_of_In, EHT.In_iota in Hj.
    exact Hj. }
  exists b'. repeat (split; [assumption|]). split; [|split].
  - intros j page Hp. rewrite (Hpages j page Hp).
    destruct (in_dec Z.eq_dec j (EHT.iota (BPM.pool_size_ b))) as [_|Hn];
      [reflexivity | destruct Hn; eapply Hidx; eassumption].
  - intros p f page Hres Hp. rewrite (Hread p f page Hres Hp).
    destruct (in_dec Z.eq_dec f (EHT.iota (BPM.pool_size_ b))) as [_|Hn];
      [reflexivity | destruct Hn; eapply Hidx; eassumption].
  - intros Hne. destruct (BPM.free_list_ b) as [|f l] eqn:Hlist; [congruence|].
    apply (Hfree f); [|left; reflexivity].
    pose proof (BPM.pw_free b Hwf) as Hall. rewrite Hlist in Hall.
    apply Forall_cons in Hall as [Hf _]. apply EHT.In_iota. exact Hf.
Qed.

End PoolFlush.

Lemma flush_page_contract_witness :
  exists ok b',
    BPM.FlushPgImp 0 pool_dirty = Ret (ok, b') /\ pool_consistent b' /\
    BPM.page_table_ b' = BPM.page_table_ pool_dirty /\
    BPM.free_list_ b' = BPM.free_list_ pool_dirty /\
    BPM.replacer_ b' = BPM.replacer_ pool_dirty /\
    match EHT.Find BPM.hash_page_id 0 (BPM.page_table_ pool_dirty) with
    | None => ok = false /\ b' = pool_dirty
    | Some f =>
        exists page,
          lookupZ (BPM.pages_ pool_dirty) f = Some page /\ ok = true /\
          lookupZ (BPM.pages_ b') f
          = Some (BPM.mkPage (BPM.data_ page) 0 (BPM.pin_count_ page) false) /\
          (forall j, j <> f ->
                     lookupZ (BPM.pages_ b') j
                     = lookupZ (BPM.pages_ pool_dirty) j) /\
          BPM.ReadPage 0 0 (BPM.disk_manager_ b') = BPM.data_ page
    end.
Proof.
  apply (flush_page_contract 0 0 pool_dirty).
  apply pool_dirty_consistent.
Defined.

Lemma flush_all_pages_witness :
  exists b',
    FlushAllPgsImp pool_one = Ret b' /\ pool_consistent b' /\
    BPM.page_table_ b' = BPM.page_table_ pool_one /\
    BPM.free_list_ b' = BPM.free_list_ pool_one /\
    BPM.replacer_ b' = BPM.replacer_ pool_one /\
    (forall j page,
       lookupZ (BPM.pages_ pool_one) j = Some page ->
       lookupZ (BPM.pages_ b') j = Some (clean page)) /\
    (forall p f page,
       resident p f pool_one -> lookupZ (BPM.pages_ pool_one) f = Some page ->
       BPM.ReadPage 0 p (BPM.disk_manager_ b') = BPM.data_ page) /\
    (BPM.free_list_ pool_one <> [] ->
     In BPM.INVALID_PAGE_ID (map fst (BPM.written (BPM.disk_manager_ b')))).
Proof.
  apply (flush_all_pages 0 pool_one).
  apply pool_one_consistent.
Defined.

(** ** B+ tree: the split of a leaf *)

(** The entries of [a] at the indices [idx]. *)
Definition pick {A} (a : list A) (idx : list Z) : list A :=
  flat_map (fun i => match lookupZ a i with Some e => [e] | None => [] end) idx.

Lemma pick_seq {A} (a : list A) (n s : nat) :
  (s + n <= length a)%nat ->
  pick a (map Z.of_nat (seq s n)) = firstn n (skipn s a).
Proof.
  revert s. induction n as [|n IH]; intros s Hs; [reflexivity|].
  simpl. rewrite lookupZ_of_nat.
  destruct (lookup_lt_is_Some_2 a s ltac:(lia)) as [e He]. rewrite He.
  simpl. fold (pick a (map Z.of_nat (seq (S s) n))).
  rewrite IH by lia. rewrite (drop_S _ _ _ He). reflexivity.
Qed.

Lemma seq_from (s n : nat) : seq s n = map (fun i => (s + i)%nat) (seq 0 n).
Proof.
  revert s. induction n as [|n IH]; intros s; [reflexivity|].
  simpl. f_equal; [lia|]. rewrite <- (seq_shift n 0), map_map.
  rewrite (IH (S s)). apply map_ext. intros i. lia.
Qed.

Lemma pick_range {A} (a : list A) (lo hi : Z) :
  0 <= lo <= hi -> hi <= Z.of_nat (length a) ->
  pick a (BPT.range lo hi) = firstn (Z.to_nat (hi - lo)) (skipn (Z.to_nat lo) a).
Proof.
  intros Hlo Hhi. unfold BPT.range, EHT.iota. rewrite map_map.
  rewrite <- (pick_seq a (Z.to_nat (hi - lo)) (Z.to_nat lo)) by lia.
  f_equal. rewrite (seq_from (Z.to_nat lo)). rewrite map_map.
  apply map_ext_in. intros i _. lia.
Qed.

Section TreeSplit.
Context {V : Type}.
Variable fuel : nat.
Hypothesis fuel_enough : (31 < fuel)%nat.

Lemma leaf_at_frame (t : BPT.BPlusTree V) f page l :
  lookupZ (BPM.pages_ (BPT.buffer_pool_manager_ V t)) f = Some page ->
  BPM.data_ page = Node.Leaf l -> BPT.leaf_at V f t = Ret l.
Proof.
  clear fuel_enough.
  intros Hpage Hdata. unfold BPT.leaf_at, BPT.page_at, BPM.GetData.
  rewrite Hpage. simpl. rewrite Hdata. reflexivity.
Qed.

Lemma put_leaf_step (t : BPT.BPlusTree V) f page l' :
  pool_consistent (BPT.buffer_pool_manager_ V t) ->
  lookupZ (BPM.pages_ (BPT.buffer_pool_manager_ V t)) f = Some page ->
  exists b',
    BPT.put_leaf V f l' t = Ret (BPT.set_bpm V t b') /\
    pool_consistent b' /\
    lookupZ (BPM.pages_ b') f
    = Some (BPM.mkPage (Node.Leaf l') (BPM.page_id_ page)
              (BPM.pin_count_ page) (BPM.is_dirty_ page)) /\
    (forall j, j <> f ->
               lookupZ (BPM.pages_ b') j
               = lookupZ (BPM.pages_ (BPT.buffer_pool_manager_ V t)) j) /\
    BPM.page_table_ b' = BPM.page_table_ (BPT.buffer_pool_manager_ V t) /\
    BPM.disk_manager_ b' = BPM.disk_manager_ (BPT.buffer_pool_manager_ V t).
Proof.
  clear fuel_enough.
  intros H Hpage. unfold BPT.put_leaf, BPT.put_page.
  destruct (set_data_step f (Node.Leaf l') _ page H Hpage)
    as (b' & Hret & H' & Hthis & Hother & Htab & _ & _ & Hdisk).
  rewrite Hret. simpl. exists b'. auto 10.
Qed.

(** The loop of [LeafSplit] that copies entries to the new leaf. *)
Lemma copy_leaf_entries_spec idx from to :
  from <> to ->
  forall (t : BPT.BPlusTree V) pf pt src dst,
    pool_consistent (BPT.buffer_pool_manager_ V t) ->
    lookupZ (BPM.pages_ (BPT.buffer_pool_manager_ V t)) from = Some pf ->
    BPM.data_ pf = Node.Leaf src ->
    lookupZ (BPM.pages_ (BPT.buffer_pool_manager_ V t)) to = Some pt ->
    BPM.data_ pt = Node.Leaf dst ->
    Forall (fun i => 0 <= i < Node.size_of (Node.l_array_ V src)) idx ->
    exists b',
      BPT.copy_leaf_entries V idx from to t = Ret (BPT.set_bpm V t b') /\
      pool_consistent b' /\
      lookupZ (BPM.pages_ b') from = Some pf /\
      lookupZ (BPM.pages_ b') to
      = Some (BPM.mkPage
                (Node.Leaf (Node.set_l_array V dst
                              (Node.l_array_ V dst ++ pick (Node.l_array_ V src) idx)))
                (BPM.page_id_ pt) (BPM.pin_count_ pt) (BPM.is_dirty_ pt)) /\
      (forall j, j <> to ->
                 lookupZ (BPM.pages_ b') j
                 = lookupZ (BPM.pages_ (BPT.buffer_pool_manager_ V t)) j) /\
      BPM.page_table_ b' = BPM.page_table_ (BPT.buffer_pool_manager_ V t) /\
      BPM.disk_manager_ b' = BPM.disk_manager_ (BPT.buffer_pool_manager_ V t).
Proof.
  clear fuel_enough.
  intros Hne. induction idx as [|i rest IH];
    intros t pf pt src dst H Hpf Hsrc Hpt Hdst Hall.
  - exists (BPT.buffer_pool_manager_ V t). simpl.
    split; [destruct t; reflexivity|]. split; [assumption|].
    split; [assumption|]. split; [|auto].
    rewrite Hpt. rewrite app_nil_r. destruct pt, dst; simpl in *.
    subst. reflexivity.
  - apply Forall_cons in Hall as [Hi Hall]. simpl.
    rewrite (leaf_at_frame t from pf src Hpf Hsrc). simpl.
    destruct (lookupZ_in_range (Node.l_array_ V src) i) as [e He];
      [exact Hi|].
    unfold Node.Leaf_KeyAt, Node.Leaf_ValueAt, Node.at_. rewrite He. simpl.
    rewrite (leaf_at_frame t to pt dst Hpt Hdst). simpl.
    destruct (put_leaf_step t to pt
                (Node.Leaf_InsertAfter V (fst e) (snd e) dst) H Hpt)
      as (b1 & Hput & H1 & Hthis1 & Hother1 & Htab1 & Hdisk1).
    rewrite Hput. simpl.
    destruct (IH (BPT.set_bpm V t b1) pf
                (BPM.mkPage (Node.Leaf (Node.Leaf_InsertAfter V (fst e) (snd e) dst))
                   (BPM.page_id_ pt) (BPM.pin_count_ pt) (BPM.is_dirty_ pt))
                src (Node.Leaf_InsertAfter V (fst e) (snd e) dst))
      as (b' & Hrun & H' & Hfrom & Hto & Hother & Htab & Hdisk);
      simpl; try assumption; try reflexivity.
    { rewrite Hother1 by assumption. assumption. }
    simpl in Hto, Hother, Htab, Hdisk.
    exists b'. split; [rewrite Hrun; destruct t; reflexivity|].
    split; [assumption|]. split; [assumption|].
    split; [|split; [|split; congruence]].
    + rewrite Hto. unfold Node.Leaf_InsertAfter, Node.set_l_array. simpl.
      rewrite <- app_assoc. destruct e. reflexivity.
    + intros j Hj. rewrite Hother, Hother1 by assumption. reflexivity.
Qed.

(** X28: [LeafSplit], when [NewPage] hands out another frame than
    the one of the leaf (the leaf is not pinned while it is split, so
    the code does not make sure of this).  The lower half of the
    entries, size / 2 of them, stays in the leaf and the upper half
    goes to the new leaf, in order; the new leaf takes over the next
    page of the leaf and becomes the next page of the leaf; it has no
    parent yet.  The new page is unpinned as dirty.  The frame of the
    leaf keeps its pin count and its dirty flag; the other frames and
    the page table are as [NewPage] left them. *)
Theorem leaf_split_partition (t : BPT.BPlusTree V) fl page l id fn b1 :
  pool_consistent (BPT.buffer_pool_manager_ V t) ->
  BPM.next_page_id_ (BPT.buffer_pool_manager_ V t) < 2 ^ 31 ->
  lookupZ (BPM.pages_ (BPT.buffer_pool_manager_ V t)) fl = Some page ->
  BPM.data_ page = Node.Leaf l ->
  BPM.NewPgImp Node.Zeroed fuel (BPT.buffer_pool_manager_ V t)
  = Ret (Some (id, fn), b1) ->
  fn <> fl ->
  let half := Z.to_nat (Node.size_of (Node.l_array_ V l) / 2) in
  let left := Node.mkLeaf (Node.l_page_id_ V l) (Node.l_parent_page_id_ V l)
                (Node.l_max_size_ V l) id (firstn half (Node.l_array_ V l)) in
  let right := Node.mkLeaf id (-1) (BPT.leaf_max_size_ V t)
                 (Node.next_page_id_ V l) (skipn half (Node.l_array_ V l)) in
  exists b',
    BPT.LeafSplit V fuel fl t = Ret (fn, BPT.set_bpm V t b') /\
    pool_consistent b' /\
    lookupZ (BPM.pages_ b') fl
    = Some (BPM.mkPage (Node.Leaf left) (BPM.page_id_ page)
              (BPM.pin_count_ page) (BPM.is_dirty_ page)) /\
    lookupZ (BPM.pages_ b') fn = Some (BPM.mkPage (Node.Leaf right) id 0 true) /\
    (forall j, j <> fl -> j <> fn ->
               lookupZ (BPM.pages_ b') j = lookupZ (BPM.pages_ b1) j) /\
    BPM.page_table_ b' = BPM.page_table_ b1 /\
    BPM.disk_manager_ b' = BPM.disk_manager_ b1 /\
    Node.l_array_ V left ++ Node.l_array_ V right = Node.l_array_ V l.
Proof.
  intros H Hnext Hpage Hdata Hnew Hne half left right.
  destruct (new_page_step Node.Zeroed fuel fuel_enough _ H Hnext)
    as (res & b1' & Hnew' & H1 & _ & Hpost).
  rewrite Hnew in Hnew'. injection Hnew' as <- <-.
  destruct Hpost as (-> & _ & _ & Hpn1 & Hother1 & Hres1 & _).
  assert (Hpl1 : lookupZ (BPM.pages_ b1) fl = Some page)
    by (rewrite Hother1 by congruence; assumption).
  unfold BPT.LeafSplit, BPT.NewPage. rewrite Hnew. simpl.
  set (id := BPM.next_page_id_ (BPT.buffer_pool_manager_ V t)) in *.
  (* Init of the new leaf *)
  destruct (put_leaf_step (BPT.set_bpm V t b1) fn _
              (Node.Leaf_Init V id (-1) (BPT.leaf_max_size_ V t)) H1 Hpn1)
    as (b2 & Hput2 & H2 & Hn2 & Ho2 & Htab2 & Hdisk2).
  simpl in Hput2, Hn2, Ho2, Htab2, Hdisk2.
  destruct t as [name root b lmax imax]. simpl in *.
  unfold BPT.set_bpm in *. simpl in *. rewrite Hput2. simpl.
  assert (Hl2 : lookupZ (BPM.pages_ b2) fl = Some page)
    by (rewrite Ho2 by congruence; assumption).
  (* the size of the leaf *)
  unfold BPT.size_at, BPT.page_at, BPM.GetData. simpl. rewrite Hl2. simpl.
  rewrite Hdata. simpl.
  set (a := Node.l_array_ V l) in *.
  assert (Hquot : Z.quot (Node.size_of a) 2 = Node.size_of a / 2)
    by (apply Z.quot_div_nonneg; unfold Node.size_of; lia).
  rewrite Hquot.
  assert (Hhalf : 0 <= Node.size_of a / 2 <= Node.size_of a).
  { unfold Node.size_of. split; [apply Z.div_pos; lia|].
    apply Z.div_le_upper_bound; lia. }
  (* the copy loop *)
  destruct (copy_leaf_entries_spec
              (BPT.range (Node.size_of a / 2) (Node.size_of a)) fl fn
              ltac:(congruence)
              (BPT.mkTree V name root b2 lmax imax) page _ l
              (Node.Leaf_Init V id (-1) lmax) H2 Hl2 Hdata Hn2 eq_refl)
    as (b3 & Hcopy & H3 & Hl3 & Hn3 & Ho3 & Htab3 & Hdisk3).
  { apply Forall_forall. intros i Hi. apply list_elem_of_In in Hi.
    unfold BPT.range in Hi. apply in_map_iff in Hi as (k & <- & Hk).
    apply EHT.In_iota in Hk. fold a. lia. }
  simpl in Hcopy, Hl3, Hn3, Ho3, Htab3, Hdisk3. unfold BPT.set_bpm in Hcopy.
  simpl in Hcopy. rewrite Hcopy. simpl. clear Hcopy.
  assert (Hlen : length (skipn half a)
                 = Z.to_nat (Node.size_of a - Node.size_of a / 2)).
  { rewrite length_skipn. unfold half. rewrite Z2Nat.inj_sub by lia.
    unfold Node.size_of. rewrite Nat2Z.id. reflexivity. }
  rewrite pick_range in Hn3 by (fold a; unfold Node.size_of in *; lia).
  fold a in Hn3. fold half in Hn3. rewrite <- Hlen in Hn3.
  rewrite firstn_all in Hn3.
  (* SetSize of the leaf *)
  unfold BPT.leaf_set_size.
  rewrite (leaf_at_frame (BPT.mkTree V name root b3 lmax imax) fl page l Hl3 Hdata).
  simpl. unfold Node.truncate. fold a.
  destruct ((0 <=? Node.size_of a / 2) && (Node.size_of a / 2 <=? Node.size_of a))
    eqn:E; [|apply andb_false_iff in E as [E|E]; apply Z.leb_gt in E; lia].
  simpl. fold half.
  destruct (put_leaf_step (BPT.mkTree V name root b3 lmax imax) fl page
              (Node.set_l_array V l (firstn half a)) H3 Hl3)
    as (b4 & Hput4 & H4 & Hl4 & Ho4 & Htab4 & Hdisk4).
  simpl in Hput4, Hl4, Ho4, Htab4, Hdisk4. unfold BPT.set_bpm in Hput4.
  simpl in Hput4. rewrite Hput4. simpl. clear Hput4.
  assert (Hn4 := Hn3). rewrite <- Ho4 in Hn4 by assumption.
  (* SetSize of the new leaf *)
  rewrite (leaf_at_frame (BPT.mkTree V name root b4 lmax imax) fn _ _ Hn4 eq_refl).
  simpl.
  assert (Htr : (0 <=? Node.size_of a - Node.size_of a / 2) &&
                (Node.size_of a - Node.size_of a / 2
                 <=? Node.size_of (skipn half a)) = true).
  { apply andb_true_iff. split; apply Z.leb_le; [lia|].
    unfold Node.size_of at 3. rewrite Hlen. lia. }
  rewrite Htr. simpl.
  rewrite <- Hlen. rewrite firstn_all.
  destruct (put_leaf_step (BPT.mkTree V name root b4 lmax imax) fn _
              (Node.set_l_array V
                 (Node.set_l_array V (Node.Leaf_Init V id (-1) lmax) (skipn half a))
                 (skipn half a)) H4 Hn4)
    as (b5 & Hput5 & H5 & Hn5 & Ho5 & Htab5 & Hdisk5).
  simpl in Hput5, Hn5, Ho5, Htab5, Hdisk5. unfold BPT.set_bpm in Hput5.
  simpl in Hput5. rewrite Hput5. simpl. clear Hput5.
  assert (Hl5 := Hl4). rewrite <- Ho5 in Hl5 by congruence.
  (* the next pointers *)
  rewrite (leaf_at_frame (BPT.mkTree V name root b5 lmax imax) fl _ _ Hl5 eq_refl).
  simpl.
  rewrite (leaf_at_frame (BPT.mkTree V name root b5 lmax imax) fn _ _ Hn5 eq_refl).
  simpl.
  destruct (put_leaf_step (BPT.mkTree V name root b5 lmax imax) fn _
              (Node.SetNextPageId V
                 (Node.GetNextPageId V (Node.set_l_array V l (firstn half a)))
                 (Node.set_l_array V
                    (Node.set_l_array V (Node.Leaf_Init V id (-1) lmax)
                       (skipn half a)) (skipn half a))) H5 Hn5)
    as (b6 & Hput6 & H6 & Hn6 & Ho6 & Htab6 & Hdisk6).
  simpl in Hput6, Hn6, Ho6, Htab6, Hdisk6. unfold BPT.set_bpm in Hput6.
  simpl in Hput6. rewrite Hput6. simpl. clear Hput6.
  assert (Hl6 := Hl5). rewrite <- Ho6 in Hl6 by congruence.
  rewrite (leaf_at_frame (BPT.mkTree V name root b6 lmax imax) fl _ _ Hl6 eq_refl).
  simpl.
  destruct (put_leaf_step (BPT.mkTree V name root b6 lmax imax) fl _
              (Node.SetNextPageId V id (Node.set_l_array V l (firstn half a)))
              H6 Hl6)
    as (b7 & Hput7 & H7 & Hl7 & Ho7 & Htab7 & Hdisk7).
  simpl in Hput7, Hl7, Ho7, Htab7, Hdisk7. unfold BPT.set_bpm in Hput7.
  simpl in Hput7. rewrite Hput7. simpl. clear Hput7.
  assert (Hn7 := Hn6). rewrite <- Ho7 in Hn7 by assumption.
  (* UnpinPage of the new page *)
  unfold BPT.UnpinPage. simpl.
  destruct (unpin_page_step id true b7 H7)
    as (ok & b8 & Hret8 & H8 & _ & _ & Htab8 & _ & Hdisk8 & Hpost8).
  rewrite Hret8. simpl.
  assert (Hfind : EHT.Find BPM.hash_page_id id (BPM.page_table_ b7) = Some fn).
  { rewrite Htab7, Htab6, Htab5, Htab4, Htab3, Htab2. exact Hres1. }
  rewrite Hfind in Hpost8. destruct Hpost8 as (pg & Hpg & Hcase).
  rewrite Hn7 in Hpg. injection Hpg as <-. simpl in Hcase.
  destruct Hcase as (_ & Hn8 & Ho8 & _).
  exists b8. split; [reflexivity|]. split; [assumption|].
  split; [|split; [|split; [|split; [|split]]]].
  - rewrite Ho8 by congruence. rewrite Hl7. reflexivity.
  - rewrite Hn8. reflexivity.
  - intros j Hjl Hjn.
    rewrite Ho8, Ho7, Ho6, Ho5, Ho4, Ho3, Ho2 by assumption. reflexivity.
  - congruence.
  - congruence.
  - simpl. apply firstn_skipn.
Qed.

End TreeSplit.

(** The pool of [tree_13] after [NewPage]: page 1 is in frame 1. *)
Definition tree_pool_split : BPM.BufferPoolManagerInstance (Node.PageData Z) :=
  match BPM.NewPgImp Node.Zeroed 32 tree_pool with
  | Ret (_, b) => b
  | _ => tree_pool
  end.

Lemma leaf_split_partition_witness :
  exists b',
    BPT.LeafSplit Z 32 2 tree_13 = Ret (1, BPT.set_bpm Z tree_13 b') /\
    pool_consistent b' /\
    lookupZ (BPM.pages_ b') 2
    = Some (BPM.mkPage (Node.Leaf (Node.mkLeaf 0 (-1) 4 1 [(1, 10)])) 0 1 false) /\
    lookupZ (BPM.pages_ b') 1
    = Some (BPM.mkPage (Node.Leaf (Node.mkLeaf 1 (-1) 4 (-1) [(3, 30)])) 1 0 true) /\
    (forall j, j <> 2 -> j <> 1 ->
               lookupZ (BPM.pages_ b') j = lookupZ (BPM.pages_ tree_pool_split) j) /\
    BPM.page_table_ b' = BPM.page_table_ tree_pool_split /\
    BPM.disk_manager_ b' = BPM.disk_manager_ tree_pool_split /\
    [(1, 10)] ++ [(3, 30)] = [(1, 10); (3, 30)].
Proof.
  apply (leaf_split_partition 32 ltac:(lia) tree_13 2 tree_13_page root_13
           1 1 tree_pool_split).
  - apply tree_13_root_leaf.
  - vm_compute. reflexivity.
  - vm_compute. reflexivity.
  - reflexivity.
  - vm_compute. reflexivity.
  - discriminate.
Defined.

Section TreeInternalSplit.
Context {V : Type}.
Variable fuel : nat.
Hypothesis fuel_enough : (31 < fuel)%nat.

Lemma internal_at_frame (t : BPT.BPlusTree V) f page i :
  lookupZ (BPM.pages_ (BPT.buffer_pool_manager_ V t)) f = Some page ->
  BPM.data_ page = @Node.Internal V i -> BPT.internal_at V f t = Ret i.
Proof.
  clear fuel_enough.
  intros Hpage Hdata. unfold BPT.internal_at, BPT.page_at, BPM.GetData.
  rewrite Hpage. simpl. rewrite Hdata. reflexivity.
Qed.

Lemma put_internal_step (t : BPT.BPlusTree V) f page i' :
  pool_consistent (BPT.buffer_pool_manager_ V t) ->
  lookupZ (BPM.pages_ (BPT.buffer_pool_manager_ V t)) f = Some page ->
  exists b',
    BPT.put_internal V f i' t = Ret (BPT.set_bpm V t b') /\
    pool_consistent b' /\
    lookupZ (BPM.pages_ b') f
    = Some (BPM.mkPage (@Node.Internal V i') (BPM.page_id_ page)
              (BPM.pin_count_ page) (BPM.is_dirty_ page)) /\
    (forall j, j <> f ->
               lookupZ (BPM.pages_ b') j
               = lookupZ (BPM.pages_ (BPT.buffer_pool_manager_ V t)) j) /\
    BPM.page_table_ b' = BPM.page_table_ (BPT.buffer_pool_manager_ V t) /\
    BPM.disk_manager_ b' = BPM.disk_manager_ (BPT.buffer_pool_manager_ V t).
Proof.
  clear fuel_enough.
  intros H Hpage. unfold BPT.put_internal, BPT.put_page.
  destruct (set_data_step f (@Node.Internal V i') _ page H Hpage)
    as (b' & Hret & H' & Hthis & Hother & Htab & _ & _ & Hdisk).
  rewrite Hret. simpl. exists b'. auto 10.
Qed.

(** The loop of [InternalSplit] that copies entries to the new page. *)
Lemma copy_internal_entries_spec idx src to :
  forall (t : BPT.BPlusTree V) pt dst,
    pool_consistent (BPT.buffer_pool_manager_ V t) ->
    lookupZ (BPM.pages_ (BPT.buffer_pool_manager_ V t)) to = Some pt ->
    BPM.data_ pt = @Node.Internal V dst ->
    Forall (fun i => 0 <= i < Node.size_of (Node.i_array_ src)) idx ->
    exists b',
      BPT.copy_internal_entries V idx src to t = Ret (BPT.set_bpm V t b') /\
      pool_consistent b' /\
      lookupZ (BPM.pages_ b') to
      = Some (BPM.mkPage
                (@Node.Internal V
                   (Node.set_i_array dst
                      (Node.i_array_ dst ++ pick (Node.i_array_ src) idx)))
                (BPM.page_id_ pt) (BPM.pin_count_ pt) (BPM.is_dirty_ pt)) /\
      (forall j, j <> to ->
                 lookupZ (BPM.pages_ b') j
                 = lookupZ (BPM.pages_ (BPT.buffer_pool_manager_ V t)) j) /\
      BPM.page_table_ b' = BPM.page_table_ (BPT.buffer_pool_manager_ V t) /\
      BPM.disk_manager_ b' = BPM.disk_manager_ (BPT.buffer_pool_manager_ V t).
Proof.
  clear fuel_enough.
  induction idx as [|i rest IH]; intros t pt dst H Hpt Hdst Hall.
  - exists (BPT.buffer_pool_manager_ V t). simpl.
    split; [destruct t; reflexivity|]. split; [assumption|].
    split; [|auto].
    rewrite Hpt. rewrite app_nil_r. destruct pt, dst; simpl in *.
    subst. reflexivity.
  - apply Forall_cons in Hall as [Hi Hall]. simpl.
    destruct (lookupZ_in_range (Node.i_array_ src) i) as [e He];
      [exact Hi|].
    unfold Node.KeyAt, Node.ValueAt, Node.at_. rewrite He. simpl.
    rewrite (internal_at_frame t to pt dst Hpt Hdst). simpl.
    destruct (put_internal_step t to pt (Node.InsertAfter (fst e) (snd e) dst)
                H Hpt)
      as (b1 & Hput & H1 & Hthis1 & Hother1 & Htab1 & Hdisk1).
    rewrite Hput. simpl.
    destruct (IH (BPT.set_bpm V t b1)
                (BPM.mkPage (@Node.Internal V (Node.InsertAfter (fst e) (snd e) dst))
                   (BPM.page_id_ pt) (BPM.pin_count_ pt) (BPM.is_dirty_ pt))
                (Node.InsertAfter (fst e) (snd e) dst))
      as (b' & Hrun & H' & Hto & Hother & Htab & Hdisk);
      simpl; try assumption; try reflexivity.
    simpl in Hto, Hother, Htab, Hdisk.
    exists b'. split; [rewrite Hrun; destruct t; reflexivity|].
    split; [assumption|].
    split; [|split; [|split; congruence]].
    + rewrite Hto. unfold Node.InsertAfter, Node.set_i_array. simpl.
      rewrite <- app_assoc. destruct e. reflexivity.
    + intros j Hj. rewrite Hother, Hother1 by assumption. reflexivity.
Qed.

(** X29: [InternalSplit] of a page with at least one entry, when
    [NewPage] finds a frame.  The first 1 + (size - 1) / 2 entries
    stay in the page that was passed and the others go to the new
    page, in order.  The new page has no parent, and it is unpinned as
    dirty; every other frame of the pool and the page table are as
    [NewPage] left them: no page whose entry moved to the new page is
    written to, so none of them is given the new page as its parent. *)
Theorem internal_split_partition (t : BPT.BPlusTree V) ip id fn b1 :
  pool_consistent (BPT.buffer_pool_manager_ V t) ->
  BPM.next_page_id_ (BPT.buffer_pool_manager_ V t) < 2 ^ 31 ->
  BPM.NewPgImp Node.Zeroed fuel (BPT.buffer_pool_manager_ V t)
  = Ret (Some (id, fn), b1) ->
  1 <= Node.size_of (Node.i_array_ ip) ->
  let half := Z.to_nat (1 + (Node.size_of (Node.i_array_ ip) - 1) / 2) in
  let left := Node.set_i_array ip (firstn half (Node.i_array_ ip)) in
  let right := Node.mkInternal id (-1) (BPT.internal_max_size_ V t)
                 (skipn half (Node.i_array_ ip)) in
  exists b',
    BPT.InternalSplit V fuel ip t = Ret ((fn, left), BPT.set_bpm V t b') /\
    pool_consistent b' /\
    lookupZ (BPM.pages_ b') fn
    = Some (BPM.mkPage (@Node.Internal V right) id 0 true) /\
    (forall j, j <> fn ->
               lookupZ (BPM.pages_ b') j = lookupZ (BPM.pages_ b1) j) /\
    BPM.page_table_ b' = BPM.page_table_ b1 /\
    BPM.disk_manager_ b' = BPM.disk_manager_ b1 /\
    (1 <= length (Node.i_array_ left))%nat /\
    Node.i_array_ left ++ Node.i_array_ right = Node.i_array_ ip.
Proof.
  intros H Hnext Hnew Hsize half left right.
  destruct (new_page_step Node.Zeroed fuel fuel_enough _ H Hnext)
    as (res & b1' & Hnew' & H1 & _ & Hpost).
  rewrite Hnew in Hnew'. injection Hnew' as <- <-.
  destruct Hpost as (-> & _ & _ & Hpn1 & Hother1 & Hres1 & _).
  unfold BPT.InternalSplit, BPT.NewPage. rewrite Hnew. simpl.
  set (id := BPM.next_page_id_ (BPT.buffer_pool_manager_ V t)) in *.
  destruct (put_internal_step (BPT.set_bpm V t b1) fn _
              (Node.Internal_Init id (-1) (BPT.internal_max_size_ V t)) H1 Hpn1)
    as (b2 & Hput2 & H2 & Hn2 & Ho2 & Htab2 & Hdisk2).
  simpl in Hput2, Hn2, Ho2, Htab2, Hdisk2.
  destruct t as [name root b lmax imax]. simpl in *.
  unfold BPT.set_bpm in *. simpl in *. rewrite Hput2. simpl.
  set (a := Node.i_array_ ip) in *.
  assert (Hquot : Z.quot (Node.size_of a - 1) 2 = (Node.size_of a - 1) / 2)
    by (apply Z.quot_div_nonneg; lia).
  rewrite Hquot.
  set (h := 1 + (Node.size_of a - 1) / 2) in *.
  assert (Hhalf : 1 <= h <= Node.size_of a).
  { unfold h. split; [assert (0 <= (Node.size_of a - 1) / 2)
                        by (apply Z.div_pos; lia); lia|].
    assert ((Node.size_of a - 1) / 2 <= Node.size_of a - 1)
      by (apply Z.div_le_upper_bound; lia). lia. }
  assert (Hlen : length (skipn half a) = Z.to_nat (Node.size_of a - h)).
  { rewrite length_skipn. unfold half. rewrite Z2Nat.inj_sub by lia.
    unfold Node.size_of. rewrite Nat2Z.id. reflexivity. }
  destruct (copy_internal_entries_spec (BPT.range h (Node.size_of a)) ip fn
              (BPT.mkTree V name root b2 lmax imax) _
              (Node.Internal_Init id (-1) imax) H2 Hn2 eq_refl)
    as (b3 & Hcopy & H3 & Hn3 & Ho3 & Htab3 & Hdisk3).
  { apply Forall_forall. intros i Hi. apply list_elem_of_In in Hi.
    unfold BPT.range in Hi. apply in_map_iff in Hi as (k & <- & Hk).
    apply EHT.In_iota in Hk. fold a. lia. }
  simpl in Hcopy, Hn3, Ho3, Htab3, Hdisk3. unfold BPT.set_bpm in Hcopy.
  simpl in Hcopy. rewrite Hcopy. simpl. clear Hcopy.
  rewrite pick_range in Hn3 by (fold a; unfold Node.size_of in *; lia).
  fold a in Hn3. fold half in Hn3. rewrite <- Hlen in Hn3.
  rewrite firstn_all in Hn3.
  (* SetSize of the page that was passed *)
  unfold Node.truncate at 1.
  destruct ((0 <=? h) && (h <=? Node.size_of a))
    eqn:E; [|apply andb_false_iff in E as [E|E]; apply Z.leb_gt in E; lia].
  simpl. fold half.
  (* SetSize of the new page *)
  rewrite (internal_at_frame (BPT.mkTree V name root b3 lmax imax) fn _ _
             Hn3 eq_refl).
  simpl. unfold Node.truncate.
  assert (Htr : (0 <=? Node.size_of a - h) &&
                (Node.size_of a - h <=? Node.size_of (skipn half a)) = true).
  { apply andb_true_iff. split; apply Z.leb_le; [lia|].
    unfold Node.size_of at 2. rewrite Hlen. lia. }
  rewrite Htr. simpl. rewrite <- Hlen. rewrite firstn_all.
  destruct (put_internal_step (BPT.mkTree V name root b3 lmax imax) fn _
              (Node.set_i_array
                 (Node.set_i_array (Node.Internal_Init id (-1) imax)
                    (skipn half a)) (skipn half a)) H3 Hn3)
    as (b4 & Hput4 & H4 & Hn4 & Ho4 & Htab4 & Hdisk4).
  simpl in Hput4, Hn4, Ho4, Htab4, Hdisk4. unfold BPT.set_bpm in Hput4.
  simpl in Hput4. rewrite Hput4. simpl. clear Hput4.
  (* UnpinPage of the new page *)
  unfold BPT.UnpinPage. simpl.
  destruct (unpin_page_step id true b4 H4)
    as (ok & b5 & Hret5 & H5 & _ & _ & Htab5 & _ & Hdisk5 & Hpost5).
  rewrite Hret5. simpl.
  assert (Hfind : EHT.Find BPM.hash_page_id id (BPM.page_table_ b4) = Some fn).
  { rewrite Htab4, Htab3, Htab2. exact Hres1. }
  rewrite Hfind in Hpost5. destruct Hpost5 as (pg & Hpg & Hcase).
  rewrite Hn4 in Hpg. injection Hpg as <-. simpl in Hcase.
  destruct Hcase as (_ & Hn5 & Ho5 & _).
  exists b5. split; [reflexivity|]. split; [assumption|].
  split; [|split; [|split; [|split; [|split]]]].
  - rewrite Hn5. reflexivity.
  - intros j Hj. rewrite Ho5, Ho4, Ho3, Ho2 by assumption. reflexivity.
  - congruence.
  - congruence.
  - simpl. rewrite length_firstn. unfold half, Node.size_of in *. lia.
  - simpl. apply firstn_skipn.
Qed.

End TreeInternalSplit.

(** A full parent with one entry too many, as [InsertIntoParent]
    passes it to [InternalSplit]. *)
Definition internal_579 : Node.InternalPage :=
  Node.mkInternal 4 (-1) 4 [(0, 2); (5, 3); (7, 6); (9, 8)].

Lemma internal_split_partition_witness :
  exists b',
    BPT.InternalSplit Z 32 internal_579 tree_13
    = Ret ((1, Node.mkInternal 4 (-1) 4 [(0, 2); (5, 3)]),
           BPT.set_bpm Z tree_13 b') /\
    pool_consistent b' /\
    lookupZ (BPM.pages_ b') 1
    = Some (BPM.mkPage
              (@Node.Internal Z (Node.mkInternal 1 (-1) 4 [(7, 6); (9, 8)]))
              1 0 true) /\
    (forall j, j <> 1 ->
               lookupZ (BPM.pages_ b') j = lookupZ (BPM.pages_ tree_pool_split) j) /\
    BPM.page_table_ b' = BPM.page_table_ tree_pool_split /\
    BPM.disk_manager_ b' = BPM.disk_manager_ tree_pool_split /\
    (1 <= 2)%nat /\
    [(0, 2); (5, 3)] ++ [(7, 6); (9, 8)] = [(0, 2); (5, 3); (7, 6); (9, 8)].
Proof.
  apply (internal_split_partition 32 ltac:(lia) tree_13 internal_579
           1 1 tree_pool_split).
  - apply tree_13_root_leaf.
  - vm_compute. reflexivity.
  - vm_compute. reflexivity.
  - vm_compute. discriminate.
Defined.
